(** * Column data collection and validity masks

    A shallow embedding of [src/common/types/validity_mask.cpp] and
    [src/common/types/column_data_collection.cpp], with the properties
    the specification states about them and further properties that
    the code itself shows: its error and edge behaviour, the invariants
    it keeps and what it never does.

    Conventions.
    - [idx_t] quantities (row counts, indices, offsets) are natural
      numbers; they count rows and words that are resident in memory.
    - A [validity_t] word is an integer in [0, 2^BITS_PER_VALUE); shifts
      are written with [Z.shiftl]/[Z.shiftr] and the truncation to the
      word width is written out.
    - Raw arrays live in an explicit store and are addressed by
      pointers, so that two masks can share one array.
    - An operation whose C++ behaviour is undefined (a read or write
      outside an array, a shift by the word width or more, a null
      dereference) yields [None]. *)

From Stdlib Require Import ZArith Lia Bool List Ascii DecimalString.
From stdpp Require Import base option list numbers strings.

Set Warnings "-register-all".

(** ** Counted loops *)

(** [for_range lo hi body s] runs [body lo], [body (lo+1)], ...,
    [body (hi-1)] on the state, stopping at the first failure:
    [for (i = lo; i < hi; i++) body]. *)
Fixpoint for_loop {St : Type} (n lo : nat) (body : nat -> St -> option St)
    (s : St) : option St :=
  match n with
  | O => Some s
  | S n' => match body lo s with
            | Some s' => for_loop n' (S lo) body s'
            | None => None
            end
  end.

Definition for_range {St : Type} (lo hi : nat) (body : nat -> St -> option St)
    (s : St) : option St :=
  for_loop (hi - lo) lo body s.

Lemma for_loop_inv {St : Type} (P : nat -> St -> Prop) (body : nat -> St -> option St) :
  forall n lo s,
    P lo s ->
    (forall i st, lo <= i < lo + n -> P i st ->
        exists st', body i st = Some st' /\ P (S i) st') ->
    exists s', for_loop n lo body s = Some s' /\ P (lo + n) s'.
Proof.
  induction n as [|n IH]; intros lo s H0 Hstep; simpl.
  - exists s. split; [reflexivity|]. replace (lo + 0) with lo by lia. exact H0.
  - destruct (Hstep lo s) as (st' & Hb & HP); [lia|exact H0|].
    rewrite Hb.
    destruct (IH (S lo) st') as (s' & Hl & HP'); [exact HP| |].
    + intros i st Hi. apply Hstep. lia.
    + exists s'. split; [exact Hl|]. replace (lo + S n) with (S lo + n) by lia. exact HP'.
Qed.

Lemma for_range_inv {St : Type} (P : nat -> St -> Prop) (body : nat -> St -> option St) :
  forall lo hi s,
    lo <= hi ->
    P lo s ->
    (forall i st, lo <= i < hi -> P i st ->
        exists st', body i st = Some st' /\ P (S i) st') ->
    exists s', for_range lo hi body s = Some s' /\ P hi s'.
Proof.
  intros lo hi s Hle H0 Hstep. unfold for_range.
  destruct (for_loop_inv P body (hi - lo) lo s H0) as (s' & Hl & HP).
  - intros i st Hi. apply Hstep. lia.
  - exists s'. split; [exact Hl|]. replace hi with (lo + (hi - lo)) by lia. exact HP.
Qed.

(** A loop whose body fails at iteration [k] on every state the loop
    can be in fails. *)
Lemma for_loop_stuck {St : Type} (Inv : St -> Prop) (body : nat -> St -> option St)
    (k : nat) :
  (forall i st st', Inv st -> body i st = Some st' -> Inv st') ->
  (forall st, Inv st -> body k st = None) ->
  forall n lo s, lo <= k < lo + n -> Inv s -> for_loop n lo body s = None.
Proof.
  intros Hkeep Hfail. induction n as [|n IH]; intros lo s Hk Hs; [lia|].
  simpl. destruct (decide (lo = k)) as [->|Hne].
  - rewrite (Hfail s Hs). reflexivity.
  - destruct (body lo s) as [s'|] eqn:Hb; [|reflexivity].
    apply IH; [lia|]. exact (Hkeep lo s s' Hs Hb).
Qed.

Lemma for_range_stuck {St : Type} (Inv : St -> Prop) (body : nat -> St -> option St)
    (lo hi k : nat) (s : St) :
  lo <= k < hi -> Inv s ->
  (forall i st st', Inv st -> body i st = Some st' -> Inv st') ->
  (forall st, Inv st -> body k st = None) ->
  for_range lo hi body s = None.
Proof.
  intros Hk Hs Hkeep Hfail. unfold for_range.
  apply (for_loop_stuck Inv body k Hkeep Hfail). - lia. - exact Hs.
Qed.

Module Validity.

(** A [validity_t] word, as an unbounded integer kept within the word
    width by the operations. *)
Abbreviation validity_t := Z (only parsing).

Section Mask.

(** The width of a [validity_t] word and the batch capacity come from
    headers that are not part of the translated sources; they are
    parameters of the development. *)
Variable BITS_PER_VALUE : nat.
Variable STANDARD_VECTOR_SIZE : nat.

(** Contents of a freshly allocated array before it is written. *)
Variable uninitialized : nat -> Z.


(** [MAX_ENTRY = ~validity_t(0)]: every bit of the word set. *)
Definition MAX_ENTRY : validity_t := Z.ones (Z.of_nat BITS_PER_VALUE).

(** Modelled from the spec: the header function [EntryCount] is not in
    the sources; one bit per row, so [count] rows take the number of
    words that holds them, rounded up. *)
Definition EntryCount (count : nat) : nat :=
  (count + (BITS_PER_VALUE - 1)) / BITS_PER_VALUE.

Definition STANDARD_ENTRY_COUNT : nat := EntryCount STANDARD_VECTOR_SIZE.

(** *** The store *)

(** [arrays]: the [validity_t[]] arrays, by address.  [buffers]: the
    [ValidityBuffer] objects, each holding the address of the array it
    owns ([owned_data]).  Nothing is ever freed in the model. *)
Record Store : Type := mkStore {
  arrays : list (list validity_t);
  buffers : list nat
}.

(** A mask: the raw pointer [validity_mask] ([None] is [nullptr], the
    all-valid state) and the shared pointer [validity_data]. *)
Record ValidityMask : Type := mkMask {
  validity_mask : option nat;
  validity_data : option nat
}.

Definition read (s : Store) (p i : nat) : option validity_t :=
  match arrays s !! p with
  | Some a => a !! i
  | None => None
  end.

Definition write (s : Store) (p i : nat) (v : validity_t) : option Store :=
  match arrays s !! p with
  | Some a =>
      if decide (i < length a)
      then Some (mkStore (<[p := <[i := v]> a]> (arrays s)) (buffers s))
      else None
  | None => None
  end.

(** [new validity_t[n]]: a fresh array, not yet written. *)
Definition new_array (s : Store) (n : nat) : Store * nat :=
  (mkStore (arrays s ++ [map uninitialized (seq 0 n)]) (buffers s),
   length (arrays s)).

(** [ValidityData::ValidityData(idx_t count)], lines 5-11.  The
    definition follows the code for the counts at which the [idx_t]
    arithmetic of [EntryCount] does not wrap ([idx_t_fits] below) and in
    a store with room for the array: a [new] that throws lies outside
    the model. *)
Definition ValidityData (s : Store) (count : nat) : option (Store * nat) :=
  let entry_count := EntryCount count in
  let '(s1, owned_data) := new_array s entry_count in
  match for_range 0 entry_count
          (fun entry_idx st => write st owned_data entry_idx MAX_ENTRY) s1 with
  | Some s2 => Some (s2, owned_data)
  | None => None
  end.

(** [ValidityData::ValidityData(const ValidityMask &original, idx_t count)],
    lines 12-19.  The assertion of line 13 is taken as the precondition
    of the constructor: a null [original.validity_mask] yields [None]. *)
Definition ValidityData_copy (s : Store) (original : ValidityMask)
    (count : nat) : option (Store * nat) :=
  match validity_mask original with
  | None => None
  | Some src =>
      let entry_count := EntryCount count in
      let '(s1, owned_data) := new_array s entry_count in
      match for_range 0 entry_count
              (fun entry_idx st =>
                 match read st src entry_idx with
                 | Some v => write st owned_data entry_idx v
                 | None => None
                 end) s1 with
      | Some s2 => Some (s2, owned_data)
      | None => None
      end
  end.

(** Modelled from the spec: [make_buffer<ValidityBuffer>(count)] wraps
    the array built by [ValidityData] in a new buffer object. *)
Definition make_buffer (s : Store) (count : nat) : option (Store * nat * nat) :=
  match ValidityData s count with
  | Some (s1, owned_data) =>
      Some (mkStore (arrays s1) (buffers s1 ++ [owned_data]),
            length (buffers s1), owned_data)
  | None => None
  end.

(** Modelled from the spec: [Initialize(idx_t count)] materializes an
    owned bit array, all rows valid. *)
Definition Initialize_count (s : Store) (count : nat)
    : option (Store * ValidityMask) :=
  match make_buffer s count with
  | Some (s1, buf, owned_data) => Some (s1, mkMask (Some owned_data) (Some buf))
  | None => None
  end.

(** Modelled from the spec: [Initialize(const ValidityMask &other)]
    references [other]'s array without copying. *)
Definition Initialize_other (other : ValidityMask) : ValidityMask :=
  mkMask (validity_mask other) (validity_data other).

(** Modelled from the spec: [AllValid()] holds iff no bit array is
    materialized. *)
Definition AllValid (m : ValidityMask) : bool :=
  match validity_mask m with None => true | Some _ => false end.

Definition GetData (m : ValidityMask) : option nat := validity_mask m.

(** Modelled from the spec: [RowIsValid(row)]; one bit per row, set
    means valid, row [r] is bit [r mod BITS_PER_VALUE] of word
    [r / BITS_PER_VALUE]; an absent array means every row is valid. *)
Definition RowIsValid (s : Store) (m : ValidityMask) (row : nat) : option bool :=
  match validity_mask m with
  | None => Some true
  | Some p =>
      match read s p (row / BITS_PER_VALUE) with
      | Some w => Some (Z.testbit w (Z.of_nat (row mod BITS_PER_VALUE)))
      | None => None
      end
  end.

(** *** [ValidityMask::Combine], lines 21-48 *)

Definition Combine (s : Store) (self other : ValidityMask) (count : nat)
    : option (Store * ValidityMask) :=
  if AllValid other then
    (* X & 1 = X *)
    Some (s, self)
  else if AllValid self then
    (* 1 & Y = Y *)
    Some (s, Initialize_other other)
  else if decide (validity_mask self = validity_mask other) then
    (* X & X == X *)
    Some (s, self)
  else
    (* have to merge: a new array holds the combined mask *)
    match GetData self, GetData other with
    | Some data, Some other_data =>
        match Initialize_count s count with
        | Some (s1, self1) =>
            match GetData self1 with
            | Some result_data =>
                let entry_count := EntryCount count in
                match for_range 0 entry_count
                        (fun entry_idx st =>
                           match read st data entry_idx,
                                 read st other_data entry_idx with
                           | Some a, Some b =>
                               write st result_data entry_idx (Z.land a b)
                           | _, _ => None
                           end) s1 with
                | Some s2 => Some (s2, self1)
                | None => None
                end
            | None => None
            end
        | None => None
        end
    | _, _ => None
    end.

(** *** [ValidityMask::IsMaskSet], lines 59-64 *)

Definition IsMaskSet (m : ValidityMask) : bool :=
  match validity_mask m with Some _ => true | None => false end.

(** *** [ValidityMask::ToString], lines 50-57 *)

(** [std::to_string] of an [idx_t]: the decimal digits. *)
Definition to_string (n : nat) : string :=
  NilZero.string_of_uint (Nat.to_uint n).

Definition ToString (s : Store) (m : ValidityMask) (count : nat) : option string :=
  let result := "Validity Mask (" +:+ to_string count +:+ ") [" in
  match for_range 0 count
          (fun i result =>
             match RowIsValid s m i with
             | Some valid => Some (result +:+ (if valid then "." else "X"))
             | None => None
             end) result with
  | Some result => Some (result +:+ "]")
  | None => None
  end.

(** *** [ValidityMask::Resize], lines 66-80 *)

Definition set_owned_data (s : Store) (buf p : nat) : option Store :=
  if decide (buf < length (buffers s))
  then Some (mkStore (arrays s) (<[buf := p]> (buffers s)))
  else None.

Definition Resize (s : Store) (self : ValidityMask) (old_size new_size : nat)
    : option (Store * ValidityMask) :=
  match validity_mask self with
  | Some old_data =>
      let new_size_count := EntryCount new_size in
      let old_size_count := EntryCount old_size in
      let '(s1, new_owned_data) := new_array s new_size_count in
      match for_range 0 old_size_count
              (fun entry_idx st =>
                 match read st old_data entry_idx with
                 | Some v => write st new_owned_data entry_idx v
                 | None => None
                 end) s1 with
      | Some s2 =>
          match for_range old_size_count new_size_count
                  (fun entry_idx st =>
                     write st new_owned_data entry_idx MAX_ENTRY) s2 with
          | Some s3 =>
              (* validity_data->owned_data = move(new_owned_data) *)
              match validity_data self with
              | Some buf =>
                  match set_owned_data s3 buf new_owned_data with
                  | Some s4 =>
                      Some (s4, mkMask (Some new_owned_data) (Some buf))
                  | None => None
                  end
              | None => None
              end
          | None => None
          end
      | None => None
      end
  | None => Some (s, self)
  end.

(** *** [ValidityMask::Slice], lines 82-120 *)

(** [w >> n] and [w << n] on a word; shifting by the word width or more
    is undefined. *)
Definition shr (w : validity_t) (n : nat) : option validity_t :=
  if decide (n < BITS_PER_VALUE) then Some (Z.shiftr w (Z.of_nat n)) else None.

Definition shl (w : validity_t) (n : nat) : option validity_t :=
  if decide (n < BITS_PER_VALUE)
  then Some (Z.land (Z.shiftl w (Z.of_nat n)) MAX_ENTRY)
  else None.

Definition Slice (s : Store) (other : ValidityMask) (offset : nat)
    : option (Store * ValidityMask) :=
  if AllValid other then
    Some (s, mkMask None None)
  else if decide (offset = 0) then
    Some (s, Initialize_other other)
  else
    match Initialize_count s STANDARD_VECTOR_SIZE, validity_mask other with
    | Some (s1, self1), Some other_mask =>
        match validity_mask self1 with
        | Some self_mask =>
            (* first shift the "whole" units *)
            let entire_units := offset / BITS_PER_VALUE in
            let sub_units := offset - entire_units mod BITS_PER_VALUE in
            let whole :=
              if decide (0 < entire_units) then
                for_range 0 (STANDARD_ENTRY_COUNT - entire_units)
                  (fun validity_idx st =>
                     match read st other_mask (validity_idx + entire_units) with
                     | Some v => write st self_mask validity_idx v
                     | None => None
                     end) s1
              else Some s1 in
            (* now we shift the remaining sub units *)
            match whole with
            | Some s2 =>
                if decide (0 < sub_units) then
                  match for_range 0 (STANDARD_ENTRY_COUNT - 1)
                          (fun validity_idx st =>
                             match read st other_mask validity_idx,
                                   read st other_mask (validity_idx + 1) with
                             | Some lo, Some hi =>
                                 match shr lo sub_units,
                                       shl hi (BITS_PER_VALUE - sub_units) with
                                 | Some a, Some b =>
                                     write st self_mask validity_idx (Z.lor a b)
                                 | _, _ => None
                                 end
                             | _, _ => None
                             end) s2 with
                  | Some s3 =>
                      let validity_idx := STANDARD_ENTRY_COUNT - 1 in
                      match read s3 self_mask validity_idx with
                      | Some last =>
                          match shr last sub_units with
                          | Some v =>
                              match write s3 self_mask validity_idx v with
                              | Some s4 => Some (s4, self1)
                              | None => None
                              end
                          | None => None
                          end
                      | None => None
                      end
                  | None => None
                  end
                else Some (s2, self1)
            | None => None
            end
        | None => None
        end
    | _, _ => None
    end.

(** *** Facts about the store *)

Definition overwrite (lo hi : nat) (f : nat -> Z) (a : list Z) : list Z :=
  imap (fun j x => if decide (lo <= j < hi) then f j else x) a.

Definition upd (s : Store) (q : nat) (a : list Z) : Store :=
  mkStore (<[q := a]> (arrays s)) (buffers s).

Lemma length_overwrite lo hi f a : length (overwrite lo hi f a) = length a.
Proof. unfold overwrite. apply length_imap. Qed.

Lemma lookup_overwrite lo hi f a j :
  overwrite lo hi f a !! j =
  match a !! j with
  | Some x => Some (if decide (lo <= j < hi) then f j else x)
  | None => None
  end.
Proof. unfold overwrite. rewrite list_lookup_imap. destruct (a !! j); reflexivity. Qed.

Lemma overwrite_empty lo f a : overwrite lo lo f a = a.
Proof.
  apply list_eq. intros j. rewrite lookup_overwrite.
  destruct (a !! j); [|reflexivity]. destruct (decide (lo <= j < lo)); [lia|reflexivity].
Qed.

Lemma overwrite_step lo i f a :
  lo <= i ->
  <[i := f i]> (overwrite lo i f a) = overwrite lo (S i) f a.
Proof.
  intros Hle. apply list_eq. intros j.
  destruct (decide (i = j)) as [->|Hne].
  - destruct (decide (j < length a)) as [Hlt|Hge].
    + rewrite list_lookup_insert_eq by (rewrite length_overwrite; exact Hlt).
      rewrite lookup_overwrite.
      destruct (lookup_lt_is_Some_2 a j Hlt) as [x ->].
      destruct (decide (lo <= j < S j)); [reflexivity|lia].
    + rewrite list_insert_ge by (rewrite length_overwrite; lia).
      rewrite !lookup_overwrite. rewrite (lookup_ge_None_2 a j) by lia. reflexivity.
  - rewrite list_lookup_insert_ne by exact Hne. rewrite !lookup_overwrite.
    destruct (a !! j); [|reflexivity].
    destruct (decide (lo <= j < i)), (decide (lo <= j < S i)); try reflexivity; lia.
Qed.

Lemma upd_upd s q a b : upd (upd s q a) q b = upd s q b.
Proof. unfold upd. simpl. rewrite list_insert_insert_eq. reflexivity. Qed.

Lemma upd_same s q a : arrays s !! q = Some a -> upd s q a = s.
Proof. intros H. unfold upd. rewrite list_insert_id by exact H. destruct s; reflexivity. Qed.

Lemma arrays_upd_eq s q a : q < length (arrays s) -> arrays (upd s q a) !! q = Some a.
Proof. intros H. simpl. apply list_lookup_insert_eq. exact H. Qed.

Lemma arrays_upd_ne s q p a : p <> q -> arrays (upd s q a) !! p = arrays s !! p.
Proof. intros H. simpl. apply list_lookup_insert_ne. congruence. Qed.

Lemma read_upd_eq s q a i : q < length (arrays s) -> read (upd s q a) q i = a !! i.
Proof. intros H. unfold read. rewrite arrays_upd_eq by exact H. reflexivity. Qed.

Lemma read_upd_ne s q p a i : p <> q -> read (upd s q a) p i = read s p i.
Proof. intros H. unfold read. rewrite arrays_upd_ne by exact H. reflexivity. Qed.

Lemma write_upd s q a i v :
  q < length (arrays s) -> i < length a ->
  write (upd s q a) q i v = Some (upd s q (<[i := v]> a)).
Proof.
  intros Hq Hi. unfold write. rewrite arrays_upd_eq by exact Hq.
  case_decide; [|lia].
  change (mkStore (<[q:=<[i:=v]> a]> (arrays (upd s q a))) (buffers (upd s q a)))
    with (upd (upd s q a) q (<[i:=v]> a)).
  rewrite upd_upd. reflexivity.
Qed.

(** A loop that writes [f i] to word [i] of array [q], for [i] from [lo] up to [hi]. *)
Lemma fill_loop (s : Store) (q lo hi : nat) (f : nat -> Z) (a0 : list Z)
    (body : nat -> Store -> option Store) :
  arrays s !! q = Some a0 ->
  lo <= hi <= length a0 ->
  (forall i a, lo <= i < hi -> length a = length a0 ->
     body i (upd s q a) = write (upd s q a) q i (f i)) ->
  for_range lo hi body s = Some (upd s q (overwrite lo hi f a0)).
Proof.
  intros Hq Hr Hbody.
  assert (Hql : q < length (arrays s)) by (eapply lookup_lt_Some; exact Hq).
  destruct (for_range_inv (fun i st => st = upd s q (overwrite lo i f a0)) body lo hi s)
    as (s' & Hl & ->).
  - lia.
  - rewrite overwrite_empty. symmetry. apply upd_same. exact Hq.
  - intros i st Hi ->. eexists. split; [|reflexivity].
    rewrite Hbody by (try rewrite length_overwrite; first [lia|reflexivity]).
    rewrite (write_upd s q) by (try rewrite length_overwrite; lia).
    rewrite overwrite_step by lia. reflexivity.
  - exact Hl.
Qed.

(** *** Facts about [EntryCount] and allocation *)

Hypothesis BITS_PER_VALUE_pos : 0 < BITS_PER_VALUE.

Lemma EntryCount_row (i count : nat) :
  i < count -> i / BITS_PER_VALUE < EntryCount count.
Proof.
  intros Hi. unfold EntryCount.
  apply Nat.Div0.div_lt_upper_bound.
  pose proof (Nat.div_mod (count + (BITS_PER_VALUE - 1)) BITS_PER_VALUE ltac:(lia)) as Hd.
  pose proof (Nat.mod_upper_bound (count + (BITS_PER_VALUE - 1)) BITS_PER_VALUE ltac:(lia)) as Hm.
  nia.
Qed.


Lemma word_index_lt (i n : nat) :
  i < BITS_PER_VALUE * n <-> i / BITS_PER_VALUE < n.
Proof.
  pose proof (Nat.div_mod i BITS_PER_VALUE ltac:(lia)).
  pose proof (Nat.mod_upper_bound i BITS_PER_VALUE ltac:(lia)).
  split; intros Hlt; nia.
Qed.

Lemma overwrite_all (f : nat -> Z) (a : list Z) :
  overwrite 0 (length a) f a = map f (seq 0 (length a)).
Proof.
  apply list_eq. intros j. rewrite lookup_overwrite.
  destruct (decide (j < length a)) as [Hlt|Hge].
  - destruct (lookup_lt_is_Some_2 a j Hlt) as [x ->].
    destruct (decide (0 <= j < length a)); [|lia].
    rewrite list_lookup_fmap. rewrite lookup_seq_lt by lia. reflexivity.
  - rewrite (lookup_ge_None_2 a j) by lia. symmetry. apply lookup_ge_None_2.
    rewrite length_map, length_seq. lia.
Qed.

(** The store with one more array. *)
Definition alloc (s : Store) (a : list Z) : Store :=
  mkStore (arrays s ++ [a]) (buffers s).

Lemma upd_new_array (s : Store) (n : nat) (a : list Z) :
  upd (new_array s n).1 (length (arrays s)) a = alloc s a.
Proof.
  unfold upd, alloc. simpl. f_equal.
  rewrite insert_app_r_alt by lia. rewrite Nat.sub_diag. reflexivity.
Qed.

Lemma arrays_alloc_old (s : Store) (a : list Z) (p : nat) :
  p < length (arrays s) -> arrays (alloc s a) !! p = arrays s !! p.
Proof. intros H. simpl. apply lookup_app_l. exact H. Qed.

Lemma arrays_alloc_new (s : Store) (a : list Z) :
  arrays (alloc s a) !! length (arrays s) = Some a.
Proof. simpl. apply list_lookup_middle. reflexivity. Qed.

Lemma ValidityData_eq (s : Store) (count : nat) :
  ValidityData s count =
  Some (alloc s (replicate (EntryCount count) MAX_ENTRY), length (arrays s)).
Proof.
  unfold ValidityData. simpl.
  set (n := EntryCount count).
  set (s1 := mkStore (arrays s ++ [map uninitialized (seq 0 n)]) (buffers s)).
  assert (Hq : arrays s1 !! length (arrays s) = Some (map uninitialized (seq 0 n))).
  { apply list_lookup_middle. reflexivity. }
  rewrite (fill_loop s1 (length (arrays s)) 0 n (fun _ => MAX_ENTRY)
             (map uninitialized (seq 0 n))).
  - f_equal. f_equal.
    change s1 with (new_array s n).1. rewrite upd_new_array. f_equal.
    replace n with (length (map uninitialized (seq 0 n))) at 1
      by (rewrite length_map, length_seq; reflexivity).
    rewrite overwrite_all. rewrite length_map, length_seq.
    apply list_eq. intros j. rewrite list_lookup_fmap.
    destruct (decide (j < n)).
    + rewrite lookup_seq_lt by lia. rewrite lookup_replicate_2 by lia. reflexivity.
    + rewrite lookup_seq_ge by lia. symmetry. apply lookup_replicate_None. lia.
  - exact Hq.
  - rewrite length_map, length_seq. lia.
  - reflexivity.
Qed.

(** [Initialize(count)] adds one array of all-ones words and one buffer
    that owns it. *)
Definition initialized (s : Store) (count : nat) : Store :=
  mkStore (arrays s ++ [replicate (EntryCount count) MAX_ENTRY])
          (buffers s ++ [length (arrays s)]).

Lemma Initialize_count_eq (s : Store) (count : nat) :
  Initialize_count s count =
  Some (initialized s count,
        mkMask (Some (length (arrays s))) (Some (length (buffers s)))).
Proof.
  unfold Initialize_count, make_buffer. rewrite ValidityData_eq. reflexivity.
Qed.

Lemma testbit_MAX_ENTRY (k : nat) :
  k < BITS_PER_VALUE -> Z.testbit MAX_ENTRY (Z.of_nat k) = true.
Proof. intros H. unfold MAX_ENTRY. apply Z.ones_spec_low. lia. Qed.

(** *** Properties of [Combine] *)

(** A mask is usable over [count] rows when its array, if it has one,
    is in the store and holds at least [EntryCount count] words. *)
Definition materialized_for (s : Store) (m : ValidityMask) (count : nat) : Prop :=
  match validity_mask m with
  | None => True
  | Some p => exists a, arrays s !! p = Some a /\ EntryCount count <= length a
  end.

Lemma RowIsValid_materialized (s : Store) (m : ValidityMask) (count i : nat) :
  materialized_for s m count -> i < count ->
  exists b, RowIsValid s m i = Some b.
Proof.
  unfold materialized_for, RowIsValid, read. intros Hm Hi.
  destruct (validity_mask m) as [p|]; [|eauto].
  destruct Hm as (a & -> & Hlen).
  destruct (lookup_lt_is_Some_2 a (i / BITS_PER_VALUE)) as [w ->]; [|eauto].
  pose proof (EntryCount_row i count Hi). lia.
Qed.

Lemma RowIsValid_frame (s s' : Store) (m : ValidityMask) (i : nat) :
  (forall p, validity_mask m = Some p -> arrays s' !! p = arrays s !! p) ->
  RowIsValid s' m i = RowIsValid s m i.
Proof.
  unfold RowIsValid, read. intros H.
  destruct (validity_mask m) as [p|]; [|reflexivity].
  rewrite (H p eq_refl). reflexivity.
Qed.

(** The merge loop of [Combine]: word by word conjunction into the new
    array. *)
Lemma Combine_merge_loop (s : Store) (pa pb : nat) (aa ab : list Z) (count : nat) :
  arrays s !! pa = Some aa -> arrays s !! pb = Some ab ->
  EntryCount count <= length aa -> EntryCount count <= length ab ->
  for_range 0 (EntryCount count)
    (fun entry_idx st =>
       match read st pa entry_idx, read st pb entry_idx with
       | Some a, Some b => write st (length (arrays s)) entry_idx (Z.land a b)
       | _, _ => None
       end) (initialized s count)
  = Some (upd (initialized s count) (length (arrays s))
            (overwrite 0 (EntryCount count)
               (fun j => Z.land (nth j aa 0%Z) (nth j ab 0%Z))
               (replicate (EntryCount count) MAX_ENTRY))).
Proof.
  intros Ha Hb Hla Hlb.
  pose proof (lookup_lt_Some _ _ _ Ha) as Hpa.
  pose proof (lookup_lt_Some _ _ _ Hb) as Hpb.
  apply fill_loop.
  - simpl. apply list_lookup_middle. reflexivity.
  - rewrite length_replicate. lia.
  - intros i a Hi Hlen.
    rewrite !read_upd_ne by lia.
    unfold read. simpl. rewrite !lookup_app_l by lia. rewrite Ha, Hb.
    destruct (lookup_lt_is_Some_2 aa i) as [x Hx]; [lia|].
    destruct (lookup_lt_is_Some_2 ab i) as [y Hy]; [lia|].
    rewrite Hx, Hy.
    rewrite (nth_lookup_Some _ _ _ _ Hx), (nth_lookup_Some _ _ _ _ Hy). reflexivity.
Qed.

(** C4. After [A.Combine(B, count)] every row below [count] is valid in
    [A] iff it was valid in [A] and is valid in [B]; the call changes
    nothing when [B] is all-valid or when both masks point at the same
    array; an all-valid [A] adopts [B]'s array and buffer by reference;
    otherwise one new array, owned by one new buffer, receives the
    result; and no array that existed before the call is modified, so
    every other mask reads as before.  [count = 0] is included. *)
Theorem Combine_and_sharing (s : Store) (A B : ValidityMask) (count : nat) :
  materialized_for s A count -> materialized_for s B count ->
  exists s' A',
    Combine s A B count = Some (s', A') /\
    (forall i, i < count ->
       exists a b, RowIsValid s A i = Some a /\ RowIsValid s B i = Some b /\
                   RowIsValid s' A' i = Some (a && b)) /\
    (AllValid B = true -> s' = s /\ A' = A) /\
    (validity_mask A = validity_mask B -> s' = s /\ A' = A) /\
    (AllValid A = true -> AllValid B = false ->
       s' = s /\ validity_mask A' = validity_mask B /\
       validity_data A' = validity_data B) /\
    (AllValid A = false -> AllValid B = false ->
     validity_mask A <> validity_mask B ->
       length (arrays s') = S (length (arrays s)) /\
       buffers s' = buffers s ++ [length (arrays s)] /\
       A' = mkMask (Some (length (arrays s))) (Some (length (buffers s)))) /\
    (forall p, p < length (arrays s) -> arrays s' !! p = arrays s !! p) /\
    (forall m i, (forall p, validity_mask m = Some p -> p < length (arrays s)) ->
       RowIsValid s' m i = RowIsValid s m i).
Proof.
  intros HA HB. unfold Combine, AllValid, GetData.
  destruct (validity_mask B) as [pb|] eqn:EB.
  2:{ (* B all-valid *)
    exists s, A. split; [reflexivity|]. repeat split; try congruence; try reflexivity.
    - intros i Hi. destruct (RowIsValid_materialized s A count i HA Hi) as [a Ha].
      exists a, true. repeat split; [exact Ha| |].
      + unfold RowIsValid. rewrite EB. reflexivity.
      + rewrite Ha. rewrite andb_true_r. reflexivity. }
  destruct (validity_mask A) as [pa|] eqn:EA.
  2:{ (* A all-valid: adopt B's array *)
    exists s, (Initialize_other B). split; [reflexivity|].
    repeat split; try congruence; try reflexivity.
    - intros i Hi. destruct (RowIsValid_materialized s B count i HB Hi) as [b Hb].
      exists true, b. repeat split; [|exact Hb|].
      + unfold RowIsValid. rewrite EA. reflexivity.
      + simpl. rewrite <- Hb. unfold RowIsValid, Initialize_other. simpl. reflexivity.
    - simpl. exact EB. }
  destruct (decide (Some pa = Some pb)) as [Heq|Hne].
  { (* the same array *)
    injection Heq as Heq.
    exists s, A. split; [reflexivity|]. repeat split; try congruence; try reflexivity.
    intros i Hi. destruct (RowIsValid_materialized s A count i HA Hi) as [a Ha].
    exists a, a. repeat split; [exact Ha| |].
    - rewrite <- Ha. unfold RowIsValid. rewrite EA, EB, Heq. reflexivity.
    - rewrite Ha. destruct a; reflexivity. }
  (* the general case *)
  unfold materialized_for in HA, HB. rewrite EA in HA. rewrite EB in HB.
  destruct HA as (aa & Haa & Hla). destruct HB as (ab & Hab & Hlb).
  pose proof (lookup_lt_Some _ _ _ Haa) as Hpa.
  pose proof (lookup_lt_Some _ _ _ Hab) as Hpb.
  rewrite Initialize_count_eq. cbv beta iota zeta. cbn [validity_mask].
  rewrite (Combine_merge_loop s pa pb aa ab count Haa Hab Hla Hlb).
  set (res := overwrite 0 (EntryCount count) _ _).
  eexists _, _. split; [reflexivity|].
  assert (Hold : forall p, p < length (arrays s) ->
            arrays (upd (initialized s count) (length (arrays s)) res) !! p = arrays s !! p).
  { intros p Hp. rewrite arrays_upd_ne by lia. simpl. apply lookup_app_l. exact Hp. }
  repeat split; try congruence.
  - intros i Hi.
    pose proof (EntryCount_row i count Hi) as Hw.
    destruct (lookup_lt_is_Some_2 aa (i / BITS_PER_VALUE)) as [x Hx]; [lia|].
    destruct (lookup_lt_is_Some_2 ab (i / BITS_PER_VALUE)) as [y Hy]; [lia|].
    exists (Z.testbit x (Z.of_nat (i mod BITS_PER_VALUE))),
           (Z.testbit y (Z.of_nat (i mod BITS_PER_VALUE))).
    unfold RowIsValid. rewrite EA, EB. simpl validity_mask.
    unfold read at 1 2. rewrite Haa, Hab, Hx, Hy.
    repeat split.
    rewrite read_upd_eq by (simpl; rewrite length_app; simpl; lia).
    unfold res. rewrite lookup_overwrite.
    rewrite lookup_replicate_2 by lia.
    destruct (decide (0 <= i / BITS_PER_VALUE < EntryCount count)); [|lia].
    rewrite (nth_lookup_Some _ _ _ _ Hx), (nth_lookup_Some _ _ _ _ Hy).
    rewrite Z.land_spec. reflexivity.
  - simpl. rewrite length_insert, length_app. simpl. lia.
  - exact Hold.
  - intros m i Hm. apply RowIsValid_frame. intros p Hp. apply Hold. apply Hm. exact Hp.
Qed.

(** *** Properties of [Resize] *)





(** *** Properties of [Slice] *)

(** The claim as the specification words it: the slice read at row [i]
    equals the sliced mask read at row [i + offset]. *)
Definition Slice_rows_claim (s : Store) (other : ValidityMask)
    (offset rows : nat) : Prop :=
  exists s' m',
    Slice s other offset = Some (s', m') /\
    (forall i, i + offset < rows -> RowIsValid s' m' i = RowIsValid s other (i + offset)).

Lemma Slice_all_valid (s : Store) (other : ValidityMask) (offset : nat) :
  AllValid other = true ->
  Slice s other offset = Some (s, mkMask None None).
Proof. intros H. unfold Slice. rewrite H. reflexivity. Qed.

Lemma Slice_offset_zero (s : Store) (other : ValidityMask) :
  AllValid other = false ->
  Slice s other 0 = Some (s, other).
Proof.
  intros H. unfold Slice. rewrite H. simpl.
  destruct other; reflexivity.
Qed.

(** Bits of the word the second loop of [Slice] builds from two
    neighbouring words. *)
Lemma stitched_bit (lo hi : Z) (k b : nat) :
  (0 <= lo < 2 ^ Z.of_nat BITS_PER_VALUE)%Z ->
  0 < k < BITS_PER_VALUE -> b < BITS_PER_VALUE ->
  Z.testbit (Z.lor (Z.shiftr lo (Z.of_nat k))
               (Z.land (Z.shiftl hi (Z.of_nat (BITS_PER_VALUE - k))) MAX_ENTRY))
            (Z.of_nat b)
  = if decide (b + k < BITS_PER_VALUE)
    then Z.testbit lo (Z.of_nat (b + k))
    else Z.testbit hi (Z.of_nat (b + k - BITS_PER_VALUE)).
Proof.
  intros Hlo Hk Hb.
  rewrite Z.lor_spec, Z.land_spec, Z.shiftr_spec, Z.shiftl_spec by lia.
  rewrite testbit_MAX_ENTRY by exact Hb. rewrite andb_true_r.
  case_decide as Hc.
  - replace (Z.of_nat b + Z.of_nat k)%Z with (Z.of_nat (b + k)) by lia.
    rewrite (Z.testbit_neg_r hi) by lia. apply orb_false_r.
  - replace (Z.testbit lo (Z.of_nat b + Z.of_nat k)) with false; [simpl; f_equal; lia|].
    symmetry. destruct (Z.eq_dec lo 0%Z) as [->|Hnz]; [apply Z.bits_0|].
    apply Z.bits_above_log2; [lia|].
    assert (Z.log2 lo < Z.of_nat BITS_PER_VALUE)%Z by (apply Z.log2_lt_pow2; lia).
    lia.
Qed.

(** X6. For an offset below the word width [Slice] stitches neighbouring
    words correctly: every row of every word but the last reads as the
    sliced mask does [offset] rows further. *)
Lemma Slice_sub_word_rows (s : Store) (other : ValidityMask) (p : nat)
    (a : list Z) (offset : nat) :
  validity_mask other = Some p -> arrays s !! p = Some a ->
  STANDARD_ENTRY_COUNT <= length a ->
  Forall (fun w => (0 <= w < 2 ^ Z.of_nat BITS_PER_VALUE)%Z) a ->
  0 < STANDARD_ENTRY_COUNT ->
  0 < offset < BITS_PER_VALUE ->
  exists s' m',
    Slice s other offset = Some (s', m') /\
    (forall i, i < BITS_PER_VALUE * (STANDARD_ENTRY_COUNT - 1) ->
       RowIsValid s' m' i = RowIsValid s other (i + offset)).
Proof.
  intros Ep Ha Hlen Hwords Hsec Hoff.
  pose proof (lookup_lt_Some _ _ _ Ha) as Hp.
  unfold Slice, AllValid. rewrite Ep.
  destruct (decide (offset = 0)) as [?|_]; [lia|].
  rewrite Initialize_count_eq. cbv beta iota zeta. cbn [validity_mask].
  rewrite (Nat.div_small offset) by lia.
  rewrite Nat.Div0.mod_0_l, !Nat.sub_0_r.
  destruct (decide (0 < 0)) as [?|_]; [lia|]. destruct (decide (0 < offset)) as [_|?]; [|lia].
  fold STANDARD_ENTRY_COUNT.
  set (n := STANDARD_ENTRY_COUNT) in *.
  set (s1 := initialized s STANDARD_VECTOR_SIZE).
  set (q := length (arrays s)).
  assert (Hq : arrays s1 !! q = Some (replicate n MAX_ENTRY))
    by (apply list_lookup_middle; reflexivity).
  assert (Hq1 : q < length (arrays s1)) by (simpl; rewrite length_app; simpl; lia).
  set (f := fun j => Z.lor (Z.shiftr (nth j a 0%Z) (Z.of_nat offset))
                       (Z.land (Z.shiftl (nth (j + 1) a 0%Z)
                                  (Z.of_nat (BITS_PER_VALUE - offset))) MAX_ENTRY)).
  rewrite (fill_loop s1 q 0 (n - 1) f (replicate n MAX_ENTRY));
    [|exact Hq|rewrite length_replicate; lia|].
  2:{ intros i a' Hi Hla'. rewrite !read_upd_ne by (unfold q; lia).
      unfold read. simpl. rewrite lookup_app_l by lia. rewrite Ha.
      destruct (lookup_lt_is_Some_2 a i) as [x Hx]; [lia|].
      destruct (lookup_lt_is_Some_2 a (i + 1)) as [y Hy]; [lia|].
      rewrite Hx, Hy. unfold shr, shl.
      destruct (decide (offset < BITS_PER_VALUE)) as [_|?]; [|lia].
      destruct (decide (BITS_PER_VALUE - offset < BITS_PER_VALUE)) as [_|?]; [|lia].
      unfold f. rewrite (nth_lookup_Some _ _ _ _ Hx), (nth_lookup_Some _ _ _ _ Hy).
      reflexivity. }
  set (r := overwrite 0 (n - 1) f (replicate n MAX_ENTRY)).
  rewrite read_upd_eq by exact Hq1.
  assert (Hlast : r !! (n - 1) = Some MAX_ENTRY).
  { unfold r. rewrite lookup_overwrite. rewrite lookup_replicate_2 by lia.
    case_decide; [lia|reflexivity]. }
  rewrite Hlast. unfold shr. destruct (decide (offset < BITS_PER_VALUE)) as [_|?]; [|lia].
  rewrite write_upd by (try exact Hq1; unfold r; rewrite length_overwrite, length_replicate; lia).
  eexists _, _. split; [reflexivity|].
  intros i Hi. apply word_index_lt in Hi.
  unfold RowIsValid. rewrite Ep. cbn [validity_mask].
  rewrite read_upd_eq by exact Hq1.
  rewrite list_lookup_insert_ne by lia.
  unfold r. rewrite lookup_overwrite. rewrite lookup_replicate_2 by lia.
  case_decide; [|lia].
  set (j := i / BITS_PER_VALUE) in *. set (b := i mod BITS_PER_VALUE).
  assert (Hb : b < BITS_PER_VALUE) by (apply Nat.mod_upper_bound; lia).
  assert (Hi' : i = BITS_PER_VALUE * j + b) by (apply Nat.div_mod; lia).
  destruct (lookup_lt_is_Some_2 a j) as [x Hx]; [lia|].
  destruct (lookup_lt_is_Some_2 a (j + 1)) as [y Hy]; [lia|].
  unfold f. rewrite (nth_lookup_Some _ _ _ _ Hx), (nth_lookup_Some _ _ _ _ Hy).
  rewrite stitched_bit; [|exact (proj1 (Forall_lookup _ _) Hwords _ _ Hx)|lia|exact Hb].
  unfold read. rewrite Ha.
  case_decide as Hc.
  - replace ((i + offset) / BITS_PER_VALUE) with j.
    2:{ apply (Nat.div_unique _ _ _ (b + offset)); lia. }
    replace ((i + offset) mod BITS_PER_VALUE) with (b + offset).
    2:{ apply (Nat.mod_unique _ _ j); lia. }
    rewrite Hx. reflexivity.
  - replace ((i + offset) / BITS_PER_VALUE) with (j + 1).
    2:{ apply (Nat.div_unique _ _ _ (b + offset - BITS_PER_VALUE)); lia. }
    replace ((i + offset) mod BITS_PER_VALUE) with (b + offset - BITS_PER_VALUE).
    2:{ apply (Nat.mod_unique _ _ (j + 1)); lia. }
    rewrite Hy. reflexivity.
Qed.

(** A write keeps the length of every array. *)
Lemma write_keeps_length (st st' : Store) (p q i n : nat) (v : validity_t) :
  write st p i v = Some st' ->
  (exists a, arrays st !! q = Some a /\ length a = n) ->
  exists a, arrays st' !! q = Some a /\ length a = n.
Proof.
  unfold write. intros Hw (a & Ha & Hn).
  destruct (arrays st !! p) as [b|] eqn:Hb; [|discriminate].
  case_decide as Hi; [|discriminate]. injection Hw as <-. simpl.
  destruct (decide (q = p)) as [->|Hne].
  - rewrite list_lookup_insert_eq by (eapply lookup_lt_Some; exact Hb).
    eexists. split; [reflexivity|]. rewrite length_insert. congruence.
  - rewrite list_lookup_insert_ne by congruence. exists a. split; assumption.
Qed.

(** X7. [Resize] has no defined result when the new size takes fewer
    words than the old one (the copy loop of lines 71-73 writes past the
    end of the new array), nor when the mask has a bit array but no
    buffer of its own (line 77 dereferences [validity_data]). *)
Theorem Resize_undefined_cases (s : Store) (m : ValidityMask) (p : nat)
    (old_size new_size : nat) :
  validity_mask m = Some p ->
  EntryCount new_size < EntryCount old_size \/ validity_data m = None ->
  Resize s m old_size new_size = None.
Proof.
  intros Hp Hcase. unfold Resize. rewrite Hp. simpl.
  set (nc := EntryCount new_size). set (oc := EntryCount old_size).
  set (q := length (arrays s)).
  set (s1 := mkStore (arrays s ++ [map uninitialized (seq 0 nc)]) (buffers s)).
  destruct Hcase as [Hlt|Hnone].
  - fold nc oc in Hlt.
    rewrite (for_range_stuck
               (fun st => exists a, arrays st !! q = Some a /\ length a = nc)
               _ 0 oc nc s1); [reflexivity|lia| | |].
    + eexists. split; [apply list_lookup_middle; reflexivity|].
      rewrite length_map, length_seq. reflexivity.
    + intros i st st' Hinv Hb.
      destruct (read st p i) as [v|]; [|discriminate].
      exact (write_keeps_length st st' q q i nc v Hb Hinv).
    + intros st (a & Ha & Hn).
      destruct (read st p nc) as [v|]; [|reflexivity].
      unfold write. rewrite Ha. case_decide; [lia|reflexivity].
  - rewrite Hnone.
    destruct (for_range 0 oc _ s1) as [s2|]; [|reflexivity].
    destruct (for_range oc nc _ s2); reflexivity.
Qed.

(** X8. Slicing a mask that has a bit array by more than one word has
    no defined result: [sub_units], computed at line 96 as
    [offset - entire_units % BITS_PER_VALUE], is then at least the word
    width, and line 118 shifts a word by it. *)
Theorem Slice_beyond_one_word_undefined (s : Store) (other : ValidityMask)
    (offset : nat) :
  AllValid other = false -> 2 <= BITS_PER_VALUE -> BITS_PER_VALUE < offset ->
  Slice s other offset = None.
Proof.
  intros Hset Hbits Hoff. unfold Slice. rewrite Hset.
  destruct (decide (offset = 0)) as [?|_]; [lia|].
  assert (Hsub : BITS_PER_VALUE <= offset - (offset / BITS_PER_VALUE) mod BITS_PER_VALUE).
  { pose proof (Nat.div_mod offset BITS_PER_VALUE ltac:(lia)) as Hd.
    pose proof (Nat.mod_upper_bound offset BITS_PER_VALUE ltac:(lia)) as Hm.
    pose proof (Nat.Div0.mod_le (offset / BITS_PER_VALUE) BITS_PER_VALUE) as Hle.
    assert (1 <= offset / BITS_PER_VALUE) by (apply Nat.div_le_lower_bound; lia).
    nia. }
  set (sub_units := offset - (offset / BITS_PER_VALUE) mod BITS_PER_VALUE) in *.
  assert (Hshr : forall w, shr w sub_units = None).
  { intros w. unfold shr. case_decide; [lia|reflexivity]. }
  destruct (Initialize_count s STANDARD_VECTOR_SIZE) as [[s1 self1]|]; [|reflexivity].
  destruct (validity_mask other) as [other_mask|]; [|reflexivity].
  destruct (validity_mask self1) as [self_mask|]; [|reflexivity].
  cbv zeta.
  match goal with |- match ?w with _ => _ end = None => destruct w as [s2|] end;
    [|reflexivity].
  destruct (decide (0 < sub_units)) as [_|?]; [|lia].
  match goal with |- match ?w with _ => _ end = None => destruct w as [s3|] end;
    [|reflexivity].
  destruct (read s3 self_mask (STANDARD_ENTRY_COUNT - 1)) as [last|]; [|reflexivity].
  rewrite Hshr. reflexivity.
Qed.

(** A number that an [idx_t], 64 bits wide, holds. *)
Definition idx_t_fits (n : nat) : Prop := (Z.of_nat n < 2 ^ 64)%Z.

(** X9. For a [count] whose rounding up in [EntryCount] stays within
    [idx_t], and when [new] finds room for the array, the constructor
    [ValidityData(count)] leaves no word of the new array as it found
    it: whatever the fresh memory held, the array has [EntryCount count]
    words, all of them [MAX_ENTRY], so that every row below [count]
    reads as valid; the arrays that existed before are untouched.
    Nothing is stated for a [count] within [BITS_PER_VALUE - 1] of the
    largest [idx_t], where the sum of [EntryCount] wraps in the code. *)
Theorem ValidityData_all_valid (s : Store) (count : nat) :
  idx_t_fits (count + (BITS_PER_VALUE - 1)) ->
  exists s',
    ValidityData s count = Some (s', length (arrays s)) /\
    arrays s' !! length (arrays s) = Some (replicate (EntryCount count) MAX_ENTRY) /\
    (forall q, q < length (arrays s) -> arrays s' !! q = arrays s !! q) /\
    buffers s' = buffers s /\
    (forall i buf, i < count ->
       RowIsValid s' (mkMask (Some (length (arrays s))) buf) i = Some true).
Proof.
  intros _.
  rewrite ValidityData_eq. eexists. split; [reflexivity|].
  split; [apply arrays_alloc_new|]. split; [intros q Hq; apply arrays_alloc_old; exact Hq|].
  split; [reflexivity|].
  intros i buf Hi. unfold RowIsValid, read. cbn [validity_mask].
  rewrite arrays_alloc_new.
  rewrite lookup_replicate_2 by (apply EntryCount_row; exact Hi).
  rewrite testbit_MAX_ENTRY; [reflexivity|]. apply Nat.mod_upper_bound. lia.
Qed.

(** X10. The copying constructor [ValidityData(original, count)] of a
    mask whose array holds at least [EntryCount count] words builds a
    new array with exactly these words, so every row below [count]
    reads as in the original; it writes to no array that existed
    before.  When the original's array is shorter, the copy loop reads
    past its end. *)
Theorem ValidityData_copy_words (s : Store) (original : ValidityMask) (p : nat)
    (a : list Z) (count : nat) :
  validity_mask original = Some p -> arrays s !! p = Some a ->
  (EntryCount count <= length a ->
   exists s',
     ValidityData_copy s original count = Some (s', length (arrays s)) /\
     arrays s' !! length (arrays s) = Some (take (EntryCount count) a) /\
     (forall q, q < length (arrays s) -> arrays s' !! q = arrays s !! q) /\
     buffers s' = buffers s /\
     (forall i buf, i < count ->
        RowIsValid s' (mkMask (Some (length (arrays s))) buf) i
        = RowIsValid s original i)) /\
  (length a < EntryCount count -> ValidityData_copy s original count = None).
Proof.
  intros Hp Ha. pose proof (lookup_lt_Some _ _ _ Ha) as Hpl.
  unfold ValidityData_copy. rewrite Hp. simpl.
  set (n := EntryCount count). set (q := length (arrays s)).
  set (u := map uninitialized (seq 0 n)).
  set (s1 := mkStore (arrays s ++ [u]) (buffers s)).
  assert (Hu : length u = n) by (unfold u; rewrite length_map, length_seq; reflexivity).
  assert (Hq : arrays s1 !! q = Some u) by (apply list_lookup_middle; reflexivity).
  split.
  - intros Hlen.
    rewrite (fill_loop s1 q 0 n (fun j => nth j a 0%Z) u); [|exact Hq|lia|].
    2:{ intros i a' Hi Hla'. rewrite read_upd_ne by (unfold q; lia).
        unfold read. simpl. rewrite lookup_app_l by lia. rewrite Ha.
        destruct (lookup_lt_is_Some_2 a i) as [x Hx]; [lia|].
        rewrite Hx, (nth_lookup_Some _ _ _ _ Hx). reflexivity. }
    change s1 with (new_array s n).1. rewrite upd_new_array.
    assert (Hw : overwrite 0 n (fun j => nth j a 0%Z) u = take n a).
    { apply list_eq. intros j. rewrite lookup_overwrite.
      destruct (decide (j < n)) as [Hj|Hj].
      - destruct (lookup_lt_is_Some_2 u j) as [x ->]; [lia|].
        destruct (decide (0 <= j < n)); [|lia].
        rewrite lookup_take_lt by exact Hj.
        destruct (lookup_lt_is_Some_2 a j) as [y Hy]; [lia|].
        rewrite Hy, (nth_lookup_Some _ _ _ _ Hy). reflexivity.
      - rewrite (lookup_ge_None_2 u j) by lia. symmetry.
        apply lookup_ge_None_2. rewrite length_take. lia. }
    rewrite Hw. eexists. split; [reflexivity|].
    split; [apply arrays_alloc_new|].
    split; [intros r Hr; apply arrays_alloc_old; exact Hr|]. split; [reflexivity|].
    intros i buf Hi. unfold RowIsValid, read. rewrite Hp. cbn [validity_mask].
    unfold q. rewrite arrays_alloc_new, Ha.
    rewrite lookup_take_lt by (apply EntryCount_row; exact Hi). reflexivity.
  - intros Hshort.
    rewrite (for_range_stuck
               (fun st => arrays st !! p = Some a /\
                          exists b, arrays st !! q = Some b /\ length b = n)
               _ 0 n (length a) s1); [reflexivity|lia| | |].
    + split; [simpl; rewrite lookup_app_l by exact Hpl; exact Ha|].
      exists u. split; assumption.
    + intros i st st' [Hpa Hqb] Hb.
      destruct (read st p i) as [v|]; [|discriminate].
      split; [|exact (write_keeps_length st st' q q i n v Hb Hqb)].
      unfold write in Hb. destruct Hqb as (b & Hqb & _). rewrite Hqb in Hb.
      case_decide; [|discriminate]. injection Hb as <-. simpl.
      rewrite list_lookup_insert_ne by (unfold q; lia). exact Hpa.
    + intros st [Hpa _]. unfold read. rewrite Hpa.
      rewrite (lookup_ge_None_2 a (length a)) by lia. reflexivity.
Qed.

(** X11. Which operations leave a mask with a bit array, by
    [IsMaskSet]: a slice has one exactly when the sliced mask has one,
    even if every row that is left is valid; [Combine] leaves one
    exactly when either mask had one; and [Resize] never gives an
    all-valid mask an array. *)
Theorem IsMaskSet_after_operations (s : Store) (self other : ValidityMask) :
  (forall offset s' m',
     Slice s other offset = Some (s', m') -> IsMaskSet m' = IsMaskSet other) /\
  (forall count s' m',
     Combine s self other count = Some (s', m') ->
     IsMaskSet m' = IsMaskSet self || IsMaskSet other) /\
  (forall old_size new_size s' m',
     Resize s self old_size new_size = Some (s', m') -> IsMaskSet m' = IsMaskSet self).
Proof.
  split; [|split].
  - intros offset s' m'. unfold Slice, AllValid, IsMaskSet.
    destruct (validity_mask other) as [p|] eqn:Ep.
    2:{ intros H. injection H as <- <-. reflexivity. }
    destruct (decide (offset = 0)).
    { intros H. injection H as <- <-. simpl. rewrite Ep. reflexivity. }
    rewrite Initialize_count_eq. cbv beta iota zeta. cbn [validity_mask].
    intros H.
    repeat match type of H with
           | match ?x with _ => _ end = Some _ => destruct x; try discriminate H
           end;
      injection H as <- <-; reflexivity.
  - intros count s' m'. unfold Combine, AllValid, IsMaskSet, GetData.
    destruct (validity_mask other) as [pb|] eqn:Eb.
    2:{ intros H. injection H as <- <-. rewrite orb_false_r. reflexivity. }
    destruct (validity_mask self) as [pa|] eqn:Ea.
    2:{ intros H. injection H as <- <-. simpl. rewrite Eb. reflexivity. }
    destruct (decide (Some pa = Some pb)).
    { intros H. injection H as <- <-. rewrite Ea. reflexivity. }
    rewrite Initialize_count_eq. cbv beta iota zeta. cbn [validity_mask].
    intros H.
    match type of H with
    | match ?x with _ => _ end = Some _ => destruct x; try discriminate H
    end.
    injection H as <- <-. reflexivity.
  - intros old_size new_size s' m'. unfold Resize, IsMaskSet.
    destruct (validity_mask self) as [p|] eqn:Ep.
    2:{ intros H. injection H as <- <-. rewrite Ep. reflexivity. }
    simpl. intros H.
    repeat match type of H with
           | match ?x with _ => _ end = Some _ => destruct x; try discriminate H
           end.
    injection H as <- <-. reflexivity.
Qed.

(** *** Properties of [ToString] *)

Lemma string_app_assoc (a b c : string) : (a +:+ b) +:+ c = a +:+ (b +:+ c).
Proof.
  induction a as [|x a IH]; [reflexivity|].
  change (String x ((a +:+ b) +:+ c) = String x (a +:+ (b +:+ c))).
  rewrite IH. reflexivity.
Qed.

Lemma string_app_nil_r (a : string) : a +:+ "" = a.
Proof.
  induction a as [|x a IH]; [reflexivity|].
  change (String x (a +:+ "") = String x a). rewrite IH. reflexivity.
Qed.

Lemma string_app_length (a b : string) :
  String.length (a +:+ b) = String.length a + String.length b.
Proof.
  induction a as [|x a IH]; [reflexivity|].
  change (S (String.length (a +:+ b)) = S (String.length a + String.length b)).
  rewrite IH. reflexivity.
Qed.

(** X12. For a mask that is usable over [count] rows, [ToString]
    returns the header with [count] in decimal, then one character per
    row in row order, "." for a valid row and "X" for an invalid one,
    then the closing bracket. *)
Theorem ToString_rows (s : Store) (m : ValidityMask) (count : nat) :
  materialized_for s m count ->
  exists body,
    ToString s m count
    = Some ("Validity Mask (" +:+ to_string count +:+ ") [" +:+ body +:+ "]") /\
    String.length body = count /\
    forall i, i < count ->
      exists valid, RowIsValid s m i = Some valid /\
                    String.get i body = Some (if valid then "."%char else "X"%char).
Proof.
  intros Hm. unfold ToString. cbv zeta.
  set (prefix := "Validity Mask (" +:+ to_string count +:+ ") [").
  destruct (for_range_inv
              (fun i result =>
                 exists body, result = prefix +:+ body /\ String.length body = i /\
                   forall k, k < i ->
                     exists valid, RowIsValid s m k = Some valid /\
                       String.get k body = Some (if valid then "."%char else "X"%char))
              (fun i result =>
                 match RowIsValid s m i with
                 | Some valid => Some (result +:+ (if valid then "." else "X"))
                 | None => None
                 end) 0 count prefix) as (result & Hrun & body & -> & Hlen & Hrows).
  - lia.
  - exists "". split; [|split; [reflexivity|intros k Hk; lia]].
    symmetry. apply string_app_nil_r.
  - intros i st Hi (body & -> & Hlen & Hrows).
    destruct (RowIsValid_materialized s m count i Hm) as [valid Hv]; [lia|].
    rewrite Hv. eexists. split; [reflexivity|].
    exists (body +:+ (if valid then "." else "X")).
    split; [apply string_app_assoc|].
    split; [rewrite string_app_length, Hlen; destruct valid; simpl; lia|].
    intros k Hk. destruct (decide (k = i)) as [->|Hne].
    + exists valid. split; [exact Hv|].
      rewrite <- Hlen. change (String.length body) with (0 + String.length body).
      rewrite <- String.append_correct2. destruct valid; reflexivity.
    + destruct (Hrows k) as (b & Hb & Hg); [lia|]. exists b. split; [exact Hb|].
      rewrite <- String.append_correct1 by lia. exact Hg.
  - rewrite Hrun. exists body. split; [|split; [exact Hlen|exact Hrows]].
    f_equal. unfold prefix. rewrite !string_app_assoc. reflexivity.
Qed.

Lemma overwrite_overwrite (lo hi : nat) (f g : nat -> Z) (a : list Z) :
  overwrite lo hi f (overwrite lo hi g a) = overwrite lo hi f a.
Proof.
  apply list_eq. intros j. rewrite !lookup_overwrite.
  destruct (a !! j); [|reflexivity]. case_decide; reflexivity.
Qed.

(** X26. Slicing by exactly one word gives the slice by one row less.
    For a mask with a bit array of at least [STANDARD_ENTRY_COUNT]
    words, [Slice] at offset [BITS_PER_VALUE] returns exactly what it
    returns at offset [BITS_PER_VALUE - 1]: the words the first loop
    moved are all overwritten by the second loop, which stitches the
    words of the sliced mask with [sub_units = BITS_PER_VALUE - 1]. *)
Theorem Slice_by_one_word_is_one_row_short (s : Store) (other : ValidityMask)
    (p : nat) (a : list Z) :
  validity_mask other = Some p -> arrays s !! p = Some a ->
  STANDARD_ENTRY_COUNT <= length a -> 0 < STANDARD_ENTRY_COUNT ->
  2 <= BITS_PER_VALUE ->
  exists result,
    Slice s other BITS_PER_VALUE = Some result /\
    Slice s other (BITS_PER_VALUE - 1) = Some result.
Proof.
  intros Ep Ha Hlen Hsec Hbits.
  pose proof (lookup_lt_Some _ _ _ Ha) as Hp.
  set (n := STANDARD_ENTRY_COUNT) in *.
  set (s1 := initialized s STANDARD_VECTOR_SIZE).
  set (q := length (arrays s)).
  set (k := BITS_PER_VALUE - 1).
  set (f := fun j => Z.lor (Z.shiftr (nth j a 0%Z) (Z.of_nat k))
                       (Z.land (Z.shiftl (nth (j + 1) a 0%Z)
                                  (Z.of_nat (BITS_PER_VALUE - k))) MAX_ENTRY)).
  set (r := overwrite 0 (n - 1) f (replicate n MAX_ENTRY)).
  assert (Hq : arrays s1 !! q = Some (replicate n MAX_ENTRY))
    by (apply list_lookup_middle; reflexivity).
  assert (Hq1 : q < length (arrays s1)) by (simpl; rewrite length_app; simpl; lia).
  assert (Hstitch : forall u, length u = n -> u !! (n - 1) = Some MAX_ENTRY ->
            for_range 0 (n - 1)
              (fun validity_idx st =>
                 match read st p validity_idx, read st p (validity_idx + 1) with
                 | Some lo, Some hi =>
                     match shr lo k, shl hi (BITS_PER_VALUE - k) with
                     | Some x, Some y => write st q validity_idx (Z.lor x y)
                     | _, _ => None
                     end
                 | _, _ => None
                 end) (upd s1 q u)
            = Some (upd s1 q (overwrite 0 (n - 1) f u))).
  { intros u Hu _.
    rewrite (fill_loop (upd s1 q u) q 0 (n - 1) f u);
      [rewrite upd_upd; reflexivity|apply arrays_upd_eq; exact Hq1|lia|].
    intros i a' Hi Hla'. rewrite upd_upd. rewrite !read_upd_ne by (unfold q; lia).
    unfold read. simpl. rewrite lookup_app_l by lia. rewrite Ha.
    destruct (lookup_lt_is_Some_2 a i) as [x Hx]; [lia|].
    destruct (lookup_lt_is_Some_2 a (i + 1)) as [y Hy]; [lia|].
    rewrite Hx, Hy. unfold shr, shl.
    destruct (decide (k < BITS_PER_VALUE)) as [_|?]; [|unfold k in *; lia].
    destruct (decide (BITS_PER_VALUE - k < BITS_PER_VALUE)) as [_|?]; [|unfold k in *; lia].
    unfold f. rewrite (nth_lookup_Some _ _ _ _ Hx), (nth_lookup_Some _ _ _ _ Hy).
    reflexivity. }
  assert (Hlast : r !! (n - 1) = Some MAX_ENTRY).
  { unfold r. rewrite lookup_overwrite. rewrite lookup_replicate_2 by lia.
    case_decide; [lia|reflexivity]. }
  assert (Hfinish :
            match read (upd s1 q r) q (n - 1) with
            | Some last =>
                match shr last k with
                | Some v =>
                    match write (upd s1 q r) q (n - 1) v with
                    | Some s4 => Some (s4, mkMask (Some q) (Some (length (buffers s))))
                    | None => None
                    end
                | None => None
                end
            | None => None
            end
            = Some (upd s1 q (<[n - 1 := Z.shiftr MAX_ENTRY (Z.of_nat k)]> r),
                    mkMask (Some q) (Some (length (buffers s))))).
  { rewrite read_upd_eq by exact Hq1. rewrite Hlast. unfold shr.
    destruct (decide (k < BITS_PER_VALUE)) as [_|?]; [|unfold k in *; lia].
    rewrite write_upd
      by (try exact Hq1; unfold r; rewrite length_overwrite, length_replicate; lia).
    reflexivity. }
  eexists. split.
  - unfold Slice, AllValid. rewrite Ep.
    destruct (decide (BITS_PER_VALUE = 0)) as [?|_]; [lia|].
    rewrite Initialize_count_eq. cbv beta iota zeta. cbn [validity_mask].
    rewrite Nat.div_same by lia. rewrite (Nat.mod_small 1) by lia.
    destruct (decide (0 < 1)) as [_|?]; [|lia].
    fold STANDARD_ENTRY_COUNT. fold n. fold k. fold s1. fold q.
    destruct (decide (0 < k)) as [_|?]; [|unfold k in *; lia].
    rewrite (fill_loop s1 q 0 (n - 1) (fun j => nth (j + 1) a 0%Z) (replicate n MAX_ENTRY));
      [|exact Hq|rewrite length_replicate; lia|].
    2:{ intros i a' Hi Hla'. rewrite !read_upd_ne by (unfold q; lia).
        unfold read. simpl. rewrite lookup_app_l by lia. rewrite Ha.
        destruct (lookup_lt_is_Some_2 a (i + 1)) as [y Hy]; [lia|].
        rewrite Hy, (nth_lookup_Some _ _ _ _ Hy). reflexivity. }
    rewrite Hstitch.
    + rewrite overwrite_overwrite. fold r. exact Hfinish.
    + rewrite length_overwrite, length_replicate. reflexivity.
    + rewrite lookup_overwrite, lookup_replicate_2 by lia. case_decide; [lia|reflexivity].
  - unfold Slice, AllValid. rewrite Ep. fold k.
    destruct (decide (k = 0)) as [?|_]; [unfold k in *; lia|].
    rewrite Initialize_count_eq. cbv beta iota zeta. cbn [validity_mask].
    rewrite (Nat.div_small k) by (unfold k; lia).
    rewrite Nat.Div0.mod_0_l, !Nat.sub_0_r.
    destruct (decide (0 < 0)) as [?|_]; [lia|].
    destruct (decide (0 < k)) as [_|?]; [|lia].
    fold STANDARD_ENTRY_COUNT. fold n. fold s1. fold q.
    rewrite <- (upd_same s1 q (replicate n MAX_ENTRY) Hq) at 1.
    rewrite Hstitch.
    + fold r. exact Hfinish.
    + apply length_replicate.
    + apply lookup_replicate_2. lia.
Qed.

End Mask.


(** *** Concrete instances: 64-bit words, batches of 2048 rows *)

(** Fresh memory that happens to hold zeroes. *)
Definition zeroed : nat -> Z := fun _ => 0%Z.

(** One array of 32 words; row 63 (the top bit of word 0) is invalid,
    every other row is valid. *)
Definition slice_store : Store :=
  mkStore [Z.clearbit (Z.ones 64) 63 :: replicate 31 (Z.ones 64)] [0].

Definition slice_mask : ValidityMask := mkMask (Some 0) (Some 0).

(** C3, at the failing input.  Slicing by one whole word reads row 63 of
    the sliced mask at row 0: the slice says invalid where the sliced
    mask, at row 0 + 64, says valid. *)
Theorem Slice_by_one_word_reads_row_63 :
  exists s' m',
    Slice 64 2048 zeroed slice_store slice_mask 64 = Some (s', m') /\
    RowIsValid 64 s' m' 0 = Some false /\
    RowIsValid 64 slice_store slice_mask (0 + 64) = Some true.
Proof.
  eexists _, _. split; [vm_compute; reflexivity|].
  split; vm_compute; reflexivity.
Qed.

Lemma Slice_rows_claim_fails_at_64 :
  ~ Slice_rows_claim 64 2048 zeroed slice_store slice_mask 64 2048.
Proof.
  intros (s' & m' & Hs & Hrows).
  vm_compute in Hs. injection Hs as <- <-.
  specialize (Hrows 0 ltac:(lia)). vm_compute in Hrows. discriminate.
Qed.

(** Beyond one word the shift count reaches the word width: the slice
    has no defined result. *)
Lemma Slice_by_65_undefined :
  Slice 64 2048 zeroed slice_store slice_mask 65 = None.
Proof. vm_compute. reflexivity. Qed.

(** The last word of a slice is the shifted all-ones word, not the
    shifted last word of the sliced mask: with row 2047 invalid, the
    slice by one row still reads row 2046 as valid. *)
Definition last_row_store : Store :=
  mkStore [replicate 31 (Z.ones 64) ++ [Z.clearbit (Z.ones 64) 63]] [0].

Lemma Slice_last_word_not_copied :
  exists s' m',
    Slice 64 2048 zeroed last_row_store slice_mask 1 = Some (s', m') /\
    RowIsValid 64 s' m' 2046 = Some true /\
    RowIsValid 64 last_row_store slice_mask (2046 + 1) = Some false.
Proof.
  eexists _, _. split; [vm_compute; reflexivity|].
  split; vm_compute; reflexivity.
Qed.

(** Two masks over three rows with their own arrays: rows 0 and 2 valid
    in the first, rows 0 and 1 valid in the second. *)
Definition combine_store : Store := mkStore [[5%Z]; [3%Z]] [0; 1].
Definition combine_self : ValidityMask := mkMask (Some 0) (Some 0).
Definition combine_other : ValidityMask := mkMask (Some 1) (Some 1).

Lemma Combine_and_sharing_witness :
  exists s' A',
    Combine 64 zeroed combine_store combine_self combine_other 3 = Some (s', A') /\
    (forall i, i < 3 ->
       exists a b, RowIsValid 64 combine_store combine_self i = Some a /\
                   RowIsValid 64 combine_store combine_other i = Some b /\
                   RowIsValid 64 s' A' i = Some (a && b)) /\
    (AllValid combine_other = true -> s' = combine_store /\ A' = combine_self) /\
    (validity_mask combine_self = validity_mask combine_other ->
       s' = combine_store /\ A' = combine_self) /\
    (AllValid combine_self = true -> AllValid combine_other = false ->
       s' = combine_store /\ validity_mask A' = validity_mask combine_other /\
       validity_data A' = validity_data combine_other) /\
    (AllValid combine_self = false -> AllValid combine_other = false ->
     validity_mask combine_self <> validity_mask combine_other ->
       length (arrays s') = S (length (arrays combine_store)) /\
       buffers s' = buffers combine_store ++ [length (arrays combine_store)] /\
       A' = mkMask (Some (length (arrays combine_store)))
                   (Some (length (buffers combine_store)))) /\
    (forall p, p < length (arrays combine_store) ->
       arrays s' !! p = arrays combine_store !! p) /\
    (forall m i,
       (forall p, validity_mask m = Some p -> p < length (arrays combine_store)) ->
       RowIsValid 64 s' m i = RowIsValid 64 combine_store m i).
Proof.
  apply (Combine_and_sharing 64 zeroed ltac:(lia) combine_store combine_self
           combine_other 3).
  - exists [5%Z]. split; [reflexivity|]. vm_compute. lia.
  - exists [3%Z]. split; [reflexivity|]. vm_compute. lia.
Defined.

(** A mask over ten rows that owns a one-word array in which row 12 is
    marked invalid. *)
Definition resize_store : Store := mkStore [[Z.clearbit (Z.ones 64) 12]] [0].
Definition resize_mask : ValidityMask := mkMask (Some 0) (Some 0).




Lemma Slice_sub_word_rows_witness :
  exists s' m',
    Slice 64 2048 zeroed slice_store slice_mask 1 = Some (s', m') /\
    (forall i, i < 64 * (STANDARD_ENTRY_COUNT 64 2048 - 1) ->
       RowIsValid 64 s' m' i = RowIsValid 64 slice_store slice_mask (i + 1)).
Proof.
  apply (Slice_sub_word_rows 64 2048 zeroed ltac:(lia) slice_store slice_mask 0
           (Z.clearbit (Z.ones 64) 63 :: replicate 31 (Z.ones 64)) 1).
  - reflexivity.
  - reflexivity.
  - vm_compute. lia.
  - repeat (apply Forall_cons; split; [vm_compute; split; [discriminate|reflexivity]|]).
    apply Forall_nil. exact I.
  - vm_compute. lia.
  - lia.
Defined.

(** Shrinking the mask of [resize_store] from 200 rows (four words) to
    10 rows (one word). *)
Lemma Resize_undefined_cases_witness :
  EntryCount 64 10 < EntryCount 64 200 /\
  Resize 64 zeroed resize_store resize_mask 200 10 = None.
Proof.
  split; [vm_compute; lia|].
  apply (Resize_undefined_cases 64 zeroed ltac:(lia) resize_store resize_mask 0 200 10).
  - reflexivity.
  - left. vm_compute. lia.
Defined.

Lemma Slice_beyond_one_word_undefined_witness :
  Slice 64 2048 zeroed slice_store slice_mask 65 = None.
Proof.
  apply (Slice_beyond_one_word_undefined 64 2048 zeroed ltac:(lia)
           slice_store slice_mask 65).
  - reflexivity.
  - lia.
  - lia.
Defined.

Lemma ValidityData_all_valid_witness :
  idx_t_fits (3 + (64 - 1)) /\
  exists s',
    ValidityData 64 zeroed combine_store 3 = Some (s', length (arrays combine_store)) /\
    arrays s' !! length (arrays combine_store)
      = Some (replicate (EntryCount 64 3) (MAX_ENTRY 64)) /\
    (forall q, q < length (arrays combine_store) ->
       arrays s' !! q = arrays combine_store !! q) /\
    buffers s' = buffers combine_store /\
    (forall i buf, i < 3 ->
       RowIsValid 64 s' (mkMask (Some (length (arrays combine_store))) buf) i
       = Some true).
Proof.
  assert (Hfits : idx_t_fits (3 + (64 - 1))) by (vm_compute; reflexivity).
  split; [exact Hfits|].
  exact (ValidityData_all_valid 64 zeroed ltac:(lia) combine_store 3 Hfits).
Defined.

(** Copying the first word of the sliced mask, and asking for more
    words than the one-word mask of [combine_store] has. *)
Lemma ValidityData_copy_words_witness :
  (EntryCount 64 64 <= length (Z.clearbit (Z.ones 64) 63 :: replicate 31 (Z.ones 64)) ->
   exists s',
     ValidityData_copy 64 zeroed slice_store slice_mask 64
       = Some (s', length (arrays slice_store)) /\
     arrays s' !! length (arrays slice_store)
       = Some (take (EntryCount 64 64)
                 (Z.clearbit (Z.ones 64) 63 :: replicate 31 (Z.ones 64))) /\
     (forall q, q < length (arrays slice_store) ->
        arrays s' !! q = arrays slice_store !! q) /\
     buffers s' = buffers slice_store /\
     (forall i buf, i < 64 ->
        RowIsValid 64 s' (mkMask (Some (length (arrays slice_store))) buf) i
        = RowIsValid 64 slice_store slice_mask i)) /\
  (length (Z.clearbit (Z.ones 64) 63 :: replicate 31 (Z.ones 64)) < EntryCount 64 64 ->
   ValidityData_copy 64 zeroed slice_store slice_mask 64 = None).
Proof.
  apply (ValidityData_copy_words 64 zeroed ltac:(lia) slice_store slice_mask 0
           (Z.clearbit (Z.ones 64) 63 :: replicate 31 (Z.ones 64)) 64).
  - reflexivity.
  - reflexivity.
Defined.

Lemma ValidityData_copy_short_run :
  ValidityData_copy 64 zeroed combine_store combine_self 65 = None /\
  exists s', ValidityData_copy 64 zeroed combine_store combine_self 3 = Some (s', 2) /\
             arrays s' = [[5%Z]; [3%Z]; [5%Z]].
Proof. split; [vm_compute; reflexivity|]. eexists. split; vm_compute; reflexivity. Qed.

Lemma IsMaskSet_after_operations_witness :
  ((forall offset s' m',
      Slice 64 2048 zeroed slice_store slice_mask offset = Some (s', m') ->
      IsMaskSet m' = IsMaskSet slice_mask) /\
   (forall count s' m',
      Combine 64 zeroed slice_store (mkMask None None) slice_mask count = Some (s', m') ->
      IsMaskSet m' = IsMaskSet (mkMask None None) || IsMaskSet slice_mask) /\
   (forall old_size new_size s' m',
      Resize 64 zeroed slice_store (mkMask None None) old_size new_size = Some (s', m') ->
      IsMaskSet m' = IsMaskSet (mkMask None None))) /\
  (exists s' m', Slice 64 2048 zeroed slice_store slice_mask 1 = Some (s', m') /\
                 IsMaskSet m' = true) /\
  (exists s' m', Combine 64 zeroed slice_store (mkMask None None) slice_mask 2048
                 = Some (s', m') /\ IsMaskSet m' = true) /\
  (exists s' m', Resize 64 zeroed slice_store (mkMask None None) 10 200 = Some (s', m') /\
                 IsMaskSet m' = false).
Proof.
  split; [exact (IsMaskSet_after_operations 64 2048 zeroed ltac:(lia) slice_store
                   (mkMask None None) slice_mask)|].
  split; [|split]; eexists _, _; split; vm_compute; reflexivity.
Defined.

(** Three rows over the word 5: rows 0 and 2 valid, row 1 invalid. *)
Lemma ToString_rows_witness :
  exists body,
    ToString 64 combine_store combine_self 3
    = Some ("Validity Mask (" +:+ to_string 3 +:+ ") [" +:+ body +:+ "]") /\
    String.length body = 3 /\
    forall i, i < 3 ->
      exists valid, RowIsValid 64 combine_store combine_self i = Some valid /\
                    String.get i body = Some (if valid then "."%char else "X"%char).
Proof.
  apply (ToString_rows 64 ltac:(lia) combine_store combine_self 3).
  exists [5%Z]. split; [reflexivity|]. vm_compute. lia.
Defined.

Lemma ToString_run :
  ToString 64 combine_store combine_self 3 = Some "Validity Mask (3) [.X.]".
Proof. vm_compute. reflexivity. Qed.

Lemma Slice_by_one_word_is_one_row_short_witness :
  exists result,
    Slice 64 2048 zeroed slice_store slice_mask 64 = Some result /\
    Slice 64 2048 zeroed slice_store slice_mask (64 - 1) = Some result.
Proof.
  apply (Slice_by_one_word_is_one_row_short 64 2048 zeroed ltac:(lia) slice_store
           slice_mask 0 (Z.clearbit (Z.ones 64) 63 :: replicate 31 (Z.ones 64))).
  - reflexivity.
  - reflexivity.
  - vm_compute. lia.
  - vm_compute. lia.
  - lia.
Defined.

End Validity.

Module Collection.

(** ** Outcomes *)

(** What a call can end in besides a result: a failed [D_ASSERT], a
    thrown [InternalException], behaviour that C++ leaves undefined, or
    (for the loops that are run on fuel) not finishing. *)
Inductive error : Type :=
| AssertionFailed
| InternalException (message : string)
| UndefinedBehaviour
| OutOfFuel.

Inductive result (A : Type) : Type :=
| Ok (a : A)
| Fault (e : error).

Arguments Ok {A} a.
Arguments Fault {A} e.

Definition bind {A B : Type} (r : result A) (k : A -> result B) : result B :=
  match r with
  | Ok a => k a
  | Fault e => Fault e
  end.

#[global] Instance result_bind : MBind result := fun A B k r => bind r k.
#[global] Instance result_ret : MRet result := fun A a => Ok a.

(** A dereference or an array access of the model: [None] is an access
    C++ leaves undefined. *)
Definition defined {A : Type} (o : option A) : result A :=
  match o with
  | Some a => Ok a
  | None => Fault UndefinedBehaviour
  end.

(** ** Types *)

Inductive PhysicalType : Type :=
| BOOL | INT8 | INT16 | INT32 | INT64 | INT128
| UINT8 | UINT16 | UINT32 | UINT64
| FLOAT | DOUBLE | INTERVAL | VARCHAR | STRUCT | LIST
| OTHER_PHYSICAL_TYPE.

(** A logical type, by its physical type and, for the nested types, its
    child types ([StructType::GetChildTypes], [ListType::GetChildType]). *)
Inductive LogicalType : Type :=
| mkLogicalType (physical : PhysicalType) (children : list LogicalType).

Definition InternalType (t : LogicalType) : PhysicalType :=
  match t with mkLogicalType p _ => p end.

Definition GetChildTypes (t : LogicalType) : list LogicalType :=
  match t with mkLogicalType _ cs => cs end.

Definition GetChildType (t : LogicalType) : option LogicalType :=
  head (GetChildTypes t).

Lemma PhysicalType_eq_dec (a b : PhysicalType) : {a = b} + {a <> b}.
Proof. decide equality. Defined.

Fixpoint LogicalType_eqb (a b : LogicalType) : bool :=
  match a, b with
  | mkLogicalType pa ca, mkLogicalType pb cb =>
      (if PhysicalType_eq_dec pa pb then true else false) &&
      (fix all2 (xs ys : list LogicalType) : bool :=
         match xs, ys with
         | [], [] => true
         | x :: xs', y :: ys' => LogicalType_eqb x y && all2 xs' ys'
         | _, _ => false
         end) ca cb
  end.

Fixpoint types_eqb (xs ys : list LogicalType) : bool :=
  match xs, ys with
  | [], [] => true
  | x :: xs', y :: ys' => LogicalType_eqb x y && types_eqb xs' ys'
  | _, _ => false
  end.

(** ** Values *)

(** A [string_t]: the characters inline, or a pointer, either into the
    memory the input batches live in or to a blob of a segment heap. *)
Inductive string_address : Type :=
| InInput (a : nat)
| InHeap (blob : nat).

Inductive string_t : Type :=
| Inlined (s : string)
| Pointer (a : string_address).

Definition IsInlined (s : string_t) : bool :=
  match s with Inlined _ => true | Pointer _ => false end.

(** One cell of a value array: a fixed-width value by its bits, a
    [string_t], or a [list_entry_t]. *)
Inductive Datum : Type :=
| DFixed (bits : Z)
| DString (s : string_t)
| DListEntry (offset length : nat).

(** The logical content of one row of one column. *)
Inductive Value : Type :=
| VNull
| VFixed (bits : Z)
| VString (s : string)
| VList (elements : list Value)
| VStruct (fields : list Value).

(** ** Input vectors *)

(** A column vector of the execution engine, by its unified view (what
    [Orrify] hands out): selection, value array, validity; and, for the
    nested types, its child vectors ([ListVector::GetEntry],
    [StructVector::GetEntries]) and list size
    ([ListVector::GetListSize]).  The arrays belong to the vector
    layer; the model reads them as total maps. *)
Inductive Vector : Type :=
| mkVector (type : LogicalType) (sel : nat -> nat) (data : nat -> Datum)
           (validity : option (nat -> bool)) (children : list Vector)
           (list_size : nat).

Definition GetType (v : Vector) : LogicalType :=
  match v with mkVector t _ _ _ _ _ => t end.
Definition vector_sel (v : Vector) : nat -> nat :=
  match v with mkVector _ s _ _ _ _ => s end.
Definition vector_values (v : Vector) : nat -> Datum :=
  match v with mkVector _ _ d _ _ _ => d end.
Definition vector_validity (v : Vector) : option (nat -> bool) :=
  match v with mkVector _ _ _ m _ _ => m end.
Definition GetEntries (v : Vector) : list Vector :=
  match v with mkVector _ _ _ _ cs _ => cs end.
Definition GetListSize (v : Vector) : nat :=
  match v with mkVector _ _ _ _ _ n => n end.

(** [VectorData]: the unified view of a vector. *)
Record VectorData : Type := mkVectorData {
  vd_sel : nat -> nat;
  vd_data : nat -> Datum;
  vd_validity : option (nat -> bool)
}.

Definition Orrify (v : Vector) : VectorData :=
  mkVectorData (vector_sel v) (vector_values v) (vector_validity v).

Definition get_index (d : VectorData) (i : nat) : nat := vd_sel d i.

Definition source_AllValid (d : VectorData) : bool :=
  match vd_validity d with None => true | Some _ => false end.

Definition source_RowIsValid (d : VectorData) (idx : nat) : bool :=
  match vd_validity d with None => true | Some m => m idx end.

(** Modelled from the spec: [Normalify] is the vector layer's
    "flatten"; it yields a vector with the same rows whose selection is
    the identity.  [Normalify_with s v] is [v] read through the
    selection [s], flattened: the value and validity arrays are
    materialized row by row, the children of a struct are read through
    the same rows, and the child of a list is flattened in place. *)
Fixpoint Normalify_with (s : nat -> nat) (v : Vector) : Vector :=
  match v with
  | mkVector t sel data validity children list_size =>
      let rows := fun r => sel (s r) in
      mkVector t (fun r => r) (fun r => data (rows r))
        (match validity with
         | Some m => Some (fun r => m (rows r))
         | None => None
         end)
        (match InternalType t with
         | STRUCT => map (Normalify_with rows) children
         | _ => map (Normalify_with (fun r => r)) children
         end)
        list_size
  end.

Definition Normalify (v : Vector) : Vector := Normalify_with (fun r => r) v.

(** A [DataChunk]: its column vectors and its row count. *)
Record DataChunk : Type := mkDataChunk {
  chunk_columns : list Vector;
  chunk_size : nat
}.

Definition GetTypes (c : DataChunk) : list LogicalType :=
  map GetType (chunk_columns c).


(** ** Segments *)

Section Engine.

(** The batch capacity comes from a header outside the translated
    sources.  [debug] says whether the build compiles [D_ASSERT] and the
    code under [#ifdef DEBUG]; release builds compile neither.
    [input_memory] is the memory that the pointers of input strings
    point into, and [fresh_datum], [fresh_bit] are the contents the
    allocator's blocks happen to have before they are written, by
    vector index and slot. *)
Variable STANDARD_VECTOR_SIZE : nat.
Variable debug : bool.
Variable input_memory : nat -> string.
Variable fresh_datum : nat -> nat -> Datum.
Variable fresh_bit : nat -> nat -> bool.

(** [D_ASSERT(condition)]. *)
Definition D_ASSERT (condition : bool) : result unit :=
  if debug && negb condition then Fault AssertionFailed else Ok tt.

(** [VectorMetaData], with the block region that [block_id] and
    [offset] address: the value slots ([values]) followed by the
    validity bits ([bits]), one per row.  Each vector has a region of
    its own, so the region is kept with its descriptor. *)
Record VectorMetaData : Type := mkVectorMetaData {
  values : list Datum;
  bits : list bool;
  vcount : nat;
  child_index : option nat;
  next_data : option nat
}.

Record ChunkMetaData : Type := mkChunkMetaData {
  chunk_vector_data : list nat;
  chunk_count : nat
}.

(** [ColumnDataCollectionSegment]: the chunks, the pool of vector
    descriptors, the child index array, the string heap, and the row
    count. *)
Record Segment : Type := mkSegment {
  segment_types : list LogicalType;
  segment_count : nat;
  chunk_data : list ChunkMetaData;
  vector_data : list VectorMetaData;
  child_indices : list (option nat);
  heap : list string
}.

Definition set_vector_data (seg : Segment) (vd : list VectorMetaData) : Segment :=
  mkSegment (segment_types seg) (segment_count seg) (chunk_data seg) vd
            (child_indices seg) (heap seg).

Definition set_child_indices (seg : Segment) (ci : list (option nat)) : Segment :=
  mkSegment (segment_types seg) (segment_count seg) (chunk_data seg)
            (vector_data seg) ci (heap seg).

Definition set_heap (seg : Segment) (h : list string) : Segment :=
  mkSegment (segment_types seg) (segment_count seg) (chunk_data seg)
            (vector_data seg) (child_indices seg) h.

Definition set_chunk_data (seg : Segment) (cd : list ChunkMetaData) : Segment :=
  mkSegment (segment_types seg) (segment_count seg) cd
            (vector_data seg) (child_indices seg) (heap seg).

Definition set_segment_count (seg : Segment) (n : nat) : Segment :=
  mkSegment (segment_types seg) n (chunk_data seg)
            (vector_data seg) (child_indices seg) (heap seg).

(** Modelled from the spec: [GetVectorData(index)] dereferences a
    vector index to its descriptor. *)
Definition GetVectorData (seg : Segment) (index : nat) : option VectorMetaData :=
  vector_data seg !! index.

Definition put_vector (seg : Segment) (index : nat) (v : VectorMetaData)
    : option Segment :=
  if decide (index < length (vector_data seg))
  then Some (set_vector_data seg (<[index := v]> (vector_data seg)))
  else None.

(** Modelled from the spec: [AllocateVector(type, chunk, state)]
    allocates one new descriptor with a region sized for the type: value
    slots for [STANDARD_VECTOR_SIZE] rows plus the validity bits, or the
    validity bits alone for a struct; it returns the new index.  The
    region is not initialized. *)
Definition AllocateVector (seg : Segment) (type : LogicalType) : Segment * nat :=
  let index := length (vector_data seg) in
  let slots :=
    match InternalType type with
    | STRUCT => []
    | _ => map (fresh_datum index) (seq 0 STANDARD_VECTOR_SIZE)
    end in
  (set_vector_data seg
     (vector_data seg ++
        [mkVectorMetaData slots (map (fresh_bit index) (seq 0 STANDARD_VECTOR_SIZE))
           0 None None]),
   index).

(** Modelled from the spec: [AllocateNewChunk()] appends an empty chunk
    and allocates a fresh vector for every column of the schema. *)
Fixpoint allocate_columns (seg : Segment) (types : list LogicalType)
    : Segment * list nat :=
  match types with
  | [] => (seg, [])
  | t :: ts =>
      let '(seg1, index) := AllocateVector seg t in
      let '(seg2, rest) := allocate_columns seg1 ts in
      (seg2, index :: rest)
  end.

Definition AllocateNewChunk (seg : Segment) : Segment :=
  let '(seg1, roots) := allocate_columns seg (segment_types seg) in
  set_chunk_data seg1 (chunk_data seg1 ++ [mkChunkMetaData roots 0]).

(** Modelled from the spec: the child index array of a segment.
    [AddChildIndex] appends one entry and returns its position;
    [ReserveChildren(n)] appends [n] invalid entries and returns the
    position of the first; [SetChildIndex] and [GetChildIndex] write and
    read entry [base + child]. *)
Definition AddChildIndex (seg : Segment) (index : nat) : Segment * nat :=
  (set_child_indices seg (child_indices seg ++ [Some index]),
   length (child_indices seg)).

Definition ReserveChildren (seg : Segment) (n : nat) : Segment * nat :=
  (set_child_indices seg (child_indices seg ++ replicate n None),
   length (child_indices seg)).

Definition SetChildIndex (seg : Segment) (base child index : nat)
    : option Segment :=
  if decide (base + child < length (child_indices seg))
  then Some (set_child_indices seg
               (<[base + child := Some index]> (child_indices seg)))
  else None.

Definition GetChildIndex (seg : Segment) (base child : nat) : option nat :=
  match child_indices seg !! (base + child) with
  | Some (Some index) => Some index
  | _ => None
  end.

(** Modelled from the spec: the validity mask over a vector's region,
    by rows.  [SetAllValid(n)] makes rows below [n] valid,
    [SetInvalid(row)] clears one row. *)
Definition SetAllValid (n : nat) (mask : list bool) : list bool :=
  imap (fun r b => if decide (r < n) then true else b) mask.

Definition SetInvalid (mask : list bool) (row : nat) : option (list bool) :=
  if decide (row < length mask) then Some (<[row := false]> mask) else None.

(** Modelled from the spec: the heap of a segment is an append-only
    store of blobs; [AddBlob] copies the characters of a string into it
    and returns a [string_t] that points at the copy. *)
Definition input_string (s : string_t) : string :=
  match s with
  | Inlined x => x
  | Pointer (InInput a) => input_memory a
  | Pointer (InHeap _) => EmptyString
  end.

Definition AddBlob (h : list string) (input : string_t) : string_t * list string :=
  (Pointer (InHeap (length h)), h ++ [input_string input]).

Definition GetString (h : list string) (s : string_t) : string :=
  match s with
  | Inlined x => x
  | Pointer (InInput a) => input_memory a
  | Pointer (InHeap blob) => default EmptyString (h !! blob)
  end.


(** ** The copy functions, lines 11-324 *)

(** [column_data_copy_function_t]: the functions a copy-function table
    can point at. *)
Inductive column_data_copy_function_t : Type :=
| fn_ColumnDataCopy (T : PhysicalType)
| fn_ColumnDataCopy_string_t
| fn_ColumnDataCopy_list_entry_t
| fn_ColumnDataCopyStruct.

Inductive ColumnDataCopyFunction : Type :=
| mkCopyFunction (function : column_data_copy_function_t)
                 (child_functions : list ColumnDataCopyFunction).

Definition child_functions_of (f : ColumnDataCopyFunction)
    : list ColumnDataCopyFunction :=
  match f with mkCopyFunction _ cs => cs end.

(** The signature of a copy function: the segment and the index of the
    destination vector (the parts of [ColumnDataMetaData] that vary),
    the unified view of the source, the source vector, the source
    offset and the number of rows. *)
Definition copy_function : Type :=
  Segment -> nat -> VectorData -> Vector -> nat -> nat -> option Segment.

(** [ColumnDataCopyValidity], lines 101-119. *)
Definition ColumnDataCopyValidity (source_data : VectorData) (target : list bool)
    (source_offset target_offset copy_count : nat) : option (list bool) :=
  let validity :=
    if decide (target_offset = 0)
    then SetAllValid STANDARD_VECTOR_SIZE target
    else target in
  if negb (source_AllValid source_data) then
    for_range 0 copy_count
      (fun i validity =>
         let idx := get_index source_data (source_offset + i) in
         if negb (source_RowIsValid source_data idx)
         then SetInvalid validity (target_offset + i)
         else Some validity)
      validity
  else Some validity.

(** [OP::Operation], lines 121-141: what is stored for an input value,
    and the heap after storing it.  A cell of another kind than the
    operation's type cannot reach it in C++; the model passes it
    through. *)
Definition value_operation : Type := list string -> Datum -> Datum * list string.

Definition StandardValueCopy : value_operation :=
  fun h input => (input, h).

Definition StringValueCopy : value_operation :=
  fun h input =>
    match input with
    | DString s =>
        if IsInlined s then (input, h)
        else let '(blob, h') := AddBlob h s in (DString blob, h')
    | _ => (input, h)
    end.

Definition ListValueCopy (child_list_size : nat) : value_operation :=
  fun h input =>
    match input with
    | DListEntry offset length => (DListEntry (offset + child_list_size) length, h)
    | _ => (input, h)
    end.

Definition store_value (slots : list Datum) (i : nat) (x : Datum)
    : option (list Datum) :=
  if decide (i < length slots) then Some (<[i := x]> slots) else None.

(** The value loop of [TemplatedColumnDataCopy], lines 155-160, over
    the value slots of the target and the heap. *)
Definition copy_values (OP : value_operation) (source_data : VectorData)
    (source_offset count copy_count : nat) (slots : list Datum) (h : list string)
    : option (list Datum * list string) :=
  for_range 0 copy_count
    (fun i '(slots, h) =>
       let source_idx := get_index source_data (source_offset + i) in
       if source_RowIsValid source_data source_idx then
         let '(x, h') := OP h (vd_data source_data source_idx) in
         slots' ← store_value slots (count + i) x;
         Some (slots', h')
       else Some (slots, h))
    (slots, h).

(** [TemplatedColumnDataCopy<T, OP>], lines 143-162. *)
Definition TemplatedColumnDataCopy (OP : value_operation) (seg : Segment)
    (vector_data_index : nat) (source_data : VectorData)
    (source_offset copy_count : nat) : option Segment :=
  vd ← GetVectorData seg vector_data_index;
  validity ← ColumnDataCopyValidity source_data (bits vd) source_offset
                (vcount vd) copy_count;
  '(result_data, h) ←
    copy_values OP source_data source_offset (vcount vd) copy_count
      (values vd) (heap seg);
  put_vector (set_heap seg h) vector_data_index
    (mkVectorMetaData result_data validity (vcount vd + copy_count)
       (child_index vd) (next_data vd)).

(** The loop of [ColumnDataCopy<list_entry_t>], lines 195-215: the child
    run goes to the chain of child vectors, slot after slot, and
    [current_list_size] adds up the counts the slots had when the loop
    reached them ([chain_index] is the loop's [child_index]).  The loop
    runs on fuel.  [STANDARD_VECTOR_SIZE - count]
    is a subtraction of natural numbers; it agrees with the C++ one as
    long as no slot holds more rows than its region has. *)
Fixpoint list_child_loop (child_function : copy_function)
    (child_type : LogicalType) (child_vector_data : VectorData)
    (child_vector : Vector) (child_list_size : nat)
    (fuel : nat) (seg : Segment) (chain_index remaining current_list_size : nat)
    : option (Segment * nat) :=
  if decide (remaining = 0) then Some (seg, current_list_size) else
  match fuel with
  | O => None
  | S fuel' =>
      vd ← GetVectorData seg chain_index;
      let current_list_size := current_list_size + vcount vd in
      let child_append_count :=
        Nat.min (STANDARD_VECTOR_SIZE - vcount vd) remaining in
      seg1 ← (if decide (0 < child_append_count)
              then child_function seg chain_index child_vector_data child_vector
                     (child_list_size - remaining) child_append_count
              else Some seg);
      let remaining := remaining - child_append_count in
      if decide (0 < remaining) then
        (* need to append more: allocate a new vector unless there is one *)
        vd1 ← GetVectorData seg1 chain_index;
        '(seg2, next) ←
          match next_data vd1 with
          | Some next => Some (seg1, next)
          | None =>
              let '(seg', next) := AllocateVector seg1 child_type in
              vd' ← GetVectorData seg' chain_index;
              seg'' ← put_vector seg' chain_index
                        (mkVectorMetaData (values vd') (bits vd') (vcount vd')
                           (child_index vd') (Some next));
              Some (seg'', next)
          end;
        list_child_loop child_function child_type child_vector_data child_vector
          child_list_size fuel' seg2 next remaining current_list_size
      else Some (seg1, current_list_size)
  end.

(** [ColumnDataCopy<list_entry_t>], lines 176-219. *)
Definition ColumnDataCopy_list_entry_t (child_functions : list copy_function)
    : copy_function :=
  fun seg vector_data_index source_data source source_offset copy_count =>
    (* first append the child entries of the list *)
    child_vector ← head (GetEntries source);
    let child_list_size := GetListSize source in
    let child_type := GetType child_vector in
    let child_vector_data := Orrify child_vector in
    vd ← GetVectorData seg vector_data_index;
    seg1 ← match child_index vd with
           | Some _ => Some seg
           | None =>
               let '(seg', child) := AllocateVector seg child_type in
               let '(seg'', position) := AddChildIndex seg' child in
               vd' ← GetVectorData seg'' vector_data_index;
               put_vector seg'' vector_data_index
                 (mkVectorMetaData (values vd') (bits vd') (vcount vd')
                    (Some position) (next_data vd'))
           end;
    child_function ← child_functions !! 0;
    vd1 ← GetVectorData seg1 vector_data_index;
    position ← child_index vd1;
    child ← GetChildIndex seg1 position 0;
    '(seg2, current_list_size) ←
      list_child_loop child_function child_type child_vector_data child_vector
        child_list_size (S (length (vector_data seg1) + child_list_size))
        seg1 child child_list_size 0;
    (* now copy the list entries *)
    TemplatedColumnDataCopy (ListValueCopy current_list_size) seg2
      vector_data_index source_data source_offset copy_count.

(** The body of the loop of lines 239-243: allocate the vector of one
    child of a struct and enter it in the child index array. *)
Definition allocate_struct_child (child_types : list LogicalType)
    (base_index child_idx : nat) (st : Segment) : option Segment :=
  type ← child_types !! child_idx;
  let '(st', child) := AllocateVector st type in
  SetChildIndex st' base_index child_idx child.

(** The body of the loop of lines 247-256: copy the rows of one child
    of a struct. *)
Definition copy_struct_child (child_functions : list copy_function)
    (vector_data_index : nat) (child_vectors : list Vector)
    (source_offset copy_count child_idx : nat) (st : Segment) : option Segment :=
  child_function ← child_functions !! child_idx;
  vd ← GetVectorData st vector_data_index;
  base_index ← child_index vd;
  child ← GetChildIndex st base_index child_idx;
  child_vector ← child_vectors !! child_idx;
  let child_data := Orrify child_vector in
  child_function st child child_data child_vector source_offset copy_count.

(** [ColumnDataCopyStruct], lines 221-257. *)
Definition ColumnDataCopyStruct (child_functions : list copy_function)
    : copy_function :=
  fun seg vector_data_index source_data source source_offset copy_count =>
    (* copy the NULL values for the main struct vector *)
    vd ← GetVectorData seg vector_data_index;
    validity ← ColumnDataCopyValidity source_data (bits vd) source_offset
                  (vcount vd) copy_count;
    seg1 ← put_vector seg vector_data_index
             (mkVectorMetaData (values vd) validity (vcount vd + copy_count)
                (child_index vd) (next_data vd));
    let child_types := GetChildTypes (GetType source) in
    (* now copy all the child vectors *)
    seg2 ← match child_index vd with
           | Some _ => Some seg1
           | None =>
               (* no child vectors yet, allocate them *)
               let '(seg', base_index) := ReserveChildren seg1 (length child_types) in
               seg'' ← for_range 0 (length child_types)
                         (allocate_struct_child child_types base_index) seg';
               vd' ← GetVectorData seg'' vector_data_index;
               put_vector seg'' vector_data_index
                 (mkVectorMetaData (values vd') (bits vd') (vcount vd')
                    (Some base_index) (next_data vd'))
           end;
    let child_vectors := GetEntries source in
    for_range 0 (length child_types)
      (copy_struct_child child_functions vector_data_index child_vectors
         source_offset copy_count)
      seg2.

(** Calling the function a copy-function table points at.  The fixed
    width instances [ColumnDataCopy<T>], lines 164-168, and
    [ColumnDataCopy<string_t>], lines 170-174, are the templated copy
    at their operation. *)
Fixpoint call (f : ColumnDataCopyFunction) : copy_function :=
  match f with
  | mkCopyFunction fn children =>
      match fn with
      | fn_ColumnDataCopy _ =>
          fun seg index source_data source source_offset copy_count =>
            TemplatedColumnDataCopy StandardValueCopy seg index source_data
              source_offset copy_count
      | fn_ColumnDataCopy_string_t =>
          fun seg index source_data source source_offset copy_count =>
            TemplatedColumnDataCopy StringValueCopy seg index source_data
              source_offset copy_count
      | fn_ColumnDataCopy_list_entry_t =>
          ColumnDataCopy_list_entry_t (map call children)
      | fn_ColumnDataCopyStruct =>
          ColumnDataCopyStruct (map call children)
      end
  end.

(** [ColumnDataCollection::GetCopyFunction], lines 259-324. *)
Fixpoint GetCopyFunction (type : LogicalType) : result ColumnDataCopyFunction :=
  match type with
  | mkLogicalType physical children =>
      match physical with
      | BOOL | INT8 | INT16 | INT32 | INT64 | INT128
      | UINT8 | UINT16 | UINT32 | UINT64
      | FLOAT | DOUBLE | INTERVAL =>
          Ok (mkCopyFunction (fn_ColumnDataCopy physical) [])
      | VARCHAR =>
          Ok (mkCopyFunction fn_ColumnDataCopy_string_t [])
      | STRUCT =>
          match
            (fix each (child_types : list LogicalType)
               : result (list ColumnDataCopyFunction) :=
               match child_types with
               | [] => Ok []
               | t :: ts =>
                   match GetCopyFunction t with
                   | Ok f =>
                       match each ts with
                       | Ok fs => Ok (f :: fs)
                       | Fault e => Fault e
                       end
                   | Fault e => Fault e
                   end
               end) children
          with
          | Ok fs => Ok (mkCopyFunction fn_ColumnDataCopyStruct fs)
          | Fault e => Fault e
          end
      | LIST =>
          match children with
          | child :: _ =>
              match GetCopyFunction child with
              | Ok f => Ok (mkCopyFunction fn_ColumnDataCopy_list_entry_t [f])
              | Fault e => Fault e
              end
          | [] => Fault UndefinedBehaviour
          end
      | OTHER_PHYSICAL_TYPE =>
          Fault (InternalException
                   "Unsupported type for ColumnDataCollection::GetCopyFunction")
      end
  end.

(** [IsComplexType], lines 326-335. *)
Fixpoint IsComplexType (type : LogicalType) : bool :=
  match type with
  | mkLogicalType physical children =>
      match physical with
      | STRUCT => true
      | LIST =>
          match children with
          | child :: _ => IsComplexType child
          | [] => false
          end
      | _ => false
      end
  end.


(** ** The collection *)

(** [segments] holds [unique_ptr]s: [None] is a null pointer, which is
    what a pointer that was moved from holds.  [allocator] names the
    shared allocator. *)
Record ColumnDataCollection : Type := mkCollection {
  types : list LogicalType;
  count : nat;
  segments : list (option Segment);
  finished_append : bool;
  copy_functions : list ColumnDataCopyFunction;
  allocator : nat
}.

Definition set_segments (c : ColumnDataCollection)
    (segs : list (option Segment)) : ColumnDataCollection :=
  mkCollection (types c) (count c) segs (finished_append c)
               (copy_functions c) (allocator c).

Definition set_count (c : ColumnDataCollection) (n : nat) : ColumnDataCollection :=
  mkCollection (types c) n (segments c) (finished_append c)
               (copy_functions c) (allocator c).

Definition set_finished_append (c : ColumnDataCollection) (b : bool)
    : ColumnDataCollection :=
  mkCollection (types c) (count c) (segments c) b
               (copy_functions c) (allocator c).

Fixpoint get_copy_functions (ts : list LogicalType)
    : result (list ColumnDataCopyFunction) :=
  match ts with
  | [] => Ok []
  | t :: ts' =>
      f ← GetCopyFunction t;
      fs ← get_copy_functions ts';
      Ok (f :: fs)
  end.

(** [ColumnDataCollection::Initialize], lines 71-79, and the
    constructors of lines 43-61, which all end in it. *)
Definition new_ColumnDataCollection (allocator_p : nat) (types_p : list LogicalType)
    : result ColumnDataCollection :=
  fs ← get_copy_functions types_p;
  Ok (mkCollection types_p 0 [] false fs allocator_p).

(** [ColumnDataCollection(ColumnDataCollection &other)], lines 63-66:
    the new collection, and [other] as the constructor leaves it. *)
Definition new_ColumnDataCollection_from (other : ColumnDataCollection)
    : result (ColumnDataCollection * ColumnDataCollection) :=
  c ← new_ColumnDataCollection (allocator other) (types other);
  Ok (c, set_finished_append other true).

(** Modelled from the spec: a new segment has the schema and neither
    chunks nor vectors. *)
Definition new_Segment (types_p : list LogicalType) : Segment :=
  mkSegment types_p 0 [] [] [] [].

(** [CreateSegment], lines 81-83. *)
Definition CreateSegment (c : ColumnDataCollection) : ColumnDataCollection :=
  set_segments c (segments c ++ [Some (new_Segment (types c))]).

(** [*segments.back()] and its update in place. *)
Definition back_segment (c : ColumnDataCollection) : result Segment :=
  defined (mjoin (last (segments c))).

Definition set_back_segment (c : ColumnDataCollection) (seg : Segment)
    : ColumnDataCollection :=
  set_segments c (<[pred (length (segments c)) := Some seg]> (segments c)).

(** [InitializeAppend], lines 88-99.  The append state carries the
    unified views of the current input and the pinned blocks; the model
    has the former in [Append] and no use for the latter. *)
Definition InitializeAppend (c : ColumnDataCollection)
    : result ColumnDataCollection :=
  _ ← D_ASSERT (negb (finished_append c));
  let c1 := if decide (segments c = []) then CreateSegment c else c in
  segment ← back_segment c1;
  let segment1 :=
    if decide (chunk_data segment = []) then AllocateNewChunk segment
    else segment in
  Ok (set_back_segment c1 segment1).

(** The body of the loop of lines 355-360: copy the rows of one column
    to its vector of the current chunk. *)
Definition copy_column (fs : list ColumnDataCopyFunction) (chunk : ChunkMetaData)
    (vectors : list Vector) (offset append_amount vector_idx : nat) (st : Segment)
    : option Segment :=
  f ← fs !! vector_idx;
  root ← chunk_vector_data chunk !! vector_idx;
  v ← vectors !! vector_idx;
  call f st root (Orrify v) v offset append_amount.

(** The loop of [Append], lines 349-370, on fuel.  [vectors] are the
    input columns as prepared by lines 342-347. *)
Fixpoint append_loop (fs : list ColumnDataCopyFunction) (n_types : nat)
    (vectors : list Vector) (input_size : nat)
    (fuel : nat) (segment : Segment) (remaining : nat) : result Segment :=
  if decide (remaining = 0) then Ok segment else
  match fuel with
  | O => Fault OutOfFuel
  | S fuel' =>
      chunk ← defined (last (chunk_data segment));
      let append_amount :=
        Nat.min remaining (STANDARD_VECTOR_SIZE - chunk_count chunk) in
      segment1 ←
        (if decide (0 < append_amount) then
           let offset := input_size - remaining in
           seg' ← defined
                    (for_range 0 n_types
                       (copy_column fs chunk vectors offset append_amount)
                       segment);
           Ok (set_chunk_data seg'
                 (<[pred (length (chunk_data seg')) :=
                      mkChunkMetaData (chunk_vector_data chunk)
                        (chunk_count chunk + append_amount)]>
                    (chunk_data seg')))
         else Ok segment);
      let remaining := remaining - append_amount in
      if decide (0 < remaining) then
        (* more to do: allocate a new chunk *)
        append_loop fs n_types vectors input_size fuel'
          (AllocateNewChunk segment1) remaining
      else Ok segment1
  end.

(** Lines 342-347: complex columns are flattened, then every column is
    taken by its unified view. *)
Definition prepare_input (n_types : nat) (input : DataChunk)
    : result (list Vector) :=
  defined
    (for_range 0 n_types
       (fun vector_idx acc =>
          v ← chunk_columns input !! vector_idx;
          Some (acc ++ [if IsComplexType (GetType v) then Normalify v else v]))
       []).

(** [Append(ColumnDataAppendState &, DataChunk &)], lines 337-373. *)
Definition Append_state (c : ColumnDataCollection) (input : DataChunk)
    : result ColumnDataCollection :=
  _ ← D_ASSERT (negb (finished_append c));
  _ ← D_ASSERT (types_eqb (types c) (GetTypes input));
  segment ← back_segment c;
  vectors ← prepare_input (length (types c)) input;
  segment1 ← append_loop (copy_functions c) (length (types c)) vectors
               (chunk_size input) (S (chunk_size input)) segment
               (chunk_size input);
  let segment2 :=
    set_segment_count segment1 (segment_count segment1 + chunk_size input) in
  Ok (set_count (set_back_segment c segment2) (count c + chunk_size input)).

(** [Append(DataChunk &)], lines 375-379. *)
Definition Append (c : ColumnDataCollection) (input : DataChunk)
    : result ColumnDataCollection :=
  c1 ← InitializeAppend c;
  Append_state c1 input.


(** ** Reading *)

(** A materialized batch: one list of values per column, and the row
    count. *)
Record Batch : Type := mkBatch {
  batch_columns : list (list Value);
  batch_size : nat
}.

Definition row_is_valid (vd : VectorMetaData) (row : nat) : bool :=
  default false (bits vd !! row).

Definition stored_datum (vd : VectorMetaData) (row : nat) : Datum :=
  default (DFixed 0) (values vd !! row).

(** The value of a scalar cell of a segment, read at its column's
    physical type. *)
Definition stored_scalar (physical : PhysicalType) (h : list string) (d : Datum)
    : Value :=
  match physical, d with
  | VARCHAR, DString s => VString (GetString h s)
  | VARCHAR, _ => VNull
  | _, DFixed z => VFixed z
  | _, _ => VNull
  end.

(** The value of a list cell over the flattened child values. *)
Definition stored_list (flat : list Value) (d : Datum) : Value :=
  match d with
  | DListEntry offset length => VList (take length (drop offset flat))
  | _ => VNull
  end.

(** Modelled from the spec: reading a chain of child vectors yields the
    rows of its slots in chain order (the flattened child storage). *)
Fixpoint read_chain (read_slot : nat -> list Value) (seg : Segment)
    (fuel index : nat) : list Value :=
  match fuel with
  | O => []
  | S fuel' =>
      read_slot index ++
      match GetVectorData seg index with
      | Some vd =>
          match next_data vd with
          | Some next => read_chain read_slot seg fuel' next
          | None => []
          end
      | None => []
      end
  end.

(** Modelled from the spec: the children of a struct vector are read
    one by one, child [k] at entry [base + k] of the child index
    array. *)
Fixpoint read_fields (reads : list (nat -> list Value)) (seg : Segment)
    (base : option nat) (k : nat) : list (list Value) :=
  match reads with
  | [] => []
  | read :: rest =>
      match base with
      | Some b =>
          match GetChildIndex seg b k with
          | Some child => read child
          | None => []
          end
      | None => []
      end :: read_fields rest seg base (S k)
  end.

(** Modelled from the spec: [ReadVector] is the inverse of the copy
    functions: the rows a vector of the pool holds, by type; a list row
    is the run its entry selects in the flattened child storage, a
    struct row collects the same row of every child. *)
Fixpoint ReadVector (type : LogicalType) (seg : Segment) (index : nat)
    {struct type} : list Value :=
  match type with
  | mkLogicalType physical children =>
      match GetVectorData seg index with
      | None => []
      | Some vd =>
          match physical with
          | STRUCT =>
              let fields :=
                read_fields (map (fun t => ReadVector t seg) children) seg
                            (child_index vd) 0 in
              map (fun row =>
                     if row_is_valid vd row
                     then VStruct (map (fun col => default VNull (col !! row)) fields)
                     else VNull)
                  (seq 0 (vcount vd))
          | LIST =>
              let flat :=
                match children, child_index vd with
                | child_type :: _, Some position =>
                    match GetChildIndex seg position 0 with
                    | Some child =>
                        read_chain (ReadVector child_type seg) seg
                          (length (vector_data seg)) child
                    | None => []
                    end
                | _, _ => []
                end in
              map (fun row =>
                     if row_is_valid vd row
                     then stored_list flat (stored_datum vd row)
                     else VNull)
                  (seq 0 (vcount vd))
          | _ =>
              map (fun row =>
                     if row_is_valid vd row
                     then stored_scalar physical (heap seg) (stored_datum vd row)
                     else VNull)
                  (seq 0 (vcount vd))
          end
      end
  end.

(** Modelled from the spec: [ReadChunk(chunk_index, state, result)]
    materializes every column of the chunk. *)
Definition read_chunk (seg : Segment) (chunk : ChunkMetaData) : Batch :=
  mkBatch (zip_with (fun t root => ReadVector t seg root)
                    (segment_types seg) (chunk_vector_data chunk))
          (chunk_count chunk).

Definition ReadChunk (seg : Segment) (chunk_index : nat) : option Batch :=
  chunk ← chunk_data seg !! chunk_index;
  Some (read_chunk seg chunk).

(** ** The rows of an input batch *)

Definition input_scalar (physical : PhysicalType) (d : Datum) : Value :=
  match physical, d with
  | VARCHAR, DString s => VString (input_string s)
  | VARCHAR, _ => VNull
  | _, DFixed z => VFixed z
  | _, _ => VNull
  end.

(** The logical content of row [row] of an input vector: the cell the
    selection picks; a list is the run of child rows its entry names, a
    struct collects the picked row of every child. *)
Fixpoint vector_row (v : Vector) (row : nat) {struct v} : Value :=
  match v with
  | mkVector t sel data validity children list_size =>
      let idx := sel row in
      if match validity with Some m => m idx | None => true end then
        match InternalType t with
        | STRUCT => VStruct (map (fun c => vector_row c idx) children)
        | LIST =>
            match data idx, children with
            | DListEntry offset length, child :: _ =>
                VList (map (vector_row child) (seq offset length))
            | _, _ => VNull
            end
        | physical => input_scalar physical (data idx)
        end
      else VNull
  end.

Definition input_column (size : nat) (v : Vector) : list Value :=
  map (vector_row v) (seq 0 size).

Definition input_rows (input : DataChunk) : list (list Value) :=
  map (input_column (chunk_size input)) (chunk_columns input).

(** ** Scan, lines 381-470 *)

Record ColumnDataScanState : Type := mkScanState {
  chunk_index : nat;
  segment_index : nat;
  current_row_index : nat;
  next_row_index : nat
}.

(** [InitializeScan], lines 384-390. *)
Definition InitializeScan : ColumnDataScanState := mkScanState 0 0 0 0.

(** [*segments[i]]. *)
Definition segment_at (c : ColumnDataCollection) (i : nat) : result Segment :=
  defined (mjoin (segments c !! i)).

(** The loop of [NextScanIndex], lines 429-437, on fuel: [Some] state
    when a chunk is left, [None] when the scan is over. *)
Fixpoint skip_exhausted (c : ColumnDataCollection) (fuel : nat)
    (state : ColumnDataScanState)
    : result (ColumnDataScanState * bool) :=
  match fuel with
  | O => Fault OutOfFuel
  | S fuel' =>
      segment ← segment_at c (segment_index state);
      if decide (length (chunk_data segment) <= chunk_index state) then
        (* exhausted all chunks of this segment: move to the next one *)
        let state1 :=
          mkScanState 0 (S (segment_index state))
                      (current_row_index state) (next_row_index state) in
        if decide (length (segments c) <= segment_index state1)
        then Ok (state1, false)
        else skip_exhausted c fuel' state1
      else Ok (state, true)
  end.

(** [NextScanIndex], lines 420-442: the state after the call and, when
    the call returns true, [(chunk_index, segment_index, row_index)]. *)
Definition NextScanIndex (c : ColumnDataCollection) (state : ColumnDataScanState)
    : result (ColumnDataScanState * option (nat * nat * nat)) :=
  let row_index := next_row_index state in
  let state0 :=
    mkScanState (chunk_index state) (segment_index state)
                (next_row_index state) (next_row_index state) in
  (* check if we still have collections to scan *)
  if decide (length (segments c) <= segment_index state0) then
    Ok (state0, None)
  else
    '(state1, found) ← skip_exhausted c (S (length (segments c))) state0;
    if (found : bool) then
      (segment ← segment_at c (segment_index state1);
       chunk ← defined (chunk_data segment !! chunk_index state1);
       Ok (mkScanState (S (chunk_index state1)) (segment_index state1)
             (current_row_index state1)
             (next_row_index state1 + chunk_count chunk),
           Some (chunk_index state1, segment_index state1, row_index)))
    else Ok (state1, None).

(** [Scan(ColumnDataScanState &, DataChunk &)], lines 444-459. *)
Definition Scan (c : ColumnDataCollection) (state : ColumnDataScanState)
    : result (ColumnDataScanState * option Batch) :=
  '(state1, next) ← NextScanIndex c state;
  match next with
  | None => Ok (state1, None)
  | Some (chunk_index, segment_index, row_index) =>
      (* found a chunk to scan -> scan it *)
      segment ← segment_at c segment_index;
      batch ← defined (ReadChunk segment chunk_index);
      Ok (state1, Some batch)
  end.

(** [Scan(callback)], lines 461-470: the batches handed to the
    callback, in order.  The loop runs on fuel. *)
Fixpoint scan_loop (c : ColumnDataCollection) (fuel : nat)
    (state : ColumnDataScanState) : result (list Batch) :=
  match fuel with
  | O => Fault OutOfFuel
  | S fuel' =>
      '(state1, r) ← Scan c state;
      match r with
      | None => Ok []
      | Some batch =>
          rest ← scan_loop c fuel' state1;
          Ok (batch :: rest)
      end
  end.

Definition n_chunks (c : ColumnDataCollection) : nat :=
  list_sum (map (fun s => match s with
                          | Some seg => length (chunk_data seg)
                          | None => 0
                          end) (segments c)).

Definition Scan_all (c : ColumnDataCollection) : result (list Batch) :=
  scan_loop c (S (n_chunks c)) InitializeScan.

(** ** Combine, Verify, ChunkCount and Reset, lines 472-514 *)

(** Modelled from the spec: the segment's own [Verify] reconciles the
    row counts of its chunks with its row count. *)
Definition Segment_Verify (seg : Segment) : result unit :=
  D_ASSERT (Nat.eqb (list_sum (map chunk_count (chunk_data seg)))
                    (segment_count seg)).

Fixpoint verify_segments (segs : list (option Segment)) (total : nat)
    : result nat :=
  match segs with
  | [] => Ok total
  | s :: rest =>
      segment ← defined s;
      _ ← Segment_Verify segment;
      verify_segments rest (total + segment_count segment)
  end.

(** [Verify], lines 487-497. *)
Definition Verify (c : ColumnDataCollection) : result unit :=
  if debug then
    (total_segment_count ← verify_segments (segments c) 0;
     D_ASSERT (Nat.eqb total_segment_count (count c)))
  else Ok tt.

(** [Combine], lines 475-485: [this] and [other] after the call.  The
    loop moves every [unique_ptr] of [other.segments] to the end of
    [this->segments]; a moved-from pointer is null. *)
Definition Combine (this other : ColumnDataCollection)
    : result (ColumnDataCollection * ColumnDataCollection) :=
  if negb (types_eqb (types this) (types other)) then
    Fault (InternalException
             "Attempting to combine ColumnDataCollections with mismatching types")
  else
    let this1 :=
      set_segments (set_count this (count this + count other))
                   (segments this ++ segments other) in
    let other1 := set_segments other (map (fun _ => None) (segments other)) in
    _ ← Verify this1;
    Ok (this1, other1).

(** [Count()] is the header's accessor of [count]. *)
Definition Count (c : ColumnDataCollection) : nat := count c.

(** [ChunkCount], lines 507-509. *)
Definition ChunkCount (c : ColumnDataCollection) : result nat :=
  Fault (InternalException "FIXME: chunk count").

(** [Reset], lines 511-514. *)
Definition Reset (c : ColumnDataCollection) : ColumnDataCollection :=
  set_segments (set_count c 0) [].



(** ** Parallel scan, lines 392-414 *)

(** Where a worker stands in its current call of
    [Scan(ColumnDataParallelScanState &, ColumnDataLocalScanState &, DataChunk &)]:
    before the block of lines 403-408, inside it holding the lock,
    leaving it with the outcome of [NextScanIndex], after it with a
    chunk to decode, or back from a call that returned false. *)
Inductive worker_pc : Type :=
| Calling
| HoldingLock
| Releasing (next : option (nat * nat * nat))
| Decoding (chunk_index segment_index row_index : nat)
| ReturnedFalse.

(** A worker: its place, its [ColumnDataLocalScanState] and the batches
    its calls have filled so far, in order. *)
Record Worker : Type := mkWorker {
  pc : worker_pc;
  local_current_row_index : nat;
  produced : list Batch
}.

(** [ColumnDataParallelScanState] (the shared cursor and who holds its
    lock) together with the workers. *)
Record ParallelScan : Type := mkParallelScan {
  scan_state : ColumnDataScanState;
  lock : option nat;
  workers : list Worker
}.

(** [InitializeScan(ColumnDataParallelScanState &)], lines 392-394, with
    [n] workers about to make their first call. *)
Definition InitializeParallelScan (n : nat) : ParallelScan :=
  mkParallelScan InitializeScan None (replicate n (mkWorker Calling 0 [])).

Definition set_worker (st : ParallelScan) (w : nat) (wk : Worker)
    (state : ColumnDataScanState) (l : option nat) : ParallelScan :=
  mkParallelScan state l (<[w := wk]> (workers st)).

(** One step of worker [w].  A worker that waits for the lock, has
    finished, or does not exist leaves the state as it is. *)
Definition worker_step (c : ColumnDataCollection) (w : nat) (st : ParallelScan)
    : result ParallelScan :=
  match workers st !! w with
  | None => Ok st
  | Some wk =>
      match pc wk with
      | Calling =>
          (* lock_guard<mutex> l(state.lock) *)
          match lock st with
          | None =>
              Ok (set_worker st w
                    (mkWorker HoldingLock (local_current_row_index wk) (produced wk))
                    (scan_state st) (Some w))
          | Some _ => Ok st
          end
      | HoldingLock =>
          '(state1, next) ← NextScanIndex c (scan_state st);
          Ok (set_worker st w
                (mkWorker (Releasing next) (local_current_row_index wk) (produced wk))
                state1 (lock st))
      | Releasing next =>
          (* the end of the block, or the return inside it *)
          Ok (set_worker st w
                (mkWorker match next with
                          | Some (ci, si, ri) => Decoding ci si ri
                          | None => ReturnedFalse
                          end
                          (local_current_row_index wk) (produced wk))
                (scan_state st) None)
      | Decoding ci si ri =>
          segment ← segment_at c si;
          batch ← defined (ReadChunk segment ci);
          Ok (set_worker st w (mkWorker Calling ri (produced wk ++ [batch]))
                (scan_state st) (lock st))
      | ReturnedFalse => Ok st
      end
  end.

(** Running a schedule: the workers step in the order the schedule
    names them. *)
Fixpoint run_schedule (c : ColumnDataCollection) (schedule : list nat)
    (st : ParallelScan) : result ParallelScan :=
  match schedule with
  | [] => Ok st
  | w :: rest =>
      st1 ← worker_step c w st;
      run_schedule c rest st1
  end.

Definition holds_lock (p : worker_pc) : bool :=
  match p with
  | HoldingLock | Releasing _ => true
  | _ => false
  end.

Definition all_returned_false (st : ParallelScan) : Prop :=
  Forall (fun wk => pc wk = ReturnedFalse) (workers st).

(** * Properties of the collection *)

(** ** ChunkCount *)

(** C10. For every collection, [ChunkCount()] raises an internal
    exception; it never returns a count. *)
Theorem ChunkCount_always_throws (c : ColumnDataCollection) :
  ChunkCount c = Fault (InternalException "FIXME: chunk count") /\
  (forall n, ChunkCount c <> Ok n).
Proof. split; [reflexivity|]. intros n H. discriminate H. Qed.

(** ** Appending to a finished collection *)

Lemma D_ASSERT_false : D_ASSERT false = if debug then Fault AssertionFailed else Ok tt.
Proof. unfold D_ASSERT. destruct debug; reflexivity. Qed.

Lemma new_ColumnDataCollection_from_finished (other c other' : ColumnDataCollection) :
  new_ColumnDataCollection_from other = Ok (c, other') ->
  finished_append other' = true /\
  finished_append c = false /\ count c = 0 /\ segments c = [] /\
  types c = types other /\ allocator c = allocator other /\
  segments other' = segments other /\ count other' = count other.
Proof.
  unfold new_ColumnDataCollection_from, new_ColumnDataCollection.
  destruct (get_copy_functions (types other)) as [fs|e]; simpl; [|discriminate].
  intros H. injection H as <- <-. simpl. repeat split; reflexivity.
Qed.



(** ** Combine *)

Lemma Verify_release (c : ColumnDataCollection) : debug = false -> Verify c = Ok tt.
Proof. unfold Verify. intros ->. reflexivity. Qed.

(** What [Combine] does to both collections when it returns: [this]
    gains the rows and the segments of [other], in order; [other] keeps
    its row count, and its segment list keeps its length, every entry
    now null. *)
Lemma Combine_effect (this other this' other' : ColumnDataCollection) :
  Combine this other = Ok (this', other') ->
  count this' = count this + count other /\
  segments this' = segments this ++ segments other /\
  types this' = types this /\
  count other' = count other /\
  segments other' = map (fun _ => None) (segments other).
Proof.
  unfold Combine. destruct (types_eqb (types this) (types other)); simpl; [|discriminate].
  destruct (Verify _); simpl; [|discriminate].
  intros H. injection H as <- <-. simpl. repeat split; reflexivity.
Qed.

Lemma Combine_mismatch (this other : ColumnDataCollection) :
  types_eqb (types this) (types other) = false ->
  Combine this other =
  Fault (InternalException
           "Attempting to combine ColumnDataCollections with mismatching types").
Proof. unfold Combine. intros ->. reflexivity. Qed.


(** ** Sequential scan *)

(** The batches of a segment and of a collection, in storage order. *)
Definition segment_batches (s : option Segment) : list Batch :=
  match s with
  | Some seg => map (read_chunk seg) (chunk_data seg)
  | None => []
  end.

Definition all_batches (c : ColumnDataCollection) : list Batch :=
  concat (map segment_batches (segments c)).

(** The batches a scan state has still to hand out. *)
Definition pending (c : ColumnDataCollection) (state : ColumnDataScanState)
    : list Batch :=
  drop (chunk_index state) (segment_batches (mjoin (segments c !! segment_index state)))
  ++ concat (map segment_batches (drop (S (segment_index state)) (segments c))).

(** No segment pointer of the collection is null. *)
Definition segments_live (c : ColumnDataCollection) : Prop :=
  Forall (fun s => s <> None) (segments c).

Lemma segment_at_live (c : ColumnDataCollection) (i : nat) :
  segments_live c -> i < length (segments c) ->
  exists seg, segments c !! i = Some (Some seg) /\ segment_at c i = Ok seg.
Proof.
  intros Hl Hi. destruct (lookup_lt_is_Some_2 _ _ Hi) as [s Hs].
  pose proof (proj1 (Forall_lookup _ _) Hl _ _ Hs) as Hn.
  destruct s as [seg|]; [|congruence].
  exists seg. split; [exact Hs|]. unfold segment_at. rewrite Hs. reflexivity.
Qed.

Lemma pending_past_end (c : ColumnDataCollection) (state : ColumnDataScanState) :
  length (segments c) <= segment_index state -> pending c state = [].
Proof.
  intros H. unfold pending.
  rewrite (lookup_ge_None_2 (segments c)) by lia. simpl.
  rewrite drop_nil. rewrite drop_ge by lia. reflexivity.
Qed.

Lemma skip_exhausted_spec (c : ColumnDataCollection) :
  segments_live c ->
  forall fuel state,
    segment_index state < length (segments c) ->
    length (segments c) - segment_index state <= fuel ->
    exists state1 found,
      skip_exhausted c fuel state = Ok (state1, found) /\
      pending c state1 = pending c state /\
      current_row_index state1 = current_row_index state /\
      next_row_index state1 = next_row_index state /\
      if found
      then exists seg chunk,
          segments c !! segment_index state1 = Some (Some seg) /\
          chunk_data seg !! chunk_index state1 = Some chunk
      else pending c state = [].
Proof.
  intros Hl. induction fuel as [|fuel IH]; intros state Hsi Hfuel; [lia|].
  simpl. destruct (segment_at_live c _ Hl Hsi) as (seg & Hseg & ->). simpl.
  destruct (decide (length (chunk_data seg) <= chunk_index state)) as [Hex|Hin].
  - set (state1 := mkScanState 0 (S (segment_index state)) _ _).
    assert (Hp : pending c state1 = pending c state).
    { unfold pending at 2. rewrite Hseg. simpl.
      rewrite drop_ge by (rewrite length_map; lia). simpl.
      unfold pending. simpl.
      destruct (segments c !! S (segment_index state)) as [s|] eqn:Es.
      - rewrite (drop_S _ _ _ Es). simpl. reflexivity.
      - simpl. rewrite (drop_ge _ (S (segment_index state)))
          by (apply lookup_ge_None_1; exact Es).
        rewrite drop_ge; [reflexivity|].
        apply lookup_ge_None_1 in Es. lia. }
    destruct (decide (length (segments c) <= S (segment_index state))) as [Hend|Hmore].
    + exists state1, false. split; [reflexivity|]. split; [exact Hp|].
      split; [reflexivity|]. split; [reflexivity|].
      rewrite <- Hp. apply pending_past_end. exact Hend.
    + destruct (IH state1) as (st & found & Hs & Hpe & Hc & Hn & Hf);
        [simpl in *; lia|simpl in *; lia|].
      exists st, found. split; [exact Hs|]. split; [congruence|].
      split; [exact Hc|]. split; [exact Hn|].
      destruct found; [exact Hf|congruence].
  - exists state, true. split; [reflexivity|]. split; [reflexivity|].
    split; [reflexivity|]. split; [reflexivity|].
    destruct (lookup_lt_is_Some_2 (chunk_data seg) (chunk_index state)) as [ch Hch]; [lia|].
    exists seg, ch. split; assumption.
Qed.

(** What one call of [NextScanIndex] hands out: the first pending
    batch, if there is one. *)
Lemma NextScanIndex_spec (c : ColumnDataCollection) (state : ColumnDataScanState) :
  segments_live c ->
  exists state1 next,
    NextScanIndex c state = Ok (state1, next) /\
    match next with
    | None => pending c state = [] /\ pending c state1 = []
    | Some (ci, si, ri) =>
        exists seg batch,
          segments c !! si = Some (Some seg) /\
          ReadChunk seg ci = Some batch /\
          pending c state = batch :: pending c state1 /\
          ri = next_row_index state
    end.
Proof.
  intros Hl. unfold NextScanIndex.
  set (state0 := mkScanState _ _ _ _).
  assert (Hp0 : pending c state0 = pending c state) by reflexivity.
  destruct (decide (length (segments c) <= segment_index state0)) as [Hend|Hmore].
  - exists state0, None. split; [reflexivity|].
    rewrite <- Hp0. split; apply pending_past_end; exact Hend.
  - destruct (skip_exhausted_spec c Hl (S (length (segments c))) state0)
      as (state1 & found & Hs & Hp & Hc & Hn & Hf); [simpl in *; lia|simpl in *; lia|].
    rewrite Hs. simpl. destruct found.
    + destruct Hf as (seg & chunk & Hseg & Hch).
      unfold segment_at. rewrite Hseg. simpl. rewrite Hch. simpl.
      eexists _, _. split; [reflexivity|].
      exists seg, (read_chunk seg chunk). repeat split.
      * exact Hseg.
      * unfold ReadChunk. rewrite Hch. reflexivity.
      * rewrite <- Hp0, <- Hp. unfold pending. simpl. rewrite Hseg. simpl.
        assert (Hb : map (read_chunk seg) (chunk_data seg) !! chunk_index state1
                     = Some (read_chunk seg chunk))
          by (rewrite list_lookup_fmap, Hch; reflexivity).
        rewrite (drop_S _ _ _ Hb). reflexivity.
    + exists state1, None. split; [reflexivity|].
      split; [rewrite <- Hp0; exact Hf|rewrite Hp, Hp0; exact Hf].
Qed.

Lemma Scan_spec (c : ColumnDataCollection) (state : ColumnDataScanState) :
  segments_live c ->
  exists state1 r,
    Scan c state = Ok (state1, r) /\
    match r with
    | None => pending c state = [] /\ pending c state1 = []
    | Some batch => pending c state = batch :: pending c state1
    end.
Proof.
  intros Hl. unfold Scan.
  destruct (NextScanIndex_spec c state Hl) as (state1 & next & -> & Hn). simpl.
  destruct next as [[[ci si] ri]|].
  - destruct Hn as (seg & batch & Hseg & Hr & Hp & _).
    unfold segment_at. rewrite Hseg. simpl. rewrite Hr. simpl.
    eexists _, _. split; [reflexivity|]. exact Hp.
  - eexists _, _. split; [reflexivity|]. exact Hn.
Qed.

Lemma scan_loop_pending (c : ColumnDataCollection) :
  segments_live c ->
  forall fuel state,
    length (pending c state) < fuel ->
    scan_loop c fuel state = Ok (pending c state).
Proof.
  intros Hl. induction fuel as [|fuel IH]; intros state Hf; [lia|].
  simpl. destruct (Scan_spec c state Hl) as (state1 & r & -> & Hr). simpl.
  destruct r as [batch|].
  - rewrite Hr in Hf. simpl in Hf. rewrite IH by lia. simpl. rewrite Hr. reflexivity.
  - destruct Hr as [-> _]. reflexivity.
Qed.

Lemma length_all_batches (c : ColumnDataCollection) :
  length (all_batches c) = n_chunks c.
Proof.
  unfold all_batches, n_chunks. induction (segments c) as [|s l IH]; [reflexivity|].
  simpl. rewrite length_app, IH. destruct s; simpl; [rewrite length_map|]; reflexivity.
Qed.

Lemma pending_initial (c : ColumnDataCollection) :
  pending c InitializeScan = all_batches c.
Proof.
  unfold pending, all_batches. simpl. destruct (segments c) as [|s l]; reflexivity.
Qed.

(** A sequential scan of a collection without null segments returns
    the batches of its chunks, in storage order. *)
Lemma Scan_all_batches (c : ColumnDataCollection) :
  segments_live c -> Scan_all c = Ok (all_batches c).
Proof.
  intros Hl. unfold Scan_all. rewrite scan_loop_pending; [|exact Hl|].
  - rewrite pending_initial. reflexivity.
  - rewrite pending_initial, length_all_batches. lia.
Qed.


(** ** Parallel scan: lock scope and coverage *)

(** The batch a worker has been assigned and not yet delivered. *)
Definition in_flight (c : ColumnDataCollection) (p : worker_pc) : list Batch :=
  match p with
  | Releasing (Some (ci, si, _)) | Decoding ci si _ =>
      match mjoin (segments c !! si) with
      | Some seg => match ReadChunk seg ci with Some b => [b] | None => [] end
      | None => []
      end
  | _ => []
  end.

Definition fetchable (c : ColumnDataCollection) (p : worker_pc) : Prop :=
  match p with
  | Releasing (Some (ci, si, _)) | Decoding ci si _ =>
      exists seg b, segments c !! si = Some (Some seg) /\ ReadChunk seg ci = Some b
  | _ => True
  end.

Definition account (c : ColumnDataCollection) (wk : Worker) : list Batch :=
  produced wk ++ in_flight c (pc wk).

Definition saw_end (p : worker_pc) : bool :=
  match p with
  | Releasing None | ReturnedFalse => true
  | _ => false
  end.

(** What every reachable state of a parallel scan satisfies. *)
Record scan_invariant (c : ColumnDataCollection) (st : ParallelScan) : Prop :=
  mkScanInvariant {
    inv_lock : forall w wk, workers st !! w = Some wk ->
                 (holds_lock (pc wk) = true <-> lock st = Some w);
    inv_fetch : Forall (fun wk => fetchable c (pc wk)) (workers st);
    inv_cover : concat (map (account c) (workers st)) ++ pending c (scan_state st)
                ≡ₚ all_batches c;
    inv_end : Exists (fun wk => saw_end (pc wk) = true) (workers st) ->
              pending c (scan_state st) = []
  }.

Lemma scan_invariant_initial (c : ColumnDataCollection) (n : nat) :
  scan_invariant c (InitializeParallelScan n).
Proof.
  split; simpl.
  - intros w wk Hw. apply lookup_replicate in Hw as [-> _]. simpl.
    split; discriminate.
  - apply Forall_replicate. exact I.
  - rewrite pending_initial.
    replace (concat (map (account c) (replicate n (mkWorker Calling 0 [])))) with (@nil Batch);
      [reflexivity|].
    induction n as [|n IH]; [reflexivity|]. simpl. exact IH.
  - intros H. apply Exists_exists in H as (wk & Hin & Hs).
    apply elem_of_replicate in Hin as [-> _]. discriminate Hs.
Qed.

Lemma account_insert (c : ColumnDataCollection) (ws : list Worker) (w : nat)
    (wk wk' : Worker) (extra : list Batch) :
  ws !! w = Some wk ->
  account c wk' ≡ₚ account c wk ++ extra ->
  concat (map (account c) (<[w := wk']> ws))
  ≡ₚ concat (map (account c) ws) ++ extra.
Proof.
  intros Hw Ha.
  pose proof (lookup_lt_Some _ _ _ Hw) as Hlt.
  rewrite insert_take_drop by exact Hlt.
  rewrite <- (take_drop_middle ws w wk Hw) at 3.
  rewrite !map_app, !concat_app. simpl. rewrite Ha.
  rewrite <- !app_assoc. apply Permutation_app_head. apply Permutation_app_head.
  apply Permutation_app_comm.
Qed.

Lemma Forall_insert_worker (P : Worker -> Prop) (ws : list Worker) (w : nat)
    (wk' : Worker) :
  Forall P ws -> P wk' -> Forall P (<[w := wk']> ws).
Proof.
  intros HF HP. apply Forall_lookup. intros i x Hi.
  destruct (decide (w = i)) as [->|Hne].
  - destruct (decide (i < length ws)).
    + rewrite list_lookup_insert_eq in Hi by assumption. congruence.
    + rewrite list_insert_ge in Hi by lia. exact (proj1 (Forall_lookup _ _) HF _ _ Hi).
  - rewrite list_lookup_insert_ne in Hi by assumption.
    exact (proj1 (Forall_lookup _ _) HF _ _ Hi).
Qed.

Lemma Exists_insert_worker (P : Worker -> Prop) (ws : list Worker) (w : nat)
    (wk' : Worker) :
  Exists P (<[w := wk']> ws) -> P wk' \/ Exists P ws.
Proof.
  intros H. apply Exists_exists in H as (x & Hin & HP).
  apply list_elem_of_lookup in Hin as (i & Hi).
  destruct (decide (w = i)) as [->|Hne].
  - destruct (decide (i < length ws)).
    + rewrite list_lookup_insert_eq in Hi by assumption. left. congruence.
    + rewrite list_insert_ge in Hi by lia. right. apply Exists_exists.
      exists x. split; [|exact HP]. apply list_elem_of_lookup. eauto.
  - rewrite list_lookup_insert_ne in Hi by assumption. right. apply Exists_exists.
    exists x. split; [|exact HP]. apply list_elem_of_lookup. eauto.
Qed.

Lemma Exists_worker (P : Worker -> Prop) (ws : list Worker) (w : nat) (wk : Worker) :
  ws !! w = Some wk -> P wk -> Exists P ws.
Proof.
  intros Hw HP. apply Exists_exists. exists wk. split; [|exact HP].
  apply list_elem_of_lookup. eauto.
Qed.

(** Every step keeps the invariant and ends in no fault. *)
Lemma worker_step_invariant (c : ColumnDataCollection) (w : nat) (st : ParallelScan) :
  segments_live c -> scan_invariant c st ->
  exists st', worker_step c w st = Ok st' /\ scan_invariant c st' /\
              length (workers st') = length (workers st).
Proof.
  intros Hl Hinv. pose proof Hinv as [Hlock Hfetch Hcover Hend]. unfold worker_step.
  destruct (workers st !! w) as [wk|] eqn:Hw.
  2:{ exists st. split; [reflexivity|]. split; [exact Hinv|reflexivity]. }
  pose proof (lookup_lt_Some _ _ _ Hw) as Hlt.
  pose proof (proj1 (Forall_lookup _ _) Hfetch _ _ Hw) as Hfw. cbv beta in Hfw.
  assert (Hothers : forall (wk' : Worker) (l' : option nat) w' x,
            <[w := wk']> (workers st) !! w' = Some x -> w' <> w ->
            workers st !! w' = Some x).
  { intros wk' l' w' x Hx Hne. rewrite list_lookup_insert_ne in Hx by congruence. exact Hx. }
  destruct (pc wk) eqn:Hpc.
  - (* Calling *)
    destruct (lock st) as [holder|] eqn:Hlk.
    { exists st. split; [reflexivity|]. split; [exact Hinv|reflexivity]. }
    eexists. split; [reflexivity|]. split; [split; simpl|simpl; apply length_insert].
    + intros w' x Hx. destruct (decide (w' = w)) as [->|Hne].
      * rewrite list_lookup_insert_eq in Hx by exact Hlt. injection Hx as <-. simpl.
        split; reflexivity.
      * pose proof (Hothers _ None _ _ Hx Hne) as Hx'.
        pose proof (Hlock _ _ Hx') as Hiff.
        split; [intros Hh; apply Hiff in Hh; discriminate Hh|].
        intros H. injection H as ->. congruence.
    + apply Forall_insert_worker; [exact Hfetch|exact I].
    + rewrite (account_insert c _ w wk _ [] Hw).
      * rewrite app_nil_r. exact Hcover.
      * unfold account. simpl. rewrite Hpc. simpl. rewrite !app_nil_r. reflexivity.
    + intros H. apply Hend. apply Exists_insert_worker in H as [H|H]; [discriminate H|exact H].
  - (* HoldingLock *)
    destruct (NextScanIndex_spec c (scan_state st) Hl) as (state1 & next & -> & Hn). simpl.
    eexists. split; [reflexivity|]. split; [split; simpl|simpl; apply length_insert].
    + intros w' x Hx. destruct (decide (w' = w)) as [->|Hne].
      * rewrite list_lookup_insert_eq in Hx by exact Hlt. injection Hx as <-. simpl.
        rewrite <- (Hlock _ _ Hw), Hpc. reflexivity.
      * apply Hlock. exact (Hothers _ None _ _ Hx Hne).
    + apply Forall_insert_worker; [exact Hfetch|]. simpl.
      destruct next as [[[ci si] ri]|]; [|exact I].
      destruct Hn as (seg & b & Hs & Hb & _). exists seg, b. split; assumption.
    + destruct next as [[[ci si] ri]|].
      * destruct Hn as (seg & b & Hs & Hb & Hp & _).
        rewrite (account_insert c _ w wk _ [b] Hw).
        -- rewrite <- Hcover, Hp. rewrite <- app_assoc. reflexivity.
        -- unfold account. simpl. rewrite Hpc, Hs. simpl. rewrite Hb, app_nil_r. reflexivity.
      * destruct Hn as [Hp Hp1].
        rewrite (account_insert c _ w wk _ [] Hw).
        -- rewrite app_nil_r. rewrite <- Hcover, Hp, Hp1. reflexivity.
        -- unfold account. simpl. rewrite Hpc. simpl. rewrite !app_nil_r. reflexivity.
    + intros H. destruct next as [[[ci si] ri]|].
      * apply Exists_insert_worker in H as [H|H]; [discriminate H|].
        destruct Hn as (seg & b & _ & _ & Hp & _). rewrite (Hend H) in Hp. discriminate Hp.
      * apply Hn.
  - (* Releasing *)
    eexists. split; [reflexivity|]. split; [split; simpl|simpl; apply length_insert].
    + intros w' x Hx. destruct (decide (w' = w)) as [->|Hne].
      * rewrite list_lookup_insert_eq in Hx by exact Hlt. injection Hx as <-. simpl.
        split; [|discriminate]. destruct next as [[[ci si] ri]|]; discriminate.
      * pose proof (Hothers _ None _ _ Hx Hne) as Hx'.
        split; [|discriminate]. intros Hh. apply (Hlock _ _ Hx') in Hh.
        assert (Hw' : lock st = Some w) by (apply (Hlock _ _ Hw); rewrite Hpc; reflexivity).
        congruence.
    + apply Forall_insert_worker; [exact Hfetch|]. simpl.
      destruct next as [[[ci si] ri]|]; [exact Hfw|exact I].
    + rewrite (account_insert c _ w wk _ [] Hw).
      * rewrite app_nil_r. exact Hcover.
      * unfold account. simpl. rewrite Hpc, app_nil_r.
        destruct next as [[[ci si] ri]|]; reflexivity.
    + intros H. apply Hend. apply Exists_insert_worker in H as [H|H]; [|exact H].
      apply (Exists_worker _ _ w wk Hw). rewrite Hpc. simpl in H.
      destruct next as [[[ci si] ri]|]; [discriminate H|reflexivity].
  - (* Decoding *)
    destruct Hfw as (seg & b & Hs & Hb).
    unfold segment_at. rewrite Hs. simpl. rewrite Hb. simpl.
    eexists. split; [reflexivity|]. split; [split; simpl|simpl; apply length_insert].
    + intros w' x Hx. destruct (decide (w' = w)) as [->|Hne].
      * rewrite list_lookup_insert_eq in Hx by exact Hlt. injection Hx as <-. simpl.
        rewrite <- (Hlock _ _ Hw), Hpc. reflexivity.
      * apply Hlock. exact (Hothers _ None _ _ Hx Hne).
    + apply Forall_insert_worker; [exact Hfetch|exact I].
    + rewrite (account_insert c _ w wk _ [] Hw).
      * rewrite app_nil_r. exact Hcover.
      * unfold account. simpl. rewrite Hpc. simpl. rewrite Hs. simpl. rewrite Hb.
        rewrite !app_nil_r. reflexivity.
    + intros H. apply Hend. apply Exists_insert_worker in H as [H|H]; [discriminate H|exact H].
  - (* ReturnedFalse *)
    exists st. split; [reflexivity|]. split; [exact Hinv|reflexivity].
Qed.

Lemma run_schedule_invariant (c : ColumnDataCollection) (schedule : list nat) :
  segments_live c ->
  forall st, scan_invariant c st ->
  exists st', run_schedule c schedule st = Ok st' /\ scan_invariant c st' /\
              length (workers st') = length (workers st).
Proof.
  intros Hl. induction schedule as [|w rest IH]; intros st Hinv.
  - exists st. split; [reflexivity|]. split; [exact Hinv|reflexivity].
  - simpl. destruct (worker_step_invariant c w st Hl Hinv) as (st1 & -> & Hinv1 & Hlen1).
    simpl. destruct (IH st1 Hinv1) as (st' & Hr & Hinv' & Hlen').
    exists st'. split; [exact Hr|]. split; [exact Hinv'|congruence].
Qed.

(** *** Progress of the workers *)

(** The steps a worker has before it, at the least, until one of its
    calls returns false: three for a call that finds no chunk, four
    for every chunk it is handed. *)
Definition steps_left (p : worker_pc) : nat :=
  match p with
  | Calling => 3
  | HoldingLock => 2
  | Releasing None => 1
  | Releasing (Some _) => 5
  | Decoding _ _ _ => 4
  | ReturnedFalse => 0
  end.

(** What is left of a parallel scan: four steps for every chunk not
    yet handed out, and the steps the workers have before them. *)
Definition scan_measure (c : ColumnDataCollection) (st : ParallelScan) : nat :=
  4 * length (pending c (scan_state st))
  + list_sum (map (fun wk => steps_left (pc wk)) (workers st)).

(** A worker whose step is not a wait: it exists, has not returned
    false, and finds the lock free if it is about to take it. *)
Definition can_step (st : ParallelScan) (w : nat) : Prop :=
  exists wk, workers st !! w = Some wk /\
             match pc wk with
             | Calling => lock st = None
             | ReturnedFalse => False
             | _ => True
             end.

(** The lock is held by a worker that exists. *)
Definition lock_owned (st : ParallelScan) : Prop :=
  forall w, lock st = Some w -> w < length (workers st).

Lemma steps_left_insert (ws : list Worker) (w : nat) (wk wk' : Worker) :
  ws !! w = Some wk ->
  list_sum (map (fun wk => steps_left (pc wk)) (<[w := wk']> ws)) + steps_left (pc wk)
  = list_sum (map (fun wk => steps_left (pc wk)) ws) + steps_left (pc wk').
Proof.
  revert w. induction ws as [|x ws IH]; intros w Hw; [discriminate|].
  destruct w as [|w]; simpl in *.
  - injection Hw as ->. lia.
  - specialize (IH w Hw). lia.
Qed.

Lemma steps_left_initial (n : nat) :
  list_sum (map (fun wk => steps_left (pc wk)) (replicate n (mkWorker Calling 0 [])))
  = 3 * n.
Proof. induction n as [|n IH]; simpl in *; lia. Qed.

(** A step is a wait, which changes nothing, or lowers the measure; the
    step of a worker that can step is not a wait. *)
Lemma worker_step_measure (c : ColumnDataCollection) (w : nat) (st st' : ParallelScan) :
  segments_live c ->
  worker_step c w st = Ok st' ->
  (st' = st \/ scan_measure c st' < scan_measure c st) /\
  (can_step st w -> scan_measure c st' < scan_measure c st) /\
  (lock_owned st -> lock_owned st').
Proof.
  intros Hl Hrun. unfold worker_step in Hrun.
  destruct (workers st !! w) as [wk|] eqn:Hw.
  2:{ injection Hrun as <-. split; [left; reflexivity|]. split; [|exact (fun H => H)].
      intros (wk & Hx & _). congruence. }
  pose proof (lookup_lt_Some _ _ _ Hw) as Hlt.
  assert (Hcan : forall P : Prop,
            (match pc wk with
             | Calling => lock st = None
             | ReturnedFalse => False
             | _ => True
             end -> P) -> can_step st w -> P).
  { intros P HP (wk' & Hx & Hc). rewrite Hw in Hx. injection Hx as <-. exact (HP Hc). }
  assert (Hlower : forall wk' state1 l,
            4 * length (pending c state1) + steps_left (pc wk')
            < 4 * length (pending c (scan_state st)) + steps_left (pc wk) ->
            scan_measure c (set_worker st w wk' state1 l) < scan_measure c st).
  { intros wk' state1 l H. unfold scan_measure. simpl.
    pose proof (steps_left_insert (workers st) w wk wk' Hw). lia. }
  assert (Hown : forall wk' state1 l,
            (forall v, l = Some v -> v = w \/ lock st = Some v) ->
            lock_owned st -> lock_owned (set_worker st w wk' state1 l)).
  { intros wk' state1 l Hv Ho v Hlk. simpl in *. rewrite length_insert.
    destruct (Hv v Hlk) as [->|Hold]; [exact Hlt|exact (Ho v Hold)]. }
  destruct (pc wk) eqn:Hpc.
  - (* Calling *)
    destruct (lock st) as [holder|] eqn:Hlk; injection Hrun as <-.
    + split; [left; reflexivity|]. split; [|exact (fun H => H)].
      apply Hcan. discriminate.
    + assert (H : scan_measure c (set_worker st w
                    (mkWorker HoldingLock (local_current_row_index wk) (produced wk))
                    (scan_state st) (Some w)) < scan_measure c st)
        by (apply Hlower; simpl; lia).
      split; [right; exact H|]. split; [intros _; exact H|].
      apply Hown. intros v Hv. left. congruence.
  - (* HoldingLock *)
    destruct (NextScanIndex_spec c (scan_state st) Hl) as (state1 & next & Hnext & Hn).
    rewrite Hnext in Hrun. cbn [mbind result_bind bind] in Hrun. injection Hrun as <-.
    assert (H : scan_measure c (set_worker st w
                  (mkWorker (Releasing next) (local_current_row_index wk) (produced wk))
                  state1 (lock st)) < scan_measure c st).
    { apply Hlower. simpl.
      destruct next as [[[ci si] ri]|].
      - destruct Hn as (seg & b & _ & _ & -> & _). simpl. lia.
      - destruct Hn as [-> ->]. simpl. lia. }
    split; [right; exact H|]. split; [intros _; exact H|].
    apply Hown. intros v Hv. right. exact Hv.
  - (* Releasing *)
    injection Hrun as <-.
    match goal with
    | |- (set_worker st w ?wk' _ _ = _ \/ _) /\ _ =>
        assert (H : scan_measure c (set_worker st w wk' (scan_state st) None)
                    < scan_measure c st)
          by (apply Hlower; destruct next as [[[ci si] ri]|]; simpl; lia)
    end.
    split; [right; exact H|]. split; [intros _; exact H|].
    apply Hown. discriminate.
  - (* Decoding *)
    destruct (segment_at c segment_index0) as [segment|]; [|discriminate].
    cbn [mbind result_bind bind] in Hrun.
    destruct (ReadChunk segment chunk_index0) as [batch|]; [|discriminate].
    cbn [defined mbind result_bind bind] in Hrun. injection Hrun as <-.
    assert (H : scan_measure c (set_worker st w
                  (mkWorker Calling row_index (produced wk ++ [batch]))
                  (scan_state st) (lock st)) < scan_measure c st)
      by (apply Hlower; simpl; lia).
    split; [right; exact H|]. split; [intros _; exact H|].
    apply Hown. intros v Hv. right. exact Hv.
  - (* ReturnedFalse *)
    injection Hrun as <-. split; [left; reflexivity|]. split; [|exact (fun H => H)].
    apply Hcan. intros [].
Qed.

Lemma run_schedule_measure (c : ColumnDataCollection) (schedule : list nat) :
  segments_live c ->
  forall st st', run_schedule c schedule st = Ok st' ->
                 scan_measure c st' <= scan_measure c st /\
                 (lock_owned st -> lock_owned st').
Proof.
  intros Hl. induction schedule as [|w rest IH]; intros st st' Hrun; simpl in Hrun.
  - injection Hrun as <-. split; [lia|exact (fun H => H)].
  - destruct (worker_step c w st) as [st1|] eqn:Hstep; [|discriminate].
    cbn [mbind result_bind bind] in Hrun.
    destruct (worker_step_measure c w st st1 Hl Hstep) as (Hm & _ & Ho).
    destruct (IH st1 st' Hrun) as (Hm' & Ho').
    split; [destruct Hm as [->|Hm]; lia|exact (fun H => Ho' (Ho H))].
Qed.

Lemma returned_or_not (ws : list Worker) :
  Forall (fun wk => pc wk = ReturnedFalse) ws \/
  exists w wk, ws !! w = Some wk /\ pc wk <> ReturnedFalse.
Proof.
  induction ws as [|wk ws IH]; [left; constructor|].
  destruct (pc wk) eqn:Hpc;
    try (right; exists 0, wk; split; [reflexivity|congruence]).
  destruct IH as [IH|(w & x & Hw & Hx)].
  - left. constructor; assumption.
  - right. exists (S w), x. split; assumption.
Qed.

(** No reachable state is stuck: unless every worker has returned
    false, some worker can step. *)
Lemma some_worker_can_step (c : ColumnDataCollection) (st : ParallelScan) :
  scan_invariant c st -> lock_owned st ->
  all_returned_false st \/ exists w, w < length (workers st) /\ can_step st w.
Proof.
  intros [Hlock _ _ _] Hown. destruct (lock st) as [w|] eqn:Hlk.
  - pose proof (Hown w Hlk) as Hlt.
    right. exists w. split; [exact Hlt|].
    destruct (lookup_lt_is_Some_2 _ _ Hlt) as [wk Hw].
    exists wk. split; [exact Hw|].
    pose proof (proj2 (Hlock w wk Hw) eq_refl) as Hh.
    destruct (pc wk); try discriminate Hh; exact I.
  - destruct (returned_or_not (workers st)) as [Hall|(w & wk & Hw & Hpc)];
      [left; exact Hall|].
    right. exists w. split; [exact (lookup_lt_Some _ _ _ Hw)|].
    exists wk. split; [exact Hw|].
    pose proof (proj1 (Hlock w wk Hw)) as Hh.
    destruct (pc wk); try exact I; try reflexivity; try congruence;
      specialize (Hh eq_refl); discriminate Hh.
Qed.

(** Every reachable state can be run to the end, in no more steps than
    its measure. *)
Lemma scan_completes (c : ColumnDataCollection) :
  segments_live c ->
  forall m st,
    scan_invariant c st -> lock_owned st -> scan_measure c st <= m ->
    exists rest st',
      length rest <= m /\ run_schedule c rest st = Ok st' /\
      all_returned_false st' /\ scan_invariant c st' /\
      length (workers st') = length (workers st).
Proof.
  intros Hl. induction m as [|m IH]; intros st Hinv Hown Hm.
  - destruct (some_worker_can_step c st Hinv Hown) as [Hall|(w & _ & Hcan)].
    + exists [], st. split; [simpl; lia|]. split; [reflexivity|].
      split; [exact Hall|]. split; [exact Hinv|reflexivity].
    + destruct (worker_step_invariant c w st Hl Hinv) as (st1 & Hstep & _ & _).
      destruct (worker_step_measure c w st st1 Hl Hstep) as (_ & Hlt & _).
      specialize (Hlt Hcan). lia.
  - destruct (some_worker_can_step c st Hinv Hown) as [Hall|(w & _ & Hcan)].
    + exists [], st. split; [simpl; lia|]. split; [reflexivity|].
      split; [exact Hall|]. split; [exact Hinv|reflexivity].
    + destruct (worker_step_invariant c w st Hl Hinv) as (st1 & Hstep & Hinv1 & Hlen1).
      destruct (worker_step_measure c w st st1 Hl Hstep) as (_ & Hlt & Hown1).
      specialize (Hlt Hcan).
      destruct (IH st1 Hinv1 (Hown1 Hown) ltac:(lia))
        as (rest & st' & Hlen & Hrun & Hall & Hinv' & Hlen').
      exists (w :: rest), st'. split; [simpl; lia|].
      split; [simpl; rewrite Hstep; exact Hrun|]. split; [exact Hall|].
      split; [exact Hinv'|congruence].
Qed.

(** Once every worker has returned false, what the workers produced is
    what the collection holds. *)
Lemma coverage_at_the_end (c : ColumnDataCollection) (st : ParallelScan) :
  scan_invariant c st -> 0 < length (workers st) -> all_returned_false st ->
  concat (map produced (workers st)) ≡ₚ all_batches c.
Proof.
  intros [Hlock Hfetch Hcover Hend] Hlen Hall.
  assert (Hp : pending c (scan_state st) = []).
  { apply Hend. unfold all_returned_false in Hall.
    destruct (workers st) as [|wk ws]; [simpl in Hlen; lia|].
    apply Exists_cons_hd. apply Forall_cons in Hall as [Hwk _]. rewrite Hwk. reflexivity. }
  rewrite Hp, app_nil_r in Hcover. rewrite <- Hcover.
  replace (map (account c) (workers st)) with (map produced (workers st)); [reflexivity|].
  apply map_ext_Forall. eapply Forall_impl; [exact Hall|].
  intros wk Hwk. unfold account. rewrite Hwk. simpl. rewrite app_nil_r. reflexivity.
Qed.

(** C9. Whatever the interleaving of [n] workers scanning one
    collection through the shared cursor: no step faults; the lock is
    held only by a worker that is between entering the block that
    calls [NextScanIndex] and leaving it, so never by a worker that is
    decoding a chunk; and once every worker has seen the scan end, the
    batches the workers produced are, up to order, the batches of all
    chunks of the collection, each exactly once.  That end is reached:
    in the state after any schedule, either every worker has returned
    false or some worker can take a step that lowers what is left of
    the scan ([scan_measure], at most four steps a chunk and three a
    worker); a step of any worker is such a step or a wait that changes
    nothing; and from that state some continuation of no more steps
    than the measure brings every worker to return false, with every
    batch produced exactly once. *)
Theorem parallel_scan_lock_and_coverage (c : ColumnDataCollection) (n : nat)
    (schedule : list nat) :
  segments_live c -> 0 < n ->
  exists st,
    run_schedule c schedule (InitializeParallelScan n) = Ok st /\
    length (workers st) = n /\
    (forall w wk, workers st !! w = Some wk ->
       (lock st = Some w <-> holds_lock (pc wk) = true) /\
       (forall ci si ri, pc wk = Decoding ci si ri -> lock st <> Some w)) /\
    (all_returned_false st ->
       concat (map produced (workers st)) ≡ₚ all_batches c) /\
    (all_returned_false st \/
     exists w st1, w < n /\ worker_step c w st = Ok st1 /\
                   scan_measure c st1 < scan_measure c st) /\
    (forall w, exists st1,
       worker_step c w st = Ok st1 /\
       (st1 = st \/ scan_measure c st1 < scan_measure c st)) /\
    scan_measure c st <= 4 * length (all_batches c) + 3 * n /\
    exists rest st',
      length rest <= scan_measure c st /\
      run_schedule c rest st = Ok st' /\
      all_returned_false st' /\
      concat (map produced (workers st')) ≡ₚ all_batches c.
Proof.
  intros Hl Hn.
  destruct (run_schedule_invariant c schedule Hl _ (scan_invariant_initial c n))
    as (st & Hr & Hinv & Hlen).
  simpl in Hlen. rewrite length_replicate in Hlen.
  destruct (run_schedule_measure c schedule Hl _ _ Hr) as (Hm & Hown).
  assert (Hown' : lock_owned st) by (apply Hown; intros w Hw; discriminate Hw).
  assert (Hm0 : scan_measure c (InitializeParallelScan n)
                = 4 * length (all_batches c) + 3 * n).
  { unfold scan_measure. simpl. rewrite pending_initial, steps_left_initial. lia. }
  exists st. split; [exact Hr|]. split; [exact Hlen|]. split; [|split; [|split; [|split; [|split]]]].
  - pose proof Hinv as [Hlock _ _ _].
    intros w wk Hw. split; [symmetry; apply Hlock; exact Hw|].
    intros ci si ri Hpc Hlk. apply (Hlock _ _ Hw) in Hlk. rewrite Hpc in Hlk. discriminate Hlk.
  - intros Hall. apply (coverage_at_the_end c st Hinv); [lia|exact Hall].
  - destruct (some_worker_can_step c st Hinv Hown') as [Hall|(w & Hw & Hcan)];
      [left; exact Hall|right].
    destruct (worker_step_invariant c w st Hl Hinv) as (st1 & Hstep & _ & _).
    exists w, st1. split; [lia|]. split; [exact Hstep|].
    exact (proj1 (proj2 (worker_step_measure c w st st1 Hl Hstep)) Hcan).
  - intros w. destruct (worker_step_invariant c w st Hl Hinv) as (st1 & Hstep & _ & _).
    exists st1. split; [exact Hstep|].
    exact (proj1 (worker_step_measure c w st st1 Hl Hstep)).
  - lia.
  - destruct (scan_completes c Hl (scan_measure c st) st Hinv Hown' ltac:(lia))
      as (rest & st' & Hlen' & Hrun & Hall & Hinv' & Hws).
    exists rest, st'. split; [exact Hlen'|]. split; [exact Hrun|]. split; [exact Hall|].
    apply (coverage_at_the_end c st' Hinv'); [lia|exact Hall].
Qed.


(** ** The templated copy *)

Hypothesis STANDARD_VECTOR_SIZE_pos : 0 < STANDARD_VECTOR_SIZE.

(** Whether row [offset + i] of the source is valid. *)
Definition source_valid (d : VectorData) (row : nat) : bool :=
  source_RowIsValid d (get_index d row).

Lemma lookup_SetAllValid (n : nat) (mask : list bool) (r : nat) :
  SetAllValid n mask !! r =
  match mask !! r with
  | Some b => Some (if decide (r < n) then true else b)
  | None => None
  end.
Proof. unfold SetAllValid. rewrite list_lookup_imap. destruct (mask !! r); reflexivity. Qed.

Lemma length_SetAllValid (n : nat) (mask : list bool) :
  length (SetAllValid n mask) = length mask.
Proof. unfold SetAllValid. apply length_imap. Qed.

(** The rows at and above the count are valid, unless nothing was
    written yet. *)
Definition tail_valid (count : nat) (mask : list bool) : Prop :=
  count = 0 \/ forall r, count <= r < length mask -> mask !! r = Some true.

(** [ColumnDataCopyValidity] leaves the rows below the target offset,
    writes the validity of the source rows, and leaves the rows above
    valid. *)
Lemma ColumnDataCopyValidity_spec (source_data : VectorData) (target : list bool)
    (source_offset target_offset copy_count : nat) :
  length target = STANDARD_VECTOR_SIZE ->
  target_offset + copy_count <= STANDARD_VECTOR_SIZE ->
  tail_valid target_offset target ->
  exists mask,
    ColumnDataCopyValidity source_data target source_offset target_offset copy_count
      = Some mask /\
    length mask = STANDARD_VECTOR_SIZE /\
    (forall r, r < target_offset -> mask !! r = target !! r) /\
    (forall i, i < copy_count ->
       mask !! (target_offset + i) = Some (source_valid source_data (source_offset + i))) /\
    (forall r, target_offset + copy_count <= r < STANDARD_VECTOR_SIZE ->
       mask !! r = Some true).
Proof.
  intros Hlen Hfit Htail. unfold ColumnDataCopyValidity.
  set (validity := if decide (target_offset = 0) then _ else target).
  assert (Hv : length validity = STANDARD_VECTOR_SIZE /\
               (forall r, r < target_offset -> validity !! r = target !! r) /\
               (forall r, target_offset <= r < STANDARD_VECTOR_SIZE ->
                  validity !! r = Some true)).
  { unfold validity. destruct (decide (target_offset = 0)) as [->|Hne].
    - split; [rewrite length_SetAllValid; exact Hlen|]. split; [intros r Hr; lia|].
      intros r Hr. rewrite lookup_SetAllValid.
      destruct (lookup_lt_is_Some_2 target r) as [b ->]; [lia|].
      destruct (decide (r < STANDARD_VECTOR_SIZE)); [reflexivity|lia].
    - split; [exact Hlen|]. split; [reflexivity|].
      destruct Htail as [?|Ht]; [lia|]. intros r Hr. apply Ht. lia. }
  destruct Hv as (Hvl & Hvlow & Hvhigh).
  destruct (source_AllValid source_data) eqn:Hall; simpl.
  - exists validity. split; [reflexivity|]. split; [exact Hvl|]. split; [exact Hvlow|].
    split.
    + intros i Hi. rewrite Hvhigh by lia. f_equal.
      unfold source_valid, source_RowIsValid. unfold source_AllValid in Hall.
      destruct (vd_validity source_data); [discriminate|reflexivity].
    + intros r Hr. apply Hvhigh. lia.
  - destruct (for_range_inv
      (fun i mask =>
         length mask = STANDARD_VECTOR_SIZE /\
         (forall r, r < target_offset -> mask !! r = target !! r) /\
         (forall j, j < i ->
            mask !! (target_offset + j)
            = Some (source_valid source_data (source_offset + j))) /\
         (forall r, target_offset + i <= r < STANDARD_VECTOR_SIZE ->
            mask !! r = Some true))
      (fun i validity0 =>
         let idx := get_index source_data (source_offset + i) in
         if negb (source_RowIsValid source_data idx)
         then SetInvalid validity0 (target_offset + i)
         else Some validity0)
      0 copy_count validity) as (mask & Hrun & Hm).
    + lia.
    + split; [exact Hvl|]. split; [exact Hvlow|]. split; [intros j Hj; lia|].
      intros r Hr. apply Hvhigh. lia.
    + intros i st Hi (Hl & Hlow & Hdone & Hhigh). simpl.
      destruct (source_RowIsValid source_data (get_index source_data (source_offset + i)))
        eqn:Hrow; simpl.
      * exists st. split; [reflexivity|]. split; [exact Hl|]. split; [exact Hlow|]. split.
        -- intros j Hj. destruct (decide (j = i)) as [->|Hne]; [|apply Hdone; lia].
           rewrite Hhigh by lia. unfold source_valid. rewrite Hrow. reflexivity.
        -- intros r Hr. apply Hhigh. lia.
      * unfold SetInvalid. destruct (decide (target_offset + i < length st)); [|lia].
        eexists. split; [reflexivity|]. split; [rewrite length_insert; exact Hl|].
        split; [|split].
        -- intros r Hr. rewrite list_lookup_insert_ne by lia. apply Hlow. exact Hr.
        -- intros j Hj. destruct (decide (j = i)) as [->|Hne].
           ++ rewrite list_lookup_insert_eq by lia. unfold source_valid. rewrite Hrow.
              reflexivity.
           ++ rewrite list_lookup_insert_ne by lia. apply Hdone. lia.
        -- intros r Hr. rewrite list_lookup_insert_ne by lia. apply Hhigh. lia.
    + exists mask. split; [exact Hrun|]. destruct Hm as (Hl & Hlow & Hdone & Hhigh).
      split; [exact Hl|]. split; [exact Hlow|]. split; [exact Hdone|exact Hhigh].
Qed.

(** What an operation guarantees about the cell it stores: [Q h d x]
    relates the heap after the store, the input cell and the stored
    cell; the heap only grows, and [Q] survives its growth. *)
Definition operation_sound (OP : value_operation)
    (Q : list string -> Datum -> Datum -> Prop) : Prop :=
  (forall h d x h', OP h d = (x, h') -> (exists k, h' = h ++ k) /\ Q h' d x) /\
  (forall h k d x, Q h d x -> Q (h ++ k) d x).

(** The value loop of the templated copy. *)
Lemma copy_values_loop (OP : value_operation)
    (Q : list string -> Datum -> Datum -> Prop)
    (source_data : VectorData) (slots : list Datum) (h : list string)
    (source_offset count copy_count : nat) :
  operation_sound OP Q ->
  count + copy_count <= length slots ->
  exists slots' h',
    copy_values OP source_data source_offset count copy_count slots h
    = Some (slots', h') /\
    length slots' = length slots /\
    (exists k, h' = h ++ k) /\
    (forall r, r < count -> slots' !! r = slots !! r) /\
    (forall i, i < copy_count ->
       source_valid source_data (source_offset + i) = true ->
       exists x, slots' !! (count + i) = Some x /\
                 Q h' (vd_data source_data (get_index source_data (source_offset + i))) x).
Proof.
  intros [Hop Hmono] Hfit. unfold copy_values.
  destruct (for_range_inv
    (fun i (st : list Datum * list string) =>
       length st.1 = length slots /\
       (exists k, st.2 = h ++ k) /\
       (forall r, r < count -> st.1 !! r = slots !! r) /\
       (forall j, j < i ->
          source_valid source_data (source_offset + j) = true ->
          exists x, st.1 !! (count + j) = Some x /\
                    Q st.2 (vd_data source_data (get_index source_data (source_offset + j))) x))
    (fun i '(slots0, h0) =>
         let source_idx := get_index source_data (source_offset + i) in
         if source_RowIsValid source_data source_idx then
           let '(x, h1) := OP h0 (vd_data source_data source_idx) in
           slots1 ← store_value slots0 (count + i) x;
           Some (slots1, h1)
         else Some (slots0, h0))
    0 copy_count (slots, h)) as ([slots' h'] & Hrun & Hinv).
  - lia.
  - simpl. split; [reflexivity|]. split; [exists []; rewrite app_nil_r; reflexivity|].
    split; [reflexivity|]. intros j Hj. lia.
  - intros i [slots0 h0] Hi (Hl & [k Hk] & Hlow & Hdone). simpl in *.
    destruct (source_RowIsValid source_data (get_index source_data (source_offset + i)))
      eqn:Hrow.
    + destruct (OP h0 (vd_data source_data (get_index source_data (source_offset + i))))
        as [x h1] eqn:Hx.
      destruct (Hop _ _ _ _ Hx) as ([k1 Hk1] & HQ).
      unfold store_value. destruct (decide (count + i < length slots0)); [|lia]. simpl.
      eexists (_, _). split; [reflexivity|]. simpl.
      split; [rewrite length_insert; exact Hl|].
      split; [exists (k ++ k1); rewrite Hk1, Hk, app_assoc; reflexivity|].
      split.
      * intros r Hr. rewrite list_lookup_insert_ne by lia. apply Hlow. exact Hr.
      * intros j Hj Hvalid. destruct (decide (j = i)) as [->|Hne].
        -- exists x. split; [apply list_lookup_insert_eq; lia|exact HQ].
        -- destruct (Hdone j ltac:(lia) Hvalid) as (y & Hy & HQy).
           exists y. split; [rewrite list_lookup_insert_ne by lia; exact Hy|].
           rewrite Hk1. apply Hmono. exact HQy.
    + exists (slots0, h0). split; [reflexivity|]. simpl.
      split; [exact Hl|]. split; [exists k; exact Hk|]. split; [exact Hlow|].
      intros j Hj Hvalid. destruct (decide (j = i)) as [->|Hne].
      * unfold source_valid in Hvalid. congruence.
      * apply Hdone; [lia|exact Hvalid].
  - exists slots', h'. split; [exact Hrun|]. simpl in Hinv.
    destruct Hinv as (Hl & Hk & Hlow & Hdone). repeat split; assumption.
Qed.


Lemma TemplatedColumnDataCopy_spec (OP : value_operation)
    (Q : list string -> Datum -> Datum -> Prop) (seg : Segment) (index : nat)
    (vd : VectorMetaData) (source_data : VectorData) (source_offset copy_count : nat) :
  operation_sound OP Q ->
  vector_data seg !! index = Some vd ->
  length (bits vd) = STANDARD_VECTOR_SIZE ->
  length (values vd) = STANDARD_VECTOR_SIZE ->
  vcount vd + copy_count <= STANDARD_VECTOR_SIZE ->
  tail_valid (vcount vd) (bits vd) ->
  exists slots mask h,
    TemplatedColumnDataCopy OP seg index source_data source_offset copy_count
    = Some (set_vector_data (set_heap seg h)
              (<[index := mkVectorMetaData slots mask (vcount vd + copy_count)
                            (child_index vd) (next_data vd)]> (vector_data seg))) /\
    length slots = STANDARD_VECTOR_SIZE /\
    length mask = STANDARD_VECTOR_SIZE /\
    (exists k, h = heap seg ++ k) /\
    (forall r, r < vcount vd -> slots !! r = values vd !! r /\ mask !! r = bits vd !! r) /\
    (forall i, i < copy_count ->
       mask !! (vcount vd + i) = Some (source_valid source_data (source_offset + i))) /\
    (forall r, vcount vd + copy_count <= r < STANDARD_VECTOR_SIZE ->
       mask !! r = Some true) /\
    (forall i, i < copy_count ->
       source_valid source_data (source_offset + i) = true ->
       exists x, slots !! (vcount vd + i) = Some x /\
                 Q h (vd_data source_data (get_index source_data (source_offset + i))) x).
Proof.
  intros Hop Hvd Hbits Hvals Hfit Htail.
  unfold TemplatedColumnDataCopy, GetVectorData. rewrite Hvd. simpl.
  destruct (ColumnDataCopyValidity_spec source_data (bits vd) source_offset (vcount vd)
              copy_count Hbits Hfit Htail) as (mask & -> & Hml & Hmlow & Hmnew & Hmhigh).
  simpl.
  destruct (copy_values_loop OP Q source_data (values vd) (heap seg) source_offset
              (vcount vd) copy_count Hop ltac:(lia))
    as (slots & h & -> & Hsl & Hk & Hslow & Hsnew).
  simpl. unfold put_vector. simpl.
  destruct (decide (index < length (vector_data seg))) as [_|Hn];
    [|exfalso; apply Hn; eapply lookup_lt_Some; exact Hvd].
  exists slots, mask, h. split; [reflexivity|].
  split; [congruence|]. split; [exact Hml|]. split; [exact Hk|].
  split; [intros r Hr; split; [apply Hslow|apply Hmlow]; exact Hr|].
  split; [exact Hmnew|]. split; [exact Hmhigh|exact Hsnew].
Qed.

(** ** What a vector of the pool holds *)

(** The rows of a descriptor, each cell read by [cell]. *)
Definition rows_of (vd : VectorMetaData) (cell : Datum -> Value) : list Value :=
  map (fun row => if row_is_valid vd row then cell (stored_datum vd row) else VNull)
      (seq 0 (vcount vd)).

Lemma length_rows_of (vd : VectorMetaData) (cell : Datum -> Value) :
  length (rows_of vd cell) = vcount vd.
Proof. unfold rows_of. rewrite length_map, length_seq. reflexivity. Qed.

Lemma lookup_rows_of (vd : VectorMetaData) (cell : Datum -> Value) (r : nat) :
  r < vcount vd ->
  rows_of vd cell !! r
  = Some (if row_is_valid vd r then cell (stored_datum vd r) else VNull).
Proof.
  intros Hr. unfold rows_of. rewrite list_lookup_fmap, lookup_seq_lt by exact Hr.
  reflexivity.
Qed.

(** Rows after a copy: the old rows, then one row per copied source
    row. *)
Lemma rows_after_copy (old new : list Value) (f : nat -> Value) (c n offset : nat) :
  length old = c -> length new = c + n ->
  (forall r, r < c -> new !! r = old !! r) ->
  (forall i, i < n -> new !! (c + i) = Some (f (offset + i))) ->
  new = old ++ map f (seq offset n).
Proof.
  intros Hold Hnew Hlow Hhigh. apply list_eq. intros r.
  destruct (decide (r < c)) as [Hr|Hr].
  - rewrite lookup_app_l by lia. apply Hlow. exact Hr.
  - rewrite lookup_app_r by lia. rewrite Hold.
    destruct (decide (r - c < n)) as [Hi|Hi].
    + replace r with (c + (r - c)) at 1 by lia. rewrite Hhigh by exact Hi.
      rewrite list_lookup_fmap, lookup_seq_lt by exact Hi. reflexivity.
    + rewrite lookup_ge_None_2 by lia. symmetry. apply lookup_ge_None_2.
      rewrite length_map, length_seq. lia.
Qed.


(** A vector of the pool together with the vectors it owns (its
    footprint) and the rows it holds. *)
Record Owned : Type := mkOwned {
  o_index : nat;
  o_fp : list nat;
  o_vals : list Value
}.

Definition struct_row (vd : VectorMetaData) (cols : list (list Value)) (row : nat)
    : Value :=
  if row_is_valid vd row
  then VStruct (map (fun col => default VNull (col !! row)) cols)
  else VNull.

(** A stored string is inlined or points at a blob of the segment's
    heap; it never points into the memory of an input batch. *)
Definition cell_stable (physical : PhysicalType) (h : list string) (d : Datum) : Prop :=
  match physical, d with
  | VARCHAR, DString (Pointer (InHeap k)) => k < length h
  | VARCHAR, DString (Pointer (InInput _)) => False
  | _, _ => True
  end.

(** A chain of child vectors from [index]: every slot holds its rows,
    every slot but the last is full and links to the next. *)
Fixpoint chain (rp : nat -> list nat -> list Value -> Prop) (seg : Segment)
    (index : nat) (slots : list Owned) {struct slots} : Prop :=
  match slots with
  | [] => False
  | slot :: rest =>
      o_index slot = index /\ rp (o_index slot) (o_fp slot) (o_vals slot) /\
      exists vd, vector_data seg !! o_index slot = Some vd /\
        match rest with
        | [] => next_data vd = None
        | next :: _ =>
            next_data vd = Some (o_index next) /\
            length (o_vals slot) = STANDARD_VECTOR_SIZE /\
            chain rp seg (o_index next) rest
        end
  end.

(** The child vectors of a struct vector whose child index is [base]:
    child [k] is entry [base + k] of the child index array and holds
    its rows. *)
Fixpoint kids_of (rps : list (nat -> list nat -> list Value -> Prop))
    (seg : Segment) (base k : nat) (kids : list Owned) {struct rps} : Prop :=
  match rps, kids with
  | [], [] => True
  | rp :: rps', kid :: kids' =>
      child_indices seg !! (base + k) = Some (Some (o_index kid)) /\
      rp (o_index kid) (o_fp kid) (o_vals kid) /\
      kids_of rps' seg base (S k) kids'
  | _, _ => False
  end.

(** [repr t seg index fp vals]: vector [index] of the pool of [seg]
    is a well-formed vector of type [t] that owns exactly the vectors
    [fp] and holds the rows [vals]. *)
Fixpoint repr (t : LogicalType) (seg : Segment) (index : nat) (fp : list nat)
    (vals : list Value) {struct t} : Prop :=
  match t with
  | mkLogicalType physical children =>
      exists vd,
        vector_data seg !! index = Some vd /\
        vcount vd <= STANDARD_VECTOR_SIZE /\
        length (bits vd) = STANDARD_VECTOR_SIZE /\
        tail_valid (vcount vd) (bits vd) /\
        length vals = vcount vd /\
        NoDup fp /\
        match physical with
        | STRUCT =>
            match child_index vd with
            | None => vcount vd = 0 /\ fp = [index]
            | Some base =>
                exists kids : list Owned,
                  kids_of (map (fun t => repr t seg) children) seg base 0 kids /\
                  Forall (fun kid => length (o_vals kid) = vcount vd) kids /\
                  fp = index :: concat (map o_fp kids) /\
                  vals = map (struct_row vd (map o_vals kids)) (seq 0 (vcount vd))
            end
        | LIST =>
            length (values vd) = STANDARD_VECTOR_SIZE /\
            match children with
            | child_type :: _ =>
                match child_index vd with
                | None => vcount vd = 0 /\ fp = [index]
                | Some position =>
                    exists root slots,
                      child_indices seg !! position = Some (Some root) /\
                      chain (repr child_type seg) seg root slots /\
                      fp = index :: concat (map o_fp slots) /\
                      vals = rows_of vd (stored_list (concat (map o_vals slots))) /\
                      forall r offset length,
                        r < vcount vd -> row_is_valid vd r = true ->
                        stored_datum vd r = DListEntry offset length ->
                        offset + length <= List.length (concat (map o_vals slots))
                end
            | [] => False
            end
        | _ =>
            length (values vd) = STANDARD_VECTOR_SIZE /\
            fp = [index] /\
            vals = rows_of vd (stored_scalar physical (heap seg)) /\
            forall r, r < vcount vd -> row_is_valid vd r = true ->
                      cell_stable physical (heap seg) (stored_datum vd r)
        end
  end.

Lemma LogicalType_induction (P : LogicalType -> Prop) :
  (forall physical children, Forall P children -> P (mkLogicalType physical children)) ->
  forall t, P t.
Proof.
  intros H. fix IH 1. intros [physical children]. apply H.
  induction children as [|c cs IHcs]; constructor; [apply IH|exact IHcs].
Qed.


(** *** Frame properties *)

(** [seg'] has the vectors [fp] as [seg] has them, and the child index
    array and the heap of [seg] as prefixes of its own. *)
Definition agrees (fp : list nat) (seg seg' : Segment) : Prop :=
  (forall i, i ∈ fp -> vector_data seg' !! i = vector_data seg !! i) /\
  (exists k, child_indices seg' = child_indices seg ++ k) /\
  (exists k, heap seg' = heap seg ++ k).

Lemma agrees_subset (fp fp' : list nat) (seg seg' : Segment) :
  agrees fp seg seg' -> (forall i, i ∈ fp' -> i ∈ fp) -> agrees fp' seg seg'.
Proof. intros (Hv & Hc & Hh) Hsub. split; [|split; assumption]. intros i Hi. apply Hv, Hsub, Hi. Qed.

Lemma agrees_refl (fp : list nat) (seg : Segment) : agrees fp seg seg.
Proof.
  split; [reflexivity|]. split; exists []; rewrite app_nil_r; reflexivity.
Qed.

Definition stable (rp : Segment -> nat -> list nat -> list Value -> Prop) : Prop :=
  forall seg seg' index fp vals,
    rp seg index fp vals -> agrees fp seg seg' -> rp seg' index fp vals.

Definition owns_itself (rp : Segment -> nat -> list nat -> list Value -> Prop) : Prop :=
  forall seg index fp vals, rp seg index fp vals -> index ∈ fp.

Lemma repr_owns_itself (t : LogicalType) : owns_itself (repr t).
Proof.
  intros seg index fp vals H. destruct t as [physical children]. simpl in H.
  destruct H as (vd & _ & _ & _ & _ & _ & _ & H).
  destruct physical;
    try (destruct H as (_ & -> & _); apply list_elem_of_singleton; reflexivity).
  - destruct (child_index vd).
    + destruct H as (kids & _ & _ & -> & _). apply list_elem_of_here.
    + destruct H as (_ & ->). apply list_elem_of_singleton. reflexivity.
  - destruct H as (_ & H). destruct children as [|ct cs]; [contradiction|].
    destruct (child_index vd).
    + destruct H as (root & slots & _ & _ & -> & _). apply list_elem_of_here.
    + destruct H as (_ & ->). apply list_elem_of_singleton. reflexivity.
Qed.

Lemma lookup_prefix {A : Type} (l k : list A) (i : nat) (x : A) :
  l !! i = Some x -> (l ++ k) !! i = Some x.
Proof. intros H. apply lookup_app_l_Some. exact H. Qed.

Lemma elem_of_concat_fp (xs : list Owned) (x : Owned) (i : nat) :
  x ∈ xs -> i ∈ o_fp x -> i ∈ concat (map o_fp xs).
Proof.
  intros Hx Hi. apply list_elem_of_In. apply in_concat. exists (o_fp x).
  split; [apply in_map; apply list_elem_of_In; exact Hx|apply list_elem_of_In; exact Hi].
Qed.

Lemma kids_of_frame (children : list LogicalType) (seg seg' : Segment) :
  Forall (fun t => stable (repr t)) children ->
  forall base k kids,
    kids_of (map (fun t => repr t seg) children) seg base k kids ->
    agrees (concat (map o_fp kids)) seg seg' ->
    kids_of (map (fun t => repr t seg') children) seg' base k kids.
Proof.
  intros Hst. induction Hst as [|t ts Ht _ IH]; intros base k kids Hk Hag.
  - destruct kids; [exact I|contradiction].
  - destruct kids as [|kid kids]; [contradiction|]. simpl in *.
    destruct Hk as (Hci & Hr & Hrest).
    split; [|split].
    + destruct Hag as (_ & [x ->] & _). apply lookup_prefix. exact Hci.
    + apply (Ht seg); [exact Hr|]. apply (agrees_subset _ _ _ _ Hag).
      intros i Hi. apply elem_of_app. left. exact Hi.
    + apply IH; [exact Hrest|]. apply (agrees_subset _ _ _ _ Hag).
      intros i Hi. apply elem_of_app. right. exact Hi.
Qed.

Lemma chain_frame (t : LogicalType) (seg seg' : Segment) :
  stable (repr t) ->
  forall slots root,
    chain (repr t seg) seg root slots ->
    agrees (concat (map o_fp slots)) seg seg' ->
    chain (repr t seg') seg' root slots.
Proof.
  intros Hst. induction slots as [|slot rest IH]; intros root Hc Hag; [contradiction|].
  simpl in *. destruct Hc as (Hi & Hr & vd & Hvd & Hrest).
  split; [exact Hi|]. split.
  - apply (Hst seg); [exact Hr|]. apply (agrees_subset _ _ _ _ Hag).
    intros i Hin. apply elem_of_app. left. exact Hin.
  - exists vd. split.
    + destruct Hag as (Hv & _). rewrite Hv; [exact Hvd|].
      apply elem_of_app. left. exact (repr_owns_itself t _ _ _ _ Hr).
    + destruct rest as [|next rest']; [exact Hrest|].
      destruct Hrest as (Hn & Hfull & Hch). split; [exact Hn|]. split; [exact Hfull|].
      apply IH; [exact Hch|]. apply (agrees_subset _ _ _ _ Hag).
      intros i Hin. apply elem_of_app. right. exact Hin.
Qed.

Lemma rows_of_ext (vd : VectorMetaData) (f g : Datum -> Value) :
  (forall r, r < vcount vd -> row_is_valid vd r = true ->
             f (stored_datum vd r) = g (stored_datum vd r)) ->
  rows_of vd f = rows_of vd g.
Proof.
  intros H. unfold rows_of. apply map_ext_in. intros r Hr. apply in_seq in Hr.
  destruct (row_is_valid vd r) eqn:Hv; [|reflexivity]. apply H; [lia|exact Hv].
Qed.

Lemma stored_scalar_stable (physical : PhysicalType) (h k : list string) (d : Datum) :
  cell_stable physical h d ->
  stored_scalar physical (h ++ k) d = stored_scalar physical h d /\
  cell_stable physical (h ++ k) d.
Proof.
  unfold cell_stable, stored_scalar.
  destruct physical; try (intros _; split; [reflexivity|destruct d; exact I]).
  destruct d as [z|[s|[a|b]]|o l]; intros H; try (split; [reflexivity|exact I]);
    [destruct H|].
  simpl. split; [|rewrite length_app; lia].
  rewrite lookup_app_l by exact H. reflexivity.
Qed.

(** [repr] looks only at the vectors of its footprint. *)
Lemma repr_stable (t : LogicalType) : stable (repr t).
Proof.
  induction t as [physical children IH] using LogicalType_induction.
  intros seg seg' index fp vals H Hag. simpl in *.
  destruct H as (vd & Hvd & Hc & Hb & Ht & Hl & Hnd & H).
  assert (Hself : index ∈ fp).
  { apply (repr_owns_itself (mkLogicalType physical children) seg index fp vals).
    simpl. exists vd. repeat split; assumption. }
  exists vd. split; [destruct Hag as (Hv & _); rewrite Hv; [exact Hvd|exact Hself]|].
  split; [exact Hc|]. split; [exact Hb|]. split; [exact Ht|]. split; [exact Hl|].
  split; [exact Hnd|].
  destruct physical;
    try (destruct H as (Hvl & Hfp & Hvals & Hstable);
         split; [exact Hvl|]; split; [exact Hfp|];
         destruct Hag as (_ & _ & [k ->]);
         split;
         [rewrite Hvals; apply rows_of_ext; intros r Hr Hv;
          symmetry; apply stored_scalar_stable; apply Hstable; assumption
         |intros r Hr Hv; apply stored_scalar_stable; apply Hstable; assumption]).
  - (* STRUCT *)
    destruct (child_index vd) as [base|]; [|exact H].
    destruct H as (kids & Hk & Hlen & Hfp & Hvals). exists kids.
    split; [|split; [exact Hlen|split; assumption]].
    apply (kids_of_frame children seg seg' IH); [exact Hk|].
    apply (agrees_subset _ _ _ _ Hag). intros i Hi. rewrite Hfp. apply list_elem_of_further. exact Hi.
  - (* LIST *)
    destruct H as (Hvl & H). split; [exact Hvl|].
    destruct children as [|ct cs]; [contradiction|].
    destruct (child_index vd) as [position|]; [|exact H].
    destruct H as (root & slots & Hci & Hch & Hfp & Hvals & Hin).
    exists root, slots. split.
    + destruct Hag as (_ & [x ->] & _). apply lookup_prefix. exact Hci.
    + split; [|split; [exact Hfp|split; assumption]].
      apply (chain_frame ct seg seg'); [exact (Forall_inv IH)|exact Hch|].
      apply (agrees_subset _ _ _ _ Hag). intros i Hi. rewrite Hfp.
      apply list_elem_of_further. exact Hi.
Qed.


(** *** Footprints lie in the pool *)

Definition bounded (seg : Segment) (fp : list nat) : Prop :=
  forall i, i ∈ fp -> i < length (vector_data seg).

Lemma kids_of_bounded (children : list LogicalType) (seg : Segment) :
  Forall (fun t => forall index fp vals, repr t seg index fp vals -> bounded seg fp)
         children ->
  forall base k kids,
    kids_of (map (fun t => repr t seg) children) seg base k kids ->
    bounded seg (concat (map o_fp kids)).
Proof.
  intros Hb. induction Hb as [|t ts Ht _ IH]; intros base k kids Hk.
  - destruct kids; [|contradiction]. intros i Hi. inversion Hi.
  - destruct kids as [|kid kids]; [contradiction|]. simpl in *.
    destruct Hk as (_ & Hr & Hrest). intros i Hi.
    apply elem_of_app in Hi as [Hi|Hi].
    + exact (Ht _ _ _ Hr i Hi).
    + exact (IH _ _ _ Hrest i Hi).
Qed.

Lemma chain_bounded (t : LogicalType) (seg : Segment) :
  (forall index fp vals, repr t seg index fp vals -> bounded seg fp) ->
  forall slots root,
    chain (repr t seg) seg root slots -> bounded seg (concat (map o_fp slots)).
Proof.
  intros Hb. induction slots as [|slot rest IH]; intros root Hc; [contradiction|].
  simpl in *. destruct Hc as (_ & Hr & vd & _ & Hrest). intros i Hi.
  apply elem_of_app in Hi as [Hi|Hi]; [exact (Hb _ _ _ Hr i Hi)|].
  destruct rest as [|next rest']; [inversion Hi|].
  destruct Hrest as (_ & _ & Hch). exact (IH _ Hch i Hi).
Qed.

Lemma repr_bounded (t : LogicalType) (seg : Segment) (index : nat) (fp : list nat)
    (vals : list Value) :
  repr t seg index fp vals -> bounded seg fp.
Proof.
  revert index fp vals.
  induction t as [physical children IH] using LogicalType_induction.
  intros index fp vals H. simpl in H.
  destruct H as (vd & Hvd & _ & _ & _ & _ & _ & H).
  pose proof (lookup_lt_Some _ _ _ Hvd) as Hlt.
  assert (Hone : bounded seg [index]).
  { intros i Hi. apply list_elem_of_singleton in Hi. subst. exact Hlt. }
  destruct physical; try (destruct H as (_ & -> & _); exact Hone).
  - destruct (child_index vd); [|destruct H as (_ & ->); exact Hone].
    destruct H as (kids & Hk & _ & -> & _). intros i Hi.
    apply elem_of_cons in Hi as [->|Hi]; [exact Hlt|].
    exact (kids_of_bounded children seg IH _ _ _ Hk i Hi).
  - destruct H as (_ & H). destruct children as [|ct cs]; [contradiction|].
    destruct (child_index vd); [|destruct H as (_ & ->); exact Hone].
    destruct H as (root & slots & _ & Hch & -> & _). intros i Hi.
    apply elem_of_cons in Hi as [->|Hi]; [exact Hlt|].
    exact (chain_bounded ct seg (Forall_inv IH) _ _ Hch i Hi).
Qed.

Lemma bounded_NoDup_length (seg : Segment) (fp : list nat) :
  bounded seg fp -> NoDup fp -> length fp <= length (vector_data seg).
Proof.
  intros Hb Hnd.
  replace (length (vector_data seg)) with (length (seq 0 (length (vector_data seg))))
    by apply length_seq.
  apply NoDup_incl_length.
  - apply NoDup_ListNoDup. exact Hnd.
  - intros i Hi. apply in_seq. apply list_elem_of_In in Hi. specialize (Hb i Hi). lia.
Qed.

(** *** Reading what a vector holds *)

Lemma read_fields_kids (children : list LogicalType) (seg : Segment) :
  Forall (fun t => forall index fp vals,
            repr t seg index fp vals -> ReadVector t seg index = vals) children ->
  forall base k kids,
    kids_of (map (fun t => repr t seg) children) seg base k kids ->
    read_fields (map (fun t => ReadVector t seg) children) seg (Some base) k
    = map o_vals kids.
Proof.
  intros Hr. induction Hr as [|t ts Ht _ IH]; intros base k kids Hk.
  - destruct kids; [reflexivity|contradiction].
  - destruct kids as [|kid kids]; [contradiction|]. simpl in *.
    destruct Hk as (Hci & Hrep & Hrest).
    unfold GetChildIndex. rewrite Hci. rewrite (Ht _ _ _ Hrep).
    f_equal. exact (IH _ _ _ Hrest).
Qed.

Lemma read_chain_slots (t : LogicalType) (seg : Segment) :
  (forall index fp vals, repr t seg index fp vals -> ReadVector t seg index = vals) ->
  forall slots root fuel,
    chain (repr t seg) seg root slots -> length slots <= fuel ->
    read_chain (ReadVector t seg) seg fuel root = concat (map o_vals slots).
Proof.
  intros Hr. induction slots as [|slot rest IH]; intros root fuel Hc Hf; [contradiction|].
  simpl in Hc. destruct Hc as (<- & Hrep & vd & Hvd & Hrest).
  destruct fuel as [|fuel]; [simpl in Hf; lia|]. simpl.
  rewrite (Hr _ _ _ Hrep). f_equal. unfold GetVectorData. rewrite Hvd.
  destruct rest as [|next rest'].
  - rewrite Hrest. reflexivity.
  - destruct Hrest as (-> & _ & Hch). apply IH; [exact Hch|simpl in *; lia].
Qed.

Lemma chain_length_le (t : LogicalType) (seg : Segment) (slots : list Owned) (root : nat) :
  chain (repr t seg) seg root slots ->
  length slots <= length (concat (map o_fp slots)).
Proof.
  revert root. induction slots as [|slot rest IH]; intros root Hc; [contradiction|].
  simpl in *. destruct Hc as (_ & Hrep & vd & _ & Hrest).
  pose proof (repr_owns_itself t _ _ _ _ Hrep) as Hin.
  rewrite length_app.
  assert (1 <= length (o_fp slot)).
  { destruct (o_fp slot); [inversion Hin|simpl; lia]. }
  destruct rest as [|next rest']; [simpl; lia|].
  destruct Hrest as (_ & _ & Hch). specialize (IH _ Hch). simpl in *. lia.
Qed.

(** Reading a vector returns the rows it holds. *)
Lemma repr_ReadVector (t : LogicalType) (seg : Segment) (index : nat) (fp : list nat)
    (vals : list Value) :
  repr t seg index fp vals -> ReadVector t seg index = vals.
Proof.
  revert index fp vals.
  induction t as [physical children IH] using LogicalType_induction.
  intros index fp vals H. pose proof (repr_bounded _ _ _ _ _ H) as Hbd.
  simpl in H. destruct H as (vd & Hvd & _ & _ & _ & Hl & Hnd & H).
  simpl. unfold GetVectorData. rewrite Hvd.
  destruct physical;
    try (destruct H as (_ & _ & -> & _); reflexivity).
  - (* STRUCT *)
    destruct (child_index vd) as [base|].
    + destruct H as (kids & Hk & _ & _ & ->).
      rewrite (read_fields_kids children seg IH _ _ _ Hk). reflexivity.
    + destruct H as (Hz & _). rewrite Hz in Hl |- *. destruct vals; [reflexivity|discriminate].
  - (* LIST *)
    destruct H as (_ & H). destruct children as [|ct cs]; [contradiction|].
    destruct (child_index vd) as [position|].
    + destruct H as (root & slots & Hci & Hch & Hfp & -> & _).
      unfold GetChildIndex. rewrite Nat.add_0_r, Hci.
      rewrite (read_chain_slots ct seg (Forall_inv IH) slots root); [reflexivity|exact Hch|].
      pose proof (chain_length_le _ _ _ _ Hch) as Hle.
      pose proof (bounded_NoDup_length seg fp Hbd Hnd) as Hle2.
      rewrite Hfp in Hle2. simpl in Hle2. lia.
    + destruct H as (Hz & _). rewrite Hz in Hl |- *. destruct vals; [reflexivity|discriminate].
Qed.


(** *** Segments after a copy *)

(** [extends fp seg seg']: [seg'] is [seg] after work confined to the
    vectors [fp] and to vectors, child index entries and blobs that
    did not exist in [seg]. *)
Record extends (fp : list nat) (seg seg' : Segment) : Prop := mkExtends {
  ext_vectors : forall i, i ∉ fp -> i < length (vector_data seg) ->
                  vector_data seg' !! i = vector_data seg !! i;
  ext_length : length (vector_data seg) <= length (vector_data seg');
  ext_children : exists k, child_indices seg' = child_indices seg ++ k;
  ext_heap : exists k, heap seg' = heap seg ++ k;
  ext_chunks : chunk_data seg' = chunk_data seg;
  ext_count : segment_count seg' = segment_count seg;
  ext_types : segment_types seg' = segment_types seg
}.

Lemma extends_refl (fp : list nat) (seg : Segment) : extends fp seg seg.
Proof.
  split; try reflexivity; try lia; exists []; rewrite app_nil_r; reflexivity.
Qed.

Lemma extends_trans (fp1 fp2 fp : list nat) (seg1 seg2 seg3 : Segment) :
  extends fp1 seg1 seg2 -> extends fp2 seg2 seg3 ->
  (forall i, i ∈ fp1 -> i ∈ fp) ->
  (forall i, i ∈ fp2 -> i < length (vector_data seg1) -> i ∈ fp) ->
  extends fp seg1 seg3.
Proof.
  intros [Hv1 Hl1 [k1 Hc1] [h1 Hh1] Hk1 Hn1 Ht1] [Hv2 Hl2 [k2 Hc2] [h2 Hh2] Hk2 Hn2 Ht2]
         Hs1 Hs2.
  split; try congruence; try lia.
  - intros i Hi Hlt. rewrite Hv2, Hv1; [reflexivity| |exact Hlt| |lia].
    + intros Hin. apply Hi, Hs1, Hin.
    + intros Hin. apply Hi, Hs2; [exact Hin|exact Hlt].
  - exists (k1 ++ k2). rewrite Hc2, Hc1, app_assoc. reflexivity.
  - exists (h1 ++ h2). rewrite Hh2, Hh1, app_assoc. reflexivity.
Qed.

Lemma extends_weaken (fp fp' : list nat) (seg seg' : Segment) :
  extends fp seg seg' -> (forall i, i ∈ fp -> i ∈ fp') -> extends fp' seg seg'.
Proof.
  intros H Hsub. apply (extends_trans fp [] fp' seg seg' seg');
    [exact H|apply extends_refl|exact Hsub|].
  intros i Hi. inversion Hi.
Qed.

(** Vectors apart from the ones worked on are as they were. *)
Lemma extends_agrees (fp0 fp : list nat) (seg seg' : Segment) :
  extends fp0 seg seg' -> bounded seg fp -> (forall i, i ∈ fp -> i ∉ fp0) ->
  agrees fp seg seg'.
Proof.
  intros [Hv _ Hc Hh _ _ _] Hb Hd. split; [|split; assumption].
  intros i Hi. apply Hv; [apply Hd; exact Hi|apply Hb; exact Hi].
Qed.

Lemma repr_extends (t : LogicalType) (fp0 fp : list nat) (seg seg' : Segment)
    (index : nat) (vals : list Value) :
  repr t seg index fp vals -> extends fp0 seg seg' ->
  (forall i, i ∈ fp -> i ∉ fp0) ->
  repr t seg' index fp vals.
Proof.
  intros Hr He Hd. apply (repr_stable t seg); [exact Hr|].
  apply (extends_agrees fp0); [exact He|exact (repr_bounded _ _ _ _ _ Hr)|exact Hd].
Qed.

(** *** Well-formed input vectors *)

(** [vector_ok t v rows]: [v] is a vector of type [t] with one child
    per child type, and on the rows [rows] (and the child rows they
    reach) every list entry lies within the child vector. *)
Fixpoint vectors_ok (oks : list (Vector -> Prop)) (vs : list Vector) : Prop :=
  match oks, vs with
  | [], [] => True
  | ok :: oks', v :: vs' => ok v /\ vectors_ok oks' vs'
  | _, _ => False
  end.

Fixpoint vector_ok (t : LogicalType) (rows : nat -> Prop) (v : Vector) {struct t}
    : Prop :=
  match t with
  | mkLogicalType physical children =>
      GetType v = mkLogicalType physical children /\
      match physical with
      | STRUCT =>
          vectors_ok
            (map (fun ct =>
                    vector_ok ct (fun i => exists r, rows r /\ i = vector_sel v r))
                 children)
            (GetEntries v)
      | LIST =>
          match children, GetEntries v with
          | ct :: _, child :: _ =>
              (forall r offset length,
                 rows r -> source_valid (Orrify v) r = true ->
                 vector_values v (vector_sel v r) = DListEntry offset length ->
                 offset + length <= GetListSize v) /\
              vector_ok ct (fun i => i < GetListSize v) child
          | _, _ => False
          end
      | _ => True
      end
  end.

(** Every struct vector inside [v] has the identity selection. *)
Fixpoint struct_flat (t : LogicalType) (v : Vector) {struct t} : Prop :=
  match t with
  | mkLogicalType physical children =>
      match physical with
      | STRUCT =>
          (forall r, vector_sel v r = r) /\
          vectors_ok (map struct_flat children) (GetEntries v)
      | LIST =>
          match children, GetEntries v with
          | ct :: _, child :: _ => struct_flat ct child
          | _, _ => True
          end
      | _ => True
      end
  end.

Lemma Vector_induction (P : Vector -> Prop) :
  (forall t sel data validity children list_size,
     Forall P children -> P (mkVector t sel data validity children list_size)) ->
  forall v, P v.
Proof.
  intros H. fix IH 1. intros [t sel data validity children list_size]. apply H.
  induction children as [|c cs IHcs]; constructor; [apply IH|exact IHcs].
Qed.

(** [Normalify] keeps the rows. *)
Lemma Normalify_with_row (v : Vector) :
  forall s r, vector_row (Normalify_with s v) r = vector_row v (s r).
Proof.
  induction v as [t sel data validity children list_size IH] using Vector_induction.
  intros s r. simpl.
  destruct validity as [m|]; simpl.
  - destruct (m (sel (s r))); [|reflexivity].
    destruct (InternalType t) eqn:Ht; try reflexivity.
    + f_equal. rewrite map_map. apply map_ext_Forall.
      eapply Forall_impl; [exact IH|]. intros c Hc. simpl. rewrite Hc. reflexivity.
    + destruct (data (sel (s r))) as [| |offset length]; try reflexivity.
      destruct children as [|c cs]; [reflexivity|]. simpl. f_equal.
      apply map_ext. intros i. apply (Forall_inv IH).
  - destruct (InternalType t) eqn:Ht; try reflexivity.
    + f_equal. rewrite map_map. apply map_ext_Forall.
      eapply Forall_impl; [exact IH|]. intros c Hc. simpl. rewrite Hc. reflexivity.
    + destruct (data (sel (s r))) as [| |offset length]; try reflexivity.
      destruct children as [|c cs]; [reflexivity|]. simpl. f_equal.
      apply map_ext. intros i. apply (Forall_inv IH).
Qed.

Lemma Normalify_row (v : Vector) (r : nat) : vector_row (Normalify v) r = vector_row v r.
Proof. unfold Normalify. apply Normalify_with_row. Qed.


Lemma vectors_ok_map (children : list LogicalType)
    (F G : LogicalType -> Vector -> Prop) (f : Vector -> Vector) :
  Forall (fun t => forall v, F t v -> G t (f v)) children ->
  forall vs, vectors_ok (map F children) vs -> vectors_ok (map G children) (map f vs).
Proof.
  intros H. induction H as [|t ts Ht _ IH]; intros vs Hv.
  - destruct vs; [exact I|contradiction].
  - destruct vs as [|v vs]; [contradiction|]. simpl in *.
    destruct Hv as [Hv Hrest]. split; [apply Ht; exact Hv|apply IH; exact Hrest].
Qed.

Lemma vectors_ok_impl (children : list LogicalType)
    (F G : LogicalType -> Vector -> Prop) :
  Forall (fun t => forall v, F t v -> G t v) children ->
  forall vs, vectors_ok (map F children) vs -> vectors_ok (map G children) vs.
Proof.
  intros H vs Hv. rewrite <- (map_id vs).
  apply (vectors_ok_map children F G (fun v => v)); assumption.
Qed.

Lemma vectors_ok_length (oks : list (Vector -> Prop)) (vs : list Vector) :
  vectors_ok oks vs -> length vs = length oks.
Proof.
  revert vs. induction oks as [|ok oks IH]; intros [|v vs] H; try contradiction;
    [reflexivity|]. simpl in *. f_equal. apply IH. apply H.
Qed.

Lemma vectors_ok_lookup (oks : list (Vector -> Prop)) (vs : list Vector) (k : nat)
    (ok : Vector -> Prop) (v : Vector) :
  vectors_ok oks vs -> oks !! k = Some ok -> vs !! k = Some v -> ok v.
Proof.
  revert vs k. induction oks as [|o oks IH]; intros [|x vs] k H Ho Hv;
    try contradiction; try discriminate.
  destruct H as [Hx Hrest]. destruct k as [|k]; simpl in *.
  - injection Ho as <-. injection Hv as <-. exact Hx.
  - exact (IH _ _ Hrest Ho Hv).
Qed.

(** Fewer rows ask less of a vector. *)
Lemma vector_ok_mono (t : LogicalType) :
  forall (rows rows' : nat -> Prop) v,
    (forall r, rows r -> rows' r) -> vector_ok t rows' v -> vector_ok t rows v.
Proof.
  induction t as [physical children IH] using LogicalType_induction.
  intros rows rows' v Hsub [Hty H]. simpl. split; [exact Hty|].
  destruct physical; try exact I.
  - revert H. apply vectors_ok_impl. eapply Forall_impl; [exact IH|].
    intros ct Hct c. simpl. apply Hct. intros i (r & Hr & ->). exists r.
    split; [apply Hsub; exact Hr|reflexivity].
  - destruct children as [|ct cs]; [exact H|].
    destruct (GetEntries v) as [|child rest]; [exact H|].
    destruct H as [Hin Hc]. split; [|exact Hc].
    intros r offset length Hr. apply Hin. apply Hsub. exact Hr.
Qed.

Lemma Normalify_with_type (s : nat -> nat) (v : Vector) :
  GetType (Normalify_with s v) = GetType v.
Proof. destruct v. reflexivity. Qed.

(** [Normalify] keeps a vector well formed. *)
Lemma Normalify_with_ok (t : LogicalType) :
  forall (rows rows' : nat -> Prop) s v,
    (forall r, rows r -> rows' (s r)) -> vector_ok t rows' v ->
    vector_ok t rows (Normalify_with s v).
Proof.
  induction t as [physical children IH] using LogicalType_induction.
  intros rows rows' s v Hsub [Hty H]. simpl.
  split; [rewrite Normalify_with_type; exact Hty|].
  destruct v as [t sel data validity vs list_size]. simpl in Hty. subst t. simpl in *.
  destruct physical; try exact I.
  - revert H. apply vectors_ok_map. eapply Forall_impl; [exact IH|].
    intros ct Hct c. simpl. apply Hct. intros i (r & Hr & ->).
    exists (s r). split; [apply Hsub; exact Hr|reflexivity].
  - destruct children as [|ct cs]; [exact H|].
    destruct vs as [|child rest]; [exact H|]. simpl.
    destruct H as [Hin Hc]. split.
    + intros r offset length Hr Hvalid Hentry.
      apply (Hin (s r) offset length); [apply Hsub; exact Hr| |exact Hentry].
      unfold source_valid, source_RowIsValid, get_index in *. simpl in *.
      destruct validity; [exact Hvalid|reflexivity].
    + apply (Forall_inv IH (fun i => i < list_size) (fun i => i < list_size) (fun r => r));
        [intros r Hr; exact Hr|exact Hc].
Qed.

(** [Normalify] leaves no struct vector with a selection. *)
Lemma Normalify_with_flat (t : LogicalType) :
  forall (rows : nat -> Prop) s v,
    vector_ok t rows v -> struct_flat t (Normalify_with s v).
Proof.
  induction t as [physical children IH] using LogicalType_induction.
  intros rows s v [Hty H].
  destruct v as [t sel data validity vs list_size]. simpl in Hty. subst t. simpl in *.
  destruct physical; try exact I.
  - split; [reflexivity|]. revert H. apply vectors_ok_map.
    eapply Forall_impl; [exact IH|]. intros ct Hct c. simpl. apply Hct.
  - destruct children as [|ct cs]; [exact I|].
    destruct vs as [|child rest]; [exact I|]. simpl.
    destruct H as [_ Hc]. exact (Forall_inv IH _ _ _ Hc).
Qed.

(** A type that [IsComplexType] rejects has no struct inside. *)
Lemma not_complex_flat (t : LogicalType) :
  forall (rows : nat -> Prop) v,
    IsComplexType t = false -> vector_ok t rows v -> struct_flat t v.
Proof.
  induction t as [physical children IH] using LogicalType_induction.
  intros rows v Hc [Hty H]. simpl in *.
  destruct physical; try exact I; try discriminate.
  destruct children as [|ct cs]; [exact I|].
  destruct (GetEntries v) as [|child rest]; [exact I|].
  destruct H as [_ Hch]. exact (Forall_inv IH _ _ Hc Hch).
Qed.


(** ** The copy functions store what they are given *)

(** What a copy function of type [t] does to a vector that holds
    [vals]: it succeeds, the vector then holds [vals] followed by the
    source rows [offset], ..., [offset + n - 1], nothing outside the
    vector's footprint is touched, and the vector keeps its link to the
    next vector. *)
Definition copy_ok (t : LogicalType) (f : copy_function) : Prop :=
  forall seg index fp vals source offset n,
    repr t seg index fp vals ->
    vector_ok t (fun r => offset <= r < offset + n) source ->
    struct_flat t source ->
    length vals + n <= STANDARD_VECTOR_SIZE ->
    exists seg' fp',
      f seg index (Orrify source) source offset n = Some seg' /\
      repr t seg' index fp' (vals ++ map (vector_row source) (seq offset n)) /\
      extends fp seg seg' /\
      (forall i, i ∈ fp' -> i ∈ fp \/ length (vector_data seg) <= i) /\
      (forall vd vd', vector_data seg !! index = Some vd ->
                      vector_data seg' !! index = Some vd' ->
                      next_data vd' = next_data vd).

Definition is_scalar (physical : PhysicalType) : Prop :=
  physical <> STRUCT /\ physical <> LIST.

Lemma repr_scalar (physical : PhysicalType) (children : list LogicalType)
    (seg : Segment) (index : nat) (fp : list nat) (vals : list Value) :
  is_scalar physical ->
  (repr (mkLogicalType physical children) seg index fp vals <->
   exists vd,
     vector_data seg !! index = Some vd /\
     vcount vd <= STANDARD_VECTOR_SIZE /\
     length (bits vd) = STANDARD_VECTOR_SIZE /\
     tail_valid (vcount vd) (bits vd) /\
     length vals = vcount vd /\
     NoDup fp /\
     length (values vd) = STANDARD_VECTOR_SIZE /\
     fp = [index] /\
     vals = rows_of vd (stored_scalar physical (heap seg)) /\
     forall r, r < vcount vd -> row_is_valid vd r = true ->
               cell_stable physical (heap seg) (stored_datum vd r)).
Proof.
  intros [Hs Hl]. destruct physical; try congruence; simpl; reflexivity.
Qed.

Lemma vector_row_scalar (v : Vector) (physical : PhysicalType) (r : nat) :
  is_scalar physical -> InternalType (GetType v) = physical ->
  vector_row v r =
  if source_valid (Orrify v) r
  then input_scalar physical (vector_values v (vector_sel v r))
  else VNull.
Proof.
  intros [Hs Hl] Ht. destruct v as [t sel data validity children list_size].
  simpl in *. unfold source_valid, source_RowIsValid, get_index. simpl.
  destruct validity as [m|]; [destruct (m (sel r)); [|reflexivity]|];
    rewrite Ht; destruct physical; try congruence; reflexivity.
Qed.

(** What the scalar operations guarantee: the stored cell reads as the
    input cell does, and stays readable when the heap grows. *)
Definition stored_as_input (physical : PhysicalType) (h : list string)
    (d x : Datum) : Prop :=
  stored_scalar physical h x = input_scalar physical d /\ cell_stable physical h x.

Lemma stored_as_input_mono (physical : PhysicalType) (h k : list string) (d x : Datum) :
  stored_as_input physical h d x -> stored_as_input physical (h ++ k) d x.
Proof.
  intros [He Hs]. destruct (stored_scalar_stable physical h k x Hs) as [He' Hs'].
  split; [congruence|exact Hs'].
Qed.

Lemma StandardValueCopy_sound (physical : PhysicalType) :
  physical <> VARCHAR ->
  operation_sound StandardValueCopy (stored_as_input physical).
Proof.
  intros Hp. split; [|intros h k d x; apply stored_as_input_mono].
  intros h d x h' H. injection H as <- <-.
  split; [exists []; rewrite app_nil_r; reflexivity|].
  split; destruct physical; try congruence; destruct d; try reflexivity; exact I.
Qed.

Lemma StringValueCopy_sound :
  operation_sound StringValueCopy (stored_as_input VARCHAR).
Proof.
  split; [|intros h k d x; apply stored_as_input_mono].
  intros h d x h' H. unfold StringValueCopy in H.
  destruct d as [z|s|o l];
    try (injection H as <- <-;
         split; [exists []; rewrite app_nil_r; reflexivity|split; [reflexivity|exact I]]).
  destruct s as [str|a]; simpl in H; injection H as <- <-.
  - split; [exists []; rewrite app_nil_r; reflexivity|]. split; [reflexivity|exact I].
  - split; [eexists; reflexivity|]. split.
    + simpl. rewrite list_lookup_middle by reflexivity. reflexivity.
    + simpl. rewrite length_app. simpl. lia.
Qed.

Lemma row_is_valid_lookup (slots : list Datum) (mask : list bool) (c : nat)
    (ci nd : option nat) (r : nat) (b : bool) :
  mask !! r = Some b -> row_is_valid (mkVectorMetaData slots mask c ci nd) r = b.
Proof. unfold row_is_valid. simpl. intros ->. reflexivity. Qed.

Lemma stored_datum_lookup (slots : list Datum) (mask : list bool) (c : nat)
    (ci nd : option nat) (r : nat) (x : Datum) :
  slots !! r = Some x -> stored_datum (mkVectorMetaData slots mask c ci nd) r = x.
Proof. unfold stored_datum. simpl. intros ->. reflexivity. Qed.

(** A segment after the templated copy is an extension of the segment
    before, confined to the target vector. *)
Lemma extends_put (seg : Segment) (index : nat) (vd' : VectorMetaData)
    (h : list string) :
  (exists k, h = heap seg ++ k) ->
  extends [index] seg
    (set_vector_data (set_heap seg h) (<[index := vd']> (vector_data seg))).
Proof.
  intros Hh. split; simpl; try reflexivity.
  - intros i Hi _. apply list_lookup_insert_ne. intros ->. apply Hi.
    apply list_elem_of_singleton. reflexivity.
  - rewrite length_insert. lia.
  - exists []. rewrite app_nil_r. reflexivity.
  - exact Hh.
Qed.

Lemma scalar_copy_ok (physical : PhysicalType) (children : list LogicalType)
    (OP : value_operation) :
  is_scalar physical ->
  operation_sound OP (stored_as_input physical) ->
  copy_ok (mkLogicalType physical children)
    (fun seg index source_data source source_offset copy_count =>
       TemplatedColumnDataCopy OP seg index source_data source_offset copy_count).
Proof.
  intros Hsc Hop seg index fp vals source offset n Hr [Hty _] _ Hfit.
  apply (repr_scalar physical children) in Hr; [|exact Hsc].
  destruct Hr as (vd & Hvd & Hc & Hb & Ht & Hl & Hnd & Hvl & Hfp & Hvals & Hst).
  destruct (TemplatedColumnDataCopy_spec OP (stored_as_input physical) seg index vd
              (Orrify source) offset n Hop Hvd Hb Hvl ltac:(lia) Ht)
    as (slots & mask & h & Hrun & Hsl & Hml & [k Hk] & Hlow & Hmnew & Hmhigh & Hsnew).
  pose proof (lookup_lt_Some _ _ _ Hvd) as Hlt.
  eexists _, fp. split; [exact Hrun|]. split; [|split; [|split]].
  - apply (repr_scalar physical children); [exact Hsc|].
    eexists. split; [simpl; apply list_lookup_insert_eq; exact Hlt|]. simpl.
    split; [lia|]. split; [exact Hml|].
    split; [right; intros r Hr; apply Hmhigh; lia|].
    split; [rewrite length_app, length_map, length_seq; lia|].
    split; [exact Hnd|]. split; [exact Hsl|]. split; [exact Hfp|]. split.
    + symmetry.
      apply (rows_after_copy _ _ (vector_row source) (vcount vd) n offset).
      * exact Hl.
      * apply length_rows_of.
      * intros r Hr. rewrite Hvals. rewrite !lookup_rows_of by (simpl; lia). f_equal.
        destruct (Hlow r Hr) as [Hs Hm].
        unfold row_is_valid, stored_datum. simpl. rewrite Hs, Hm.
        fold (row_is_valid vd r). fold (stored_datum vd r).
        destruct (row_is_valid vd r) eqn:Hv; [|reflexivity].
        rewrite Hk. apply stored_scalar_stable. apply Hst; assumption.
      * intros i Hi. rewrite lookup_rows_of by (simpl; lia). f_equal.
        rewrite (row_is_valid_lookup _ _ _ _ _ _ _ (Hmnew i Hi)).
        rewrite (vector_row_scalar source physical) by (try exact Hsc; rewrite Hty; reflexivity).
        destruct (source_valid (Orrify source) (offset + i)) eqn:Hv; [|reflexivity].
        destruct (Hsnew i Hi Hv) as (x & Hx & [He _]).
        rewrite (stored_datum_lookup _ _ _ _ _ _ _ Hx). exact He.
    + intros r Hr Hv. simpl in Hr.
      destruct (decide (r < vcount vd)) as [Hold|Hnew].
      * destruct (Hlow r Hold) as [Hs Hm].
        unfold row_is_valid in Hv. simpl in Hv. rewrite Hm in Hv.
        unfold stored_datum. simpl. rewrite Hs. fold (stored_datum vd r).
        rewrite Hk. apply stored_scalar_stable. apply Hst; assumption.
      * assert (Hex : exists i, r = vcount vd + i /\ i < n)
          by (exists (r - vcount vd); lia).
        destruct Hex as (i & -> & Hi).
        rewrite (row_is_valid_lookup _ _ _ _ _ _ _ (Hmnew i Hi)) in Hv.
        destruct (Hsnew i Hi Hv) as (x & Hx & [_ Hs]).
        rewrite (stored_datum_lookup _ _ _ _ _ _ _ Hx). exact Hs.
  - rewrite Hfp. apply extends_put. exists k. exact Hk.
  - intros i Hi. left. exact Hi.
  - intros vd0 vd' Hvd0 Hvd'. simpl in Hvd'.
    rewrite list_lookup_insert_eq in Hvd' by exact Hlt.
    rewrite Hvd in Hvd0. injection Hvd0 as <-. injection Hvd' as <-. reflexivity.
Qed.


(** *** Copy-function tables and fresh vectors *)

Lemma GetCopyFunction_cases (physical : PhysicalType) (children : list LogicalType)
    (f : ColumnDataCopyFunction) :
  GetCopyFunction (mkLogicalType physical children) = Ok f ->
  (is_scalar physical /\ physical <> VARCHAR /\
   f = mkCopyFunction (fn_ColumnDataCopy physical) []) \/
  (physical = VARCHAR /\ f = mkCopyFunction fn_ColumnDataCopy_string_t []) \/
  (physical = STRUCT /\
   exists fs, f = mkCopyFunction fn_ColumnDataCopyStruct fs /\
              Forall2 (fun t g => GetCopyFunction t = Ok g) children fs) \/
  (physical = LIST /\
   exists ct cs g, children = ct :: cs /\ GetCopyFunction ct = Ok g /\
                   f = mkCopyFunction fn_ColumnDataCopy_list_entry_t [g]).
Proof.
  intros H. simpl in H.
  destruct physical;
    try (injection H as <-; left; split; [split; discriminate|split; [discriminate|reflexivity]]).
  - injection H as <-. right. left. split; reflexivity.
  - right. right. left. split; [reflexivity|].
    match type of H with
    | match ?e with _ => _ end = _ => destruct e as [fs|e'] eqn:He; [|discriminate]
    end.
    injection H as <-. exists fs. split; [reflexivity|].
    clear -He. revert fs He. induction children as [|t ts IH]; intros fs He.
    + injection He as <-. constructor.
    + destruct (GetCopyFunction t) as [g|] eqn:Hg; [|discriminate].
      match type of He with
      | match ?e with _ => _ end = _ => remember e as rest eqn:Hgs in He
      end.
      destruct rest as [gs|e']; [|discriminate].
      injection He as <-. constructor; [exact Hg|apply IH; symmetry; exact Hgs].
  - right. right. right. split; [reflexivity|].
    destruct children as [|ct cs]; [discriminate|].
    destruct (GetCopyFunction ct) as [g|] eqn:Hg; [|discriminate].
    injection H as <-. exists ct, cs, g. repeat split; assumption.
  - discriminate.
Qed.

(** A vector nothing was written to holds no rows. *)
Lemma repr_fresh (t : LogicalType) (f : ColumnDataCopyFunction) (seg : Segment)
    (index : nat) (slots : list Datum) (mask : list bool) :
  GetCopyFunction t = Ok f ->
  vector_data seg !! index = Some (mkVectorMetaData slots mask 0 None None) ->
  length mask = STANDARD_VECTOR_SIZE ->
  (InternalType t <> STRUCT -> length slots = STANDARD_VECTOR_SIZE) ->
  repr t seg index [index] [].
Proof.
  intros Hf Hvd Hm Hs. destruct t as [physical children].
  destruct (GetCopyFunction_cases _ _ _ Hf)
    as [(Hsc & _ & _)|[(-> & _)|[(-> & _)|(-> & ct & cs & g & -> & _)]]].
  - apply repr_scalar; [exact Hsc|]. eexists. split; [exact Hvd|]. simpl.
    split; [lia|]. split; [exact Hm|]. split; [left; reflexivity|].
    split; [reflexivity|]. split; [apply NoDup_singleton|].
    split; [apply Hs; apply Hsc|]. split; [reflexivity|]. split; [reflexivity|].
    intros r Hr. lia.
  - apply repr_scalar; [split; discriminate|]. eexists. split; [exact Hvd|]. simpl.
    split; [lia|]. split; [exact Hm|]. split; [left; reflexivity|].
    split; [reflexivity|]. split; [apply NoDup_singleton|].
    split; [apply Hs; discriminate|]. split; [reflexivity|]. split; [reflexivity|].
    intros r Hr. lia.
  - simpl. eexists. split; [exact Hvd|]. simpl.
    split; [lia|]. split; [exact Hm|]. split; [left; reflexivity|].
    split; [reflexivity|]. split; [apply NoDup_singleton|]. split; reflexivity.
  - simpl. eexists. split; [exact Hvd|]. simpl.
    split; [lia|]. split; [exact Hm|]. split; [left; reflexivity|].
    split; [reflexivity|]. split; [apply NoDup_singleton|].
    split; [apply Hs; discriminate|]. split; reflexivity.
Qed.

(** The descriptor [AllocateVector] creates at [index] for [type]. *)
Definition fresh_vector (index : nat) (type : LogicalType) : VectorMetaData :=
  mkVectorMetaData
    match InternalType type with
    | STRUCT => []
    | _ => map (fresh_datum index) (seq 0 STANDARD_VECTOR_SIZE)
    end
    (map (fresh_bit index) (seq 0 STANDARD_VECTOR_SIZE)) 0 None None.

Lemma AllocateVector_eq (seg : Segment) (type : LogicalType) :
  AllocateVector seg type =
  (set_vector_data seg
     (vector_data seg ++ [fresh_vector (length (vector_data seg)) type]),
   length (vector_data seg)).
Proof. reflexivity. Qed.

Lemma repr_fresh_vector (t : LogicalType) (f : ColumnDataCopyFunction) (seg : Segment)
    (index : nat) :
  GetCopyFunction t = Ok f ->
  vector_data seg !! index = Some (fresh_vector index t) ->
  repr t seg index [index] [].
Proof.
  intros Hf Hvd. apply (repr_fresh t f seg index _ _ Hf Hvd).
  - rewrite length_map, length_seq. reflexivity.
  - intros Hn. destruct (InternalType t); try congruence;
      rewrite length_map, length_seq; reflexivity.
Qed.

Lemma extends_allocate (seg : Segment) (new : list VectorMetaData) :
  extends [] seg (set_vector_data seg (vector_data seg ++ new)).
Proof.
  split; simpl; try reflexivity.
  - intros i _ Hi. apply lookup_app_l. exact Hi.
  - rewrite length_app. lia.
  - exists []. rewrite app_nil_r. reflexivity.
  - exists []. rewrite app_nil_r. reflexivity.
Qed.


(** *** Struct vectors *)

Lemma kids_of_bounded_all (ts : list LogicalType) (seg : Segment)
    (base k : nat) (kids : list Owned) :
  kids_of (map (fun t => repr t seg) ts) seg base k kids ->
  bounded seg (concat (map o_fp kids)).
Proof.
  apply kids_of_bounded. apply Forall_forall. intros t _ index fp vals.
  apply repr_bounded.
Qed.

Lemma kids_of_stable (ts : list LogicalType) (seg seg' : Segment)
    (base k : nat) (kids : list Owned) :
  kids_of (map (fun t => repr t seg) ts) seg base k kids ->
  agrees (concat (map o_fp kids)) seg seg' ->
  kids_of (map (fun t => repr t seg') ts) seg' base k kids.
Proof.
  apply kids_of_frame. apply Forall_forall. intros t _. apply repr_stable.
Qed.

Lemma kids_of_length (ts : list LogicalType) (seg : Segment)
    (base k : nat) (kids : list Owned) :
  kids_of (map (fun t => repr t seg) ts) seg base k kids -> length kids = length ts.
Proof.
  revert k kids. induction ts as [|t ts IH]; intros k [|kid kids] H; try contradiction;
    [reflexivity|]. simpl in *. f_equal. apply (IH (S k)). apply H.
Qed.

Lemma NoDup_app_inv {A : Type} (l k : list A) :
  NoDup (l ++ k) -> NoDup l /\ NoDup k /\ (forall x, x ∈ l -> x ∉ k).
Proof. intros H. apply NoDup_app in H as (H1 & H2 & H3). repeat split; assumption. Qed.

Lemma for_loop_S {St : Type} (n lo : nat) (body : nat -> St -> option St) (s : St) :
  for_loop (S n) lo body s =
  match body lo s with
  | Some s' => for_loop n (S lo) body s'
  | None => None
  end.
Proof. reflexivity. Qed.

Lemma copy_struct_child_eq (fs : list copy_function) (index : nat) (cvs : list Vector)
    (offset n k : nat) (st : Segment) (f : copy_function) (vdx : VectorMetaData)
    (base child : nat) (cv : Vector) :
  fs !! k = Some f -> vector_data st !! index = Some vdx ->
  child_index vdx = Some base ->
  child_indices st !! (base + k) = Some (Some child) -> cvs !! k = Some cv ->
  copy_struct_child fs index cvs offset n k st = f st child (Orrify cv) cv offset n.
Proof.
  intros Hf Hv Hb Hc Hcv. unfold copy_struct_child, GetVectorData, GetChildIndex.
  unfold copy_function in *. rewrite Hf. simpl. rewrite Hv. simpl. rewrite Hb. simpl. rewrite Hc. simpl.
  rewrite Hcv. reflexivity.
Qed.

(** The loop over the children of a struct: child after child gets the
    source rows of its child vector, and nothing else changes. *)
Lemma struct_children_loop (fs : list copy_function) (cvs : list Vector)
    (index base offset n : nat) :
  forall ts k kids st,
    (forall j t, ts !! j = Some t ->
       exists f cv, fs !! (k + j) = Some f /\ cvs !! (k + j) = Some cv /\
                    copy_ok t f /\
                    vector_ok t (fun r => offset <= r < offset + n) cv /\
                    struct_flat t cv) ->
    (exists vdx, vector_data st !! index = Some vdx /\ child_index vdx = Some base) ->
    index ∉ concat (map o_fp kids) ->
    kids_of (map (fun t => repr t st) ts) st base k kids ->
    Forall (fun kid => length (o_vals kid) + n <= STANDARD_VECTOR_SIZE) kids ->
    NoDup (concat (map o_fp kids)) ->
    exists st' kids',
      for_loop (length ts) k (copy_struct_child fs index cvs offset n) st = Some st' /\
      kids_of (map (fun t => repr t st') ts) st' base k kids' /\
      (forall j kid, kids !! j = Some kid ->
         exists kid' cv, kids' !! j = Some kid' /\ cvs !! (k + j) = Some cv /\
                         o_vals kid' = o_vals kid ++ map (vector_row cv) (seq offset n)) /\
      length kids' = length kids /\
      extends (concat (map o_fp kids)) st st' /\
      (forall i, i ∈ concat (map o_fp kids') ->
         i ∈ concat (map o_fp kids) \/ length (vector_data st) <= i) /\
      NoDup (concat (map o_fp kids')).
Proof.
  induction ts as [|t ts IH]; intros k kids st Hfs Hself Hnotin Hk Hfit Hnd.
  - destruct kids; [|contradiction]. exists st, []. simpl.
    split; [reflexivity|]. split; [exact I|]. split; [intros j kid Hj; discriminate|].
    split; [reflexivity|]. split; [apply extends_refl|]. split; [intros i Hi; inversion Hi|].
    constructor.
  - destruct kids as [|kid kids]; [contradiction|]. simpl in Hk.
    destruct Hk as (Hci & Hrep & Hrest).
    destruct (Hfs 0 t eq_refl) as (f & cv & Hf & Hcv & Hcopy & Hok & Hflat).
    rewrite Nat.add_0_r in Hf, Hcv.
    destruct Hself as (vdx & Hvdx & Hbase).
    simpl in Hnd. apply NoDup_app_inv in Hnd as (Hnd1 & Hndr & Hdisj).
    apply Forall_cons in Hfit as [Hfit1 Hfitr].
    destruct (Hcopy st (o_index kid) (o_fp kid) (o_vals kid) cv offset n Hrep Hok Hflat Hfit1)
      as (st1 & fp1 & Hrun & Hrep1 & Hext1 & Hfp1 & _).
    pose proof (kids_of_bounded_all _ _ _ _ _ Hrest) as Hbr.
    pose proof (repr_bounded _ _ _ _ _ Hrep) as Hb1.
    pose proof (repr_bounded _ _ _ _ _ Hrep1) as Hb1'.
    pose proof (lookup_lt_Some _ _ _ Hvdx) as Hilt.
    assert (Hrest1 : kids_of (map (fun t => repr t st1) ts) st1 base (S k) kids).
    { apply (kids_of_stable ts st); [exact Hrest|].
      apply (extends_agrees (o_fp kid)); [exact Hext1|exact Hbr|].
      intros i Hi Hin. exact (Hdisj i Hin Hi). }
    assert (Hself1 : exists vdx, vector_data st1 !! index = Some vdx /\
                                 child_index vdx = Some base).
    { exists vdx. split; [|exact Hbase]. rewrite (ext_vectors _ _ _ Hext1); [exact Hvdx| |exact Hilt].
      intros Hin. apply Hnotin. simpl. apply elem_of_app. left. exact Hin. }
    destruct (IH (S k) kids st1) as (st' & kids' & Hloop & Hk' & Hvals' & Hlen' & Hext' & Hfp' & Hnd').
    { intros j t' Hj. destruct (Hfs (S j) t' Hj) as (f' & cv' & Hf' & Hcv' & H').
      exists f', cv'. replace (S k + j) with (k + S j) by lia. repeat split; apply H' || assumption. }
    { exact Hself1. }
    { intros Hin. apply Hnotin. simpl. apply elem_of_app. right. exact Hin. }
    { exact Hrest1. }
    { exact Hfitr. }
    { exact Hndr. }
    pose proof (ext_length _ _ _ Hext1) as Hlen1.
    assert (Hfp1_rest : forall i, i ∈ fp1 -> i ∉ concat (map o_fp kids)).
    { intros i Hi Hin. destruct (Hfp1 i Hi) as [Hold|Hnew].
      - exact (Hdisj i Hold Hin).
      - specialize (Hbr i Hin). lia. }
    exists st', (mkOwned (o_index kid) fp1 (o_vals kid ++ map (vector_row cv) (seq offset n))
                   :: kids').
    split.
    { change (length (t :: ts)) with (S (length ts)). rewrite for_loop_S.
      rewrite (copy_struct_child_eq fs index cvs offset n k st f vdx base (o_index kid) cv
                 Hf Hvdx Hbase Hci Hcv).
      rewrite Hrun. exact Hloop. }
    split.
    { simpl. split; [|split; [|exact Hk']].
      - destruct (ext_children _ _ _ Hext') as [x Hx]. rewrite Hx.
        destruct (ext_children _ _ _ Hext1) as [y Hy]. rewrite Hy.
        rewrite <- app_assoc. apply lookup_prefix. exact Hci.
      - apply (repr_extends t (concat (map o_fp kids)) fp1 st1); assumption. }
    split.
    { intros j kid0 Hj. destruct j as [|j]; simpl in Hj.
      - injection Hj as <-. eexists _, cv. rewrite Nat.add_0_r.
        split; [reflexivity|]. split; [exact Hcv|reflexivity].
      - destruct (Hvals' j kid0 Hj) as (kid' & cv' & Hk1 & Hc1 & Hv1).
        exists kid', cv'. replace (k + S j) with (S k + j) by lia.
        split; [exact Hk1|]. split; [exact Hc1|exact Hv1]. }
    split; [simpl; f_equal; exact Hlen'|].
    split.
    { simpl. apply (extends_trans (o_fp kid) (concat (map o_fp kids)) _ st st1 st');
        [exact Hext1|exact Hext'| |].
      - intros i Hi. apply elem_of_app. left. exact Hi.
      - intros i Hi _. apply elem_of_app. right. exact Hi. }
    split.
    { simpl. intros i Hi. apply elem_of_app in Hi as [Hi|Hi].
      - destruct (Hfp1 i Hi) as [Hold|Hnew]; [left; apply elem_of_app; left; exact Hold|right; exact Hnew].
      - destruct (Hfp' i Hi) as [Hold|Hnew]; [left; apply elem_of_app; right; exact Hold|right; lia]. }
    simpl. apply NoDup_app. split; [|split; [|exact Hnd']].
    + destruct t as [p cs]. simpl in Hrep1. destruct Hrep1 as (? & _ & _ & _ & _ & _ & Hn & _).
      exact Hn.
    + intros i Hi Hin. destruct (Hfp' i Hin) as [Hold|Hnew].
      * exact (Hfp1_rest i Hi Hold).
      * specialize (Hb1' i Hi). lia.
Qed.


(** The segment after [ReserveChildren] and [j] rounds of the loop
    that allocates the children of a struct with child types [ts]. *)
Definition with_children (seg : Segment) (ts : list LogicalType) (j : nat) : Segment :=
  mkSegment (segment_types seg) (segment_count seg) (chunk_data seg)
    (vector_data seg ++
       imap (fun k t => fresh_vector (length (vector_data seg) + k) t) (take j ts))
    (child_indices seg ++
       map (fun k => Some (length (vector_data seg) + k)) (seq 0 j) ++
       replicate (length ts - j) None)
    (heap seg).

Lemma allocate_struct_children (seg : Segment) (ts : list LogicalType) :
  for_range 0 (length ts) (allocate_struct_child ts (length (child_indices seg)))
    (fst (ReserveChildren seg (length ts)))
  = Some (with_children seg ts (length ts)).
Proof.
  destruct (for_range_inv (fun j st => st = with_children seg ts j)
              (allocate_struct_child ts (length (child_indices seg)))
              0 (length ts) (fst (ReserveChildren seg (length ts))))
    as (st & Hrun & ->); [lia| | |exact Hrun].
  - unfold with_children, ReserveChildren, set_child_indices. simpl.
    rewrite app_nil_r, Nat.sub_0_r. reflexivity.
  - intros i st Hi ->. destruct (lookup_lt_is_Some_2 ts i) as [t Ht]; [lia|].
    eexists. split; [|reflexivity].
    unfold allocate_struct_child. rewrite Ht. cbn [mbind option_bind].
    rewrite AllocateVector_eq.
    unfold with_children, SetChildIndex, set_child_indices, set_vector_data.
    cbn [mbind option_bind vector_data child_indices heap segment_types segment_count
         chunk_data].
    rewrite !length_app, length_map, length_seq, length_replicate.
    rewrite decide_True by lia. f_equal. f_equal.
    + rewrite (take_S_r ts i t Ht), imap_app, <- app_assoc. simpl.
      rewrite length_imap, Nat.add_0_r. reflexivity.
    + rewrite insert_app_r. f_equal.
      rewrite seq_S, map_app, <- app_assoc. simpl.
      replace (length ts - i) with (S (length ts - S i)) by lia. simpl.
      rewrite insert_app_r_alt by (rewrite length_map, length_seq; lia).
      rewrite length_map, length_seq, Nat.sub_diag. simpl.
      rewrite length_imap, length_take. f_equal. f_equal. f_equal. lia.
Qed.

(** The children a struct vector gets when they are allocated:
    vectors [first + k], ..., each owning itself and holding no rows. *)
Definition fresh_kids (first k m : nat) : list Owned :=
  map (fun j => mkOwned (first + j) [first + j] []) (seq k m).

Lemma fresh_kids_fp (first : nat) (m k : nat) :
  concat (map o_fp (fresh_kids first k m)) = seq (first + k) m.
Proof.
  unfold fresh_kids. revert k. induction m as [|m IH]; intros k; [reflexivity|].
  simpl. f_equal. rewrite IH. f_equal. lia.
Qed.

Lemma kids_of_fresh (st : Segment) (base first : nat) (ts : list LogicalType) :
  forall k,
    (forall j t, ts !! j = Some t ->
       (exists f, GetCopyFunction t = Ok f) /\
       child_indices st !! (base + (k + j)) = Some (Some (first + (k + j))) /\
       vector_data st !! (first + (k + j)) = Some (fresh_vector (first + (k + j)) t)) ->
    kids_of (map (fun t => repr t st) ts) st base k (fresh_kids first k (length ts)).
Proof.
  induction ts as [|t ts IH]; intros k H; [exact I|].
  destruct (H 0 t eq_refl) as ([f Hf] & Hci & Hvd). rewrite Nat.add_0_r in Hci, Hvd.
  simpl. split; [exact Hci|]. split; [exact (repr_fresh_vector t f st _ Hf Hvd)|].
  apply IH. intros j t' Hj. replace (S k + j) with (k + S j) by lia.
  apply (H (S j) t'). exact Hj.
Qed.


(** The columns of a struct vector after every child got [n] more rows. *)
Lemma struct_rows (kids kids' : list Owned) (cvs : list Vector) (offset n c : nat) :
  (forall j kid, kids !! j = Some kid ->
     exists kid' cv, kids' !! j = Some kid' /\ cvs !! (0 + j) = Some cv /\
                     o_vals kid' = o_vals kid ++ map (vector_row cv) (seq offset n)) ->
  length kids' = length kids -> length cvs = length kids ->
  Forall (fun kid => length (o_vals kid) = c) kids ->
  Forall (fun kid => length (o_vals kid) = c + n) kids' /\
  (forall r, r < c ->
     map (fun col => default VNull (col !! r)) (map o_vals kids')
     = map (fun col => default VNull (col !! r)) (map o_vals kids)) /\
  (forall i, i < n ->
     map (fun col => default VNull (col !! (c + i))) (map o_vals kids')
     = map (fun cv => vector_row cv (offset + i)) cvs).
Proof.
  intros H Hlen Hcvs Hall.
  assert (Hc : forall j kid, kids !! j = Some kid -> length (o_vals kid) = c).
  { intros j kid Hj. exact (proj1 (Forall_lookup _ _) Hall j kid Hj). }
  split; [|split].
  - apply Forall_lookup. intros j kid' Hj.
    destruct (lookup_lt_is_Some_2 kids j) as [kid Hkid];
      [rewrite <- Hlen; exact (lookup_lt_Some _ _ _ Hj)|].
    destruct (H j kid Hkid) as (kid'' & cv & Hj' & _ & Hv).
    rewrite Hj in Hj'. injection Hj' as <-.
    rewrite Hv, length_app, length_map, length_seq, (Hc j kid Hkid). reflexivity.
  - intros r Hr. apply list_eq. intros j. rewrite !list_lookup_fmap.
    destruct (kids !! j) as [kid|] eqn:Hkid.
    + destruct (H j kid Hkid) as (kid' & cv & Hj' & _ & Hv). rewrite Hj'. simpl.
      rewrite Hv, lookup_app_l by (rewrite (Hc j kid Hkid); exact Hr). reflexivity.
    + rewrite lookup_ge_None_2; [reflexivity|].
      rewrite Hlen. apply lookup_ge_None_1. exact Hkid.
  - intros i Hi. apply list_eq. intros j. rewrite !list_lookup_fmap.
    destruct (kids !! j) as [kid|] eqn:Hkid.
    + destruct (H j kid Hkid) as (kid' & cv & Hj' & Hcv & Hv). simpl in Hcv.
      rewrite Hj', Hcv. simpl.
      rewrite Hv, lookup_app_r by (rewrite (Hc j kid Hkid); lia).
      rewrite (Hc j kid Hkid). replace (c + i - c) with i by lia.
      rewrite list_lookup_fmap, lookup_seq_lt by exact Hi. reflexivity.
    + rewrite (lookup_ge_None_2 kids');
        [|rewrite Hlen; apply lookup_ge_None_1; exact Hkid].
      rewrite (lookup_ge_None_2 cvs);
        [reflexivity|rewrite Hcvs; apply lookup_ge_None_1; exact Hkid].
Qed.

(** A row of a struct vector without a selection. *)
Lemma vector_row_struct (v : Vector) (r : nat) :
  InternalType (GetType v) = STRUCT -> (forall i, vector_sel v i = i) ->
  vector_row v r =
  if source_valid (Orrify v) r
  then VStruct (map (fun c => vector_row c r) (GetEntries v))
  else VNull.
Proof.
  intros Ht Hsel. destruct v as [t sel data validity children list_size].
  simpl in *. unfold source_valid, source_RowIsValid, get_index. simpl.
  rewrite Ht, Hsel. destruct validity as [m|]; reflexivity.
Qed.


(** The second half of [ColumnDataCopyStruct]: once the struct vector
    has its new validity and its children, the loop over the children
    completes the copy. *)
Lemma struct_finish (children : list LogicalType) (cfs : list copy_function)
    (source : Vector) (offset n : nat) (seg seg2 : Segment) (index : nat)
    (fp : list nat) (vals : list Value) (vd : VectorMetaData) (mask : list bool)
    (base : nat) (kids : list Owned) :
  Forall2 copy_ok children cfs ->
  vector_ok (mkLogicalType STRUCT children) (fun r => offset <= r < offset + n) source ->
  struct_flat (mkLogicalType STRUCT children) source ->
  vcount vd + n <= STANDARD_VECTOR_SIZE ->
  length mask = STANDARD_VECTOR_SIZE ->
  (forall r, r < vcount vd -> mask !! r = bits vd !! r) ->
  (forall i, i < n ->
     mask !! (vcount vd + i) = Some (source_valid (Orrify source) (offset + i))) ->
  (forall r, vcount vd + n <= r < STANDARD_VECTOR_SIZE -> mask !! r = Some true) ->
  length vals = vcount vd ->
  index ∈ fp ->
  vector_data seg !! index = Some vd ->
  vector_data seg2 !! index
    = Some (mkVectorMetaData (values vd) mask (vcount vd + n) (Some base) (next_data vd)) ->
  kids_of (map (fun t => repr t seg2) children) seg2 base 0 kids ->
  Forall (fun kid => length (o_vals kid) = vcount vd) kids ->
  index ∉ concat (map o_fp kids) ->
  NoDup (concat (map o_fp kids)) ->
  extends [index] seg seg2 ->
  (forall i, i ∈ concat (map o_fp kids) -> i ∈ fp \/ length (vector_data seg) <= i) ->
  vals = map (struct_row vd (map o_vals kids)) (seq 0 (vcount vd)) ->
  exists seg' fp',
    for_range 0 (length children)
      (copy_struct_child cfs index (GetEntries source) offset n) seg2 = Some seg' /\
    repr (mkLogicalType STRUCT children) seg' index fp'
      (vals ++ map (vector_row source) (seq offset n)) /\
    extends fp seg seg' /\
    (forall i, i ∈ fp' -> i ∈ fp \/ length (vector_data seg) <= i) /\
    (forall vd0 vd', vector_data seg !! index = Some vd0 ->
                     vector_data seg' !! index = Some vd' ->
                     next_data vd' = next_data vd0).
Proof.
  intros Hcfs [Hty Hvs] [Hsel Hfl] Hfit Hml Hmlow Hmnew Hmhigh Hl Hself Hvd Hvd2 Hk
         Hlens Hnotin Hnd Hext Hfoot Hvals.
  pose proof (lookup_lt_Some _ _ _ Hvd) as Hilt.
  pose proof (vectors_ok_length _ _ Hvs) as Hcvl. rewrite length_map in Hcvl.
  pose proof (kids_of_length _ _ _ _ _ Hk) as Hkl.
  pose proof (lookup_lt_Some _ _ _ Hvd2) as Hilt2.
  destruct (struct_children_loop cfs (GetEntries source) index base offset n
              children 0 kids seg2)
    as (st' & kids' & Hloop & Hk' & Hvals' & Hlen' & Hext' & Hfp' & Hnd').
  { intros j t Hj. simpl.
    destruct (Forall2_lookup_l _ _ _ _ _ Hcfs Hj) as (f & Hf & Hcopy).
    destruct (lookup_lt_is_Some_2 (GetEntries source) j) as [cv Hcv];
      [rewrite Hcvl; exact (lookup_lt_Some _ _ _ Hj)|].
    exists f, cv. split; [exact Hf|]. split; [exact Hcv|]. split; [exact Hcopy|]. split.
    - apply (vector_ok_mono t _ (fun i => exists r, (offset <= r < offset + n) /\
                                                    i = vector_sel source r)).
      + intros r Hr. exists r. split; [exact Hr|]. symmetry. apply Hsel.
      + apply (vectors_ok_lookup _ _ j _ cv Hvs); [|exact Hcv].
        rewrite list_lookup_fmap, Hj. reflexivity.
    - apply (vectors_ok_lookup _ _ j _ cv Hfl); [|exact Hcv].
      rewrite list_lookup_fmap, Hj. reflexivity. }
  { eexists. split; [exact Hvd2|reflexivity]. }
  { exact Hnotin. }
  { exact Hk. }
  { eapply Forall_impl; [exact Hlens|]. intros kid Hkid. simpl in Hkid. lia. }
  { exact Hnd. }
  destruct (struct_rows kids kids' (GetEntries source) offset n (vcount vd)
              Hvals' Hlen' ltac:(lia) Hlens) as (Hlens' & Hold & Hnew).
  assert (Hnotin' : index ∉ concat (map o_fp kids')).
  { intros Hin. destruct (Hfp' _ Hin) as [Hin'|Hge]; [exact (Hnotin Hin')|lia]. }
  exists st', (index :: concat (map o_fp kids')).
  split; [unfold for_range; rewrite Nat.sub_0_r; exact Hloop|].
  split; [|split; [|split]].
  - simpl. eexists. split.
    { rewrite (ext_vectors _ _ _ Hext' index Hnotin Hilt2). exact Hvd2. }
    simpl. split; [exact Hfit|]. split; [exact Hml|].
    split; [right; intros r Hr; apply Hmhigh; lia|].
    split; [rewrite length_app, length_map, length_seq; lia|].
    split; [apply NoDup_cons; split; assumption|].
    exists kids'. split; [exact Hk'|]. split; [exact Hlens'|]. split; [reflexivity|].
    symmetry. apply (rows_after_copy _ _ (vector_row source) (vcount vd) n offset).
    + exact Hl.
    + rewrite length_map. apply length_seq.
    + intros r Hr. rewrite Hvals.
      rewrite !list_lookup_fmap, !lookup_seq_lt by lia. simpl. f_equal.
      unfold struct_row, row_is_valid. simpl. rewrite (Hmlow r Hr), (Hold r Hr).
      reflexivity.
    + intros i Hi. rewrite list_lookup_fmap, lookup_seq_lt by lia. simpl. f_equal.
      unfold struct_row, row_is_valid. simpl. rewrite (Hmnew i Hi), (Hnew i Hi). simpl.
      rewrite (vector_row_struct source); [reflexivity| |exact Hsel].
      rewrite Hty. reflexivity.
  - apply (extends_trans [index] (concat (map o_fp kids)) fp seg seg2 st');
      [exact Hext|exact Hext'| |].
    + intros i Hi. apply list_elem_of_singleton in Hi. subst i. exact Hself.
    + intros i Hi Hlt. destruct (Hfoot i Hi) as [Hin|Hge]; [exact Hin|lia].
  - intros i Hi. apply elem_of_cons in Hi as [->|Hi]; [left; exact Hself|].
    destruct (Hfp' i Hi) as [Hin|Hge]; [exact (Hfoot i Hin)|].
    right. pose proof (ext_length _ _ _ Hext). lia.
  - intros vd0 vd' Hvd0 Hvd'.
    rewrite (ext_vectors _ _ _ Hext' index Hnotin Hilt2), Hvd2 in Hvd'.
    rewrite Hvd in Hvd0. injection Hvd0 as <-. injection Hvd' as <-. reflexivity.
Qed.


Lemma put_vector_eq (seg : Segment) (index : nat) (v : VectorMetaData) :
  index < length (vector_data seg) ->
  put_vector seg index v = Some (set_vector_data seg (<[index := v]> (vector_data seg))).
Proof. intros H. unfold put_vector. rewrite decide_True by exact H. reflexivity. Qed.

Lemma struct_copy_ok (children : list LogicalType) (cfs : list copy_function) :
  Forall (fun t => exists f, GetCopyFunction t = Ok f) children ->
  Forall2 copy_ok children cfs ->
  copy_ok (mkLogicalType STRUCT children) (ColumnDataCopyStruct cfs).
Proof.
  intros Hget Hcfs seg index fp vals source offset n Hr Hok Hflat Hfit.
  pose proof Hok as [Hty _]. simpl in Hr.
  destruct Hr as (vd & Hvd & Hc & Hb & Ht & Hl & Hnd & Hcase).
  destruct (ColumnDataCopyValidity_spec (Orrify source) (bits vd) offset (vcount vd) n
              Hb ltac:(lia) Ht) as (mask & Hmask & Hml & Hmlow & Hmnew & Hmhigh).
  pose proof (lookup_lt_Some _ _ _ Hvd) as Hilt.
  remember (set_vector_data seg
              (<[index := mkVectorMetaData (values vd) mask (vcount vd + n)
                             (child_index vd) (next_data vd)]> (vector_data seg)))
    as seg1 eqn:Hseg1.
  assert (Hext1 : extends [index] seg seg1).
  { rewrite Hseg1. apply (extends_put seg index _ (heap seg)).
    exists []. rewrite app_nil_r. reflexivity. }
  assert (Hvd1 : vector_data seg1 !! index
                 = Some (mkVectorMetaData (values vd) mask (vcount vd + n)
                           (child_index vd) (next_data vd))).
  { rewrite Hseg1. simpl. apply list_lookup_insert_eq. exact Hilt. }
  assert (Hlen1 : length (vector_data seg1) = length (vector_data seg)).
  { rewrite Hseg1. simpl. apply length_insert. }
  assert (Hci1 : child_indices seg1 = child_indices seg) by (rewrite Hseg1; reflexivity).
  destruct (child_index vd) as [base|] eqn:Hci.
  - destruct Hcase as (kids & Hk & Hlens & Hfp & Hvals).
    rewrite Hfp in Hnd. apply NoDup_cons in Hnd as [Hnotin Hndk].
    destruct (struct_finish children cfs source offset n seg seg1 index fp vals vd mask
                base kids) as (seg' & fp' & Hrun & Hrest); try assumption; try lia.
    + rewrite Hfp. apply list_elem_of_here.
    + apply (kids_of_stable children seg); [exact Hk|].
      apply (extends_agrees [index]); [exact Hext1|exact (kids_of_bounded_all _ _ _ _ _ Hk)|].
      intros i Hi Hin. apply list_elem_of_singleton in Hin. subst i. exact (Hnotin Hi).
    + intros i Hi. left. rewrite Hfp. apply list_elem_of_further. exact Hi.
    + exists seg', fp'. split; [|exact Hrest].
      unfold ColumnDataCopyStruct, GetVectorData. rewrite Hvd. cbn [mbind option_bind].
      rewrite Hmask. cbn [mbind option_bind].
      rewrite (put_vector_eq seg index _ Hilt). cbn [mbind option_bind].
      rewrite Hci, <- Hseg1, Hty. exact Hrun.
  - destruct Hcase as [Hzero Hfp].
    assert (Hnil : vals = []) by (apply nil_length_inv; lia).
    pose proof (allocate_struct_children seg1 children) as Halloc.
    unfold ReserveChildren in Halloc. cbn [fst] in Halloc.
    assert (Hvdw : vector_data (with_children seg1 children (length children)) !! index
                   = Some (mkVectorMetaData (values vd) mask (vcount vd + n) None
                             (next_data vd))).
    { unfold with_children. cbn [vector_data]. apply lookup_prefix. exact Hvd1. }
    assert (Hall : take (length children) children = children) by apply firstn_all.
    destruct (struct_finish children cfs source offset n seg
                (set_vector_data (with_children seg1 children (length children))
                   (<[index := mkVectorMetaData (values vd) mask (vcount vd + n)
                                 (Some (length (child_indices seg1))) (next_data vd)]>
                      (vector_data (with_children seg1 children (length children)))))
                index fp vals vd mask
                (length (child_indices seg1))
                (fresh_kids (length (vector_data seg1)) 0 (length children)))
      as (seg' & fp' & Hrun & Hrest); try assumption; try lia.
    + rewrite Hfp. apply list_elem_of_here.
    + simpl. apply list_lookup_insert_eq. rewrite length_app. lia.
    + apply kids_of_fresh. intros j t Hj. simpl.
      pose proof (lookup_lt_Some _ _ _ Hj) as Hjlt.
      split; [exact (proj1 (Forall_lookup _ _) Hget j t Hj)|]. split.
      * rewrite lookup_app_r by lia.
        replace (length (child_indices seg1) + j - length (child_indices seg1)) with j by lia.
        rewrite lookup_app_l by (rewrite length_map, length_seq; exact Hjlt).
        rewrite list_lookup_fmap, lookup_seq_lt by exact Hjlt. reflexivity.
      * rewrite list_lookup_insert_ne by lia.
        rewrite lookup_app_r by lia.
        replace (length (vector_data seg1) + j - length (vector_data seg1)) with j by lia.
        rewrite Hall, list_lookup_imap, Hj. reflexivity.
    + unfold fresh_kids. apply Forall_forall. intros kid Hkid.
      apply list_elem_of_fmap in Hkid as (j & -> & _). simpl. lia.
    + rewrite fresh_kids_fp. intros Hin. apply elem_of_seq in Hin. lia.
    + rewrite fresh_kids_fp. apply NoDup_seq.
    + split; simpl; try (rewrite Hseg1; reflexivity).
      * intros i Hi Hlt. rewrite list_lookup_insert_ne.
        -- rewrite lookup_app_l by lia. exact (ext_vectors _ _ _ Hext1 i Hi Hlt).
        -- intros ->. apply Hi. apply list_elem_of_singleton. reflexivity.
      * rewrite length_insert, length_app. lia.
      * rewrite Hci1. eexists. reflexivity.
      * exists []. rewrite app_nil_r, Hseg1. reflexivity.
    + rewrite fresh_kids_fp. intros i Hi. apply elem_of_seq in Hi. right. lia.
    + rewrite Hnil, Hzero. reflexivity.
    + exists seg', fp'. split; [|exact Hrest].
      unfold ColumnDataCopyStruct, GetVectorData. rewrite Hvd. cbn [mbind option_bind].
      rewrite Hmask. cbn [mbind option_bind].
      rewrite (put_vector_eq seg index _ Hilt). cbn [mbind option_bind].
      rewrite Hci, <- Hseg1, Hty. cbn [GetChildTypes].
      unfold ReserveChildren. rewrite Halloc. cbn [mbind option_bind].
      rewrite Hvdw. cbn [mbind option_bind values bits vcount next_data].
      rewrite (put_vector_eq _ index _ (lookup_lt_Some _ _ _ Hvdw)).
      cbn [mbind option_bind]. exact Hrun.
Qed.


(** *** List vectors *)

Lemma repr_descriptor (t : LogicalType) (seg : Segment) (index : nat) (fp : list nat)
    (vals : list Value) :
  repr t seg index fp vals ->
  exists vd, vector_data seg !! index = Some vd /\ vcount vd = length vals /\
             vcount vd <= STANDARD_VECTOR_SIZE /\ NoDup fp.
Proof.
  destruct t as [physical children]. simpl.
  intros (vd & H1 & H2 & _ & _ & H3 & H4 & _). exists vd. auto.
Qed.

Lemma agrees_put (fp : list nat) (seg : Segment) (index : nat) (v : VectorMetaData) :
  index ∉ fp -> agrees fp seg (set_vector_data seg (<[index := v]> (vector_data seg))).
Proof.
  intros Hn. split; [|split; exists []; rewrite app_nil_r; reflexivity].
  intros i Hi. simpl. apply list_lookup_insert_ne. intros ->. exact (Hn Hi).
Qed.

(** What a vector holds does not depend on its link to a next vector. *)
Lemma repr_set_next (t : LogicalType) (seg : Segment) (index : nat) (fp : list nat)
    (vals : list Value) (vd : VectorMetaData) (x : option nat) :
  repr t seg index fp vals -> vector_data seg !! index = Some vd ->
  repr t (set_vector_data seg
            (<[index := mkVectorMetaData (values vd) (bits vd) (vcount vd)
                          (child_index vd) x]> (vector_data seg)))
       index fp vals.
Proof.
  intros Hr Hvd. pose proof (lookup_lt_Some _ _ _ Hvd) as Hlt.
  destruct t as [physical children]. simpl in Hr |- *.
  destruct Hr as (vd0 & Hvd0 & Hc & Hb & Ht & Hl & Hnd & Hcase).
  rewrite Hvd in Hvd0. injection Hvd0 as <-.
  eexists. split; [apply list_lookup_insert_eq; exact Hlt|].
  cbn [values bits vcount child_index next_data].
  split; [exact Hc|]. split; [exact Hb|]. split; [exact Ht|]. split; [exact Hl|].
  split; [exact Hnd|].
  destruct physical; try exact Hcase.
  - destruct (child_index vd) as [base|]; [|exact Hcase].
    destruct Hcase as (kids & Hk & Hlens & Hfp & Hvals). exists kids.
    split; [|split; [exact Hlens|split; [exact Hfp|exact Hvals]]].
    apply (kids_of_stable children seg); [exact Hk|]. apply agrees_put.
    rewrite Hfp in Hnd. apply NoDup_cons in Hnd. apply Hnd.
  - destruct Hcase as [Hvl Hcase]. split; [exact Hvl|].
    destruct children as [|ct cs]; [exact Hcase|].
    destruct (child_index vd) as [position|]; [|exact Hcase].
    destruct Hcase as (root & slots & Hroot & Hch & Hfp & Hrest).
    exists root, slots. split; [exact Hroot|]. split; [|split; [exact Hfp|exact Hrest]].
    apply (chain_frame ct seg); [apply repr_stable|exact Hch|]. apply agrees_put.
    rewrite Hfp in Hnd. apply NoDup_cons in Hnd. apply Hnd.
Qed.

Lemma list_child_loop_S (child_function : copy_function) (child_type : LogicalType)
    (child_vector_data : VectorData) (child_vector : Vector) (child_list_size : nat)
    (fuel : nat) (seg : Segment) (chain_index remaining current_list_size : nat) :
  remaining <> 0 ->
  list_child_loop child_function child_type child_vector_data child_vector
    child_list_size (S fuel) seg chain_index remaining current_list_size =
  (vd ← GetVectorData seg chain_index;
   let current_list_size := current_list_size + vcount vd in
   let child_append_count :=
     Nat.min (STANDARD_VECTOR_SIZE - vcount vd) remaining in
   seg1 ← (if decide (0 < child_append_count)
           then child_function seg chain_index child_vector_data child_vector
                  (child_list_size - remaining) child_append_count
           else Some seg);
   let remaining := remaining - child_append_count in
   if decide (0 < remaining) then
     vd1 ← GetVectorData seg1 chain_index;
     '(seg2, next) ←
       match next_data vd1 with
       | Some next => Some (seg1, next)
       | None =>
           let '(seg', next) := AllocateVector seg1 child_type in
           vd' ← GetVectorData seg' chain_index;
           seg'' ← put_vector seg' chain_index
                     (mkVectorMetaData (values vd') (bits vd') (vcount vd')
                        (child_index vd') (Some next));
           Some (seg'', next)
       end;
     list_child_loop child_function child_type child_vector_data child_vector
       child_list_size fuel seg2 next remaining current_list_size
   else Some (seg1, current_list_size)).
Proof.
  intros Hne. simpl. destruct (decide (remaining = 0)) as [He|_]; [contradiction|].
  reflexivity.
Qed.


(** Allocating a vector and linking vector [root] to it touches
    [root] alone. *)
Lemma extends_link (seg : Segment) (root : nat) (new v : VectorMetaData) :
  root < length (vector_data seg) ->
  extends [root] seg
    (set_vector_data (set_vector_data seg (vector_data seg ++ [new]))
       (<[root := v]> (vector_data seg ++ [new]))).
Proof.
  intros Hlt. split; simpl; try reflexivity.
  - intros i Hi Hilt. rewrite list_lookup_insert_ne.
    + apply lookup_app_l. exact Hilt.
    + intros ->. apply Hi. apply list_elem_of_singleton. reflexivity.
  - rewrite length_insert, length_app. lia.
  - exists []. rewrite app_nil_r. reflexivity.
  - exists []. rewrite app_nil_r. reflexivity.
Qed.

(** The loop of the list copy at the last vector of the chain: the
    rest of the child run fills this vector and then new ones. *)
Lemma list_tail_loop (ct : LogicalType) (g : ColumnDataCopyFunction)
    (cf : copy_function) (cv : Vector) (size : nat) :
  GetCopyFunction ct = Ok g -> copy_ok ct cf ->
  vector_ok ct (fun i => i < size) cv -> struct_flat ct cv ->
  forall fuel st root fp vals remaining acc,
    repr ct st root fp vals ->
    (exists vd, vector_data st !! root = Some vd /\ next_data vd = None) ->
    0 < remaining <= size ->
    remaining + (if decide (length vals < STANDARD_VECTOR_SIZE) then 0 else 1) <= fuel ->
    exists st' slots',
      list_child_loop cf (GetType cv) (Orrify cv) cv size fuel st root remaining acc
        = Some (st', acc + length vals) /\
      chain (repr ct st') st' root slots' /\
      concat (map o_vals slots')
        = vals ++ map (vector_row cv) (seq (size - remaining) remaining) /\
      extends fp st st' /\
      (forall i, i ∈ concat (map o_fp slots') ->
         i ∈ fp \/ length (vector_data st) <= i) /\
      NoDup (concat (map o_fp slots')).
Proof.
  intros Hg Hcopy Hok Hflat.
  assert (Hty : GetType cv = ct) by (destruct ct; apply Hok). rewrite Hty.
  induction fuel as [|fuel IH]; intros st root fp vals rem acc Hrep Hnext Hrem Hfuel;
    [lia|].
  destruct Hnext as (vd & Hvd & Hnone).
  destruct (repr_descriptor _ _ _ _ _ Hrep) as (vd0 & Hvd0 & Hcount & Hcap & Hndfp).
  rewrite Hvd in Hvd0. injection Hvd0 as <-.
  pose proof (lookup_lt_Some _ _ _ Hvd) as Hrlt.
  pose proof (repr_owns_itself ct _ _ _ _ Hrep) as Hself.
  rewrite list_child_loop_S by lia. unfold GetVectorData.
  rewrite Hvd. cbn [mbind option_bind].
  set (a := Nat.min (STANDARD_VECTOR_SIZE - vcount vd) rem).
  assert (Hstep : exists st1 fp1,
            (if decide (0 < a)
             then cf st root (Orrify cv) cv (size - rem) a else Some st) = Some st1 /\
            repr ct st1 root fp1 (vals ++ map (vector_row cv) (seq (size - rem) a)) /\
            extends fp st st1 /\
            (forall i, i ∈ fp1 -> i ∈ fp \/ length (vector_data st) <= i) /\
            exists vd1, vector_data st1 !! root = Some vd1 /\ next_data vd1 = None).
  { destruct (decide (0 < a)) as [Ha|Ha].
    - destruct (Hcopy st root fp vals cv (size - rem) a Hrep) as
        (st1 & fp1 & Hrun & Hrep1 & Hext1 & Hfoot1 & Hnd1).
      + apply (vector_ok_mono ct _ (fun i => i < size)); [intros r Hr; lia|exact Hok].
      + exact Hflat.
      + lia.
      + exists st1, fp1. split; [exact Hrun|]. split; [exact Hrep1|].
        split; [exact Hext1|]. split; [exact Hfoot1|].
        destruct (repr_descriptor _ _ _ _ _ Hrep1) as (vd1 & Hvd1 & _).
        exists vd1. split; [exact Hvd1|]. rewrite (Hnd1 vd vd1 Hvd Hvd1). exact Hnone.
    - exists st, fp. split; [reflexivity|].
      replace a with 0 by lia. simpl. rewrite app_nil_r.
      split; [exact Hrep|]. split; [apply extends_refl|].
      split; [intros i Hi; left; exact Hi|]. exists vd. split; assumption. }
  destruct Hstep as (st1 & fp1 & Hrun1 & Hrep1 & Hext1 & Hfoot1 & vd1 & Hvd1 & Hnone1).
  rewrite Hrun1. cbn [mbind option_bind].
  pose proof (lookup_lt_Some _ _ _ Hvd1) as Hrlt1.
  destruct (repr_descriptor _ _ _ _ _ Hrep1) as (vd1' & Hvd1' & Hcount1 & _ & Hndfp1).
  rewrite Hvd1 in Hvd1'. injection Hvd1' as <-.
  rewrite length_app, length_map, length_seq in Hcount1.
  pose proof (repr_bounded _ _ _ _ _ Hrep1) as Hb1.
  destruct (decide (0 < rem - a)) as [Hmore|Hdone].
  - rewrite Hvd1. cbn [mbind option_bind]. rewrite Hnone1.
    rewrite AllocateVector_eq.
    cbn [vector_data set_vector_data].
    rewrite (lookup_prefix _ _ _ _ Hvd1). cbn [mbind option_bind].
    rewrite put_vector_eq by (simpl; rewrite length_app; lia).
    cbn [mbind option_bind vector_data set_vector_data].
    set (next := length (vector_data st1)).
    set (seg2 := set_vector_data _ _).
    assert (Hfresh : vector_data seg2 !! next = Some (fresh_vector next ct)).
    { unfold seg2. simpl. rewrite list_lookup_insert_ne by (unfold next; lia).
      rewrite lookup_app_r by (unfold next; lia).
      unfold next. rewrite Nat.sub_diag. reflexivity. }
    assert (Hrep2 : repr ct seg2 root fp1
                      (vals ++ map (vector_row cv) (seq (size - rem) a))).
    { unfold seg2. apply repr_set_next; [|simpl; apply lookup_prefix; exact Hvd1].
      apply (repr_extends ct [] fp1 st1); [exact Hrep1|apply extends_allocate|].
      intros i _ Hin. inversion Hin. }
    assert (Hext2 : extends [root] st1 seg2).
    { unfold seg2. apply extends_link. exact Hrlt1. }
    destruct (IH seg2 next [next] [] (rem - a) (acc + vcount vd))
      as (st' & slots'' & Hrun' & Hch' & Hflat' & Hext' & Hfoot' & Hnd').
    { exact (repr_fresh_vector ct g seg2 next Hg Hfresh). }
    { eexists. split; [exact Hfresh|reflexivity]. }
    { lia. }
    { simpl. rewrite decide_True by exact STANDARD_VECTOR_SIZE_pos.
      destruct (decide (length vals < STANDARD_VECTOR_SIZE)); lia. }
    destruct slots'' as [|s2 rest]; [contradiction|].
    pose proof Hch' as (Hs2 & _). destruct s2 as [i2 fp2 v2]. simpl in Hs2. subst i2.
    assert (Hlen2 : length (vector_data seg2) = S next).
    { unfold seg2. simpl. rewrite length_insert, length_app. simpl. unfold next. lia. }
    exists st', (mkOwned root fp1 (vals ++ map (vector_row cv) (seq (size - rem) a))
                   :: mkOwned next fp2 v2 :: rest).
    split.
    { rewrite Hrun'. simpl. rewrite Nat.add_0_r, Hcount. reflexivity. }
    split.
    { cbn [chain o_index o_fp o_vals]. split; [reflexivity|]. split.
      - apply (repr_extends ct [next] fp1 seg2); [exact Hrep2|exact Hext'|].
        intros i Hi Hin. apply list_elem_of_singleton in Hin. specialize (Hb1 i Hi).
        unfold next in Hin. lia.
      - eexists. split.
        + rewrite (ext_vectors _ _ _ Hext' root); [| |lia].
          * unfold seg2. simpl. apply list_lookup_insert_eq. rewrite length_app. lia.
          * intros Hin. apply list_elem_of_singleton in Hin. unfold next in Hin. lia.
        + cbn [next_data]. split; [reflexivity|]. split.
          * rewrite length_app, length_map, length_seq. lia.
          * exact Hch'. }
    split.
    { cbn [map concat o_vals]. cbn [map concat o_vals] in Hflat'. rewrite Hflat'.
      simpl. rewrite <- app_assoc. f_equal. rewrite <- map_app. f_equal.
      replace (size - (rem - a)) with (size - rem + a) by lia.
      rewrite <- seq_app. f_equal. lia. }
    split.
    { apply (extends_trans fp [next] fp st seg2 st'); [|exact Hext'| |].
      - apply (extends_trans fp [root] fp st st1 seg2); [exact Hext1|exact Hext2| |].
        + intros i Hi. exact Hi.
        + intros i Hi _. apply list_elem_of_singleton in Hi. subst i. exact Hself.
      - intros i Hi. exact Hi.
      - intros i Hi Hlt. apply list_elem_of_singleton in Hi.
        pose proof (ext_length _ _ _ Hext1). unfold next in Hi. lia. }
    pose proof (ext_length _ _ _ Hext1) as Hlen1.
    split.
    { cbn [map concat o_fp]. intros i Hi. apply elem_of_app in Hi as [Hi|Hi].
      - exact (Hfoot1 i Hi).
      - right. destruct (Hfoot' i Hi) as [Hin|Hge].
        + apply list_elem_of_singleton in Hin. unfold next in Hin. lia.
        + lia. }
    cbn [map concat o_fp]. apply NoDup_app. split; [exact Hndfp1|]. split; [|exact Hnd'].
    intros i Hi Hin. specialize (Hb1 i Hi). destruct (Hfoot' i Hin) as [Hin'|Hge].
    + apply list_elem_of_singleton in Hin'. unfold next in Hin'. lia.
    + lia.
  - exists st1, [mkOwned root fp1 (vals ++ map (vector_row cv) (seq (size - rem) a))].
    split; [rewrite Hcount; reflexivity|]. split.
    { simpl. split; [reflexivity|]. split; [exact Hrep1|].
      exists vd1. split; assumption. }
    split.
    { simpl. rewrite app_nil_r. replace a with rem by lia. reflexivity. }
    split; [exact Hext1|]. simpl. rewrite app_nil_r. split; [exact Hfoot1|exact Hndfp1].
Qed.


(** The loop of the list copy from the first vector of the chain: it
    walks the full vectors, fills the last one and appends new ones;
    [current_list_size] ends as the number of child rows the chain held
    before. *)
Lemma list_chain_loop (ct : LogicalType) (g : ColumnDataCopyFunction)
    (cf : copy_function) (cv : Vector) (size : nat) :
  GetCopyFunction ct = Ok g -> copy_ok ct cf ->
  vector_ok ct (fun i => i < size) cv -> struct_flat ct cv ->
  forall slots fuel st root remaining acc,
    chain (repr ct st) st root slots ->
    NoDup (concat (map o_fp slots)) ->
    0 < remaining <= size ->
    length slots + remaining <= fuel ->
    exists st' slots',
      list_child_loop cf (GetType cv) (Orrify cv) cv size fuel st root remaining acc
        = Some (st', acc + length (concat (map o_vals slots))) /\
      chain (repr ct st') st' root slots' /\
      concat (map o_vals slots')
        = concat (map o_vals slots)
          ++ map (vector_row cv) (seq (size - remaining) remaining) /\
      extends (concat (map o_fp slots)) st st' /\
      (forall i, i ∈ concat (map o_fp slots') ->
         i ∈ concat (map o_fp slots) \/ length (vector_data st) <= i) /\
      NoDup (concat (map o_fp slots')).
Proof.
  intros Hg Hcopy Hok Hflat.
  induction slots as [|slot rest IH]; intros fuel st root rem acc Hch Hnd Hrem Hfuel;
    [contradiction|].
  destruct rest as [|nxt rest'].
  - destruct Hch as (Hi & Hrep & vd & Hvd & Hnone). rewrite Hi in Hrep, Hvd.
    simpl in Hfuel. simpl. rewrite !app_nil_r.
    apply (list_tail_loop ct g cf cv size Hg Hcopy Hok Hflat fuel st root (o_fp slot)
             (o_vals slot) rem acc Hrep); [|exact Hrem|].
    + exists vd. split; assumption.
    + destruct (decide (length (o_vals slot) < STANDARD_VECTOR_SIZE)); lia.
  - assert (Hty : GetType cv = ct) by (destruct ct; apply Hok).
    destruct Hch as (Hi & Hrep & vd & Hvd & Hnext & Hfull & Hch).
    change (concat (map o_fp (slot :: nxt :: rest')))
      with (o_fp slot ++ concat (map o_fp (nxt :: rest'))) in *.
    change (concat (map o_vals (slot :: nxt :: rest')))
      with (o_vals slot ++ concat (map o_vals (nxt :: rest'))).
    apply NoDup_app_inv in Hnd as (Hnd1 & Hndr & Hdisj).
    destruct (repr_descriptor _ _ _ _ _ Hrep) as (vd0 & Hvd0 & Hcount & _ & _).
    rewrite Hvd in Hvd0. injection Hvd0 as <-.
    pose proof (repr_owns_itself ct _ _ _ _ Hrep) as Hself.
    pose proof (repr_bounded _ _ _ _ _ Hrep) as Hb1.
    destruct fuel as [|fuel]; [simpl in Hfuel; lia|].
    rewrite list_child_loop_S by lia. unfold GetVectorData. rewrite <- Hi, Hvd.
    cbn [mbind option_bind].
    replace (Nat.min (STANDARD_VECTOR_SIZE - vcount vd) rem) with 0 by lia.
    rewrite (decide_False (P := 0 < 0)) by lia. cbn [mbind option_bind].
    rewrite Nat.sub_0_r, decide_True by lia. rewrite Hvd. cbn [mbind option_bind].
    rewrite Hnext. cbn [mbind option_bind].
    destruct (IH fuel st (o_index nxt) rem (acc + vcount vd) Hch Hndr Hrem)
      as (st' & slots'' & Hrun' & Hch' & Hflat' & Hext' & Hfoot' & Hnd');
      [simpl in Hfuel |- *; lia|].
    destruct slots'' as [|s2 r2]; [contradiction|].
    pose proof Hch' as (Hs2 & _). destruct s2 as [i2 fp2 v2]. simpl in Hs2. subst i2.
    set (s2 := mkOwned (o_index nxt) fp2 v2) in *.
    exists st', (slot :: s2 :: r2).
    split.
    { rewrite Hrun'. f_equal. f_equal.
      rewrite (length_app (o_vals slot)). lia. }
    split.
    { cbn [chain]. split; [reflexivity|]. split.
      - apply (repr_extends ct (concat (map o_fp (nxt :: rest'))) (o_fp slot) st);
          [exact Hrep|exact Hext'|]. intros i H1 H2. exact (Hdisj i H1 H2).
      - exists vd. split.
        + rewrite (ext_vectors _ _ _ Hext' (o_index slot));
            [exact Hvd|exact (Hdisj _ Hself)|exact (lookup_lt_Some _ _ _ Hvd)].
        + split; [exact Hnext|]. split; [exact Hfull|exact Hch']. }
    split.
    { change (concat (map o_vals (slot :: s2 :: r2)))
        with (o_vals slot ++ concat (map o_vals (s2 :: r2))).
      rewrite Hflat', (app_assoc (o_vals slot)). reflexivity. }
    split.
    { apply (extends_weaken _ _ _ _ Hext'). intros i Hin. apply elem_of_app. right.
      exact Hin. }
    change (concat (map o_fp (slot :: s2 :: r2)))
      with (o_fp slot ++ concat (map o_fp (s2 :: r2))).
    split.
    { intros i Hin. apply elem_of_app in Hin as [Hin|Hin].
      - left. apply elem_of_app. left. exact Hin.
      - destruct (Hfoot' i Hin) as [Hin'|Hge]; [|right; exact Hge].
        left. apply elem_of_app. right. exact Hin'. }
    apply NoDup_app. split; [exact Hnd1|]. split; [|exact Hnd'].
    intros i H1 H2. destruct (Hfoot' i H2) as [Hin'|Hge].
    + exact (Hdisj i H1 Hin').
    + specialize (Hb1 i H1). lia.
Qed.


(** What [ListValueCopy] stores for an input cell. *)
Definition shifted_entry (current_list_size : nat) (h : list string) (d x : Datum)
    : Prop :=
  x = match d with
      | DListEntry offset length => DListEntry (offset + current_list_size) length
      | _ => d
      end.

Lemma ListValueCopy_sound (current_list_size : nat) :
  operation_sound (ListValueCopy current_list_size) (shifted_entry current_list_size).
Proof.
  split; [|intros h k d x H; exact H].
  intros h d x h' H. unfold ListValueCopy in H.
  destruct d; injection H as <- <-;
    (split; [exists []; rewrite app_nil_r; reflexivity|reflexivity]).
Qed.

(** An entry that lies within the child rows reads the same when more
    child rows follow. *)
Lemma stored_list_app (flat new : list Value) (d : Datum) :
  (forall offset length, d = DListEntry offset length ->
     offset + length <= List.length flat) ->
  stored_list (flat ++ new) d = stored_list flat d.
Proof.
  intros H. destruct d as [z|s|o l]; try reflexivity. simpl. f_equal.
  specialize (H o l eq_refl).
  rewrite drop_app_le by lia. apply take_app_le. rewrite length_drop. lia.
Qed.

(** An entry of the source, shifted by the child rows that were there,
    reads as the run of source child rows it names. *)
Lemma stored_list_new (flat : list Value) (f : nat -> Value) (size o l cls : nat) :
  o + l <= size -> (0 < size -> cls = length flat) ->
  stored_list (flat ++ map f (seq 0 size)) (DListEntry (o + cls) l)
  = VList (map f (seq o l)).
Proof.
  intros Hin Hcls. simpl. f_equal.
  destruct (decide (size = 0)) as [Hz|Hnz].
  - assert (l = 0) as -> by lia. assert (o = 0) as -> by lia. apply take_0.
  - rewrite Hcls by lia. rewrite drop_app_ge by lia.
    replace (o + length flat - length flat) with o by lia.
    rewrite <- fmap_drop, <- fmap_take, drop_seq, take_seq. simpl.
    replace (l `min` (size - o)) with l by lia. reflexivity.
Qed.

(** A row of a list vector. *)
Lemma vector_row_list (v child : Vector) (rest : list Vector) (r : nat) :
  InternalType (GetType v) = LIST -> GetEntries v = child :: rest ->
  vector_row v r =
  if source_valid (Orrify v) r
  then match vector_values v (vector_sel v r) with
       | DListEntry offset length => VList (map (vector_row child) (seq offset length))
       | _ => VNull
       end
  else VNull.
Proof.
  intros Ht He. destruct v as [t sel data validity children list_size].
  simpl in *. unfold source_valid, source_RowIsValid, get_index. simpl.
  rewrite Ht, He. destruct validity as [m|]; reflexivity.
Qed.

Lemma list_child_loop_0 (child_function : copy_function) (child_type : LogicalType)
    (child_vector_data : VectorData) (child_vector : Vector) (child_list_size : nat)
    (fuel : nat) (seg : Segment) (chain_index current_list_size : nat) :
  list_child_loop child_function child_type child_vector_data child_vector
    child_list_size fuel seg chain_index 0 current_list_size
  = Some (seg, current_list_size).
Proof. destruct fuel; reflexivity. Qed.

(** The child run of a list copy goes to the chain of child vectors. *)
Lemma list_children (ct : LogicalType) (g : ColumnDataCopyFunction)
    (cf : copy_function) (cv : Vector) (size : nat) (st : Segment) (root : nat)
    (slots : list Owned) :
  GetCopyFunction ct = Ok g -> copy_ok ct cf ->
  vector_ok ct (fun i => i < size) cv -> struct_flat ct cv ->
  chain (repr ct st) st root slots ->
  NoDup (concat (map o_fp slots)) ->
  exists st' slots' cls,
    list_child_loop cf (GetType cv) (Orrify cv) cv size
      (S (length (vector_data st) + size)) st root size 0 = Some (st', cls) /\
    chain (repr ct st') st' root slots' /\
    concat (map o_vals slots')
      = concat (map o_vals slots) ++ map (vector_row cv) (seq 0 size) /\
    extends (concat (map o_fp slots)) st st' /\
    (forall i, i ∈ concat (map o_fp slots') ->
       i ∈ concat (map o_fp slots) \/ length (vector_data st) <= i) /\
    NoDup (concat (map o_fp slots')) /\
    (0 < size -> cls = length (concat (map o_vals slots))) /\
    (size = 0 -> cls = 0).
Proof.
  intros Hg Hcopy Hok Hflat Hch Hnd.
  destruct (decide (size = 0)) as [->|Hpos].
  - exists st, slots, 0. rewrite list_child_loop_0. simpl. rewrite app_nil_r.
    split; [reflexivity|]. split; [exact Hch|]. split; [reflexivity|].
    split; [apply extends_refl|]. split; [intros i Hi; left; exact Hi|].
    split; [exact Hnd|]. split; [lia|reflexivity].
  - destruct (list_chain_loop ct g cf cv size Hg Hcopy Hok Hflat slots
                (S (length (vector_data st) + size)) st root size 0 Hch Hnd)
      as (st' & slots' & Hrun & Hch' & Hflat' & Hext & Hfoot & Hnd'); [lia| |].
    + pose proof (chain_length_le ct st slots root Hch) as Hlen.
      pose proof (bounded_NoDup_length st _
                    (chain_bounded ct st (repr_bounded ct st) slots root Hch) Hnd).
      lia.
    + exists st', slots', (length (concat (map o_vals slots))).
      rewrite Nat.sub_diag in Hflat'.
      split; [exact Hrun|]. split; [exact Hch'|]. split; [exact Hflat'|].
      split; [exact Hext|]. split; [exact Hfoot|]. split; [exact Hnd'|].
      split; [reflexivity|lia].
Qed.


(** The flattened child storage of list vector [index]: the rows of
    its chain of child vectors, in chain order. *)
Definition child_storage (child_type : LogicalType) (seg : Segment) (index : nat)
    : list Value :=
  match GetVectorData seg index with
  | Some vd =>
      match child_index vd with
      | Some position =>
          match GetChildIndex seg position 0 with
          | Some child =>
              read_chain (ReadVector child_type seg) seg (length (vector_data seg)) child
          | None => []
          end
      | None => []
      end
  | None => []
  end.

(** The cell stored for row [row] of vector [index], if the row is
    valid. *)
Definition stored_entry (seg : Segment) (index row : nat) : option Datum :=
  vd ← GetVectorData seg index;
  if row_is_valid vd row then Some (stored_datum vd row) else None.

(** An entry with its start offset moved by [shift]. *)
Definition shift_entry (shift : nat) (d : Datum) : Datum :=
  match d with
  | DListEntry offset length => DListEntry (offset + shift) length
  | _ => d
  end.

Lemma child_storage_chain (ct : LogicalType) (seg : Segment) (index : nat)
    (vd : VectorMetaData) (position root : nat) (slots : list Owned) :
  vector_data seg !! index = Some vd -> child_index vd = Some position ->
  child_indices seg !! position = Some (Some root) ->
  chain (repr ct seg) seg root slots -> NoDup (concat (map o_fp slots)) ->
  child_storage ct seg index = concat (map o_vals slots).
Proof.
  intros Hvd Hci Hroot Hch Hnd. unfold child_storage, GetVectorData, GetChildIndex.
  rewrite Hvd, Hci, Nat.add_0_r, Hroot.
  apply (read_chain_slots ct seg (repr_ReadVector ct seg)); [exact Hch|].
  pose proof (chain_length_le ct seg slots root Hch).
  pose proof (bounded_NoDup_length seg _
                (chain_bounded ct seg (repr_bounded ct seg) slots root Hch) Hnd).
  lia.
Qed.

(** The second half of [ColumnDataCopy<list_entry_t>]: once the list
    vector has its child chain, the child run is appended to the chain
    and the entries are stored, shifted by [current_list_size]. *)
Lemma list_finish (ct : LogicalType) (cs : list LogicalType)
    (g : ColumnDataCopyFunction) (cf : copy_function) (source child : Vector)
    (crest : list Vector) (offset n : nat) (seg seg1 : Segment) (index : nat)
    (fp : list nat) (vals : list Value) (vd : VectorMetaData) (position root : nat)
    (slots : list Owned) :
  GetCopyFunction ct = Ok g -> copy_ok ct cf ->
  GetType source = mkLogicalType LIST (ct :: cs) ->
  GetEntries source = child :: crest ->
  (forall r o l, offset <= r < offset + n -> source_valid (Orrify source) r = true ->
     vector_values source (vector_sel source r) = DListEntry o l ->
     o + l <= GetListSize source) ->
  vector_ok ct (fun i => i < GetListSize source) child ->
  struct_flat ct child ->
  vector_data seg !! index = Some vd ->
  vcount vd + n <= STANDARD_VECTOR_SIZE ->
  length (bits vd) = STANDARD_VECTOR_SIZE ->
  length (values vd) = STANDARD_VECTOR_SIZE ->
  tail_valid (vcount vd) (bits vd) ->
  length vals = vcount vd ->
  index ∈ fp ->
  vector_data seg1 !! index
    = Some (mkVectorMetaData (values vd) (bits vd) (vcount vd) (Some position)
              (next_data vd)) ->
  child_indices seg1 !! position = Some (Some root) ->
  chain (repr ct seg1) seg1 root slots ->
  index ∉ concat (map o_fp slots) ->
  NoDup (concat (map o_fp slots)) ->
  extends [index] seg seg1 ->
  (forall i, i ∈ concat (map o_fp slots) -> i ∈ fp \/ length (vector_data seg) <= i) ->
  vals = rows_of vd (stored_list (concat (map o_vals slots))) ->
  (forall r o l, r < vcount vd -> row_is_valid vd r = true ->
     stored_datum vd r = DListEntry o l ->
     o + l <= length (concat (map o_vals slots))) ->
  exists seg' fp',
    ('(seg2, current_list_size) ←
       list_child_loop cf (GetType child) (Orrify child) child (GetListSize source)
         (S (length (vector_data seg1) + GetListSize source))
         seg1 root (GetListSize source) 0;
     TemplatedColumnDataCopy (ListValueCopy current_list_size) seg2 index
       (Orrify source) offset n) = Some seg' /\
    repr (mkLogicalType LIST (ct :: cs)) seg' index fp'
      (vals ++ map (vector_row source) (seq offset n)) /\
    extends fp seg seg' /\
    (forall i, i ∈ fp' -> i ∈ fp \/ length (vector_data seg) <= i) /\
    (forall vd0 vd', vector_data seg !! index = Some vd0 ->
                     vector_data seg' !! index = Some vd' ->
                     next_data vd' = next_data vd0) /\
    exists shift,
      child_storage ct seg' index
        = concat (map o_vals slots)
          ++ map (vector_row child) (seq 0 (GetListSize source)) /\
      (0 < GetListSize source -> shift = length (concat (map o_vals slots))) /\
      (GetListSize source = 0 -> shift = 0) /\
      (forall r, r < vcount vd -> stored_entry seg' index r = stored_entry seg index r) /\
      (forall i, i < n ->
         stored_entry seg' index (vcount vd + i)
         = if source_valid (Orrify source) (offset + i)
           then Some (shift_entry shift
                        (vector_values source (vector_sel source (offset + i))))
           else None).
Proof.
  intros Hg Hcopy Hty Hent Hentries Hchild Hflat Hvd Hfit Hb Hvl Ht Hl Hself Hvd1 Hroot
         Hch Hnotin Hnd Hext1 Hfoot1 Hvals Hin.
  pose proof (lookup_lt_Some _ _ _ Hvd1) as Hilt1.
  destruct (list_children ct g cf child (GetListSize source) seg1 root slots
              Hg Hcopy Hchild Hflat Hch Hnd)
    as (seg2 & slots' & cls & Hrun & Hch' & Hflat' & Hext2 & Hfoot2 & Hnd2 & Hcls & Hcls0).
  rewrite Hrun. cbn [mbind option_bind].
  assert (Hvd2 : vector_data seg2 !! index
                 = Some (mkVectorMetaData (values vd) (bits vd) (vcount vd)
                           (Some position) (next_data vd))).
  { rewrite (ext_vectors _ _ _ Hext2 index Hnotin Hilt1). exact Hvd1. }
  pose proof (lookup_lt_Some _ _ _ Hvd2) as Hilt2.
  destruct (TemplatedColumnDataCopy_spec (ListValueCopy cls) (shifted_entry cls) seg2
              index _ (Orrify source) offset n (ListValueCopy_sound cls) Hvd2 Hb Hvl
              Hfit Ht)
    as (slotsv & mask & h & Hrun3 & Hsl & Hml & [k Hk] & Hlow & Hmnew & Hmhigh & Hsnew).
  cbn [values bits vcount child_index next_data] in *.
  rewrite Hrun3.
  assert (Hext3 : extends [index] seg2
            (set_vector_data (set_heap seg2 h)
               (<[index := mkVectorMetaData slotsv mask (vcount vd + n) (Some position)
                             (next_data vd)]> (vector_data seg2)))).
  { apply extends_put. exists k. exact Hk. }
  assert (Hnotin' : index ∉ concat (map o_fp slots')).
  { intros Hi. destruct (Hfoot2 _ Hi) as [Hi'|Hge]; [exact (Hnotin Hi')|lia]. }
  pose proof (ext_length _ _ _ Hext1) as Hlen1.
  pose proof (ext_length _ _ _ Hext2) as Hlen2.
  assert (Hroot3 : child_indices seg2 !! position = Some (Some root)).
  { destruct (ext_children _ _ _ Hext2) as [x Hx]. rewrite Hx.
    apply lookup_prefix. exact Hroot. }
  assert (Hch3 : chain
            (repr ct (set_vector_data (set_heap seg2 h)
               (<[index := mkVectorMetaData slotsv mask (vcount vd + n) (Some position)
                             (next_data vd)]> (vector_data seg2))))
            (set_vector_data (set_heap seg2 h)
               (<[index := mkVectorMetaData slotsv mask (vcount vd + n) (Some position)
                             (next_data vd)]> (vector_data seg2)))
            root slots').
  { apply (chain_frame ct seg2); [apply repr_stable|exact Hch'|].
    apply (extends_agrees [index]); [exact Hext3| |].
    - exact (chain_bounded ct seg2 (repr_bounded ct seg2) slots' root Hch').
    - intros i Hi Hi'. apply list_elem_of_singleton in Hi'. subst i. exact (Hnotin' Hi). }
  eexists _, (index :: concat (map o_fp slots')). split; [reflexivity|].
  split; [|split; [|split; [|split]]].
  - simpl. eexists. split; [apply list_lookup_insert_eq; exact Hilt2|].
    cbn [values bits vcount child_index next_data].
    split; [exact Hfit|]. split; [exact Hml|].
    split; [right; intros r Hr; apply Hmhigh; lia|].
    split; [rewrite length_app, length_map, length_seq; lia|].
    split; [apply NoDup_cons; split; assumption|].
    split; [exact Hsl|].
    exists root, slots'. split; [exact Hroot3|].
    split; [exact Hch3|].
    split; [reflexivity|]. split.
    + symmetry. apply (rows_after_copy _ _ (vector_row source) (vcount vd) n offset).
      * exact Hl.
      * apply length_rows_of.
      * intros r Hr. rewrite Hvals. rewrite !lookup_rows_of by (simpl; lia). f_equal.
        destruct (Hlow r Hr) as [Hs Hm].
        unfold row_is_valid, stored_datum. simpl. rewrite Hs, Hm.
        fold (row_is_valid vd r). fold (stored_datum vd r).
        destruct (row_is_valid vd r) eqn:Hv; [|reflexivity].
        rewrite Hflat'. apply stored_list_app. intros o l Hd. exact (Hin r o l Hr Hv Hd).
      * intros i Hi. rewrite lookup_rows_of by (simpl; lia). f_equal.
        rewrite (row_is_valid_lookup _ _ _ _ _ _ _ (Hmnew i Hi)).
        rewrite (vector_row_list source child crest) by (try exact Hent; rewrite Hty; reflexivity).
        destruct (source_valid (Orrify source) (offset + i)) eqn:Hv; [|reflexivity].
        destruct (Hsnew i Hi Hv) as (x & Hx & Hshift).
        rewrite (stored_datum_lookup _ _ _ _ _ _ _ Hx). rewrite Hshift.
        unfold get_index. simpl.
        destruct (vector_values source (vector_sel source (offset + i)))
          as [z|s|o l] eqn:Hd; try reflexivity.
        rewrite Hflat'. apply stored_list_new; [|exact Hcls].
        apply (Hentries (offset + i) o l); [lia|exact Hv|exact Hd].
    + intros r o l Hr Hv Hd. simpl in Hr.
      rewrite Hflat', length_app, length_map, length_seq.
      destruct (decide (r < vcount vd)) as [Hold|Hnew].
      * destruct (Hlow r Hold) as [Hs Hm].
        unfold row_is_valid in Hv. simpl in Hv. rewrite Hm in Hv.
        unfold stored_datum in Hd. simpl in Hd. rewrite Hs in Hd.
        pose proof (Hin r o l Hold Hv Hd). lia.
      * assert (Hex : exists i, r = vcount vd + i /\ i < n)
          by (exists (r - vcount vd); lia).
        destruct Hex as (i & -> & Hi).
        rewrite (row_is_valid_lookup _ _ _ _ _ _ _ (Hmnew i Hi)) in Hv.
        destruct (Hsnew i Hi Hv) as (x & Hx & Hshift).
        rewrite (stored_datum_lookup _ _ _ _ _ _ _ Hx) in Hd. rewrite Hshift in Hd.
        unfold get_index in Hd. simpl in Hd.
        destruct (vector_values source (vector_sel source (offset + i)))
          as [z|s|o0 l0] eqn:Hd0; try discriminate.
        injection Hd as <- <-.
        pose proof (Hentries (offset + i) o0 l0 ltac:(lia) Hv Hd0) as Hle.
        destruct (decide (GetListSize source = 0)) as [Hz|Hnz].
        -- rewrite (Hcls0 Hz). lia.
        -- rewrite Hcls by lia. lia.
  - apply (extends_trans fp [index] fp seg seg2); [|exact Hext3| |].
    + apply (extends_trans [index] (concat (map o_fp slots)) fp seg seg1 seg2);
        [exact Hext1|exact Hext2| |].
      * intros i Hi. apply list_elem_of_singleton in Hi. subst i. exact Hself.
      * intros i Hi Hlt. destruct (Hfoot1 i Hi) as [Hi'|Hge]; [exact Hi'|lia].
    + intros i Hi. exact Hi.
    + intros i Hi _. apply list_elem_of_singleton in Hi. subst i. exact Hself.
  - intros i Hi. apply elem_of_cons in Hi as [->|Hi]; [left; exact Hself|].
    destruct (Hfoot2 i Hi) as [Hi'|Hge]; [exact (Hfoot1 i Hi')|right; lia].
  - intros vd0 vd' Hvd0 Hvd'. simpl in Hvd'.
    rewrite list_lookup_insert_eq in Hvd' by exact Hilt2.
    rewrite Hvd in Hvd0. injection Hvd0 as <-. injection Hvd' as <-. reflexivity.
  - exists cls. split; [|split; [exact Hcls|split; [exact Hcls0|split]]].
    + rewrite <- Hflat'.
      eapply (child_storage_chain ct _ index _ position root slots');
        [simpl; apply list_lookup_insert_eq; exact Hilt2|reflexivity|exact Hroot3
        |exact Hch3|exact Hnd2].
    + intros r Hr. destruct (Hlow r Hr) as [Hs Hm].
      unfold stored_entry, GetVectorData. simpl.
      rewrite list_lookup_insert_eq by exact Hilt2. rewrite Hvd. simpl.
      unfold row_is_valid, stored_datum. simpl. rewrite Hs, Hm. reflexivity.
    + intros i Hi. unfold stored_entry, GetVectorData. simpl.
      rewrite list_lookup_insert_eq by exact Hilt2. simpl.
      rewrite (row_is_valid_lookup _ _ _ _ _ _ _ (Hmnew i Hi)).
      destruct (source_valid (Orrify source) (offset + i)) eqn:Hv; [|reflexivity].
      destruct (Hsnew i Hi Hv) as (x & Hx & Hshift).
      rewrite (stored_datum_lookup _ _ _ _ _ _ _ Hx). rewrite Hshift. reflexivity.
Qed.


(** [ColumnDataCopy<list_entry_t>] on a list vector: the copy
    succeeds, the vector then holds the source rows after its own, the
    child vector of the source is appended to the flattened child
    storage, and the entries are stored shifted. *)
Lemma list_copy_full (ct : LogicalType) (cs : list LogicalType)
    (g : ColumnDataCopyFunction) (cf : copy_function) :
  GetCopyFunction ct = Ok g -> copy_ok ct cf ->
  forall seg index fp vals source offset n,
    repr (mkLogicalType LIST (ct :: cs)) seg index fp vals ->
    vector_ok (mkLogicalType LIST (ct :: cs)) (fun r => offset <= r < offset + n) source ->
    struct_flat (mkLogicalType LIST (ct :: cs)) source ->
    length vals + n <= STANDARD_VECTOR_SIZE ->
    exists seg' fp' child shift,
      head (GetEntries source) = Some child /\
      ColumnDataCopy_list_entry_t [cf] seg index (Orrify source) source offset n
        = Some seg' /\
      repr (mkLogicalType LIST (ct :: cs)) seg' index fp'
        (vals ++ map (vector_row source) (seq offset n)) /\
      extends fp seg seg' /\
      (forall i, i ∈ fp' -> i ∈ fp \/ length (vector_data seg) <= i) /\
      (forall vd vd', vector_data seg !! index = Some vd ->
                      vector_data seg' !! index = Some vd' ->
                      next_data vd' = next_data vd) /\
      child_storage ct seg' index
        = child_storage ct seg index
          ++ map (vector_row child) (seq 0 (GetListSize source)) /\
      (0 < GetListSize source -> shift = length (child_storage ct seg index)) /\
      (GetListSize source = 0 -> shift = 0) /\
      (forall r, r < length vals ->
         stored_entry seg' index r = stored_entry seg index r) /\
      (forall i, i < n ->
         stored_entry seg' index (length vals + i)
         = if source_valid (Orrify source) (offset + i)
           then Some (shift_entry shift
                        (vector_values source (vector_sel source (offset + i))))
           else None).
Proof.
  intros Hg Hcopy seg index fp vals source offset n Hr [Hty Hok] Hflat Hfit.
  simpl in Hok, Hflat.
  destruct (GetEntries source) as [|child crest] eqn:Hent; [contradiction|].
  destruct Hok as [Hentries Hchild].
  assert (Hcty : GetType child = ct) by (destruct ct; apply Hchild).
  simpl in Hr. destruct Hr as (vd & Hvd & Hc & Hb & Ht & Hl & Hnd & Hvl & Hcase).
  pose proof (lookup_lt_Some _ _ _ Hvd) as Hilt.
  destruct vd as [vs bs c ci nd]. cbn [values bits vcount child_index next_data] in *.
  destruct ci as [position|].
  - destruct Hcase as (root & slots & Hroot & Hch & Hfp & Hvals & Hin).
    rewrite Hfp in Hnd. apply NoDup_cons in Hnd as [Hnotin Hndk].
    pose proof (child_storage_chain ct seg index _ position root slots Hvd eq_refl
                  Hroot Hch Hndk) as Hcs.
    destruct (list_finish ct cs g cf source child crest offset n seg seg index fp vals
                (mkVectorMetaData vs bs c (Some position) nd) position root slots)
      as (seg' & fp' & Hrun & Hrep' & Hext' & Hfoot' & Hnext' & shift & Hst & Hs1 & Hs0
          & Hold & Hnew);
      try assumption; try (simpl; lia).
    + rewrite Hfp. apply list_elem_of_here.
    + apply extends_refl.
    + intros i Hi. left. rewrite Hfp. apply list_elem_of_further. exact Hi.
    + exists seg', fp', child, shift. split; [reflexivity|]. split.
      { unfold ColumnDataCopy_list_entry_t. rewrite Hent. cbn [head mbind option_bind].
        unfold GetVectorData. rewrite Hvd.
        cbn [mbind option_bind child_index lookup list_lookup].
        rewrite Hvd. cbn [mbind option_bind child_index].
        unfold GetChildIndex. rewrite Nat.add_0_r, Hroot. cbn [mbind option_bind].
        exact Hrun. }
      cbn [vcount] in Hold, Hnew. rewrite Hcs, Hl.
      split; [exact Hrep'|]. split; [exact Hext'|]. split; [exact Hfoot'|].
      split; [exact Hnext'|]. split; [exact Hst|]. split; [exact Hs1|].
      split; [exact Hs0|]. split; [exact Hold|exact Hnew].
  - destruct Hcase as [-> Hfp].
    assert (Hnil : vals = []) by (apply nil_length_inv; exact Hl).
    assert (Hcs : child_storage ct seg index = []).
    { unfold child_storage, GetVectorData. rewrite Hvd. reflexivity. }
    set (root := length (vector_data seg)).
    set (position := length (child_indices seg)).
    set (pool := vector_data seg ++ [fresh_vector root ct]).
    set (seg1 := set_vector_data
                   (set_child_indices (set_vector_data seg pool)
                      (child_indices seg ++ [Some root]))
                   (<[index := mkVectorMetaData vs bs 0 (Some position) nd]> pool)).
    assert (Hvd1 : vector_data seg1 !! index
                   = Some (mkVectorMetaData vs bs 0 (Some position) nd)).
    { simpl. apply list_lookup_insert_eq. unfold pool. rewrite length_app. lia. }
    assert (Hfresh : vector_data seg1 !! root = Some (fresh_vector root ct)).
    { simpl. rewrite list_lookup_insert_ne by (unfold root; lia).
      unfold pool. rewrite lookup_app_r by (unfold root; lia).
      unfold root. rewrite Nat.sub_diag. reflexivity. }
    destruct (list_finish ct cs g cf source child crest offset n seg seg1 index fp vals
                (mkVectorMetaData vs bs 0 None nd) position root
                [mkOwned root [root] []])
      as (seg' & fp' & Hrun & Hrep' & Hext' & Hfoot' & Hnext' & shift & Hst & Hs1 & Hs0
          & Hold & Hnew);
      try assumption; try (simpl; lia).
    + rewrite Hfp. apply list_elem_of_here.
    + simpl. unfold position. rewrite list_lookup_middle by reflexivity. reflexivity.
    + simpl. split; [reflexivity|]. split; [exact (repr_fresh_vector ct g seg1 root Hg Hfresh)|].
      eexists. split; [exact Hfresh|reflexivity].
    + simpl. intros Hi. apply list_elem_of_singleton in Hi. unfold root in Hi. lia.
    + simpl. apply NoDup_singleton.
    + split; simpl; try reflexivity.
      * intros i Hi Hlt. rewrite list_lookup_insert_ne.
        -- unfold pool. apply lookup_app_l. exact Hlt.
        -- intros ->. apply Hi. apply list_elem_of_singleton. reflexivity.
      * rewrite length_insert. unfold pool. rewrite length_app. lia.
      * eexists. reflexivity.
      * exists []. rewrite app_nil_r. reflexivity.
    + simpl. intros i Hi. apply list_elem_of_singleton in Hi. right. unfold root in Hi. lia.
    + exists seg', fp', child, shift. split; [reflexivity|]. split.
      { unfold ColumnDataCopy_list_entry_t. rewrite Hent. cbn [head mbind option_bind].
        unfold GetVectorData. rewrite Hvd.
        cbn [mbind option_bind child_index]. rewrite Hcty, AllocateVector_eq.
        unfold AddChildIndex.
        cbn [vector_data child_indices set_vector_data set_child_indices].
        rewrite (lookup_prefix _ _ _ _ Hvd). fold root. fold pool.
        cbn [mbind option_bind values bits vcount next_data].
        rewrite put_vector_eq by (simpl; unfold pool; rewrite length_app; lia).
        cbn [vector_data child_indices set_vector_data set_child_indices].
        fold position. fold seg1.
        cbn [mbind option_bind lookup list_lookup].
        rewrite Hvd1. cbn [mbind option_bind child_index].
        unfold GetChildIndex. rewrite Nat.add_0_r.
        replace (child_indices seg1 !! position) with (Some (Some root)).
        * cbn [mbind option_bind]. rewrite <- Hcty. exact Hrun.
        * simpl. unfold position. rewrite list_lookup_middle by reflexivity. reflexivity. }
      cbn [vcount map concat o_vals app] in Hst, Hs1, Hold, Hnew. rewrite Hcs, Hl.
      split; [exact Hrep'|]. split; [exact Hext'|]. split; [exact Hfoot'|].
      split; [exact Hnext'|]. split; [exact Hst|]. split; [exact Hs1|].
      split; [exact Hs0|]. split; [exact Hold|exact Hnew].
Qed.

Lemma list_copy_ok (ct : LogicalType) (cs : list LogicalType)
    (g : ColumnDataCopyFunction) (cf : copy_function) :
  GetCopyFunction ct = Ok g -> copy_ok ct cf ->
  copy_ok (mkLogicalType LIST (ct :: cs)) (ColumnDataCopy_list_entry_t [cf]).
Proof.
  intros Hg Hcopy seg index fp vals source offset n Hr Hok Hflat Hfit.
  destruct (list_copy_full ct cs g cf Hg Hcopy seg index fp vals source offset n
              Hr Hok Hflat Hfit)
    as (seg' & fp' & child & shift & _ & Hrun & Hrep & Hext & Hfoot & Hnext & _).
  exists seg', fp'. split; [exact Hrun|]. split; [exact Hrep|]. split; [exact Hext|].
  split; [exact Hfoot|exact Hnext].
Qed.


(** Every copy function [GetCopyFunction] hands out stores the rows it
    is given. *)
Lemma copy_spec (t : LogicalType) :
  forall f, GetCopyFunction t = Ok f -> copy_ok t (call f).
Proof.
  induction t as [physical children IH] using LogicalType_induction. intros f Hf.
  destruct (GetCopyFunction_cases _ _ _ Hf)
    as [(Hsc & Hnv & ->)|[(-> & ->)|[(-> & fs & -> & HF)|(-> & ct & cs & g & -> & Hg & ->)]]].
  - apply scalar_copy_ok; [exact Hsc|apply StandardValueCopy_sound; exact Hnv].
  - apply scalar_copy_ok; [split; discriminate|apply StringValueCopy_sound].
  - simpl. apply struct_copy_ok.
    + clear -HF. induction HF as [|t g ts gs Hg _ IHF]; constructor;
        [exists g; exact Hg|exact IHF].
    + apply Forall2_fmap_r. clear Hf. induction HF as [|t g ts gs Hg _ IHF];
        constructor.
      * exact (Forall_inv IH g Hg).
      * apply IHF. exact (Forall_inv_tail IH).
  - simpl. apply (list_copy_ok ct cs g (call g) Hg). exact (Forall_inv IH g Hg).
Qed.


(** ** Appending to a segment *)

Lemma copy_column_eq (fs : list ColumnDataCopyFunction) (chunk : ChunkMetaData)
    (vs : list Vector) (offset n k : nat) (st : Segment) (f : ColumnDataCopyFunction)
    (root : nat) (v : Vector) :
  fs !! k = Some f -> chunk_vector_data chunk !! k = Some root -> vs !! k = Some v ->
  copy_column fs chunk vs offset n k st = call f st root (Orrify v) v offset n.
Proof.
  intros Hf Hr Hv. unfold copy_column. rewrite Hf. simpl. rewrite Hr. simpl.
  rewrite Hv. reflexivity.
Qed.

(** The loop over the columns of a chunk: column after column gets the
    source rows of its input vector, and nothing else changes. *)
Lemma columns_loop (fs : list ColumnDataCopyFunction) (chunk : ChunkMetaData)
    (vs : list Vector) (offset n : nat) :
  forall ts k os st,
    (forall j t, ts !! j = Some t ->
       exists f v, fs !! (k + j) = Some f /\ vs !! (k + j) = Some v /\
                   GetCopyFunction t = Ok f /\
                   vector_ok t (fun r => offset <= r < offset + n) v /\
                   struct_flat t v) ->
    (forall j o, os !! j = Some o ->
       chunk_vector_data chunk !! (k + j) = Some (o_index o)) ->
    Forall2 (fun t o => repr t st (o_index o) (o_fp o) (o_vals o)) ts os ->
    Forall (fun o => length (o_vals o) + n <= STANDARD_VECTOR_SIZE) os ->
    NoDup (concat (map o_fp os)) ->
    exists st' os',
      for_loop (length ts) k (copy_column fs chunk vs offset n) st = Some st' /\
      Forall2 (fun t o => repr t st' (o_index o) (o_fp o) (o_vals o)) ts os' /\
      (forall j o, os !! j = Some o ->
         exists o' v, os' !! j = Some o' /\ vs !! (k + j) = Some v /\
                      o_index o' = o_index o /\
                      o_vals o' = o_vals o ++ map (vector_row v) (seq offset n)) /\
      length os' = length os /\
      extends (concat (map o_fp os)) st st' /\
      (forall i, i ∈ concat (map o_fp os') ->
         i ∈ concat (map o_fp os) \/ length (vector_data st) <= i) /\
      NoDup (concat (map o_fp os')).
Proof.
  induction ts as [|t ts IH]; intros k os st Hfs Hroots Hrep Hfit Hnd.
  - apply Forall2_nil_inv_l in Hrep. subst os. exists st, []. simpl.
    split; [reflexivity|]. split; [constructor|]. split; [intros j o Hj; discriminate|].
    split; [reflexivity|]. split; [apply extends_refl|]. split; [intros i Hi; inversion Hi|].
    constructor.
  - apply Forall2_cons_inv_l in Hrep as (o & os' & Hrep & Hrest & ->).
    rename os' into os.
    destruct (Hfs 0 t eq_refl) as (f & v & Hf & Hv & Hg & Hok & Hflat).
    pose proof (Hroots 0 o eq_refl) as Hroot.
    rewrite Nat.add_0_r in Hf, Hv, Hroot.
    simpl in Hnd. apply NoDup_app_inv in Hnd as (Hnd1 & Hndr & Hdisj).
    apply Forall_cons in Hfit as [Hfit1 Hfitr].
    destruct (copy_spec t f Hg st (o_index o) (o_fp o) (o_vals o) v offset n
                Hrep Hok Hflat Hfit1)
      as (st1 & fp1 & Hrun & Hrep1 & Hext1 & Hfp1 & _).
    assert (Hbr : bounded st (concat (map o_fp os))).
    { clear -Hrest STANDARD_VECTOR_SIZE_pos. induction Hrest as [|t' o' ts' os' Hr _ IHr]; simpl.
      - intros i Hi. inversion Hi.
      - intros i Hi. apply elem_of_app in Hi as [Hi|Hi];
          [exact (repr_bounded _ _ _ _ _ Hr i Hi)|exact (IHr i Hi)]. }
    pose proof (repr_bounded _ _ _ _ _ Hrep1) as Hb1'.
    assert (Hrest1 : Forall2 (fun t o => repr t st1 (o_index o) (o_fp o) (o_vals o)) ts os).
    { clear -Hrest Hext1 Hdisj STANDARD_VECTOR_SIZE_pos.
      assert (Hd : forall i, i ∈ concat (map o_fp os) -> i ∉ o_fp o)
        by (intros i Hi Hin; exact (Hdisj i Hin Hi)).
      clear Hdisj. induction Hrest as [|t' o' ts' os' Hr _ IHr]; constructor.
      - apply (repr_extends t' (o_fp o) (o_fp o') st); [exact Hr|exact Hext1|].
        intros i Hi. apply Hd. simpl. apply elem_of_app. left. exact Hi.
      - apply IHr. intros i Hi. apply Hd. simpl. apply elem_of_app. right. exact Hi. }
    destruct (IH (S k) os st1)
      as (st' & os' & Hloop & Hrep' & Hvals' & Hlen' & Hext' & Hfp' & Hnd').
    { intros j t' Hj. destruct (Hfs (S j) t' Hj) as (f' & v' & Hf' & Hv' & H').
      exists f', v'. replace (S k + j) with (k + S j) by lia.
      split; [exact Hf'|]. split; [exact Hv'|exact H']. }
    { intros j o' Hj. replace (S k + j) with (k + S j) by lia.
      exact (Hroots (S j) o' Hj). }
    { exact Hrest1. }
    { exact Hfitr. }
    { exact Hndr. }
    pose proof (ext_length _ _ _ Hext1) as Hlen1.
    assert (Hfp1_rest : forall i, i ∈ fp1 -> i ∉ concat (map o_fp os)).
    { intros i Hi Hin. destruct (Hfp1 i Hi) as [Hold|Hnew].
      - exact (Hdisj i Hold Hin).
      - specialize (Hbr i Hin). lia. }
    exists st', (mkOwned (o_index o) fp1 (o_vals o ++ map (vector_row v) (seq offset n))
                   :: os').
    split.
    { change (length (t :: ts)) with (S (length ts)). rewrite for_loop_S.
      rewrite (copy_column_eq fs chunk vs offset n k st f (o_index o) v Hf Hroot Hv).
      rewrite Hrun. exact Hloop. }
    split.
    { constructor; [|exact Hrep']. simpl.
      apply (repr_extends t (concat (map o_fp os)) fp1 st1); assumption. }
    split.
    { intros j o0 Hj. destruct j as [|j]; simpl in Hj.
      - injection Hj as <-. eexists _, v. rewrite Nat.add_0_r.
        split; [reflexivity|]. split; [exact Hv|]. split; reflexivity.
      - destruct (Hvals' j o0 Hj) as (o' & v' & Hk1 & Hc1 & Hv1).
        exists o', v'. replace (k + S j) with (S k + j) by lia.
        split; [exact Hk1|]. split; [exact Hc1|exact Hv1]. }
    split; [simpl; f_equal; exact Hlen'|].
    split.
    { simpl. apply (extends_trans (o_fp o) (concat (map o_fp os)) _ st st1 st');
        [exact Hext1|exact Hext'| |].
      - intros i Hi. apply elem_of_app. left. exact Hi.
      - intros i Hi _. apply elem_of_app. right. exact Hi. }
    split.
    { simpl. intros i Hi. apply elem_of_app in Hi as [Hi|Hi].
      - destruct (Hfp1 i Hi) as [Hold|Hnew];
          [left; apply elem_of_app; left; exact Hold|right; exact Hnew].
      - destruct (Hfp' i Hi) as [Hold|Hnew];
          [left; apply elem_of_app; right; exact Hold|right; lia]. }
    simpl. apply NoDup_app. split; [|split; [|exact Hnd']].
    + destruct (repr_descriptor _ _ _ _ _ Hrep1) as (? & _ & _ & _ & Hn). exact Hn.
    + intros i Hi Hin. destruct (Hfp' i Hin) as [Hold|Hnew].
      * exact (Hfp1_rest i Hi Hold).
      * specialize (Hb1' i Hi). lia.
Qed.


(** The vectors of a chunk: chunk by chunk and column by column, the
    vector that holds the column's rows. *)
Definition chunk_ok (ts : list LogicalType) (seg : Segment) (chunk : ChunkMetaData)
    (os : list Owned) : Prop :=
  chunk_vector_data chunk = map o_index os /\
  Forall2 (fun t o => repr t seg (o_index o) (o_fp o) (o_vals o)) ts os /\
  Forall (fun o => length (o_vals o) = chunk_count chunk) os /\
  chunk_count chunk <= STANDARD_VECTOR_SIZE.

Definition segment_ok (ts : list LogicalType) (seg : Segment)
    (oss : list (list Owned)) : Prop :=
  segment_types seg = ts /\
  Forall2 (chunk_ok ts seg) (chunk_data seg) oss /\
  NoDup (concat (map o_fp (concat oss))).

(** The rows of column [j], over all chunks. *)
Definition stored_column (oss : list (list Owned)) (j : nat) : list Value :=
  concat (map (fun os => from_option o_vals [] (os !! j)) oss).

Definition chunk_rows (seg : Segment) : nat :=
  list_sum (map chunk_count (chunk_data seg)).

Lemma columns_bounded (ts : list LogicalType) (seg : Segment) (os : list Owned) :
  Forall2 (fun t o => repr t seg (o_index o) (o_fp o) (o_vals o)) ts os ->
  bounded seg (concat (map o_fp os)).
Proof.
  intros H. induction H as [|t o ts' os' Hr _ IH]; simpl.
  - intros i Hi. inversion Hi.
  - intros i Hi. apply elem_of_app in Hi as [Hi|Hi];
      [exact (repr_bounded _ _ _ _ _ Hr i Hi)|exact (IH i Hi)].
Qed.

Lemma columns_agree (ts : list LogicalType) (seg seg' : Segment) (os : list Owned) :
  Forall2 (fun t o => repr t seg (o_index o) (o_fp o) (o_vals o)) ts os ->
  agrees (concat (map o_fp os)) seg seg' ->
  Forall2 (fun t o => repr t seg' (o_index o) (o_fp o) (o_vals o)) ts os.
Proof.
  intros H. induction H as [|t o ts' os' Hr _ IH]; intros Hag; constructor.
  - apply (repr_stable t seg); [exact Hr|]. apply (agrees_subset _ _ _ _ Hag).
    intros i Hi. simpl. apply elem_of_app. left. exact Hi.
  - apply IH. apply (agrees_subset _ _ _ _ Hag).
    intros i Hi. simpl. apply elem_of_app. right. exact Hi.
Qed.

Lemma chunk_ok_agrees (ts : list LogicalType) (seg seg' : Segment)
    (chunk : ChunkMetaData) (os : list Owned) :
  chunk_ok ts seg chunk os -> agrees (concat (map o_fp os)) seg seg' ->
  chunk_ok ts seg' chunk os.
Proof.
  intros (Hroots & Hrep & Hlen & Hcap) Hag.
  split; [exact Hroots|]. split; [|split; assumption].
  exact (columns_agree ts seg seg' os Hrep Hag).
Qed.

Lemma chunks_agree (ts : list LogicalType) (seg seg' : Segment)
    (chunks : list ChunkMetaData) (oss : list (list Owned)) :
  Forall2 (chunk_ok ts seg) chunks oss ->
  agrees (concat (map o_fp (concat oss))) seg seg' ->
  Forall2 (chunk_ok ts seg') chunks oss.
Proof.
  intros H. induction H as [|chunk os chunks' oss' Hc _ IH]; intros Hag; constructor.
  - apply (chunk_ok_agrees ts seg); [exact Hc|]. apply (agrees_subset _ _ _ _ Hag).
    intros i Hi. simpl. rewrite map_app, concat_app. apply elem_of_app. left. exact Hi.
  - apply IH. apply (agrees_subset _ _ _ _ Hag).
    intros i Hi. simpl. rewrite map_app, concat_app. apply elem_of_app. right. exact Hi.
Qed.

Lemma chunks_bounded (ts : list LogicalType) (seg : Segment)
    (chunks : list ChunkMetaData) (oss : list (list Owned)) :
  Forall2 (chunk_ok ts seg) chunks oss ->
  bounded seg (concat (map o_fp (concat oss))).
Proof.
  intros H. induction H as [|chunk os chunks' oss' Hc _ IH]; simpl.
  - intros i Hi. inversion Hi.
  - rewrite map_app, concat_app. intros i Hi. apply elem_of_app in Hi as [Hi|Hi].
    + destruct Hc as (_ & Hrep & _). exact (columns_bounded ts seg os Hrep i Hi).
    + exact (IH i Hi).
Qed.

Lemma allocate_columns_eq (ts : list LogicalType) :
  forall seg,
    allocate_columns seg ts =
    (set_vector_data seg
       (vector_data seg ++
          imap (fun k t => fresh_vector (length (vector_data seg) + k) t) ts),
     seq (length (vector_data seg)) (length ts)).
Proof.
  induction ts as [|t ts IH]; intros seg.
  - simpl. rewrite app_nil_r. destruct seg; reflexivity.
  - cbn [allocate_columns]. rewrite AllocateVector_eq, IH.
    cbn [vector_data set_vector_data length seq imap]. f_equal.
    + unfold set_vector_data. simpl. f_equal. rewrite <- app_assoc. simpl.
      rewrite Nat.add_0_r. f_equal. f_equal. apply imap_ext. intros k x _. simpl.
      rewrite length_app. simpl. f_equal. lia.
    + f_equal. rewrite length_app. simpl. f_equal. lia.
Qed.

Lemma fresh_kids_index (first k m : nat) :
  map o_index (fresh_kids first k m) = seq (first + k) m.
Proof.
  unfold fresh_kids. revert k. induction m as [|m IH]; intros k; [reflexivity|].
  simpl. f_equal. rewrite IH. f_equal. lia.
Qed.

Lemma columns_fresh (st : Segment) (first : nat) (ts : list LogicalType) :
  forall k,
    (forall j t, ts !! j = Some t ->
       (exists f, GetCopyFunction t = Ok f) /\
       vector_data st !! (first + (k + j)) = Some (fresh_vector (first + (k + j)) t)) ->
    Forall2 (fun t o => repr t st (o_index o) (o_fp o) (o_vals o)) ts
      (fresh_kids first k (length ts)).
Proof.
  induction ts as [|t ts IH]; intros k H; [constructor|].
  destruct (H 0 t eq_refl) as ([f Hf] & Hvd). rewrite Nat.add_0_r in Hvd.
  simpl. constructor; [exact (repr_fresh_vector t f st _ Hf Hvd)|].
  apply IH. intros j t' Hj. replace (S k + j) with (k + S j) by lia.
  apply (H (S j) t'). exact Hj.
Qed.


Lemma agrees_same (fp : list nat) (seg seg' : Segment) :
  vector_data seg' = vector_data seg -> child_indices seg' = child_indices seg ->
  heap seg' = heap seg -> agrees fp seg seg'.
Proof.
  intros Hv Hc Hh. split; [intros i _; rewrite Hv; reflexivity|].
  split; exists []; rewrite app_nil_r; assumption.
Qed.

Lemma stored_column_snoc (oss : list (list Owned)) (os : list Owned) (j : nat) :
  stored_column (oss ++ [os]) j = stored_column oss j ++ from_option o_vals [] (os !! j).
Proof.
  unfold stored_column. rewrite map_app, concat_app. simpl. rewrite app_nil_r.
  reflexivity.
Qed.

Lemma owners_snoc (oss : list (list Owned)) (os : list Owned) :
  concat (map o_fp (concat (oss ++ [os])))
  = concat (map o_fp (concat oss)) ++ concat (map o_fp os).
Proof. rewrite concat_app, map_app, concat_app. simpl. rewrite app_nil_r. reflexivity. Qed.

Lemma segment_ok_snoc (ts : list LogicalType) (seg : Segment)
    (oss : list (list Owned)) (os : list Owned) :
  segment_ok ts seg (oss ++ [os]) ->
  exists chunks chunk,
    chunk_data seg = chunks ++ [chunk] /\
    Forall2 (chunk_ok ts seg) chunks oss /\ chunk_ok ts seg chunk os /\
    NoDup (concat (map o_fp (concat oss))) /\ NoDup (concat (map o_fp os)) /\
    (forall i, i ∈ concat (map o_fp (concat oss)) -> i ∉ concat (map o_fp os)).
Proof.
  intros (_ & Hch & Hnd). rewrite owners_snoc in Hnd.
  apply NoDup_app_inv in Hnd as (Hnd1 & Hnd2 & Hdisj).
  apply Forall2_app_inv_r in Hch as (chunks & last1 & Hchunks & Hlast & Heq).
  apply Forall2_cons_inv_r in Hlast as (chunk & rest & Hchunk & Hrest & ->).
  apply Forall2_nil_inv_r in Hrest. subst rest.
  exists chunks, chunk. split; [exact Heq|]. split; [exact Hchunks|].
  split; [exact Hchunk|]. split; [exact Hnd1|]. split; [exact Hnd2|exact Hdisj].
Qed.

(** [AllocateNewChunk] adds an empty chunk with a fresh vector for
    every column. *)
Lemma AllocateNewChunk_spec (ts : list LogicalType) (seg : Segment)
    (oss : list (list Owned)) :
  Forall (fun t => exists f, GetCopyFunction t = Ok f) ts ->
  segment_ok ts seg oss ->
  exists chunk os,
    chunk_data (AllocateNewChunk seg) = chunk_data seg ++ [chunk] /\
    chunk_count chunk = 0 /\
    segment_ok ts (AllocateNewChunk seg) (oss ++ [os]) /\
    Forall (fun o => o_vals o = []) os /\
    length os = length ts /\
    segment_count (AllocateNewChunk seg) = segment_count seg.
Proof.
  intros Hget (Hty & Hch & Hnd).
  exists (mkChunkMetaData (seq (length (vector_data seg)) (length ts)) 0),
         (fresh_kids (length (vector_data seg)) 0 (length ts)).
  unfold AllocateNewChunk. rewrite Hty, allocate_columns_eq.
  cbn [chunk_data set_chunk_data set_vector_data segment_count chunk_count].
  pose proof (chunks_bounded ts seg _ _ Hch) as Hbd.
  split; [reflexivity|]. split; [reflexivity|]. split; [|split; [|split]].
  - split; [exact Hty|]. split.
    + cbn [chunk_data]. apply Forall2_app.
      * apply (chunks_agree ts seg); [exact Hch|]. split.
        -- intros i Hi. simpl. apply lookup_app_l. exact (Hbd i Hi).
        -- split; exists []; rewrite app_nil_r; reflexivity.
      * constructor; [|constructor]. split.
        { simpl. rewrite fresh_kids_index, Nat.add_0_r. reflexivity. }
        split.
        { apply columns_fresh. intros j t Hj. simpl.
          split; [exact (proj1 (Forall_lookup _ _) Hget j t Hj)|].
          rewrite lookup_app_r by lia.
          replace (length (vector_data seg) + j - length (vector_data seg)) with j by lia.
          rewrite list_lookup_imap, Hj. reflexivity. }
        split; [|simpl; lia].
        unfold fresh_kids. apply Forall_forall. intros o Ho.
        apply list_elem_of_fmap in Ho as (j & -> & _). reflexivity.
    + rewrite owners_snoc, fresh_kids_fp. apply NoDup_app. split; [exact Hnd|].
      split; [|apply NoDup_seq].
      intros i Hi Hin. apply elem_of_seq in Hin. specialize (Hbd i Hi). lia.
  - unfold fresh_kids. apply Forall_forall. intros o Ho.
    apply list_elem_of_fmap in Ho as (j & -> & _). reflexivity.
  - unfold fresh_kids. rewrite length_map. apply length_seq.
  - reflexivity.
Qed.


Lemma append_loop_0 (fs : list ColumnDataCopyFunction) (n_types : nat)
    (vectors : list Vector) (input_size fuel : nat) (segment : Segment) :
  append_loop fs n_types vectors input_size fuel segment 0 = Ok segment.
Proof. destruct fuel; reflexivity. Qed.

Lemma append_loop_S (fs : list ColumnDataCopyFunction) (n_types : nat)
    (vectors : list Vector) (input_size fuel : nat) (segment : Segment)
    (remaining : nat) :
  remaining <> 0 ->
  append_loop fs n_types vectors input_size (S fuel) segment remaining =
  (chunk ← defined (last (chunk_data segment));
   let append_amount :=
     Nat.min remaining (STANDARD_VECTOR_SIZE - chunk_count chunk) in
   segment1 ←
     (if decide (0 < append_amount) then
        let offset := input_size - remaining in
        seg' ← defined
                 (for_range 0 n_types
                    (copy_column fs chunk vectors offset append_amount)
                    segment);
        Ok (set_chunk_data seg'
              (<[pred (length (chunk_data seg')) :=
                   mkChunkMetaData (chunk_vector_data chunk)
                     (chunk_count chunk + append_amount)]>
                 (chunk_data seg')))
      else Ok segment);
   let remaining := remaining - append_amount in
   if decide (0 < remaining) then
     append_loop fs n_types vectors input_size fuel
       (AllocateNewChunk segment1) remaining
   else Ok segment1).
Proof.
  intros Hne. simpl. destruct (decide (remaining = 0)) as [He|_]; [contradiction|].
  reflexivity.
Qed.

(** One round of the loop of [Append]: [a] rows of every column go to
    the vectors of the last chunk. *)
Lemma append_columns (fs : list ColumnDataCopyFunction) (ts : list LogicalType)
    (vs : list Vector) (m : nat) (seg : Segment) (oss : list (list Owned))
    (os : list Owned) (chunks : list ChunkMetaData) (chunk : ChunkMetaData)
    (rem a : nat) :
  Forall2 (fun t f => GetCopyFunction t = Ok f) ts fs ->
  Forall2 (fun t v => vector_ok t (fun r => r < m) v /\ struct_flat t v) ts vs ->
  segment_ok ts seg (oss ++ [os]) ->
  chunk_data seg = chunks ++ [chunk] ->
  rem <= m -> a <= rem -> chunk_count chunk + a <= STANDARD_VECTOR_SIZE ->
  exists st' os1,
    for_range 0 (length ts) (copy_column fs chunk vs (m - rem) a) seg = Some st' /\
    segment_ok ts
      (set_chunk_data st'
         (<[pred (length (chunk_data st')) :=
              mkChunkMetaData (chunk_vector_data chunk) (chunk_count chunk + a)]>
            (chunk_data st')))
      (oss ++ [os1]) /\
    (forall j v, vs !! j = Some v ->
       from_option o_vals [] (os1 !! j)
       = from_option o_vals [] (os !! j) ++ map (vector_row v) (seq (m - rem) a)) /\
    <[pred (length (chunk_data st')) :=
        mkChunkMetaData (chunk_vector_data chunk) (chunk_count chunk + a)]>
      (chunk_data st')
    = chunks ++ [mkChunkMetaData (chunk_vector_data chunk) (chunk_count chunk + a)] /\
    segment_count st' = segment_count seg.
Proof.
  intros Hfs Hvs Hok Hcd Hrem Ha Hcap.
  pose proof Hok as (Hty & _ & _).
  destruct (segment_ok_snoc ts seg oss os Hok)
    as (chunks0 & chunk0 & Hcd0 & Hchunks & Hchunk & Hnd1 & Hnd2 & Hdisj).
  rewrite Hcd in Hcd0. apply app_inj_tail in Hcd0 as [<- <-].
  destruct Hchunk as (Hroots & Hrep & Hlens & _).
  pose proof (Forall2_length _ _ _ Hrep) as Hlos.
  pose proof (Forall2_length _ _ _ Hvs) as Hlvs.
  destruct (columns_loop fs chunk vs (m - rem) a ts 0 os seg)
    as (st' & os' & Hloop & Hrep' & Hvals' & Hlen' & Hext' & Hfp' & Hnd').
  { intros j t Hj. simpl.
    destruct (Forall2_lookup_l _ _ _ _ _ Hfs Hj) as (f & Hf & Hg).
    destruct (Forall2_lookup_l _ _ _ _ _ Hvs Hj) as (v & Hv & Hvok & Hvflat).
    exists f, v. split; [exact Hf|]. split; [exact Hv|]. split; [exact Hg|].
    split; [|exact Hvflat].
    apply (vector_ok_mono t _ (fun r => r < m)); [intros r Hr; lia|exact Hvok]. }
  { intros j o Hj. simpl. rewrite Hroots, list_lookup_fmap, Hj. reflexivity. }
  { exact Hrep. }
  { eapply Forall_impl; [exact Hlens|]. intros o Ho. simpl in Ho. lia. }
  { exact Hnd2. }
  exists st', os'.
  split; [unfold for_range; rewrite Nat.sub_0_r; exact Hloop|].
  pose proof (chunks_bounded ts seg _ _ Hchunks) as Hbd.
  assert (Hins : <[pred (length (chunk_data st')) :=
                     mkChunkMetaData (chunk_vector_data chunk) (chunk_count chunk + a)]>
                   (chunk_data st')
                 = chunks ++ [mkChunkMetaData (chunk_vector_data chunk)
                                (chunk_count chunk + a)]).
  { rewrite (ext_chunks _ _ _ Hext'), Hcd, length_app. simpl.
    replace (pred (length chunks + 1)) with (length chunks + 0) by lia.
    rewrite insert_app_r. reflexivity. }
  split; [|split; [|split; [exact Hins|exact (ext_count _ _ _ Hext')]]].
  - split; [simpl; rewrite (ext_types _ _ _ Hext'); exact Hty|]. split.
    + cbn [chunk_data set_chunk_data]. rewrite Hins. apply Forall2_app.
      * apply (chunks_agree ts seg); [exact Hchunks|].
        exact (extends_agrees (concat (map o_fp os)) _ seg st' Hext' Hbd Hdisj).
      * constructor; [|constructor]. split.
        { simpl. rewrite Hroots. apply list_eq. intros j. rewrite !list_lookup_fmap.
          destruct (os !! j) as [o|] eqn:Hj.
          - destruct (Hvals' j o Hj) as (o' & v & Hj' & _ & Hi & _).
            rewrite Hj'. simpl. rewrite Hi. reflexivity.
          - rewrite (lookup_ge_None_2 os'); [reflexivity|].
            rewrite Hlen'. apply lookup_ge_None_1. exact Hj. }
        split.
        { apply (columns_agree ts st'); [exact Hrep'|]. apply agrees_same; reflexivity. }
        split; [|simpl; exact Hcap].
        apply Forall_lookup. intros j o' Hj'. simpl.
        destruct (lookup_lt_is_Some_2 os j) as [o Hj];
          [rewrite <- Hlen'; exact (lookup_lt_Some _ _ _ Hj')|].
        destruct (Hvals' j o Hj) as (o'' & v & Hj'' & _ & _ & Hv).
        rewrite Hj' in Hj''. injection Hj'' as <-.
        rewrite Hv, length_app, length_map, length_seq.
        rewrite (proj1 (Forall_lookup _ _) Hlens j o Hj). reflexivity.
    + rewrite owners_snoc. apply NoDup_app. split; [exact Hnd1|]. split; [|exact Hnd'].
      intros i Hi Hin. destruct (Hfp' i Hin) as [Hold|Hnew].
      * exact (Hdisj i Hi Hold).
      * specialize (Hbd i Hi). lia.
  - intros j v Hv.
    destruct (lookup_lt_is_Some_2 os j) as [o Hj];
      [rewrite <- Hlos, Hlvs; exact (lookup_lt_Some _ _ _ Hv)|].
    destruct (Hvals' j o Hj) as (o' & v' & Hj' & Hv' & _ & Hvals).
    simpl in Hv'. rewrite Hv in Hv'. injection Hv' as <-.
    rewrite Hj, Hj'. simpl. exact Hvals.
Qed.


(** The loop of [Append] stores the remaining rows of every column,
    filling the last chunk and then new ones. *)
Lemma append_loop_spec (fs : list ColumnDataCopyFunction) (ts : list LogicalType)
    (vs : list Vector) (m : nat) :
  Forall2 (fun t f => GetCopyFunction t = Ok f) ts fs ->
  Forall2 (fun t v => vector_ok t (fun r => r < m) v /\ struct_flat t v) ts vs ->
  forall fuel seg oss os chunks chunk rem,
    segment_ok ts seg (oss ++ [os]) ->
    chunk_data seg = chunks ++ [chunk] ->
    rem <= m ->
    rem + (if decide (chunk_count chunk < STANDARD_VECTOR_SIZE) then 0 else 1) <= fuel ->
    exists seg' oss' os',
      append_loop fs (length ts) vs m fuel seg rem = Ok seg' /\
      segment_ok ts seg' (oss' ++ [os']) /\
      (forall j v, vs !! j = Some v ->
         stored_column (oss' ++ [os']) j
         = stored_column (oss ++ [os]) j ++ map (vector_row v) (seq (m - rem) rem)) /\
      chunk_rows seg' = chunk_rows seg + rem /\
      segment_count seg' = segment_count seg.
Proof.
  intros Hfs Hvs.
  assert (Hget : Forall (fun t => exists f, GetCopyFunction t = Ok f) ts).
  { clear -Hfs. induction Hfs as [|t f ts' fs' Hf _ IH]; constructor;
      [exists f; exact Hf|exact IH]. }
  induction fuel as [|fuel IH]; intros seg oss os chunks chunk rem Hok Hcd Hrem Hfuel;
    (destruct (decide (rem = 0)) as [->|Hpos];
     [rewrite append_loop_0; exists seg, oss, os; simpl; rewrite Nat.add_0_r;
      split; [reflexivity|]; split; [exact Hok|];
      split; [intros j v _; rewrite app_nil_r; reflexivity|]; split; reflexivity|]);
    [lia|].
  rewrite append_loop_S by exact Hpos. rewrite Hcd, last_snoc.
  cbn [defined mbind result_bind bind].
  set (a := Nat.min rem (STANDARD_VECTOR_SIZE - chunk_count chunk)).
  destruct (segment_ok_snoc ts seg oss os Hok)
    as (chunks0 & chunk0 & Hcd0 & _ & Hchunk & _).
  rewrite Hcd in Hcd0. apply app_inj_tail in Hcd0 as [<- <-].
  destruct Hchunk as (_ & _ & _ & Hcap).
  assert (Htail : forall seg1 os1 chunk1,
            segment_ok ts seg1 (oss ++ [os1]) ->
            chunk_data seg1 = chunks ++ [chunk1] ->
            chunk_count chunk1 = chunk_count chunk + a ->
            (forall j v, vs !! j = Some v ->
               from_option o_vals [] (os1 !! j)
               = from_option o_vals [] (os !! j) ++ map (vector_row v) (seq (m - rem) a)) ->
            segment_count seg1 = segment_count seg ->
            exists seg' oss' os',
              (if decide (0 < rem - a)
               then append_loop fs (length ts) vs m fuel (AllocateNewChunk seg1) (rem - a)
               else Ok seg1) = Ok seg' /\
              segment_ok ts seg' (oss' ++ [os']) /\
              (forall j v, vs !! j = Some v ->
                 stored_column (oss' ++ [os']) j
                 = stored_column (oss ++ [os]) j ++ map (vector_row v) (seq (m - rem) rem)) /\
              chunk_rows seg' = chunk_rows seg + rem /\
              segment_count seg' = segment_count seg).
  { intros seg1 os1 chunk1 Hok1 Hcd1 Hc1 Hcols1 Hcnt1.
    assert (Hrows1 : chunk_rows seg1 = chunk_rows seg + a).
    { unfold chunk_rows. rewrite Hcd1, Hcd, !map_app, !list_sum_app. simpl. lia. }
    destruct (decide (0 < rem - a)) as [Hmore|Hdone].
    - destruct (AllocateNewChunk_spec ts seg1 (oss ++ [os1]) Hget Hok1)
        as (chunk2 & os2 & Hcd2 & Hc0 & Hok2 & Hnil & Hlen2 & Hcnt2).
      destruct (IH (AllocateNewChunk seg1) (oss ++ [os1]) os2 (chunk_data seg1) chunk2
                  (rem - a) Hok2 Hcd2)
        as (seg' & oss' & os' & Hrun' & Hok' & Hcols' & Hrows' & Hcnt'); [lia| |].
      { rewrite Hc0, decide_True by exact STANDARD_VECTOR_SIZE_pos.
        destruct (decide (chunk_count chunk < STANDARD_VECTOR_SIZE)); lia. }
      exists seg', oss', os'. split; [exact Hrun'|]. split; [exact Hok'|].
      split; [|split].
      + intros j v Hv. rewrite (Hcols' j v Hv), !stored_column_snoc, (Hcols1 j v Hv).
        assert (Hempty : from_option o_vals [] (os2 !! j) = []).
        { destruct (os2 !! j) as [o|] eqn:Hj; [|reflexivity]. simpl.
          exact (proj1 (Forall_lookup _ _) Hnil j o Hj). }
        rewrite Hempty, app_nil_r, <- !app_assoc. f_equal. f_equal.
        rewrite <- map_app. f_equal.
        replace (m - (rem - a)) with (m - rem + a) by lia.
        rewrite <- seq_app. f_equal. lia.
      + rewrite Hrows'. unfold chunk_rows at 1. rewrite Hcd2, map_app, list_sum_app.
        simpl. fold (chunk_rows seg1). lia.
      + congruence.
    - exists seg1, oss, os1. split; [reflexivity|]. split; [exact Hok1|].
      split; [|split; [lia|exact Hcnt1]].
      intros j v Hv. rewrite !stored_column_snoc, (Hcols1 j v Hv).
      replace a with rem by lia. rewrite app_assoc. reflexivity. }
  destruct (decide (0 < a)) as [Ha|Ha].
  - destruct (append_columns fs ts vs m seg oss os chunks chunk rem a Hfs Hvs Hok Hcd Hrem)
      as (st' & os1 & Hrun & Hok1 & Hcols & Hins & Hcount); [lia|lia|].
    rewrite Hrun. cbn [defined mbind result_bind bind].
    apply (Htail _ os1 (mkChunkMetaData (chunk_vector_data chunk) (chunk_count chunk + a)));
      [exact Hok1|exact Hins|reflexivity|exact Hcols|exact Hcount].
  - cbn [mbind result_bind bind].
    apply (Htail seg os chunk); [exact Hok|exact Hcd|lia| |reflexivity].
    intros j v _. replace a with 0 by lia. simpl. rewrite app_nil_r. reflexivity.
Qed.


(** ** Appending to a collection *)

Lemma D_ASSERT_true : D_ASSERT true = Ok tt.
Proof. unfold D_ASSERT. rewrite andb_false_r. reflexivity. Qed.

Lemma LogicalType_eqb_refl (t : LogicalType) : LogicalType_eqb t t = true.
Proof.
  induction t as [physical children IH] using LogicalType_induction. simpl.
  destruct (PhysicalType_eq_dec physical physical) as [_|Hne]; [|contradiction].
  simpl. induction IH as [|c cs Hc _ IHcs]; [reflexivity|].
  rewrite Hc. exact IHcs.
Qed.

Lemma types_eqb_refl (ts : list LogicalType) : types_eqb ts ts = true.
Proof.
  induction ts as [|t ts IH]; [reflexivity|]. simpl.
  rewrite LogicalType_eqb_refl. exact IH.
Qed.

(** The input columns as [Append] takes them. *)
Definition prepared (v : Vector) : Vector :=
  if IsComplexType (GetType v) then Normalify v else v.

Lemma prepare_input_eq (n_types : nat) (input : DataChunk) :
  length (chunk_columns input) = n_types ->
  prepare_input n_types input = Ok (map prepared (chunk_columns input)).
Proof.
  intros Hlen. unfold prepare_input.
  destruct (for_range_inv
              (fun j acc => acc = map prepared (take j (chunk_columns input)))
              (fun vector_idx acc =>
                 v ← chunk_columns input !! vector_idx;
                 Some (acc ++ [if IsComplexType (GetType v) then Normalify v else v]))
              0 n_types []) as (acc & Hrun & ->); [lia|reflexivity| |].
  - intros i acc Hi ->.
    destruct (lookup_lt_is_Some_2 (chunk_columns input) i) as [v Hv]; [lia|].
    rewrite Hv. simpl. eexists. split; [reflexivity|].
    rewrite (take_S_r _ _ _ Hv), map_app. reflexivity.
  - rewrite Hrun. simpl. rewrite <- Hlen, firstn_all. reflexivity.
Qed.

Lemma prepared_row (v : Vector) (r : nat) : vector_row (prepared v) r = vector_row v r.
Proof.
  unfold prepared. destruct (IsComplexType (GetType v)); [apply Normalify_row|reflexivity].
Qed.

Lemma prepared_ok (t : LogicalType) (rows : nat -> Prop) (v : Vector) :
  GetType v = t -> vector_ok t rows v ->
  vector_ok t rows (prepared v) /\ struct_flat t (prepared v).
Proof.
  intros Hty Hok. unfold prepared. rewrite Hty.
  destruct (IsComplexType t) eqn:Hc.
  - split.
    + apply (Normalify_with_ok t rows rows (fun r => r)); [intros r Hr; exact Hr|exact Hok].
    + exact (Normalify_with_flat t rows (fun r => r) v Hok).
  - split; [exact Hok|exact (not_complex_flat t rows v Hc Hok)].
Qed.

(** A well-formed input batch of schema [ts]: one vector per column,
    of the column's type, whose list entries lie within their child
    vectors. *)
Definition input_ok (ts : list LogicalType) (input : DataChunk) : Prop :=
  GetTypes input = ts /\
  Forall (fun v => vector_ok (GetType v) (fun r => r < chunk_size input) v)
         (chunk_columns input).

Lemma input_ok_prepared (ts : list LogicalType) (input : DataChunk) :
  input_ok ts input ->
  Forall2 (fun t v => vector_ok t (fun r => r < chunk_size input) v /\ struct_flat t v)
          ts (map prepared (chunk_columns input)).
Proof.
  intros [<- Hall]. unfold GetTypes. apply Forall2_fmap. apply Forall_Forall2_diag.
  eapply Forall_impl; [exact Hall|]. intros v Hv. simpl.
  apply prepared_ok; [reflexivity|exact Hv].
Qed.


(** [stores ts fs c col total]: the collection [c] of schema [ts] is
    open for appends and holds [total] rows, column [j] holding
    [col j]; it has no segment yet, or one segment with at least one
    chunk. *)
Definition stores (ts : list LogicalType) (fs : list ColumnDataCopyFunction)
    (c : ColumnDataCollection) (col : nat -> list Value) (total : nat) : Prop :=
  types c = ts /\ copy_functions c = fs /\ finished_append c = false /\
  count c = total /\
  ((segments c = [] /\ total = 0 /\ forall j, j < length ts -> col j = []) \/
   exists seg oss os,
     segments c = [Some seg] /\ segment_ok ts seg (oss ++ [os]) /\
     chunk_rows seg = segment_count seg /\ segment_count seg = total /\
     forall j, j < length ts -> stored_column (oss ++ [os]) j = col j).

Lemma segment_ok_new (ts : list LogicalType) : segment_ok ts (new_Segment ts) [].
Proof. split; [reflexivity|]. split; constructor. Qed.

Lemma InitializeAppend_spec (ts : list LogicalType) (fs : list ColumnDataCopyFunction)
    (c : ColumnDataCollection) (col : nat -> list Value) (total : nat) :
  Forall (fun t => exists f, GetCopyFunction t = Ok f) ts ->
  stores ts fs c col total ->
  exists seg oss os,
    InitializeAppend c = Ok (mkCollection ts total [Some seg] false fs (allocator c)) /\
    segment_ok ts seg (oss ++ [os]) /\
    chunk_rows seg = segment_count seg /\ segment_count seg = total /\
    forall j, j < length ts -> stored_column (oss ++ [os]) j = col j.
Proof.
  intros Hget (Hty & Hfs & Hfin & Hcnt & Hcase). unfold InitializeAppend.
  rewrite Hfin. simpl negb. rewrite D_ASSERT_true. cbn [mbind result_bind bind].
  destruct c as [ts0 n segs fin fs0 al]. simpl in *. subst ts0 fs0 fin n.
  destruct Hcase as [(Hsegs & Htot & Hcol)|(seg & oss & os & Hsegs & Hok & Hrows & Hcount & Hcol)].
  - subst segs. simpl.
    destruct (AllocateNewChunk_spec ts (new_Segment ts) [] Hget (segment_ok_new ts))
      as (chunk & os & Hcd & Hc0 & Hok & Hnil & Hlen & Hcount).
    exists (AllocateNewChunk (new_Segment ts)), [], os.
    split; [reflexivity|]. split; [exact Hok|]. split; [|split].
    + unfold chunk_rows. rewrite Hcd, Hcount. simpl. lia.
    + rewrite Hcount. simpl. symmetry. exact Htot.
    + intros j Hj. rewrite (Hcol j Hj). unfold stored_column. simpl. rewrite app_nil_r.
      destruct (os !! j) as [o|] eqn:Ho; [|reflexivity]. simpl.
      exact (proj1 (Forall_lookup _ _) Hnil j o Ho).
  - subst segs. simpl.
    destruct (segment_ok_snoc ts seg oss os Hok) as (chunks & chunk & Hcd & _).
    destruct (decide (chunk_data seg = [])) as [He|_].
    { rewrite Hcd in He. destruct chunks; discriminate. }
    exists seg, oss, os. split; [reflexivity|]. split; [exact Hok|].
    split; [exact Hrows|]. split; [exact Hcount|exact Hcol].
Qed.

Lemma segment_ok_set_count (ts : list LogicalType) (seg : Segment)
    (oss : list (list Owned)) (n : nat) :
  segment_ok ts seg oss -> segment_ok ts (set_segment_count seg n) oss.
Proof.
  intros (Hty & Hch & Hnd). split; [exact Hty|]. split; [|exact Hnd].
  apply (chunks_agree ts seg); [exact Hch|]. apply agrees_same; reflexivity.
Qed.

(** The rows of column [j] of an input batch. *)
Definition input_rows_of (j : nat) (input : DataChunk) : list Value :=
  from_option (input_column (chunk_size input)) [] (chunk_columns input !! j).

(** [Append] adds the rows of the batch to every column. *)
Lemma Append_spec (ts : list LogicalType) (fs : list ColumnDataCopyFunction)
    (c : ColumnDataCollection) (col : nat -> list Value) (total : nat)
    (input : DataChunk) :
  Forall2 (fun t f => GetCopyFunction t = Ok f) ts fs ->
  stores ts fs c col total ->
  input_ok ts input ->
  exists c',
    Append c input = Ok c' /\
    stores ts fs c' (fun j => col j ++ input_rows_of j input)
           (total + chunk_size input).
Proof.
  intros Hfs Hst Hin.
  assert (Hget : Forall (fun t => exists f, GetCopyFunction t = Ok f) ts).
  { clear -Hfs. induction Hfs as [|t f ts' fs' Hf _ IH]; constructor;
      [exists f; exact Hf|exact IH]. }
  destruct (InitializeAppend_spec ts fs c col total Hget Hst)
    as (seg & oss & os & Hinit & Hok & Hrows & Hcount & Hcol).
  unfold Append. rewrite Hinit. cbn [mbind result_bind bind].
  unfold Append_state. cbn [finished_append types copy_functions count segments].
  simpl negb. rewrite D_ASSERT_true. cbn [mbind result_bind bind].
  pose proof Hin as [Htypes Hvecs]. rewrite Htypes, types_eqb_refl, D_ASSERT_true.
  cbn [mbind result_bind bind]. unfold back_segment.
  cbn [segments last mjoin option_join defined mbind result_bind bind].
  assert (Hlen : length (chunk_columns input) = length ts).
  { rewrite <- Htypes. unfold GetTypes. rewrite length_map. reflexivity. }
  rewrite (prepare_input_eq _ _ Hlen). cbn [mbind result_bind bind].
  destruct (segment_ok_snoc ts seg oss os Hok) as (chunks & chunk & Hcd & _).
  destruct (append_loop_spec fs ts (map prepared (chunk_columns input))
              (chunk_size input) Hfs (input_ok_prepared ts input Hin)
              (S (chunk_size input)) seg oss os chunks chunk (chunk_size input)
              Hok Hcd ltac:(lia))
    as (seg' & oss' & os' & Hrun & Hok' & Hcols' & Hrows' & Hcount').
  { destruct (decide (chunk_count chunk < STANDARD_VECTOR_SIZE)); lia. }
  rewrite Hrun. cbn [mbind result_bind bind].
  eexists. split; [reflexivity|].
  split; [reflexivity|]. split; [reflexivity|]. split; [reflexivity|].
  split; [reflexivity|]. right.
  exists (set_segment_count seg' (segment_count seg' + chunk_size input)), oss', os'.
  split; [reflexivity|]. split; [apply segment_ok_set_count; exact Hok'|].
  split; [|split].
  - unfold chunk_rows in *. simpl. lia.
  - simpl. lia.
  - intros j Hj.
    destruct (lookup_lt_is_Some_2 (chunk_columns input) j) as [v Hv]; [lia|].
    rewrite (Hcols' j (prepared v)) by (rewrite list_lookup_fmap, Hv; reflexivity).
    rewrite (Hcol j Hj). f_equal. unfold input_rows_of. rewrite Hv. simpl.
    unfold input_column. rewrite Nat.sub_diag. apply map_ext. intros r.
    apply prepared_row.
Qed.


(** ** A sequence of appends, and reading it back *)

(** Appending the batches of a list one after the other. *)
Fixpoint append_all (c : ColumnDataCollection) (inputs : list DataChunk)
    : result ColumnDataCollection :=
  match inputs with
  | [] => Ok c
  | input :: rest =>
      c' ← Append c input;
      append_all c' rest
  end.

(** The rows of column [j] a scan handed out, batch after batch. *)
Definition scanned_column (batches : list Batch) (j : nat) : list Value :=
  concat (map (fun b => from_option id [] (batch_columns b !! j)) batches).

(** What [Verify] reconciles: no chunk holds more than
    [STANDARD_VECTOR_SIZE] rows, the chunk counts of a segment add up to
    the segment's count, and the segment counts to the collection's. *)
Definition chunk_capacity_invariant (c : ColumnDataCollection) : Prop :=
  Forall (fun s => exists seg,
            s = Some seg /\
            Forall (fun chunk => chunk_count chunk <= STANDARD_VECTOR_SIZE)
                   (chunk_data seg) /\
            list_sum (map chunk_count (chunk_data seg)) = segment_count seg)
         (segments c) /\
  list_sum (map (from_option segment_count 0) (segments c)) = count c.

Lemma stores_ext (ts : list LogicalType) (fs : list ColumnDataCopyFunction)
    (c : ColumnDataCollection) (col col' : nat -> list Value) (total total' : nat) :
  (forall j, col j = col' j) -> total = total' ->
  stores ts fs c col total -> stores ts fs c col' total'.
Proof.
  intros Hcol <- (Hty & Hfs & Hfin & Hcnt & Hcase).
  split; [exact Hty|]. split; [exact Hfs|]. split; [exact Hfin|]. split; [exact Hcnt|].
  destruct Hcase as [(Hs & Ht & Hc)|(seg & oss & os & Hs & Hok & Hr & Hn & Hc)].
  - left. split; [exact Hs|]. split; [exact Ht|]. intros j Hj. rewrite <- Hcol.
    exact (Hc j Hj).
  - right. exists seg, oss, os. split; [exact Hs|]. split; [exact Hok|].
    split; [exact Hr|]. split; [exact Hn|]. intros j Hj. rewrite <- Hcol. exact (Hc j Hj).
Qed.

Lemma append_all_stores (ts : list LogicalType) (fs : list ColumnDataCopyFunction) :
  Forall2 (fun t f => GetCopyFunction t = Ok f) ts fs ->
  forall inputs c col total,
    stores ts fs c col total ->
    Forall (input_ok ts) inputs ->
    exists c',
      append_all c inputs = Ok c' /\
      stores ts fs c' (fun j => col j ++ concat (map (input_rows_of j) inputs))
             (total + list_sum (map chunk_size inputs)).
Proof.
  intros Hfs. induction inputs as [|input rest IH]; intros c col total Hst Hin.
  - exists c. split; [reflexivity|]. apply (stores_ext ts fs c col _ total); [| |exact Hst].
    + intros j. simpl. rewrite app_nil_r. reflexivity.
    + simpl. lia.
  - apply Forall_cons in Hin as [Hin Hrest].
    destruct (Append_spec ts fs c col total input Hfs Hst Hin) as (c1 & Hrun & Hst1).
    destruct (IH c1 _ _ Hst1 Hrest) as (c' & Hrun' & Hst').
    exists c'. split; [simpl; rewrite Hrun; exact Hrun'|].
    apply (stores_ext ts fs c' _ _ _ _ (fun j => eq_sym (app_assoc _ _ _))
             (eq_sym (Nat.add_assoc _ _ _)) Hst').
Qed.

Lemma get_copy_functions_all (ts : list LogicalType) (fs : list ColumnDataCopyFunction) :
  get_copy_functions ts = Ok fs ->
  Forall2 (fun t f => GetCopyFunction t = Ok f) ts fs.
Proof.
  revert fs. induction ts as [|t ts IH]; intros fs H.
  - injection H as <-. constructor.
  - cbn [get_copy_functions mbind result_bind bind] in H.
    destruct (GetCopyFunction t) as [f|e] eqn:Hf; [|discriminate].
    destruct (get_copy_functions ts) as [fs'|e] eqn:Hfs; [|discriminate].
    injection H as <-. constructor; [exact Hf|exact (IH fs' eq_refl)].
Qed.

Lemma new_collection_stores (allocator_p : nat) (ts : list LogicalType)
    (c0 : ColumnDataCollection) :
  new_ColumnDataCollection allocator_p ts = Ok c0 ->
  exists fs,
    Forall2 (fun t f => GetCopyFunction t = Ok f) ts fs /\
    stores ts fs c0 (fun _ => []) 0.
Proof.
  unfold new_ColumnDataCollection. intros H.
  destruct (get_copy_functions ts) as [fs|e] eqn:Hfs; [|discriminate].
  injection H as <-. exists fs. split; [exact (get_copy_functions_all ts fs Hfs)|].
  split; [reflexivity|]. split; [reflexivity|]. split; [reflexivity|].
  split; [reflexivity|]. left. split; [reflexivity|]. split; reflexivity.
Qed.

Lemma read_chunk_ok (ts : list LogicalType) (seg : Segment) (chunk : ChunkMetaData)
    (os : list Owned) :
  segment_types seg = ts -> chunk_ok ts seg chunk os ->
  read_chunk seg chunk = mkBatch (map o_vals os) (chunk_count chunk).
Proof.
  intros Hty (Hroots & Hrep & _). unfold read_chunk. f_equal. rewrite Hty, Hroots.
  clear Hroots Hty. induction Hrep as [|t o ts' os' Hr _ IH]; [reflexivity|].
  simpl. rewrite (repr_ReadVector _ _ _ _ _ Hr). f_equal. exact IH.
Qed.

Lemma scanned_stored (ts : list LogicalType) (seg : Segment)
    (chunks : list ChunkMetaData) (oss : list (list Owned)) (j : nat) :
  segment_types seg = ts -> Forall2 (chunk_ok ts seg) chunks oss ->
  scanned_column (map (read_chunk seg) chunks) j = stored_column oss j.
Proof.
  intros Hty H. unfold scanned_column, stored_column.
  induction H as [|chunk os chunks' oss' Hc _ IH]; [reflexivity|].
  cbn [map concat]. rewrite IH, (read_chunk_ok ts seg chunk os Hty Hc).
  cbn [batch_columns]. rewrite list_lookup_fmap. destruct (os !! j); reflexivity.
Qed.

Lemma chunks_within_capacity (ts : list LogicalType) (seg : Segment)
    (chunks : list ChunkMetaData) (oss : list (list Owned)) :
  Forall2 (chunk_ok ts seg) chunks oss ->
  Forall (fun chunk => chunk_count chunk <= STANDARD_VECTOR_SIZE) chunks.
Proof.
  intros H. induction H as [|chunk os chunks' oss' Hc _ IH]; constructor;
    [apply Hc|exact IH].
Qed.

(** What a collection built by appends looks like to a scan and to
    [Verify]. *)
Lemma stores_scan (ts : list LogicalType) (fs : list ColumnDataCopyFunction)
    (c : ColumnDataCollection) (col : nat -> list Value) (total : nat) :
  stores ts fs c col total ->
  Scan_all c = Ok (all_batches c) /\
  count c = total /\
  list_sum (map batch_size (all_batches c)) = total /\
  (forall j, j < length ts -> scanned_column (all_batches c) j = col j) /\
  chunk_capacity_invariant c /\
  Verify c = Ok tt.
Proof.
  intros (Hty & Hfs & Hfin & Hcnt & Hcase).
  destruct Hcase as [(Hs & Ht & Hc)|(seg & oss & os & Hs & Hok & Hr & Hn & Hc)].
  - split; [apply Scan_all_batches; unfold segments_live; rewrite Hs; constructor|].
    split; [exact Hcnt|]. unfold all_batches, chunk_capacity_invariant, Verify.
    rewrite Hs. simpl. split; [lia|]. split; [intros j Hj; rewrite (Hc j Hj); reflexivity|].
    split; [split; [constructor|lia]|].
    destruct debug; [|reflexivity]. rewrite Hcnt, Ht. apply D_ASSERT_true.
  - pose proof Hok as (Hsty & Hch & _).
    split; [apply Scan_all_batches; unfold segments_live; rewrite Hs;
            constructor; [discriminate|constructor]|].
    split; [exact Hcnt|]. unfold all_batches, chunk_capacity_invariant, Verify.
    rewrite Hs. simpl. rewrite app_nil_r. split; [|split; [|split]].
    + rewrite map_map. change (chunk_rows seg = total). lia.
    + intros j Hj. rewrite (scanned_stored ts seg _ _ j Hsty Hch). exact (Hc j Hj).
    + split; [|lia]. constructor; [|constructor]. exists seg. split; [reflexivity|].
      split; [exact (chunks_within_capacity ts seg _ _ Hch)|exact Hr].
    + destruct debug; [|reflexivity]. unfold Segment_Verify.
      fold (chunk_rows seg). rewrite Hr, Nat.eqb_refl, D_ASSERT_true.
      cbn [mbind result_bind bind].
      replace (segment_count seg =? count c) with true
        by (symmetry; apply Nat.eqb_eq; lia).
      apply D_ASSERT_true.
Qed.


(** ** List offsets *)

(** What the list copy adds to the start offsets of the entries it
    stores: [current_list_size] of lines 195-217, the sum of the counts
    of the slots of the chain that the loop walks.  The loop runs while
    child rows remain to be copied, so the sum is the number of child
    rows resident in the chain whenever the source has child rows; a
    source without child rows has only empty lists, whose entries are
    stored as they come. *)
Definition list_shift (child_type : LogicalType) (seg : Segment) (index : nat)
    (source : Vector) : nat :=
  if decide (0 < GetListSize source)
  then length (child_storage child_type seg index)
  else 0.

(** The number of rows of vector [index]. *)
Definition stored_count (seg : Segment) (index : nat) : nat :=
  from_option vcount 0 (GetVectorData seg index).

(** C5 as worded, for the list vector [index]: the runs of its valid
    entries lie within the flattened child storage, no child row
    belongs to the runs of two entries (no overlap), and every child
    row belongs to the run of an entry (no gap). *)
Definition runs_tile (child_type : LogicalType) (seg : Segment) (index : nat) : Prop :=
  (forall r o l,
     r < stored_count seg index ->
     stored_entry seg index r = Some (DListEntry o l) ->
     o + l <= length (child_storage child_type seg index)) /\
  (forall r r' o l o' l' p,
     r < stored_count seg index -> r' < stored_count seg index -> r <> r' ->
     stored_entry seg index r = Some (DListEntry o l) ->
     stored_entry seg index r' = Some (DListEntry o' l') ->
     o <= p < o + l -> o' <= p < o' + l' -> False) /\
  (forall p,
     p < length (child_storage child_type seg index) ->
     exists r o l,
       r < stored_count seg index /\
       stored_entry seg index r = Some (DListEntry o l) /\ o <= p < o + l).

(** C5 as worded, for a collection: after well-formed batches were
    appended, the entries of every list vector of every chunk tile the
    child storage of that vector. *)
Definition list_integrity_claim (c0 : ColumnDataCollection) (inputs : list DataChunk)
    : Prop :=
  Forall (input_ok (types c0)) inputs ->
  forall c si seg ci chunk j child_type cs root,
    append_all c0 inputs = Ok c ->
    segments c !! si = Some (Some seg) ->
    chunk_data seg !! ci = Some chunk ->
    types c !! j = Some (mkLogicalType LIST (child_type :: cs)) ->
    chunk_vector_data chunk !! j = Some root ->
    runs_tile child_type seg root.

(** C5, as the code has it.  A list copy appends the child vector of
    the source, whole and in order, to the flattened child storage of
    the target (the chain of child vectors, however many it has),
    whichever rows of the source it copies, and leaves the entries
    stored before as they are.  Every valid entry it stores is the
    input entry with its start offset moved by [list_shift], which for
    an entry of non-zero length is the number of child rows that were
    resident in the chain.  The stored entry lies within the child
    storage and names there the run of child rows, contiguous and in
    order, that the input entry named in the source; so stored runs
    overlap where the input's entries do, and child rows that no copied
    entry names are stored all the same. *)
Theorem list_entries_after_copy (ct : LogicalType) (cs : list LogicalType)
    (f : ColumnDataCopyFunction) (seg : Segment) (index : nat) (fp : list nat)
    (vals : list Value) (source : Vector) (offset n : nat) :
  GetCopyFunction (mkLogicalType LIST (ct :: cs)) = Ok f ->
  repr (mkLogicalType LIST (ct :: cs)) seg index fp vals ->
  vector_ok (mkLogicalType LIST (ct :: cs)) (fun r => offset <= r < offset + n) source ->
  struct_flat (mkLogicalType LIST (ct :: cs)) source ->
  length vals + n <= STANDARD_VECTOR_SIZE ->
  exists seg' child,
    call f seg index (Orrify source) source offset n = Some seg' /\
    head (GetEntries source) = Some child /\
    child_storage ct seg' index
      = child_storage ct seg index
        ++ map (vector_row child) (seq 0 (GetListSize source)) /\
    (forall r, r < length vals ->
       stored_entry seg' index r = stored_entry seg index r) /\
    (forall i, i < n -> source_valid (Orrify source) (offset + i) = false ->
       stored_entry seg' index (length vals + i) = None) /\
    (forall i o l,
       i < n -> source_valid (Orrify source) (offset + i) = true ->
       vector_values source (vector_sel source (offset + i)) = DListEntry o l ->
       stored_entry seg' index (length vals + i)
         = Some (DListEntry (o + list_shift ct seg index source) l) /\
       (0 < l ->
        list_shift ct seg index source = length (child_storage ct seg index)) /\
       o + list_shift ct seg index source + l <= length (child_storage ct seg' index) /\
       take l (drop (o + list_shift ct seg index source) (child_storage ct seg' index))
         = map (vector_row child) (seq o l)).
Proof.
  intros Hf Hr Hok Hflat Hfit.
  destruct (GetCopyFunction_cases _ _ _ Hf)
    as [([_ Hl] & _)|[(Hv & _)|[(Hs & _)|(_ & ct' & cs' & g & Heq & Hg & ->)]]];
    try congruence.
  injection Heq as <- <-.
  destruct (list_copy_full ct cs g (call g) Hg (copy_spec ct g Hg) seg index fp vals
              source offset n Hr Hok Hflat Hfit)
    as (seg' & fp' & child & shift & Hchild & Hrun & _ & _ & _ & _ & Hst & Hs1 & Hs0
        & Hold & Hnew).
  assert (Hshift : shift = list_shift ct seg index source).
  { unfold list_shift. destruct (decide (0 < GetListSize source)) as [Hpos|Hz];
      [exact (Hs1 Hpos)|apply Hs0; lia]. }
  destruct Hok as [Hty Hok]. simpl in Hok.
  destruct (GetEntries source) as [|child0 crest] eqn:Hent; [contradiction|].
  simpl in Hchild. injection Hchild as ->. destruct Hok as [Hentries _].
  exists seg', child. split; [exact Hrun|]. split; [reflexivity|].
  split; [exact Hst|]. split; [exact Hold|]. split.
  - intros i Hi Hv. rewrite (Hnew i Hi), Hv. reflexivity.
  - intros i o l Hi Hv Hd. rewrite (Hnew i Hi), Hv, Hd, <- Hshift.
    split; [reflexivity|].
    pose proof (Hentries (offset + i) o l ltac:(lia) Hv Hd) as Hle.
    split; [intros Hl; apply Hs1; lia|].
    assert (Hread : stored_list
                      (child_storage ct seg index
                       ++ map (vector_row child) (seq 0 (GetListSize source)))
                      (DListEntry (o + shift) l)
                    = VList (map (vector_row child) (seq o l)))
      by (apply stored_list_new; [exact Hle|exact Hs1]).
    rewrite Hst. split; [|simpl in Hread; injection Hread as Hread; exact Hread].
    rewrite length_app, length_map, length_seq.
    destruct (decide (0 < GetListSize source)) as [Hpos|Hz].
    + rewrite (Hs1 Hpos). lia.
    + rewrite (Hs0 ltac:(lia)). lia.
Qed.


(** ** Further properties of the collection *)

Lemma LogicalType_eqb_eq (a : LogicalType) :
  forall b, LogicalType_eqb a b = true -> a = b.
Proof.
  induction a as [pa ca IH] using LogicalType_induction. intros [pb cb] H.
  simpl in H. apply andb_prop in H as [Hp Hc].
  destruct (PhysicalType_eq_dec pa pb) as [->|]; [|discriminate]. f_equal.
  clear Hp. revert cb Hc. induction IH as [|x xs Hx _ IHxs]; intros [|y ys] Hc;
    try discriminate; [reflexivity|].
  apply andb_prop in Hc as [Hxy Hrest]. f_equal; [exact (Hx y Hxy)|exact (IHxs ys Hrest)].
Qed.

Lemma types_eqb_eq (xs ys : list LogicalType) : types_eqb xs ys = true -> xs = ys.
Proof.
  revert ys. induction xs as [|x xs IH]; intros [|y ys] H; try discriminate;
    [reflexivity|].
  simpl in H. apply andb_prop in H as [Hxy Hrest].
  f_equal; [exact (LogicalType_eqb_eq x y Hxy)|exact (IH ys Hrest)].
Qed.

(** A type whose physical type has no copy function is rejected:
    [GetCopyFunction] throws, and so does the construction of a
    collection with a column of that type. *)
Lemma GetCopyFunction_unsupported (children : list LogicalType)
    (allocator_p : nat) (rest : list LogicalType) :
  GetCopyFunction (mkLogicalType OTHER_PHYSICAL_TYPE children)
    = Fault (InternalException
               "Unsupported type for ColumnDataCollection::GetCopyFunction") /\
  new_ColumnDataCollection allocator_p (mkLogicalType OTHER_PHYSICAL_TYPE children :: rest)
    = Fault (InternalException
               "Unsupported type for ColumnDataCollection::GetCopyFunction").
Proof. split; reflexivity. Qed.

(** [Reset] leaves a collection of the same schema with no rows
    and no segments; a scan of it hands out nothing. *)
Lemma Reset_clears (c : ColumnDataCollection) :
  Count (Reset c) = 0 /\ segments (Reset c) = [] /\ types (Reset c) = types c /\
  Scan_all (Reset c) = Ok [].
Proof. repeat split; reflexivity. Qed.

(** X3. [Combine] is a merge of segment lists: the count of the
    receiver grows by the count of the other collection, its segments
    are followed by the other's, and a scan of it hands out its own
    chunks and then the other's. *)
Theorem Combine_merges_segments (this other this' other' : ColumnDataCollection) :
  Combine this other = Ok (this', other') ->
  segments_live this -> segments_live other ->
  Count this' = Count this + Count other /\
  segments this' = segments this ++ segments other /\
  types this' = types this /\
  Scan_all this' = Ok (all_batches this ++ all_batches other).
Proof.
  intros Hc Hl1 Hl2.
  destruct (Combine_effect _ _ _ _ Hc) as (Hcount & Hsegs & Hty & _).
  split; [exact Hcount|]. split; [exact Hsegs|]. split; [exact Hty|].
  rewrite Scan_all_batches.
  - unfold all_batches. rewrite Hsegs, map_app, concat_app. reflexivity.
  - unfold segments_live. rewrite Hsegs. apply Forall_app. split; assumption.
Qed.

(** X4. [Combine] of collections with different schemas throws. *)
Theorem Combine_rejects_mismatch (this other : ColumnDataCollection) :
  types this <> types other ->
  Combine this other
  = Fault (InternalException
             "Attempting to combine ColumnDataCollections with mismatching types").
Proof.
  intros Hne. apply Combine_mismatch.
  destruct (types_eqb (types this) (types other)) eqn:He; [|reflexivity].
  exfalso. exact (Hne (types_eqb_eq _ _ He)).
Qed.

(** X5. What a scan returns does not depend on how the rows were split
    over the append calls: two sequences of batches with the same rows
    per column give collections that scan to the same columns. *)
Theorem scan_independent_of_split (allocator_p : nat) (ts : list LogicalType)
    (inputs1 inputs2 : list DataChunk) (c0 : ColumnDataCollection) :
  new_ColumnDataCollection allocator_p ts = Ok c0 ->
  Forall (input_ok ts) inputs1 -> Forall (input_ok ts) inputs2 ->
  (forall j, j < length ts ->
     concat (map (input_rows_of j) inputs1) = concat (map (input_rows_of j) inputs2)) ->
  exists c1 c2 batches1 batches2,
    append_all c0 inputs1 = Ok c1 /\ append_all c0 inputs2 = Ok c2 /\
    Scan_all c1 = Ok batches1 /\ Scan_all c2 = Ok batches2 /\
    forall j, j < length ts -> scanned_column batches1 j = scanned_column batches2 j.
Proof.
  intros Hnew Hin1 Hin2 Hsame.
  destruct (new_collection_stores allocator_p ts c0 Hnew) as (fs & Hfs & Hst0).
  destruct (append_all_stores ts fs Hfs inputs1 c0 _ _ Hst0 Hin1) as (c1 & Hrun1 & Hst1).
  destruct (append_all_stores ts fs Hfs inputs2 c0 _ _ Hst0 Hin2) as (c2 & Hrun2 & Hst2).
  destruct (stores_scan ts fs c1 _ _ Hst1) as (Hscan1 & _ & _ & Hcols1 & _).
  destruct (stores_scan ts fs c2 _ _ Hst2) as (Hscan2 & _ & _ & Hcols2 & _).
  exists c1, c2, (all_batches c1), (all_batches c2).
  split; [exact Hrun1|]. split; [exact Hrun2|]. split; [exact Hscan1|].
  split; [exact Hscan2|].
  intros j Hj. rewrite (Hcols1 j Hj), (Hcols2 j Hj). simpl. exact (Hsame j Hj).
Qed.

(** ** Which types a collection can hold *)

(** The types the switch of lines 262-321 has a case for, at every
    level of nesting: the fixed-width types and strings, a struct of
    supported types, a list of a supported type. *)
Fixpoint supported (type : LogicalType) : bool :=
  match type with
  | mkLogicalType physical children =>
      match physical with
      | STRUCT => forallb supported children
      | LIST =>
          match children with
          | child :: _ => supported child
          | [] => false
          end
      | OTHER_PHYSICAL_TYPE => false
      | _ => true
      end
  end.

(** X13. [GetCopyFunction] returns a function table exactly for the
    supported types, and a collection can be constructed exactly when
    every column type is supported; the constructor throws or is
    undefined otherwise. *)
Theorem GetCopyFunction_supported (allocator_p : nat) (ts : list LogicalType) :
  (forall t, supported t = true <-> exists f, GetCopyFunction t = Ok f) /\
  (forallb supported ts = true <->
   exists c, new_ColumnDataCollection allocator_p ts = Ok c).
Proof.
  clear STANDARD_VECTOR_SIZE_pos.
  assert (Hone : forall t, supported t = true <-> exists f, GetCopyFunction t = Ok f).
  { induction t as [physical children IH] using LogicalType_induction.
    assert (Heach : forallb supported children = true <->
              exists fs, Forall2 (fun t g => GetCopyFunction t = Ok g) children fs).
    { induction IH as [|t ts' Ht _ IHts]; simpl.
      - split; [intros _; exists []; constructor|reflexivity].
      - rewrite andb_true_iff, Ht, IHts. split.
        + intros [[f Hf] [fs Hfs]]. exists (f :: fs). constructor; assumption.
        + intros [fs Hfs]. inversion Hfs as [|? g ? gs Hg Hgs]; subst.
          split; [exists g; exact Hg|exists gs; exact Hgs]. }
    split.
    - intros Hs.
      destruct physical; simpl in Hs; try discriminate;
        try (eexists; reflexivity).
      + apply Heach in Hs. destruct Hs as [fs Hfs].
        exists (mkCopyFunction fn_ColumnDataCopyStruct fs). simpl.
        clear -Hfs. induction Hfs as [|t g ts' gs Hg _ IHfs]; [reflexivity|].
        rewrite Hg.
        match type of IHfs with
        | match ?e with _ => _ end = _ =>
            destruct e as [fs'|e'] eqn:He; [|discriminate]
        end.
        injection IHfs as <-. reflexivity.
      + destruct children as [|child rest]; [discriminate|].
        inversion IH as [|? ? Hc _]; subst. apply Hc in Hs. destruct Hs as [g Hg].
        exists (mkCopyFunction fn_ColumnDataCopy_list_entry_t [g]). simpl.
        rewrite Hg. reflexivity.
    - intros [f Hf].
      destruct (GetCopyFunction_cases _ _ _ Hf)
        as [([Hs Hl] & Hv & _)|[(-> & _)|[(-> & fs & _ & Hfs)|(-> & ct & cs & g & -> & Hg & _)]]].
      + destruct physical; try congruence; try reflexivity. discriminate Hf.
      + reflexivity.
      + simpl. apply Heach. exists fs. exact Hfs.
      + simpl. inversion IH as [|? ? Hc _]; subst. apply Hc. exists g. exact Hg. }
  split; [exact Hone|].
  unfold new_ColumnDataCollection.
  induction ts as [|t ts' IH]; simpl.
  - split; [intros _; eexists; reflexivity|reflexivity].
  - rewrite andb_true_iff, Hone. split.
    + intros [[f Hf] Hrest]. rewrite Hf. simpl.
      apply IH in Hrest. destruct Hrest as [c Hc].
      destruct (get_copy_functions ts') as [fs|e]; [|discriminate Hc].
      eexists. reflexivity.
    + intros [c Hc]. destruct (GetCopyFunction t) as [f|e]; [|discriminate Hc].
      split; [exists f; reflexivity|]. apply IH.
      simpl in Hc. destruct (get_copy_functions ts') as [fs|e]; [|discriminate Hc].
      eexists. reflexivity.
Qed.

(** ** What a copy never does *)

(** A loop that returns keeps what every iteration that returns
    establishes. *)
Lemma for_loop_returns {St : Type} (P : nat -> St -> Prop)
    (body : nat -> St -> option St) :
  forall n lo s s',
    P lo s ->
    (forall i st st', lo <= i < lo + n -> P i st -> body i st = Some st' -> P (S i) st') ->
    for_loop n lo body s = Some s' -> P (lo + n) s'.
Proof.
  induction n as [|n IH]; intros lo s s' H0 Hstep Hrun; simpl in Hrun.
  - injection Hrun as <-. replace (lo + 0) with lo by lia. exact H0.
  - destruct (body lo s) as [s1|] eqn:Hb; [|discriminate].
    replace (lo + S n) with (S lo + n) by lia.
    apply (IH (S lo) s1 s'); [|intros i st st' Hi; apply Hstep; lia|exact Hrun].
    apply (Hstep lo s s1); [lia|exact H0|exact Hb].
Qed.

Lemma for_range_returns {St : Type} (P : nat -> St -> Prop)
    (body : nat -> St -> option St) (hi : nat) (s s' : St) :
  P 0 s ->
  (forall i st st', i < hi -> P i st -> body i st = Some st' -> P (S i) st') ->
  for_range 0 hi body s = Some s' -> P hi s'.
Proof.
  intros H0 Hstep Hrun. unfold for_range in Hrun. rewrite Nat.sub_0_r in Hrun.
  apply (for_loop_returns P body hi 0 s s' H0); [|exact Hrun].
  intros i st st' Hi. apply Hstep. lia.
Qed.

(** [vector_grows vd vd']: the descriptor [vd'] is [vd] after rows were
    added: the rows [vd] held are as they were, and a child index or a
    link to a next vector, once set, stays. *)
Definition vector_grows (vd vd' : VectorMetaData) : Prop :=
  vcount vd <= vcount vd' /\
  (forall r, r < vcount vd ->
     values vd' !! r = values vd !! r /\ bits vd' !! r = bits vd !! r) /\
  (forall x, child_index vd = Some x -> child_index vd' = Some x) /\
  (forall x, next_data vd = Some x -> next_data vd' = Some x).

(** [grows seg seg']: the segment [seg'] is [seg] after rows were
    added: the chunk list and the row counts of the chunks and of the
    segment are untouched, the heap has only gained blobs, an entry of
    the child index array that was set is as it was, and every vector
    of the pool is still there and has only grown. *)
Definition grows (seg seg' : Segment) : Prop :=
  chunk_data seg' = chunk_data seg /\
  segment_count seg' = segment_count seg /\
  segment_types seg' = segment_types seg /\
  (exists k, heap seg' = heap seg ++ k) /\
  length (child_indices seg) <= length (child_indices seg') /\
  (forall j x, child_indices seg !! j = Some (Some x) ->
               child_indices seg' !! j = Some (Some x)) /\
  (forall i vd, vector_data seg !! i = Some vd ->
     exists vd', vector_data seg' !! i = Some vd' /\ vector_grows vd vd').

Lemma vector_grows_refl (vd : VectorMetaData) : vector_grows vd vd.
Proof. split; [lia|]. split; [intros; split; reflexivity|]. split; intros x H; exact H. Qed.

Lemma vector_grows_trans (a b c : VectorMetaData) :
  vector_grows a b -> vector_grows b c -> vector_grows a c.
Proof.
  intros (Hc1 & Hr1 & Hi1 & Hn1) (Hc2 & Hr2 & Hi2 & Hn2).
  split; [lia|]. split; [|split].
  - intros r Hr. destruct (Hr1 r Hr) as [E1 E2].
    destruct (Hr2 r ltac:(lia)) as [F1 F2]. split; congruence.
  - intros x Hx. apply Hi2, Hi1, Hx.
  - intros x Hx. apply Hn2, Hn1, Hx.
Qed.

Lemma grows_refl (seg : Segment) : grows seg seg.
Proof.
  repeat split; try reflexivity.
  - exists []. rewrite app_nil_r. reflexivity.
  - intros j x H. exact H.
  - intros i vd H. exists vd. split; [exact H|apply vector_grows_refl].
Qed.

Lemma grows_trans (a b c : Segment) : grows a b -> grows b c -> grows a c.
Proof.
  intros (Hk1 & Hn1 & Ht1 & [h1 Hh1] & Hl1 & Hc1 & Hv1)
         (Hk2 & Hn2 & Ht2 & [h2 Hh2] & Hl2 & Hc2 & Hv2).
  split; [congruence|]. split; [congruence|]. split; [congruence|].
  split; [exists (h1 ++ h2); rewrite Hh2, Hh1, app_assoc; reflexivity|].
  split; [lia|]. split.
  - intros j x Hj. apply Hc2, Hc1, Hj.
  - intros i vd Hi. destruct (Hv1 i vd Hi) as (vd1 & Hi1 & Hg1).
    destruct (Hv2 i vd1 Hi1) as (vd2 & Hi2 & Hg2).
    exists vd2. split; [exact Hi2|exact (vector_grows_trans _ _ _ Hg1 Hg2)].
Qed.

(** The steps a copy is made of. *)
Lemma put_vector_grows (seg seg' : Segment) (index : nat) (vd vd' : VectorMetaData) :
  vector_data seg !! index = Some vd -> vector_grows vd vd' ->
  put_vector seg index vd' = Some seg' -> grows seg seg'.
Proof.
  intros Hvd Hg Hput. unfold put_vector in Hput.
  case_decide as Hlt; [|discriminate]. injection Hput as <-.
  repeat split; try reflexivity.
  - exists []. rewrite app_nil_r. reflexivity.
  - intros j x H. exact H.
  - intros i vd0 Hi. simpl. destruct (decide (i = index)) as [->|Hne].
    + rewrite list_lookup_insert_eq by exact Hlt. exists vd'. split; [reflexivity|].
      rewrite Hvd in Hi. injection Hi as <-. exact Hg.
    + rewrite list_lookup_insert_ne by congruence.
      exists vd0. split; [exact Hi|apply vector_grows_refl].
Qed.

Lemma AllocateVector_grows (seg : Segment) (type : LogicalType) :
  grows seg (AllocateVector seg type).1.
Proof.
  repeat split; try reflexivity.
  - exists []. rewrite app_nil_r. reflexivity.
  - intros j x H. exact H.
  - intros i vd Hi. exists vd. split; [|apply vector_grows_refl].
    simpl. apply lookup_app_l_Some. exact Hi.
Qed.

Lemma set_child_indices_grows (seg : Segment) (ci : list (option nat)) :
  length (child_indices seg) <= length ci ->
  (forall j x, child_indices seg !! j = Some (Some x) -> ci !! j = Some (Some x)) ->
  grows seg (set_child_indices seg ci).
Proof.
  intros Hl Hc. repeat split; try reflexivity; try assumption.
  - exists []. rewrite app_nil_r. reflexivity.
  - intros i vd Hi. exists vd. split; [exact Hi|apply vector_grows_refl].
Qed.

Lemma set_heap_grows (seg : Segment) (k : list string) :
  grows seg (set_heap seg (heap seg ++ k)).
Proof.
  repeat split; try reflexivity.
  - exists k. reflexivity.
  - intros j x H. exact H.
  - intros i vd Hi. exists vd. split; [exact Hi|apply vector_grows_refl].
Qed.

Lemma ColumnDataCopyValidity_keeps (source_data : VectorData) (target mask : list bool)
    (source_offset target_offset copy_count : nat) :
  ColumnDataCopyValidity source_data target source_offset target_offset copy_count
    = Some mask ->
  forall r, r < target_offset -> mask !! r = target !! r.
Proof.
  unfold ColumnDataCopyValidity. intros Hrun r Hr.
  destruct (decide (target_offset = 0)) as [?|_]; [lia|].
  destruct (negb (source_AllValid source_data)); [|injection Hrun as <-; reflexivity].
  apply (for_range_returns (fun _ v => v !! r = target !! r) _ _ _ _ eq_refl) in Hrun;
    [exact Hrun|].
  intros i st st' _ Hst Hb.
  destruct (negb (source_RowIsValid _ _)); [|injection Hb as <-; exact Hst].
  unfold SetInvalid in Hb. case_decide; [|discriminate]. injection Hb as <-.
  rewrite list_lookup_insert_ne by lia. exact Hst.
Qed.

(** An operation adds blobs to the heap and removes none. *)
Definition heap_grows (OP : value_operation) : Prop :=
  forall h d x h', OP h d = (x, h') -> exists k, h' = h ++ k.

Lemma StandardValueCopy_heap : heap_grows StandardValueCopy.
Proof. intros h d x h' H. injection H as _ <-. exists []. rewrite app_nil_r. reflexivity. Qed.

Lemma StringValueCopy_heap : heap_grows StringValueCopy.
Proof.
  intros h d x h' H. unfold StringValueCopy in H.
  destruct d as [z|s|o l]; try (injection H as _ <-; exists []; rewrite app_nil_r; reflexivity).
  destruct (IsInlined s); [injection H as _ <-; exists []; rewrite app_nil_r; reflexivity|].
  simpl in H. injection H as _ <-. eexists. reflexivity.
Qed.

Lemma ListValueCopy_heap (child_list_size : nat) : heap_grows (ListValueCopy child_list_size).
Proof.
  intros h d x h' H. unfold ListValueCopy in H.
  destruct d; injection H as _ <-; exists []; rewrite app_nil_r; reflexivity.
Qed.

Lemma copy_values_keeps (OP : value_operation) (source_data : VectorData)
    (source_offset count copy_count : nat) (slots slots' : list Datum)
    (h h' : list string) :
  heap_grows OP ->
  copy_values OP source_data source_offset count copy_count slots h = Some (slots', h') ->
  (forall r, r < count -> slots' !! r = slots !! r) /\ exists k, h' = h ++ k.
Proof.
  intros HOP Hrun. unfold copy_values in Hrun.
  apply (for_range_returns
           (fun _ st => (forall r, r < count -> st.1 !! r = slots !! r) /\
                        exists k, st.2 = h ++ k)) in Hrun; [exact Hrun| |].
  - split; [reflexivity|]. exists []. rewrite app_nil_r. reflexivity.
  - intros i [sl hp] st' _ [Hsl [k Hk]] Hb. simpl in Hsl, Hk.
    destruct (source_RowIsValid _ _).
    + destruct (OP hp _) as [x hp'] eqn:Hop.
      destruct (HOP _ _ _ _ Hop) as [k' Hk'].
      unfold store_value in Hb. case_decide; [|discriminate].
      simpl in Hb. injection Hb as <-. simpl. split.
      * intros r Hr. rewrite list_lookup_insert_ne by lia. apply Hsl. exact Hr.
      * exists (k ++ k'). rewrite Hk', Hk, app_assoc. reflexivity.
    + injection Hb as <-. simpl. split; [exact Hsl|exists k; exact Hk].
Qed.

Lemma TemplatedColumnDataCopy_grows (OP : value_operation) (seg seg' : Segment)
    (index : nat) (source_data : VectorData) (source_offset copy_count : nat) :
  heap_grows OP ->
  TemplatedColumnDataCopy OP seg index source_data source_offset copy_count = Some seg' ->
  grows seg seg'.
Proof.
  intros HOP Hrun. unfold TemplatedColumnDataCopy, GetVectorData in Hrun.
  destruct (vector_data seg !! index) as [vd|] eqn:Hvd; [|discriminate].
  cbn [mbind option_bind] in Hrun.
  destruct (ColumnDataCopyValidity _ _ _ _ _) as [mask|] eqn:Hmask; [|discriminate].
  cbn [mbind option_bind] in Hrun.
  destruct (copy_values _ _ _ _ _ _ _) as [[slots h]|] eqn:Hvals; [|discriminate].
  cbn [mbind option_bind] in Hrun.
  destruct (copy_values_keeps _ _ _ _ _ _ _ _ _ HOP Hvals) as [Hslots [k ->]].
  apply (grows_trans _ (set_heap seg (heap seg ++ k))); [apply set_heap_grows|].
  refine (put_vector_grows (set_heap seg (heap seg ++ k)) seg' index vd _ Hvd _ Hrun).
  split; [simpl; lia|]. split; [|split; intros x Hx; exact Hx].
  intros r Hr. simpl. split; [apply Hslots; exact Hr|].
  exact (ColumnDataCopyValidity_keeps _ _ _ _ _ _ Hmask r Hr).
Qed.

(** A copy function that only adds rows. *)
Definition only_grows (f : copy_function) : Prop :=
  forall seg index source_data source offset n seg',
    f seg index source_data source offset n = Some seg' -> grows seg seg'.

Lemma list_child_loop_grows (child_function : copy_function) (child_type : LogicalType)
    (child_vector_data : VectorData) (child_vector : Vector) (child_list_size : nat) :
  only_grows child_function ->
  forall fuel seg chain_index remaining current_list_size seg' result,
    list_child_loop child_function child_type child_vector_data child_vector
      child_list_size fuel seg chain_index remaining current_list_size
    = Some (seg', result) ->
    grows seg seg'.
Proof.
  intros Hchild. induction fuel as [|fuel IH];
    intros seg chain_index remaining current_list_size seg' result Hrun.
  - simpl in Hrun. destruct (decide (remaining = 0)); [|discriminate].
    injection Hrun as <- _. apply grows_refl.
  - destruct (decide (remaining = 0)) as [->|Hne].
    { rewrite list_child_loop_0 in Hrun. injection Hrun as <- _. apply grows_refl. }
    rewrite list_child_loop_S in Hrun by exact Hne. unfold GetVectorData in Hrun.
    destruct (vector_data seg !! chain_index) as [vd|] eqn:Hvd; [|discriminate].
    cbn [mbind option_bind] in Hrun. cbv zeta in Hrun.
    set (a := Nat.min (STANDARD_VECTOR_SIZE - vcount vd) remaining) in *.
    assert (Hstep : forall seg1,
              (if decide (0 < a)
               then child_function seg chain_index child_vector_data child_vector
                      (child_list_size - remaining) a
               else Some seg) = Some seg1 -> grows seg seg1).
    { intros seg1 H1. destruct (decide (0 < a)).
      - exact (Hchild _ _ _ _ _ _ _ H1).
      - injection H1 as <-. apply grows_refl. }
    destruct (if decide (0 < a) then _ else _) as [seg1|]; [|discriminate].
    specialize (Hstep seg1 eq_refl). cbn [mbind option_bind] in Hrun.
    destruct (decide (0 < remaining - a)); [|injection Hrun as <- _; exact Hstep].
    destruct (vector_data seg1 !! chain_index) as [vd1|] eqn:Hvd1; [|discriminate].
    cbn [mbind option_bind] in Hrun.
    destruct (next_data vd1) as [next|] eqn:Hnext.
    + cbn [mbind option_bind] in Hrun.
      exact (grows_trans _ _ _ Hstep (IH _ _ _ _ _ _ Hrun)).
    + rewrite AllocateVector_eq in Hrun. unfold GetVectorData in Hrun.
      cbn [vector_data set_vector_data] in Hrun.
      rewrite (lookup_prefix _ _ _ _ Hvd1) in Hrun. cbn [mbind option_bind] in Hrun.
      match type of Hrun with
      | context [put_vector ?s ?i ?v] =>
          destruct (put_vector s i v) as [seg2|] eqn:Hput; [|discriminate]
      end.
      cbn [mbind option_bind] in Hrun.
      apply (grows_trans _ seg1); [exact Hstep|].
      apply (grows_trans _ seg2); [|exact (IH _ _ _ _ _ _ Hrun)].
      apply (grows_trans _ (AllocateVector seg1 child_type).1);
        [apply AllocateVector_grows|].
      refine (put_vector_grows _ seg2 chain_index vd1 _ _ _ Hput).
      * cbn [vector_data set_vector_data]. apply lookup_prefix. exact Hvd1.
      * split; [simpl; lia|]. split; [intros; split; reflexivity|].
        split; [intros x Hx; exact Hx|]. intros x Hx. congruence.
Qed.

Lemma ColumnDataCopy_list_entry_t_grows (child_functions : list copy_function) :
  Forall only_grows child_functions ->
  only_grows (ColumnDataCopy_list_entry_t child_functions).
Proof.
  intros Hcf seg index source_data source offset n seg' Hrun.
  unfold ColumnDataCopy_list_entry_t in Hrun.
  destruct (head (GetEntries source)) as [child_vector|]; [|discriminate].
  cbn [mbind option_bind] in Hrun. unfold GetVectorData in Hrun.
  destruct (vector_data seg !! index) as [vd|] eqn:Hvd; [|discriminate].
  cbn [mbind option_bind] in Hrun.
  match type of Hrun with
  | context [match child_index vd with Some _ => Some seg | None => ?e end] =>
      assert (Hfirst : forall seg1,
                match child_index vd with Some _ => Some seg | None => e end = Some seg1 ->
                grows seg seg1);
      [|destruct (match child_index vd with Some _ => Some seg | None => e end)
          as [seg1|]; [|discriminate]]
  end.
  { intros seg1 H1. destruct (child_index vd) as [position|] eqn:Hci.
    - injection H1 as <-. apply grows_refl.
    - rewrite AllocateVector_eq in H1. unfold AddChildIndex, GetVectorData in H1.
      cbn [vector_data set_vector_data set_child_indices] in H1.
      rewrite (lookup_prefix _ _ _ _ Hvd) in H1. cbn [mbind option_bind] in H1.
      apply (grows_trans _ (AllocateVector seg (GetType child_vector)).1);
        [apply AllocateVector_grows|].
      match type of H1 with
      | put_vector ?s _ _ = _ =>
          apply (grows_trans _ s);
            [|refine (put_vector_grows s seg1 index vd _ _ _ H1)]
      end.
      + apply set_child_indices_grows.
        * rewrite length_app. simpl. lia.
        * intros j x Hj. apply lookup_prefix. exact Hj.
      + simpl. apply lookup_prefix. exact Hvd.
      + split; [simpl; lia|]. split; [intros; split; reflexivity|].
        split; [intros x Hx; congruence|intros x Hx; exact Hx]. }
  specialize (Hfirst seg1 eq_refl). cbn [mbind option_bind] in Hrun.
  destruct (child_functions !! 0) as [child_function|] eqn:Hcf0; [|discriminate].
  cbn [mbind option_bind] in Hrun.
  destruct (vector_data seg1 !! index) as [vd1|]; [|discriminate].
  cbn [mbind option_bind] in Hrun.
  destruct (child_index vd1) as [position|]; [|discriminate].
  cbn [mbind option_bind] in Hrun.
  destruct (GetChildIndex seg1 position 0) as [child|]; [|discriminate].
  cbn [mbind option_bind] in Hrun.
  destruct (list_child_loop _ _ _ _ _ _ _ _ _ _) as [[seg2 cls]|] eqn:Hloop;
    [|discriminate].
  cbn [mbind option_bind] in Hrun.
  apply (grows_trans _ seg1); [exact Hfirst|].
  apply (grows_trans _ seg2).
  - apply (list_child_loop_grows _ _ _ _ _
             (proj1 (Forall_lookup _ _) Hcf 0 child_function Hcf0) _ _ _ _ _ _ _ Hloop).
  - exact (TemplatedColumnDataCopy_grows _ _ _ _ _ _ _ (ListValueCopy_heap cls) Hrun).
Qed.

Lemma allocate_struct_children_grows (child_types : list LogicalType)
    (seg seg' : Segment) (index : nat) (vd : VectorMetaData) :
  vector_data seg !! index = Some vd ->
  for_range 0 (length child_types)
    (allocate_struct_child child_types (length (child_indices seg)))
    (ReserveChildren seg (length child_types)).1 = Some seg' ->
  grows seg seg' /\ vector_data seg' !! index = Some vd.
Proof.
  intros Hvd Hrun.
  set (base := length (child_indices seg)) in *.
  set (n := length child_types) in *.
  apply (for_range_returns
           (fun i st => grows seg st /\ vector_data st !! index = Some vd /\
                        forall j, base + i <= j < base + n ->
                                  child_indices st !! j = Some None)) in Hrun.
  - destruct Hrun as (Hg & Hv & _). split; assumption.
  - split; [|split; [exact Hvd|]].
    + apply set_child_indices_grows; [rewrite length_app; lia|].
      intros j x Hj. apply lookup_prefix. exact Hj.
    + intros j Hj. simpl. rewrite lookup_app_r by (fold base; lia).
      apply lookup_replicate_2. fold base. lia.
  - intros i st st' Hi (Hg & Hv & Hnone) Hb. unfold allocate_struct_child in Hb.
    destruct (child_types !! i) as [type|]; [|discriminate].
    cbn [mbind option_bind] in Hb. rewrite AllocateVector_eq in Hb.
    unfold SetChildIndex in Hb. cbn [child_indices set_vector_data] in Hb.
    case_decide as Hlt; [|discriminate]. injection Hb as <-.
    split; [|split].
    + apply (grows_trans _ st); [exact Hg|].
      apply (grows_trans _ (AllocateVector st type).1); [apply AllocateVector_grows|].
      rewrite AllocateVector_eq. apply set_child_indices_grows.
      * simpl. rewrite length_insert. lia.
      * simpl. intros j x Hj. destruct (decide (j = base + i)) as [->|Hne].
        -- rewrite (Hnone (base + i)) in Hj by lia. discriminate.
        -- rewrite list_lookup_insert_ne by congruence. exact Hj.
    + simpl. apply lookup_prefix. exact Hv.
    + intros j Hj. simpl. rewrite list_lookup_insert_ne by lia. apply Hnone. lia.
Qed.

Lemma ColumnDataCopyStruct_grows (child_functions : list copy_function) :
  Forall only_grows child_functions ->
  only_grows (ColumnDataCopyStruct child_functions).
Proof.
  intros Hcf seg index source_data source offset n seg' Hrun.
  unfold ColumnDataCopyStruct, GetVectorData in Hrun.
  destruct (vector_data seg !! index) as [vd|] eqn:Hvd; [|discriminate].
  cbn [mbind option_bind] in Hrun.
  destruct (ColumnDataCopyValidity _ _ _ _ _) as [mask|] eqn:Hmask; [|discriminate].
  cbn [mbind option_bind] in Hrun.
  match type of Hrun with
  | context [put_vector seg index ?v] =>
      destruct (put_vector seg index v) as [seg1|] eqn:Hput; [|discriminate]
  end.
  cbn [mbind option_bind] in Hrun.
  assert (Hg1 : grows seg seg1).
  { refine (put_vector_grows seg seg1 index vd _ Hvd _ Hput).
    split; [simpl; lia|]. split; [|split; intros x Hx; exact Hx].
    intros r Hr. simpl. split; [reflexivity|].
    exact (ColumnDataCopyValidity_keeps _ _ _ _ _ _ Hmask r Hr). }
  assert (Hvd1 : exists vd1, vector_data seg1 !! index = Some vd1 /\
                             child_index vd1 = child_index vd).
  { unfold put_vector in Hput. case_decide as Hlt; [|discriminate].
    injection Hput as <-. eexists. split; [apply list_lookup_insert_eq; exact Hlt|].
    reflexivity. }
  destruct Hvd1 as (vd1 & Hvd1 & Hci1).
  cbv zeta in Hrun.
  set (child_types := GetChildTypes (GetType source)) in *.
  match type of Hrun with
  | context [match child_index vd with Some _ => Some seg1 | None => ?e end] =>
      assert (Hsecond : forall seg2,
                match child_index vd with Some _ => Some seg1 | None => e end = Some seg2 ->
                grows seg1 seg2);
      [|destruct (match child_index vd with Some _ => Some seg1 | None => e end)
          as [seg2|]; [|discriminate]]
  end.
  { intros seg2 H2. destruct (child_index vd) as [base|] eqn:Hci.
    - injection H2 as <-. apply grows_refl.
    - change (ReserveChildren seg1 (length child_types))
        with ((ReserveChildren seg1 (length child_types)).1, length (child_indices seg1))
        in H2.
      cbv beta iota in H2.
      destruct (for_range 0 (length child_types) _ _) as [seg''|] eqn:Hloop;
        [|discriminate].
      cbn [mbind option_bind] in H2.
      destruct (allocate_struct_children_grows child_types seg1 seg'' index vd1 Hvd1 Hloop)
        as [Hg Hv]. unfold GetVectorData in H2. rewrite Hv in H2.
      cbn [mbind option_bind] in H2.
      apply (grows_trans _ seg''); [exact Hg|].
      refine (put_vector_grows seg'' seg2 index vd1 _ Hv _ H2).
      split; [simpl; lia|]. split; [intros; split; reflexivity|].
      split; [intros x Hx; congruence|intros x Hx; exact Hx]. }
  specialize (Hsecond seg2 eq_refl). cbn [mbind option_bind] in Hrun.
  apply (grows_trans _ seg1); [exact Hg1|].
  apply (grows_trans _ seg2); [exact Hsecond|].
  apply (for_range_returns (fun _ st => grows seg2 st)) in Hrun;
    [exact Hrun|apply grows_refl|].
  intros i st st' _ Hst Hb. unfold copy_struct_child in Hb.
  unfold copy_function in *.
  destruct (child_functions !! i) as [child_function|] eqn:Hf; [|discriminate].
  cbn [mbind option_bind] in Hb.
  destruct (GetVectorData st index) as [vdx|]; [|discriminate].
  cbn [mbind option_bind] in Hb.
  destruct (child_index vdx) as [base|]; [|discriminate].
  cbn [mbind option_bind] in Hb.
  destruct (GetChildIndex st base i) as [child|]; [|discriminate].
  cbn [mbind option_bind] in Hb.
  destruct (GetEntries source !! i) as [child_vector|]; [|discriminate].
  cbn [mbind option_bind] in Hb.
  apply (grows_trans _ st); [exact Hst|].
  exact (proj1 (Forall_lookup _ _) Hcf i child_function Hf _ _ _ _ _ _ _ Hb).
Qed.

Lemma ColumnDataCopyFunction_induction (P : ColumnDataCopyFunction -> Prop) :
  (forall fn children, Forall P children -> P (mkCopyFunction fn children)) ->
  forall f, P f.
Proof.
  intros Hstep. fix IH 1. intros [fn children]. apply Hstep.
  induction children as [|c cs IHcs]; constructor; [apply IH|exact IHcs].
Qed.

Lemma call_only_grows (f : ColumnDataCopyFunction) : only_grows (call f).
Proof.
  induction f as [fn children IH] using ColumnDataCopyFunction_induction.
  destruct fn; simpl.
  - intros seg index source_data source offset n seg' Hrun.
    exact (TemplatedColumnDataCopy_grows _ _ _ _ _ _ _ StandardValueCopy_heap Hrun).
  - intros seg index source_data source offset n seg' Hrun.
    exact (TemplatedColumnDataCopy_grows _ _ _ _ _ _ _ StringValueCopy_heap Hrun).
  - apply ColumnDataCopy_list_entry_t_grows. apply Forall_fmap. exact IH.
  - apply ColumnDataCopyStruct_grows. apply Forall_fmap. exact IH.
Qed.

(** X14. The copy functions only add rows.  Whenever a copy function
    of a table returns, for whatever segment, vector index and source it
    was called on: the chunk list, the chunk row counts and the
    segment's row count and types are untouched; the heap has only
    gained blobs; no entry of the child index array that was set has
    changed; and every vector of the pool is still there, with at least
    the rows it had, each with the value and the validity bit it had,
    and with the child index and the link to a next vector it had, if
    it had one. *)
Theorem copy_functions_only_grow (f : ColumnDataCopyFunction) (seg : Segment)
    (index : nat) (source_data : VectorData) (source : Vector) (offset n : nat)
    (seg' : Segment) :
  call f seg index source_data source offset n = Some seg' ->
  chunk_data seg' = chunk_data seg /\
  segment_count seg' = segment_count seg /\
  segment_types seg' = segment_types seg /\
  (exists k, heap seg' = heap seg ++ k) /\
  length (child_indices seg) <= length (child_indices seg') /\
  (forall j x, child_indices seg !! j = Some (Some x) ->
               child_indices seg' !! j = Some (Some x)) /\
  (forall i vd, vector_data seg !! i = Some vd ->
     exists vd', vector_data seg' !! i = Some vd' /\
       vcount vd <= vcount vd' /\
       (forall r, r < vcount vd ->
          values vd' !! r = values vd !! r /\ bits vd' !! r = bits vd !! r) /\
       (forall x, child_index vd = Some x -> child_index vd' = Some x) /\
       (forall x, next_data vd = Some x -> next_data vd' = Some x)).
Proof. intros Hrun. exact (call_only_grows f _ _ _ _ _ _ _ Hrun). Qed.

(** ** How appended rows fill the chunks *)

Lemma copy_columns_grow (fs : list ColumnDataCopyFunction) (chunk : ChunkMetaData)
    (vectors : list Vector) (offset append_amount n_types : nat) (seg seg' : Segment) :
  for_range 0 n_types (copy_column fs chunk vectors offset append_amount) seg = Some seg' ->
  grows seg seg'.
Proof.
  intros Hrun.
  apply (for_range_returns (fun _ st => grows seg st)) in Hrun;
    [exact Hrun|apply grows_refl|].
  intros i st st' _ Hst Hb. unfold copy_column in Hb.
  destruct (fs !! i) as [f|]; [|discriminate]. cbn [mbind option_bind] in Hb.
  destruct (chunk_vector_data chunk !! i) as [root|]; [|discriminate].
  cbn [mbind option_bind] in Hb.
  destruct (vectors !! i) as [v|]; [|discriminate]. cbn [mbind option_bind] in Hb.
  exact (grows_trans _ _ _ Hst (call_only_grows f _ _ _ _ _ _ _ Hb)).
Qed.

Lemma AllocateNewChunk_chunks (seg : Segment) :
  exists roots,
    chunk_data (AllocateNewChunk seg) = chunk_data seg ++ [mkChunkMetaData roots 0].
Proof.
  unfold AllocateNewChunk. rewrite allocate_columns_eq. eexists. reflexivity.
Qed.

(** The chunks of a segment while [remaining] rows of a batch are
    still to be appended: every chunk but the last is full, the last is
    within the capacity, and only the first chunk of a segment can be
    left empty. *)
Definition packing (chunks : list ChunkMetaData) (remaining : nat) : Prop :=
  exists full final,
    chunks = full ++ [final] /\
    Forall (fun chunk => chunk_count chunk = STANDARD_VECTOR_SIZE) full /\
    chunk_count final <= STANDARD_VECTOR_SIZE /\
    (full <> [] -> 0 < chunk_count final \/ 0 < remaining).

Lemma append_loop_packs (fs : list ColumnDataCopyFunction) (n_types : nat)
    (vectors : list Vector) (input_size : nat) :
  forall fuel segment remaining segment',
    packing (chunk_data segment) remaining ->
    append_loop fs n_types vectors input_size fuel segment remaining = Ok segment' ->
    packing (chunk_data segment') 0.
Proof.
  induction fuel as [|fuel IH]; intros segment remaining segment' Hp Hrun.
  - simpl in Hrun. destruct (decide (remaining = 0)) as [->|]; [|discriminate].
    injection Hrun as <-. exact Hp.
  - destruct (decide (remaining = 0)) as [->|Hne].
    { rewrite append_loop_0 in Hrun. injection Hrun as <-. exact Hp. }
    rewrite append_loop_S in Hrun by exact Hne.
    destruct Hp as (full & final & Hchunks & Hfull & Hcap & Hlast).
    rewrite Hchunks, last_snoc in Hrun.
    cbn [defined mbind result_bind bind] in Hrun. cbv zeta in Hrun.
    set (a := Nat.min remaining (STANDARD_VECTOR_SIZE - chunk_count final)) in *.
    assert (Hstep : forall segment1,
      (if decide (0 < a)
       then seg' ← defined (for_range 0 n_types
                              (copy_column fs final vectors (input_size - remaining) a)
                              segment);
            Ok (set_chunk_data seg'
                  (<[pred (length (chunk_data seg')) :=
                       mkChunkMetaData (chunk_vector_data final) (chunk_count final + a)]>
                     (chunk_data seg')))
       else Ok segment) = Ok segment1 ->
      exists final1, chunk_data segment1 = full ++ [final1] /\
                     chunk_count final1 = chunk_count final + a).
    { intros segment1 H1. destruct (decide (0 < a)).
      - destruct (for_range 0 n_types _ segment) as [seg'|] eqn:Hcols; [|discriminate].
        cbn [defined mbind result_bind bind] in H1. injection H1 as <-.
        destruct (copy_columns_grow _ _ _ _ _ _ _ _ Hcols) as (Hk & _).
        eexists. simpl. rewrite Hk, Hchunks, length_app. simpl.
        replace (pred (length full + 1)) with (length full + 0) by lia.
        rewrite insert_app_r. simpl. split; reflexivity.
      - injection H1 as <-. exists final. split; [exact Hchunks|lia]. }
    destruct (if decide (0 < a) then _ else _) as [segment1|]; [|discriminate].
    destruct (Hstep segment1 eq_refl) as (final1 & Hchunks1 & Hcount1).
    cbn [mbind result_bind bind] in Hrun.
    destruct (decide (0 < remaining - a)) as [Hmore|Hdone].
    + apply IH in Hrun; [exact Hrun|].
      destruct (AllocateNewChunk_chunks segment1) as [roots Hnew].
      exists (full ++ [final1]), (mkChunkMetaData roots 0).
      split; [rewrite Hnew, Hchunks1; reflexivity|].
      split; [apply Forall_app; split; [exact Hfull|]; constructor; [lia|constructor]|].
      split; [simpl; lia|]. intros _. right. exact Hmore.
    + injection Hrun as <-. exists full, final1.
      split; [exact Hchunks1|]. split; [exact Hfull|]. split; [lia|].
      intros _. left. lia.
Qed.

(** [packed c]: no segment pointer of [c] is null and the chunks of
    every segment are packed. *)
Definition packed (c : ColumnDataCollection) : Prop :=
  Forall (fun s => exists seg, s = Some seg /\ packing (chunk_data seg) 0) (segments c).

Lemma set_back_segment_snoc (c : ColumnDataCollection) (segs : list (option Segment))
    (s : option Segment) (seg : Segment) :
  segments c = segs ++ [s] ->
  segments (set_back_segment c seg) = segs ++ [Some seg].
Proof.
  intros H. unfold set_back_segment. simpl. rewrite H, length_app. simpl.
  replace (pred (length segs + 1)) with (length segs + 0) by lia.
  rewrite insert_app_r. reflexivity.
Qed.

Lemma back_segment_returns (c : ColumnDataCollection) (seg : Segment) :
  back_segment c = Ok seg -> exists segs, segments c = segs ++ [Some seg].
Proof.
  unfold back_segment. intros H.
  destruct (last (segments c)) as [[seg0|]|] eqn:Hlast; try discriminate.
  injection H as <-. apply last_Some in Hlast. exact Hlast.
Qed.

Lemma InitializeAppend_packs (c c1 : ColumnDataCollection) :
  packed c -> InitializeAppend c = Ok c1 -> packed c1.
Proof.
  intros Hp Hrun. unfold InitializeAppend in Hrun.
  destruct (D_ASSERT _) as [[]|]; [|discriminate]. cbn [mbind result_bind bind] in Hrun.
  set (c0 := if decide (segments c = []) then CreateSegment c else c) in *.
  destruct (back_segment c0) as [segment|] eqn:Hback; [|discriminate].
  cbn [mbind result_bind bind] in Hrun. injection Hrun as <-.
  destruct (back_segment_returns _ _ Hback) as [segs Hsegs].
  unfold packed. rewrite (set_back_segment_snoc c0 segs _ _ Hsegs).
  assert (Hp0 : Forall (fun s => exists seg, s = Some seg /\ packing (chunk_data seg) 0) segs
                /\ (segments c <> [] -> packing (chunk_data segment) 0)
                /\ (segments c = [] -> chunk_data segment = [])).
  { unfold c0 in Hsegs. destruct (decide (segments c = [])) as [He|Hne].
    - simpl in Hsegs. rewrite He in Hsegs. simpl in Hsegs.
      destruct segs as [|x segs'];
        [|exfalso; injection Hsegs as _ Hs; destruct segs'; discriminate Hs].
      injection Hsegs as Hs. subst segment.
      split; [constructor|]. split; [congruence|reflexivity].
    - unfold packed in Hp. rewrite Hsegs in Hp. apply Forall_app in Hp as [Hp1 Hp2].
      inversion Hp2 as [|? ? (seg & Heq & Hpk) _]; subst. injection Heq as <-.
      split; [exact Hp1|]. split; [intros _; exact Hpk|congruence]. }
  destruct Hp0 as (Hrest & Hsome & Hnone).
  apply Forall_app. split; [exact Hrest|]. constructor; [|constructor].
  eexists. split; [reflexivity|].
  destruct (decide (chunk_data segment = [])) as [He|Hne].
  - destruct (AllocateNewChunk_chunks segment) as [roots Hnew]. rewrite Hnew, He.
    exists [], (mkChunkMetaData roots 0). split; [reflexivity|].
    split; [constructor|]. split; [simpl; lia|congruence].
  - apply Hsome. intros He. apply Hne, Hnone, He.
Qed.

Lemma Append_state_packs (c c' : ColumnDataCollection) (input : DataChunk) :
  packed c -> Append_state c input = Ok c' -> packed c'.
Proof.
  intros Hp Hrun. unfold Append_state in Hrun.
  destruct (D_ASSERT (negb (finished_append c))) as [[]|]; [|discriminate].
  cbn [mbind result_bind bind] in Hrun.
  destruct (D_ASSERT (types_eqb _ _)) as [[]|]; [|discriminate].
  cbn [mbind result_bind bind] in Hrun.
  destruct (back_segment c) as [segment|] eqn:Hback; [|discriminate].
  cbn [mbind result_bind bind] in Hrun.
  destruct (prepare_input _ _) as [vectors|]; [|discriminate].
  cbn [mbind result_bind bind] in Hrun.
  destruct (append_loop _ _ _ _ _ _ _) as [segment1|] eqn:Hloop; [|discriminate].
  cbn [mbind result_bind bind] in Hrun. injection Hrun as <-.
  destruct (back_segment_returns _ _ Hback) as [segs Hsegs].
  unfold packed in *. cbn [segments set_count].
  rewrite (set_back_segment_snoc c segs _ _ Hsegs).
  rewrite Hsegs in Hp. apply Forall_app in Hp as [Hp1 Hp2].
  inversion Hp2 as [|? ? (seg & Heq & Hpk) _]; subst. injection Heq as <-.
  apply Forall_app. split; [exact Hp1|]. constructor; [|constructor].
  eexists. split; [reflexivity|]. cbn [chunk_data set_segment_count].
  apply append_loop_packs in Hloop; [exact Hloop|].
  destruct Hpk as (full & final & H1 & H2 & H3 & H4).
  exists full, final. split; [exact H1|]. split; [exact H2|]. split; [exact H3|].
  intros Hne. destruct (H4 Hne) as [?|?]; [left; assumption|lia].
Qed.

Lemma append_all_packs (inputs : list DataChunk) :
  forall c c', packed c -> append_all c inputs = Ok c' -> packed c'.
Proof.
  induction inputs as [|input rest IH]; intros c c' Hp Hrun; simpl in Hrun.
  - injection Hrun as <-. exact Hp.
  - unfold Append in Hrun.
    destruct (InitializeAppend c) as [c1|] eqn:Hinit; [|discriminate].
    cbn [mbind result_bind bind] in Hrun.
    destruct (Append_state c1 input) as [c2|] eqn:Happ; [|discriminate].
    cbn [mbind result_bind bind] in Hrun.
    apply (IH c2 c'); [|exact Hrun].
    apply (Append_state_packs c1 c2 input); [|exact Happ].
    exact (InitializeAppend_packs c c1 Hp Hinit).
Qed.

Lemma Append_state_segments (c c' : ColumnDataCollection) (input : DataChunk) :
  Append_state c input = Ok c' ->
  segments c <> [] /\ length (segments c') = length (segments c).
Proof.
  intros Hrun. unfold Append_state in Hrun.
  destruct (D_ASSERT (negb (finished_append c))) as [[]|]; [|discriminate].
  cbn [mbind result_bind bind] in Hrun.
  destruct (D_ASSERT (types_eqb _ _)) as [[]|]; [|discriminate].
  cbn [mbind result_bind bind] in Hrun.
  destruct (back_segment c) as [segment|] eqn:Hback; [|discriminate].
  cbn [mbind result_bind bind] in Hrun.
  destruct (prepare_input _ _) as [vectors|]; [|discriminate].
  cbn [mbind result_bind bind] in Hrun.
  destruct (append_loop _ _ _ _ _ _ _) as [segment1|]; [|discriminate].
  cbn [mbind result_bind bind] in Hrun. injection Hrun as <-.
  destruct (back_segment_returns _ _ Hback) as [segs Hsegs].
  split; [rewrite Hsegs; destruct segs; discriminate|].
  cbn [segments set_count set_back_segment set_segments].
  apply length_insert.
Qed.

Lemma InitializeAppend_segments (c c1 : ColumnDataCollection) :
  InitializeAppend c = Ok c1 ->
  length (segments c1) = Nat.max 1 (length (segments c)).
Proof.
  intros Hrun. unfold InitializeAppend in Hrun.
  destruct (D_ASSERT _) as [[]|]; [|discriminate]. cbn [mbind result_bind bind] in Hrun.
  destruct (back_segment _) as [segment|]; [|discriminate].
  cbn [mbind result_bind bind] in Hrun. injection Hrun as <-.
  cbn [segments set_back_segment set_segments]. rewrite length_insert.
  destruct (decide (segments c = [])) as [He|Hne].
  - simpl. rewrite He. reflexivity.
  - destruct (segments c); [congruence|]. simpl. lia.
Qed.

Lemma Append_segments (c c' : ColumnDataCollection) (input : DataChunk) :
  Append c input = Ok c' ->
  length (segments c') = Nat.max 1 (length (segments c)).
Proof.
  intros Hrun. unfold Append in Hrun.
  destruct (InitializeAppend c) as [c1|] eqn:Hinit; [|discriminate].
  cbn [mbind result_bind bind] in Hrun.
  destruct (Append_state_segments _ _ _ Hrun) as [_ ->].
  exact (InitializeAppend_segments _ _ Hinit).
Qed.

Lemma append_all_segments (inputs : list DataChunk) :
  forall c c', append_all c inputs = Ok c' -> inputs <> [] ->
               length (segments c') = Nat.max 1 (length (segments c)).
Proof.
  induction inputs as [|input rest IH]; intros c c' Hrun Hne; [congruence|].
  simpl in Hrun. destruct (Append c input) as [c1|] eqn:Happ; [|discriminate].
  cbn [mbind result_bind bind] in Hrun.
  pose proof (Append_segments _ _ _ Happ) as H1.
  destruct rest as [|input' rest'].
  - injection Hrun as <-. exact H1.
  - rewrite (IH c1 c' Hrun) by discriminate. lia.
Qed.

Lemma full_chunks_rows (full : list ChunkMetaData) :
  Forall (fun chunk => chunk_count chunk = STANDARD_VECTOR_SIZE) full ->
  list_sum (map chunk_count full) = STANDARD_VECTOR_SIZE * length full.
Proof.
  induction 1 as [|chunk rest Hc _ IH]; simpl; [lia|]. rewrite IH, Hc. lia.
Qed.

(** ** The append step on the row counts of the chunks *)

(** The append step in the words of the specification, on the row
    counts of the chunks of a segment, the current chunk last: while
    rows remain, the current chunk takes
    [min(remaining, capacity - count)] of them, and when rows still
    remain after that a new, empty chunk becomes the current one. *)
Fixpoint take_rows (fuel : nat) (counts : list nat) (remaining : nat) : list nat :=
  if decide (remaining = 0) then counts else
  match fuel with
  | O => counts
  | S fuel' =>
      let current := List.last counts 0 in
      let amount := Nat.min remaining (STANDARD_VECTOR_SIZE - current) in
      let counts1 := <[pred (length counts) := current + amount]> counts in
      if decide (0 < remaining - amount)
      then take_rows fuel' (counts1 ++ [0]) (remaining - amount)
      else counts1
  end.

(** One append of a batch of [rows] rows. *)
Definition append_step (counts : list nat) (rows : nat) : list nat :=
  take_rows (S rows) counts rows.

(** The row counts of the chunks of a collection, segment by segment. *)
Definition chunk_counts (c : ColumnDataCollection) : list (list nat) :=
  map (from_option (fun seg => map chunk_count (chunk_data seg)) []) (segments c).

Lemma take_rows_nonempty (fuel : nat) :
  forall counts remaining, counts <> [] -> take_rows fuel counts remaining <> [].
Proof.
  induction fuel as [|fuel IH]; intros counts remaining Hne; simpl.
  - destruct (decide (remaining = 0)); exact Hne.
  - destruct (decide (remaining = 0)); [exact Hne|].
    destruct (decide (0 < _)).
    + apply IH. destruct (<[_ := _]> counts); discriminate.
    + intros H. apply (f_equal length) in H. rewrite length_insert in H.
      destruct counts; [congruence|discriminate].
Qed.

Lemma last_map_chunk_count (chunks : list ChunkMetaData) (chunk : ChunkMetaData) :
  last chunks = Some chunk -> List.last (map chunk_count chunks) 0 = chunk_count chunk.
Proof.
  intros H. apply last_Some in H as [front ->]. rewrite map_app. simpl.
  apply last_last.
Qed.

Lemma append_loop_counts (fs : list ColumnDataCopyFunction) (n_types : nat)
    (vectors : list Vector) (input_size : nat) :
  forall fuel segment remaining segment',
    append_loop fs n_types vectors input_size fuel segment remaining = Ok segment' ->
    map chunk_count (chunk_data segment')
    = take_rows fuel (map chunk_count (chunk_data segment)) remaining.
Proof.
  induction fuel as [|fuel IH]; intros segment remaining segment' Hrun.
  - simpl in *. destruct (decide (remaining = 0)); [|discriminate].
    injection Hrun as <-. reflexivity.
  - destruct (decide (remaining = 0)) as [->|Hne].
    { rewrite append_loop_0 in Hrun. injection Hrun as <-. reflexivity. }
    rewrite append_loop_S in Hrun by exact Hne.
    cbn [take_rows]. destruct (decide (remaining = 0)) as [?|_]; [contradiction|].
    destruct (last (chunk_data segment)) as [chunk|] eqn:Hlast; [|discriminate].
    cbn [defined mbind result_bind bind] in Hrun. cbv zeta in Hrun. cbv zeta.
    rewrite (last_map_chunk_count _ _ Hlast).
    set (a := Nat.min remaining (STANDARD_VECTOR_SIZE - chunk_count chunk)) in *.
    assert (Hstep : forall segment1,
      (if decide (0 < a)
       then seg' ← defined (for_range 0 n_types
                              (copy_column fs chunk vectors (input_size - remaining) a)
                              segment);
            Ok (set_chunk_data seg'
                  (<[pred (length (chunk_data seg')) :=
                       mkChunkMetaData (chunk_vector_data chunk) (chunk_count chunk + a)]>
                     (chunk_data seg')))
       else Ok segment) = Ok segment1 ->
      map chunk_count (chunk_data segment1)
      = <[pred (length (map chunk_count (chunk_data segment))) := chunk_count chunk + a]>
          (map chunk_count (chunk_data segment))).
    { intros segment1 H1. destruct (decide (0 < a)) as [Hpos|Hzero].
      - destruct (for_range 0 n_types _ segment) as [seg'|] eqn:Hcols; [|discriminate].
        cbn [defined mbind result_bind bind] in H1. injection H1 as <-.
        destruct (copy_columns_grow _ _ _ _ _ _ _ _ Hcols) as (Hk & _).
        simpl. rewrite Hk, list_fmap_insert, length_map. reflexivity.
      - injection H1 as <-. replace a with 0 by lia. rewrite Nat.add_0_r.
        symmetry. apply list_insert_id. rewrite list_lookup_fmap, length_map.
        rewrite <- last_lookup, Hlast. reflexivity. }
    destruct (if decide (0 < a) then _ else _) as [segment1|]; [|discriminate].
    rewrite <- (Hstep segment1 eq_refl).
    cbn [mbind result_bind bind] in Hrun.
    destruct (decide (0 < remaining - a)) as [Hmore|Hdone].
    + rewrite (IH _ _ _ Hrun).
      destruct (AllocateNewChunk_chunks segment1) as [roots Hnew].
      rewrite Hnew, map_app. reflexivity.
    + injection Hrun as <-. reflexivity.
Qed.

Lemma Append_state_counts (c c' : ColumnDataCollection) (input : DataChunk)
    (seg : Segment) :
  segments c = [Some seg] ->
  Append_state c input = Ok c' ->
  count c' = count c + chunk_size input /\
  exists seg', segments c' = [Some seg'] /\
               map chunk_count (chunk_data seg')
               = append_step (map chunk_count (chunk_data seg)) (chunk_size input).
Proof.
  intros Hsegs Hrun. unfold Append_state in Hrun.
  destruct (D_ASSERT (negb (finished_append c))) as [[]|]; [|discriminate].
  cbn [mbind result_bind bind] in Hrun.
  destruct (D_ASSERT (types_eqb _ _)) as [[]|]; [|discriminate].
  cbn [mbind result_bind bind] in Hrun.
  unfold back_segment in Hrun. rewrite Hsegs in Hrun.
  change (defined (mjoin (last [Some seg]))) with (Ok seg : result Segment) in Hrun.
  cbn [mbind result_bind bind] in Hrun.
  destruct (prepare_input _ _) as [vectors|]; [|discriminate].
  cbn [mbind result_bind bind] in Hrun.
  destruct (append_loop _ _ _ _ _ _ _) as [segment1|] eqn:Hloop; [|discriminate].
  cbn [mbind result_bind bind] in Hrun. injection Hrun as <-.
  split; [reflexivity|]. eexists.
  split; [cbn [segments set_count set_back_segment set_segments]; rewrite Hsegs;
          reflexivity|].
  cbn [chunk_data set_segment_count]. exact (append_loop_counts _ _ _ _ _ _ _ _ Hloop).
Qed.

Lemma InitializeAppend_counts (c c1 : ColumnDataCollection) :
  InitializeAppend c = Ok c1 ->
  count c1 = count c /\
  (segments c = [] ->
   exists seg, segments c1 = [Some seg] /\ map chunk_count (chunk_data seg) = [0]) /\
  (forall seg, segments c = [Some seg] -> chunk_data seg <> [] -> segments c1 = [Some seg]).
Proof.
  intros Hrun. unfold InitializeAppend in Hrun.
  destruct (D_ASSERT _) as [[]|]; [|discriminate]. cbn [mbind result_bind bind] in Hrun.
  destruct (decide (segments c = [])) as [He|Hne].
  - unfold back_segment, CreateSegment in Hrun. simpl in Hrun. rewrite He in Hrun.
    cbn [app last mjoin defined mbind result_bind bind] in Hrun.
    destruct (decide (chunk_data (new_Segment (types c)) = [])) as [_|Hx];
      [|exfalso; apply Hx; reflexivity].
    injection Hrun as <-. split; [reflexivity|]. split; [|congruence].
    intros _. eexists.
    split; [reflexivity|].
    destruct (AllocateNewChunk_chunks (new_Segment (types c))) as [roots ->].
    reflexivity.
  - destruct (back_segment c) as [segment|] eqn:Hback; [|discriminate].
    cbn [mbind result_bind bind] in Hrun. injection Hrun as <-.
    split; [reflexivity|]. split; [congruence|]. intros seg Hsegs Hchunks.
    unfold back_segment in Hback. rewrite Hsegs in Hback. injection Hback as <-.
    destruct (decide (chunk_data seg = [])); [congruence|].
    cbn [segments set_back_segment set_segments]. rewrite Hsegs. reflexivity.
Qed.

(** [counted c counts]: what the appends so far have made of the
    chunks of [c]; a collection without a segment stands for the empty
    chunk that the next append starts with. *)
Definition counted (c : ColumnDataCollection) (counts : list nat) : Prop :=
  (segments c = [] /\ counts = [0]) \/
  (exists seg, segments c = [Some seg] /\ map chunk_count (chunk_data seg) = counts /\
               counts <> []).

Lemma Append_counts (c c' : ColumnDataCollection) (input : DataChunk)
    (counts : list nat) :
  counted c counts -> Append c input = Ok c' ->
  count c' = count c + chunk_size input /\
  exists seg', segments c' = [Some seg'] /\
               map chunk_count (chunk_data seg') = append_step counts (chunk_size input) /\
               append_step counts (chunk_size input) <> [].
Proof.
  intros Hc Hrun. unfold Append in Hrun.
  destruct (InitializeAppend c) as [c1|] eqn:Hinit; [|discriminate].
  cbn [mbind result_bind bind] in Hrun.
  destruct (InitializeAppend_counts _ _ Hinit) as (Hcnt & Hnew & Hold).
  assert (H1 : exists seg1, segments c1 = [Some seg1] /\
                            map chunk_count (chunk_data seg1) = counts /\ counts <> []).
  { destruct Hc as [(He & ->)|(seg & Hsegs & Hcounts & Hne)].
    - destruct (Hnew He) as (seg1 & H1 & H2). exists seg1.
      split; [exact H1|]. split; [exact H2|discriminate].
    - exists seg. split; [|split; [exact Hcounts|exact Hne]].
      apply Hold; [exact Hsegs|]. intros He. rewrite He in Hcounts. simpl in Hcounts.
      congruence. }
  destruct H1 as (seg1 & Hsegs1 & Hcounts1 & Hne).
  destruct (Append_state_counts _ _ _ _ Hsegs1 Hrun) as (Hcnt' & seg' & Hsegs' & Hcounts').
  split; [lia|]. exists seg'. split; [exact Hsegs'|]. rewrite Hcounts1 in Hcounts'.
  split; [exact Hcounts'|]. apply take_rows_nonempty. exact Hne.
Qed.

Lemma append_all_counts (inputs : list DataChunk) :
  forall c c' counts,
    counted c counts -> append_all c inputs = Ok c' ->
    count c' = count c + list_sum (map chunk_size inputs) /\
    counted c' (fold_left append_step (map chunk_size inputs) counts).
Proof.
  induction inputs as [|input rest IH]; intros c c' counts Hc Hrun; simpl in Hrun.
  - injection Hrun as <-. simpl. split; [lia|exact Hc].
  - destruct (Append c input) as [c1|] eqn:Happ; [|discriminate].
    cbn [mbind result_bind bind] in Hrun.
    destruct (Append_counts _ _ _ _ Hc Happ) as (Hcnt & seg1 & Hsegs & Hcounts & Hne).
    destruct (IH c1 c' (append_step counts (chunk_size input))) as (Hcnt' & Hc');
      [right; exists seg1; split; [exact Hsegs|split; [exact Hcounts|exact Hne]]
      |exact Hrun|].
    simpl. split; [lia|exact Hc'].
Qed.

(** C6. Chunk capacity invariant.  After any sequence of appends of
    well-formed batches to a new collection, every chunk holds at most
    [STANDARD_VECTOR_SIZE] rows, the chunk counts of each segment add up
    to the segment's count and the segment counts to the collection's
    count, which is the number of rows appended; [Verify] passes.  The
    chunks are filled by the append step of the specification: the
    collection has no segment when nothing was appended, and otherwise
    one segment, whose chunk row counts are those that [append_step]
    makes, batch after batch, of one empty chunk.  A single [Append] of
    a batch takes the chunk counts [counts] to
    [append_step counts (chunk_size input)] and adds the size of the
    batch to the collection's count. *)
Theorem chunk_capacity_after_appends (allocator_p : nat) (ts : list LogicalType)
    (inputs : list DataChunk) (c0 : ColumnDataCollection) :
  new_ColumnDataCollection allocator_p ts = Ok c0 ->
  Forall (input_ok ts) inputs ->
  exists c,
    append_all c0 inputs = Ok c /\
    chunk_capacity_invariant c /\
    Verify c = Ok tt /\
    count c = list_sum (map chunk_size inputs) /\
    chunk_counts c
    = match inputs with
      | [] => []
      | _ => [fold_left append_step (map chunk_size inputs) [0]]
      end /\
    forall input, input_ok ts input ->
      exists c',
        Append c input = Ok c' /\
        chunk_capacity_invariant c' /\
        count c' = count c + chunk_size input /\
        chunk_counts c'
        = [append_step (fold_left append_step (map chunk_size inputs) [0])
             (chunk_size input)].
Proof.
  intros Hnew Hin.
  destruct (new_collection_stores allocator_p ts c0 Hnew) as (fs & Hfs & Hst0).
  destruct (append_all_stores ts fs Hfs inputs c0 _ _ Hst0 Hin) as (c & Hrun & Hst).
  destruct (stores_scan ts fs c _ _ Hst) as (_ & _ & _ & _ & Hinv & Hver).
  assert (Hsegs0 : segments c0 = []).
  { unfold new_ColumnDataCollection in Hnew.
    destruct (get_copy_functions ts); [|discriminate]. injection Hnew as <-. reflexivity. }
  assert (Hc0 : counted c0 [0]) by (left; split; [exact Hsegs0|reflexivity]).
  destruct (append_all_counts inputs c0 c [0] Hc0 Hrun) as (Hcnt & Hcounted).
  pose proof Hcounted as Hcounted'.
  assert (Hzero : count c0 = 0) by (destruct Hst0 as (_ & _ & _ & H & _); exact H).
  exists c. split; [exact Hrun|]. split; [exact Hinv|]. split; [exact Hver|].
  split; [lia|]. split.
  - unfold chunk_counts. destruct Hcounted as [(Hs & Hk)|(seg & Hs & Hk & _)].
    + destruct inputs as [|input rest]; [rewrite Hs; reflexivity|].
      pose proof (append_all_segments _ _ _ Hrun ltac:(discriminate)) as Hlen.
      rewrite Hs in Hlen. simpl in Hlen. lia.
    + destruct inputs as [|input rest].
      * simpl in Hrun. injection Hrun as <-. rewrite Hsegs0 in Hs. discriminate.
      * rewrite Hs. simpl. rewrite Hk. reflexivity.
  - intros input Hinput.
    destruct (Append_spec ts fs c _ _ input Hfs Hst Hinput) as (c' & Happ & Hst').
    destruct (stores_scan ts fs c' _ _ Hst') as (_ & _ & _ & _ & Hinv' & _).
    destruct (Append_counts _ _ _ _ Hcounted' Happ) as (Hcnt' & seg' & Hsegs' & Hcounts' & _).
    exists c'. split; [exact Happ|]. split; [exact Hinv'|]. split; [exact Hcnt'|].
    unfold chunk_counts. rewrite Hsegs'. simpl. rewrite Hcounts'. reflexivity.
Qed.

(** X15. Appended rows fill the chunks in order.  After any non-empty
    sequence of well-formed batches was appended to a new collection, a
    scan returns every batch but the last with [STANDARD_VECTOR_SIZE]
    rows and the rest of the rows in the last one, however the rows
    were split over the appends; so it returns the row count divided by
    the capacity, rounded up, many batches, or one empty batch when no
    row was appended. *)
Theorem appended_rows_fill_chunks (allocator_p : nat) (ts : list LogicalType)
    (inputs : list DataChunk) (c0 : ColumnDataCollection) :
  new_ColumnDataCollection allocator_p ts = Ok c0 ->
  Forall (input_ok ts) inputs -> inputs <> [] ->
  exists c batches,
    append_all c0 inputs = Ok c /\
    Scan_all c = Ok batches /\
    length batches
      = Nat.max 1 ((Count c + STANDARD_VECTOR_SIZE - 1) / STANDARD_VECTOR_SIZE) /\
    (forall i b, batches !! i = Some b -> S i < length batches ->
                 batch_size b = STANDARD_VECTOR_SIZE) /\
    (forall b, last batches = Some b ->
               batch_size b = Count c - STANDARD_VECTOR_SIZE * (length batches - 1)).
Proof.
  intros Hnew Hin Hne.
  destruct (new_collection_stores _ _ _ Hnew) as (fs & Hfs & Hst0).
  destruct (append_all_stores ts fs Hfs inputs c0 _ _ Hst0 Hin) as (c & Hrun & Hst).
  assert (Hp0 : packed c0).
  { unfold new_ColumnDataCollection in Hnew.
    destruct (get_copy_functions ts); [|discriminate]. injection Hnew as <-. constructor. }
  pose proof (append_all_packs inputs c0 c Hp0 Hrun) as Hp.
  pose proof (append_all_segments inputs c0 c Hrun Hne) as Hlen.
  destruct (stores_scan _ _ _ _ _ Hst) as (Hscan & Hcount & _).
  destruct Hst as (_ & _ & _ & _ & [(Hnil & _)|(seg & oss & os & Hsegs & _ & Hrows & Htotal & _)]).
  { rewrite Hnil in Hlen. simpl in Hlen. lia. }
  unfold packed in Hp. rewrite Hsegs in Hp.
  apply Forall_cons in Hp
    as [(seg' & Heq & full & final & Hchunks & Hfull & Hcap & Hfinal) _].
  injection Heq as <-.
  exists c, (all_batches c). split; [exact Hrun|]. split; [exact Hscan|].
  assert (Hall : all_batches c = map (read_chunk seg) full ++ [read_chunk seg final]).
  { unfold all_batches. rewrite Hsegs. simpl. rewrite app_nil_r, Hchunks, map_app.
    reflexivity. }
  assert (Htot : Count c = STANDARD_VECTOR_SIZE * length full + chunk_count final).
  { unfold Count. rewrite Hcount, <- Htotal, <- Hrows. unfold chunk_rows.
    rewrite Hchunks, map_app, list_sum_app, (full_chunks_rows full Hfull). simpl. lia. }
  rewrite Hall, length_app, length_map. simpl.
  split; [|split].
  - rewrite Htot. set (n := length full) in *. set (f := chunk_count final) in *.
    assert (Hf : n <> 0 -> 0 < f).
    { intros Hn. destruct (Hfinal ltac:(intros ->; apply Hn; reflexivity)); lia. }
    destruct (Nat.eq_dec f 0) as [Hz|Hnz].
    + assert (n = 0) by (destruct (Nat.eq_dec n 0); [assumption|specialize (Hf ltac:(assumption)); lia]).
      rewrite H, Hz, Nat.mul_0_r. simpl.
      rewrite Nat.div_small by lia. reflexivity.
    + replace ((STANDARD_VECTOR_SIZE * n + f + STANDARD_VECTOR_SIZE - 1) / STANDARD_VECTOR_SIZE)
        with (n + 1); [lia|].
      apply (Nat.div_unique _ _ _ (f - 1)); lia.
  - intros i b Hb Hi.
    rewrite lookup_app_l in Hb by (rewrite length_map; lia).
    rewrite list_lookup_fmap in Hb.
    destruct (full !! i) as [chunk|] eqn:Hc; [|discriminate]. injection Hb as <-.
    simpl. exact (proj1 (Forall_lookup _ _) Hfull i chunk Hc).
  - intros b Hb. rewrite last_snoc in Hb. injection Hb as <-. simpl. rewrite Htot.
    replace (length full + 1 - 1) with (length full) by lia. lia.
Qed.

(** ** Appending, resetting and appending again *)

Lemma types_eqb_false (xs ys : list LogicalType) : xs <> ys -> types_eqb xs ys = false.
Proof.
  intros Hne. destruct (types_eqb xs ys) eqn:He; [|reflexivity].
  exfalso. apply Hne. apply types_eqb_eq. exact He.
Qed.

(** [InitializeAppend] returns whenever the collection is open for
    appends and its last segment pointer, if it has one, is not null;
    it changes neither the schema nor the row count. *)
Lemma InitializeAppend_returns (c : ColumnDataCollection) :
  finished_append c = false -> segments_live c ->
  exists c1, InitializeAppend c = Ok c1 /\
             finished_append c1 = false /\ types c1 = types c /\ count c1 = count c /\
             copy_functions c1 = copy_functions c /\ allocator c1 = allocator c.
Proof.
  intros Hopen Hlive. unfold InitializeAppend. rewrite Hopen. simpl negb.
  rewrite D_ASSERT_true. cbn [mbind result_bind bind].
  assert (Hback : exists segment,
            back_segment (if decide (segments c = []) then CreateSegment c else c)
            = Ok segment).
  { unfold back_segment. destruct (decide (segments c = [])) as [He|Hne].
    - simpl. rewrite He. simpl. eexists. reflexivity.
    - destruct (segments c) as [|s segs] eqn:Hs using rev_ind; [congruence|].
      rewrite last_snoc. unfold segments_live in Hlive. rewrite Hs in Hlive.
      apply Forall_app in Hlive as [_ Hlast]. apply Forall_cons in Hlast as [Hsome _].
      destruct s as [segment|]; [|congruence]. eexists. reflexivity. }
  destruct Hback as [segment ->]. cbn [mbind result_bind bind].
  eexists. split; [reflexivity|].
  destruct (decide (segments c = [])); simpl; repeat split; assumption || reflexivity.
Qed.

(** X16. In a build that compiles [D_ASSERT], appending a batch whose
    column types are not the collection's ends in a failed assertion
    (line 339), for every collection that is open for appends. *)
Theorem Append_rejects_other_types (c : ColumnDataCollection) (input : DataChunk) :
  debug = true -> finished_append c = false -> segments_live c ->
  types c <> GetTypes input ->
  Append c input = Fault AssertionFailed.
Proof.
  intros Hd Hopen Hlive Hne.
  destruct (InitializeAppend_returns c Hopen Hlive) as (c1 & Hinit & Hopen1 & Ht1 & _).
  unfold Append. rewrite Hinit. cbn [mbind result_bind bind].
  unfold Append_state. rewrite Hopen1. simpl negb.
  rewrite D_ASSERT_true. cbn [mbind result_bind bind].
  rewrite Ht1, (types_eqb_false _ _ Hne), D_ASSERT_false, Hd. reflexivity.
Qed.

Lemma Append_keeps_schema (c c' : ColumnDataCollection) (input : DataChunk) :
  Append c input = Ok c' ->
  types c' = types c /\ finished_append c' = finished_append c /\
  copy_functions c' = copy_functions c /\ allocator c' = allocator c.
Proof.
  intros Hrun. unfold Append, InitializeAppend in Hrun.
  destruct (D_ASSERT (negb (finished_append c))) as [[]|]; [|discriminate].
  cbn [mbind result_bind bind] in Hrun.
  destruct (back_segment _) as [segment|]; [|discriminate].
  cbn [mbind result_bind bind] in Hrun. unfold Append_state in Hrun.
  destruct (D_ASSERT (negb _)) as [[]|]; [|discriminate].
  cbn [mbind result_bind bind] in Hrun.
  destruct (D_ASSERT (types_eqb _ _)) as [[]|]; [|discriminate].
  cbn [mbind result_bind bind] in Hrun.
  destruct (back_segment _) as [segment'|]; [|discriminate].
  cbn [mbind result_bind bind] in Hrun.
  destruct (prepare_input _ _) as [vectors|]; [|discriminate].
  cbn [mbind result_bind bind] in Hrun.
  destruct (append_loop _ _ _ _ _ _ _) as [segment1|]; [|discriminate].
  cbn [mbind result_bind bind] in Hrun. injection Hrun as <-.
  destruct (decide (segments c = [])); simpl; repeat split; reflexivity.
Qed.

Lemma append_all_keeps_schema (inputs : list DataChunk) :
  forall c c', append_all c inputs = Ok c' ->
    types c' = types c /\ finished_append c' = finished_append c /\
    copy_functions c' = copy_functions c /\ allocator c' = allocator c.
Proof.
  induction inputs as [|input rest IH]; intros c c' Hrun; simpl in Hrun.
  - injection Hrun as <-. repeat split; reflexivity.
  - destruct (Append c input) as [c1|] eqn:Happ; [|discriminate].
    cbn [mbind result_bind bind] in Hrun.
    destruct (Append_keeps_schema _ _ _ Happ) as (H1 & H2 & H3 & H4).
    destruct (IH _ _ Hrun) as (G1 & G2 & G3 & G4).
    repeat split; congruence.
Qed.

(** X17. [Reset] takes a collection back to the state its constructor
    left it in: for a collection that was constructed and then appended
    to, [Reset] yields exactly the collection the constructor returned
    (no rows, no segments, the same schema, copy functions and
    allocator, and open for appends), so that everything done to it
    afterwards goes as on a new collection. *)
Theorem Reset_restores_new (allocator_p : nat) (ts : list LogicalType)
    (inputs : list DataChunk) (c0 c : ColumnDataCollection) :
  new_ColumnDataCollection allocator_p ts = Ok c0 ->
  append_all c0 inputs = Ok c ->
  Reset c = c0.
Proof.
  intros Hnew Hrun.
  destruct (append_all_keeps_schema _ _ _ Hrun) as (H1 & H2 & H3 & H4).
  unfold new_ColumnDataCollection in Hnew.
  destruct (get_copy_functions ts) as [fs|]; [|discriminate].
  injection Hnew as <-. simpl in *.
  unfold Reset, set_segments, set_count. simpl.
  rewrite H1, H2, H3, H4. reflexivity.
Qed.

(** X18. [Reset] does not reopen a collection: it leaves
    [finished_append] as it is, so after a collection was handed to the
    constructor of another one, appending to it still ends in a failed
    assertion (in a build that compiles [D_ASSERT]) when it is reset
    first. *)
Theorem Reset_does_not_reopen (other c other' : ColumnDataCollection)
    (input : DataChunk) :
  debug = true ->
  new_ColumnDataCollection_from other = Ok (c, other') ->
  finished_append (Reset other') = true /\
  Append (Reset other') input = Fault AssertionFailed.
Proof.
  intros Hd Hnew.
  destruct (new_ColumnDataCollection_from_finished _ _ _ Hnew) as (Hfin & _).
  assert (Hr : finished_append (Reset other') = true) by exact Hfin.
  split; [exact Hr|].
  unfold Append, InitializeAppend. rewrite Hr. simpl negb.
  rewrite D_ASSERT_false, Hd. reflexivity.
Qed.

(** ** The cursor of a scan *)

Lemma skip_exhausted_returns (c : ColumnDataCollection) :
  forall fuel state state1 found,
    skip_exhausted c fuel state = Ok (state1, found) ->
    current_row_index state1 = current_row_index state /\
    next_row_index state1 = next_row_index state /\
    (found = false -> length (segments c) <= segment_index state1).
Proof.
  induction fuel as [|fuel IH]; intros state state1 found Hrun; [discriminate|].
  simpl in Hrun. destruct (segment_at c (segment_index state)) as [segment|]; [|discriminate].
  cbn [mbind result_bind bind] in Hrun.
  destruct (decide (length (chunk_data segment) <= chunk_index state)).
  - destruct (decide (length (segments c) <= _)) as [Hend|Hmore].
    + injection Hrun as <- <-. simpl. repeat split. intros _. exact Hend.
    + apply IH in Hrun. simpl in Hrun. exact Hrun.
  - injection Hrun as <- <-. repeat split. discriminate.
Qed.

Lemma Scan_at_end (c : ColumnDataCollection) (state : ColumnDataScanState) :
  length (segments c) <= segment_index state ->
  current_row_index state = next_row_index state ->
  Scan c state = Ok (state, None).
Proof.
  intros Hend Hrow. unfold Scan, NextScanIndex. cbv zeta. cbn [segment_index].
  rewrite decide_True by exact Hend. cbn [mbind result_bind bind].
  destruct state as [ci si cur next]. simpl in *. subst cur. reflexivity.
Qed.

(** X19. The end of a scan is final.  Once [Scan] has returned false,
    it returns false on every later call with the same state and
    leaves the state as it is; and this stays so after rows are
    appended to the collection, if it had a segment: the scan never
    hands out the rows appended after it reported the end. *)
Theorem scan_end_is_final (c : ColumnDataCollection) (state state1 : ColumnDataScanState) :
  Scan c state = Ok (state1, None) ->
  Scan c state1 = Ok (state1, None) /\
  (forall input c', segments c <> [] -> Append c input = Ok c' ->
                    Scan c' state1 = Ok (state1, None)).
Proof.
  intros Hrun.
  assert (Hend : length (segments c) <= segment_index state1 /\
                 current_row_index state1 = next_row_index state1).
  { unfold Scan, NextScanIndex in Hrun. cbv zeta in Hrun.
    cbn [segment_index] in Hrun.
    destruct (decide (length (segments c) <= segment_index state)) as [He|Hm].
    - cbn [mbind result_bind bind] in Hrun. injection Hrun as <-. simpl.
      split; [exact He|reflexivity].
    - destruct (skip_exhausted _ _ _) as [[st found]|] eqn:Hskip; [|discriminate].
      cbn [mbind result_bind bind] in Hrun.
      destruct (skip_exhausted_returns _ _ _ _ _ Hskip) as (Hcur & Hnext & Hfound).
      simpl in Hcur, Hnext.
      destruct found.
      + destruct (segment_at c (segment_index st)) as [segment|]; [|discriminate].
        cbn [mbind result_bind bind] in Hrun.
        destruct (chunk_data segment !! chunk_index st) as [chunk|]; [|discriminate].
        cbn [defined mbind result_bind bind] in Hrun.
        destruct (segment_at c (segment_index st)) as [segment'|]; [|discriminate].
        cbn [mbind result_bind bind] in Hrun.
        destruct (ReadChunk segment' (chunk_index st)); discriminate.
      + cbn [mbind result_bind bind] in Hrun. injection Hrun as <-.
        split; [apply Hfound; reflexivity|congruence]. }
  destruct Hend as [Hend Hrow].
  split; [exact (Scan_at_end c state1 Hend Hrow)|].
  intros input c' Hne Happ. apply Scan_at_end; [|exact Hrow].
  rewrite (Append_segments _ _ _ Happ).
  destruct (segments c); [congruence|]. simpl in *. lia.
Qed.

(** X20. The row indices of a scan state.  When [Scan] returns a batch,
    [current_row_index] is the index the first row of the batch has
    among the rows of the scan, which is what [next_row_index] was
    before the call, and [next_row_index] has advanced by the number of
    rows of the batch. *)
Theorem Scan_row_indices (c : ColumnDataCollection) (state state1 : ColumnDataScanState)
    (batch : Batch) :
  Scan c state = Ok (state1, Some batch) ->
  current_row_index state1 = next_row_index state /\
  next_row_index state1 = next_row_index state + batch_size batch.
Proof.
  intros Hrun. unfold Scan, NextScanIndex in Hrun. cbv zeta in Hrun.
  cbn [segment_index] in Hrun.
  destruct (decide (length (segments c) <= segment_index state)) as [He|Hm].
  { cbn [mbind result_bind bind] in Hrun. discriminate. }
  destruct (skip_exhausted _ _ _) as [[st found]|] eqn:Hskip; [|discriminate].
  cbn [mbind result_bind bind] in Hrun.
  destruct (skip_exhausted_returns _ _ _ _ _ Hskip) as (Hcur & Hnext & _).
  simpl in Hcur, Hnext.
  destruct found; [|cbn [mbind result_bind bind] in Hrun; discriminate].
  destruct (segment_at c (segment_index st)) as [segment|] eqn:Hseg; [|discriminate].
  cbn [mbind result_bind bind] in Hrun.
  destruct (chunk_data segment !! chunk_index st) as [chunk|] eqn:Hchunk; [|discriminate].
  cbn [defined mbind result_bind bind] in Hrun. rewrite Hseg in Hrun.
  cbn [mbind result_bind bind] in Hrun.
  unfold ReadChunk in Hrun. rewrite Hchunk in Hrun.
  cbn [defined mbind option_bind result_bind bind] in Hrun.
  injection Hrun as <- <-. simpl. split; congruence.
Qed.

(** ** Combine and Verify *)

Lemma verify_segments_total (segs : list (option Segment)) :
  forall total,
    verify_segments segs total
    = match verify_segments segs 0 with
      | Ok n => Ok (total + n)
      | Fault e => Fault e
      end.
Proof.
  induction segs as [|s rest IH]; intros total; simpl.
  - rewrite Nat.add_0_r. reflexivity.
  - destruct s as [segment|]; [|reflexivity]. cbn [defined mbind result_bind bind].
    destruct (Segment_Verify segment) as [[]|]; [|reflexivity].
    cbn [mbind result_bind bind].
    rewrite (IH (total + segment_count segment)), (IH (segment_count segment)).
    destruct (verify_segments rest 0); [|reflexivity]. f_equal. lia.
Qed.

Lemma verify_segments_app (xs ys : list (option Segment)) (n m : nat) :
  verify_segments xs 0 = Ok n -> verify_segments ys 0 = Ok m ->
  verify_segments (xs ++ ys) 0 = Ok (n + m).
Proof.
  revert n. induction xs as [|s rest IH]; intros n Hx Hy; simpl in *.
  - injection Hx as <-. exact Hy.
  - destruct s as [segment|]; [|discriminate]. cbn [defined mbind result_bind bind] in *.
    destruct (Segment_Verify segment) as [[]|]; [|discriminate].
    cbn [mbind result_bind bind] in *.
    rewrite verify_segments_total in Hx. rewrite verify_segments_total.
    destruct (verify_segments rest 0) as [k|]; [|discriminate]. injection Hx as <-.
    rewrite (IH k eq_refl Hy). f_equal. lia.
Qed.

(** X21. [Combine] of two collections of one schema that pass [Verify]
    returns, and the combined collection passes [Verify] again, with
    the sum of the row counts.  The other collection does not: in a
    build that compiles the checks its segment pointers, now null, are
    dereferenced by its [Verify], if it had any segment. *)
Theorem Combine_keeps_verified (this other : ColumnDataCollection) :
  types this = types other -> Verify this = Ok tt -> Verify other = Ok tt ->
  exists this' other',
    Combine this other = Ok (this', other') /\
    Verify this' = Ok tt /\
    Count this' = Count this + Count other /\
    (debug = true -> segments other <> [] -> Verify other' = Fault UndefinedBehaviour).
Proof.
  intros Ht Hv1 Hv2. unfold Combine. rewrite Ht, types_eqb_refl. simpl negb. cbv iota zeta.
  set (this1 := set_segments _ _).
  assert (Hv : Verify this1 = Ok tt).
  { unfold Verify, D_ASSERT in *. destruct debug; [|reflexivity].
    destruct (verify_segments (segments this) 0) as [n|] eqn:Hn; [|discriminate].
    destruct (verify_segments (segments other) 0) as [m|] eqn:Hm; [|discriminate].
    cbn [mbind result_bind bind] in *.
    unfold this1. cbn [segments set_segments count set_count].
    rewrite (verify_segments_app _ _ n m Hn Hm). cbn [mbind result_bind bind].
    cbn [andb] in *.
    destruct (n =? count this) eqn:E1; [|discriminate Hv1].
    destruct (m =? count other) eqn:E2; [|discriminate Hv2].
    apply Nat.eqb_eq in E1, E2. subst.
    rewrite Nat.eqb_refl. reflexivity. }
  rewrite Hv. cbn [mbind result_bind bind].
  eexists _, _. split; [reflexivity|]. split; [exact Hv|]. split; [reflexivity|].
  intros Hd Hne. unfold Verify at 1. rewrite Hd. cbn [segments set_segments].
  destruct (segments other) as [|s rest]; [congruence|]. reflexivity.
Qed.

(** ** Strings and NULLs in the templated copy *)

(** What [StringValueCopy] stores for an input string: the string
    itself when it is inlined, and else a pointer to a blob of the heap
    that holds its characters; never a pointer into the input. *)
Definition owned_string (h : list string) (d x : Datum) : Prop :=
  match d with
  | DString s =>
      exists s', x = DString s' /\ GetString h s' = input_string s /\
        match s' with
        | Inlined _ => s' = s
        | Pointer (InHeap blob) => IsInlined s = false /\ blob < length h
        | Pointer (InInput _) => False
        end
  | _ => True
  end.

Lemma StringValueCopy_owned : operation_sound StringValueCopy owned_string.
Proof.
  split.
  - intros h d x h' H. unfold StringValueCopy in H.
    destruct d as [z|s|o l];
      try (injection H as <- <-; split; [exists []; rewrite app_nil_r; reflexivity|exact I]).
    destruct s as [str|a]; simpl in H; injection H as <- <-.
    + split; [exists []; rewrite app_nil_r; reflexivity|].
      exists (Inlined str). repeat split.
    + split; [eexists; reflexivity|].
      exists (Pointer (InHeap (length h))). split; [reflexivity|]. split.
      * simpl. rewrite list_lookup_middle by reflexivity. reflexivity.
      * split; [reflexivity|]. rewrite length_app. simpl. lia.
  - intros h k d x H. destruct d as [z|s|o l]; try exact I.
    destruct H as (s' & -> & Hget & Hs'). exists s'. split; [reflexivity|].
    destruct s' as [str|[a|blob]]; try contradiction.
    + split; assumption.
    + destruct Hs' as [Hin Hlt]. split.
      * simpl in *. rewrite lookup_app_l by exact Hlt. exact Hget.
      * split; [exact Hin|]. rewrite length_app. lia.
Qed.

(** X22. The string copy ([ColumnDataCopy<string_t>], the templated
    copy at [StringValueCopy]) leaves the segment with strings of its
    own.  For a target vector with room for the rows, the copy returns,
    and every valid string it stores reads, through the segment's heap,
    as the characters of the input string; it is stored as it is when
    it is inlined, and as a pointer to a blob of the segment's heap
    otherwise, never as a pointer into the memory of the input. *)
Theorem copied_strings_are_owned (seg : Segment) (index : nat) (vd : VectorMetaData)
    (source_data : VectorData) (source_offset copy_count : nat) :
  vector_data seg !! index = Some vd ->
  length (bits vd) = STANDARD_VECTOR_SIZE ->
  length (values vd) = STANDARD_VECTOR_SIZE ->
  vcount vd + copy_count <= STANDARD_VECTOR_SIZE ->
  tail_valid (vcount vd) (bits vd) ->
  exists seg' vd',
    TemplatedColumnDataCopy StringValueCopy seg index source_data source_offset copy_count
      = Some seg' /\
    vector_data seg' !! index = Some vd' /\
    vcount vd' = vcount vd + copy_count /\
    forall i s,
      i < copy_count -> source_valid source_data (source_offset + i) = true ->
      vd_data source_data (get_index source_data (source_offset + i)) = DString s ->
      exists s',
        values vd' !! (vcount vd + i) = Some (DString s') /\
        GetString (heap seg') s' = input_string s /\
        match s' with
        | Inlined _ => s' = s
        | Pointer (InHeap blob) => IsInlined s = false /\ blob < length (heap seg')
        | Pointer (InInput _) => False
        end.
Proof.
  intros Hvd Hb Hv Hfit Ht.
  destruct (TemplatedColumnDataCopy_spec StringValueCopy owned_string seg index vd
              source_data source_offset copy_count StringValueCopy_owned Hvd Hb Hv Hfit Ht)
    as (slots & mask & h & Hrun & _ & _ & _ & _ & _ & _ & Hnew).
  eexists _, _. split; [exact Hrun|]. split.
  - simpl. apply list_lookup_insert_eq. eapply lookup_lt_Some. exact Hvd.
  - split; [reflexivity|]. intros i s Hi Hvalid Hs.
    destruct (Hnew i Hi Hvalid) as (x & Hx & Hown). rewrite Hs in Hown.
    destruct Hown as (s' & -> & Hget & Hs'). exists s'. simpl.
    split; [exact Hx|]. split; assumption.
Qed.

Lemma copy_values_skips_nulls (OP : value_operation) (source_data : VectorData)
    (source_offset count copy_count : nat) (slots slots' : list Datum)
    (h h' : list string) :
  copy_values OP source_data source_offset count copy_count slots h = Some (slots', h') ->
  length slots' = length slots /\
  (forall i, i < copy_count -> source_valid source_data (source_offset + i) = false ->
             slots' !! (count + i) = slots !! (count + i)) /\
  (forall r, count + copy_count <= r -> slots' !! r = slots !! r) /\
  ((forall i, i < copy_count -> source_valid source_data (source_offset + i) = false) ->
   h' = h).
Proof.
  intros Hrun. unfold copy_values in Hrun.
  apply (for_range_returns
           (fun k st =>
              length st.1 = length slots /\
              (forall i, k <= i \/ source_valid source_data (source_offset + i) = false ->
                         st.1 !! (count + i) = slots !! (count + i)) /\
              ((forall i, i < k -> source_valid source_data (source_offset + i) = false) ->
               st.2 = h))) in Hrun.
  - destruct Hrun as (Hlen & Hkeep & Hheap). split; [exact Hlen|].
    split; [intros i _ Hi; apply Hkeep; right; exact Hi|].
    split; [|exact Hheap].
    intros r Hr. replace r with (count + (r - count)) by lia. apply Hkeep. left. lia.
  - split; [reflexivity|]. split; [reflexivity|]. intros _. reflexivity.
  - intros k [sl hp] st' Hk (Hlen & Hkeep & Hheap) Hb. simpl in Hlen, Hkeep, Hheap.
    fold (source_valid source_data (source_offset + k)) in Hb.
    destruct (source_valid source_data (source_offset + k)) eqn:Hvalid.
    + destruct (OP hp _) as [x hp'].
      unfold store_value in Hb. case_decide; [|discriminate].
      simpl in Hb. injection Hb as <-. simpl.
      split; [rewrite length_insert; exact Hlen|]. split.
      * intros i Hi. rewrite list_lookup_insert_ne.
        -- apply Hkeep. destruct Hi as [Hi|Hi]; [left; lia|right; exact Hi].
        -- intros He. assert (i = k) by lia. subst i.
           destruct Hi as [Hi|Hi]; [lia|congruence].
      * intros Hall. specialize (Hall k ltac:(lia)). congruence.
    + injection Hb as <-. simpl. split; [exact Hlen|]. split.
      * intros i Hi. apply Hkeep. destruct Hi as [Hi|Hi]; [|right; exact Hi].
        destruct (decide (i = k)) as [->|]; [right; exact Hvalid|left; lia].
      * intros Hall. apply Hheap. intros i Hi. apply Hall. lia.
Qed.

(** X23. The templated copy never writes the value of a NULL row.
    Whenever it returns, the target vector counts the copied rows, NULL
    or not, but the value slot of every row whose source row is NULL
    holds what it held before the copy, as do the slots past the copied
    rows; and a copy of NULL rows alone leaves the heap as it is. *)
Theorem templated_copy_skips_nulls (OP : value_operation) (seg seg' : Segment)
    (index : nat) (vd : VectorMetaData) (source_data : VectorData)
    (source_offset copy_count : nat) :
  vector_data seg !! index = Some vd ->
  TemplatedColumnDataCopy OP seg index source_data source_offset copy_count = Some seg' ->
  exists vd',
    vector_data seg' !! index = Some vd' /\
    vcount vd' = vcount vd + copy_count /\
    length (values vd') = length (values vd) /\
    (forall i, i < copy_count ->
       source_valid source_data (source_offset + i) = false ->
       values vd' !! (vcount vd + i) = values vd !! (vcount vd + i)) /\
    (forall r, vcount vd + copy_count <= r -> values vd' !! r = values vd !! r) /\
    ((forall i, i < copy_count ->
        source_valid source_data (source_offset + i) = false) ->
     heap seg' = heap seg).
Proof.
  intros Hvd Hrun. unfold TemplatedColumnDataCopy, GetVectorData in Hrun.
  rewrite Hvd in Hrun. cbn [mbind option_bind] in Hrun.
  destruct (ColumnDataCopyValidity _ _ _ _ _) as [mask|]; [|discriminate].
  cbn [mbind option_bind] in Hrun.
  destruct (copy_values _ _ _ _ _ _ _) as [[slots h]|] eqn:Hvals; [|discriminate].
  cbn [mbind option_bind] in Hrun.
  destruct (copy_values_skips_nulls _ _ _ _ _ _ _ _ _ Hvals) as (Hlen & Hnull & Hpast & Hheap).
  unfold put_vector in Hrun. case_decide as Hlt; [|discriminate]. injection Hrun as <-.
  eexists. split; [simpl; apply list_lookup_insert_eq; exact Hlt|].
  simpl. repeat split; assumption.
Qed.

(** ** Preparing an append twice; constructing from a collection *)

(** X24. [InitializeAppend] prepares once.  A call that returns leaves
    a collection on which a second call changes nothing: no second
    segment or chunk is made; and the call adds no row and keeps the
    schema. *)
Theorem InitializeAppend_prepares_once (c c1 : ColumnDataCollection) :
  InitializeAppend c = Ok c1 ->
  InitializeAppend c1 = Ok c1 /\ Count c1 = Count c /\ types c1 = types c /\
  exists segs segment,
    segments c1 = segs ++ [Some segment] /\ chunk_data segment <> [].
Proof.
  intros Hrun. unfold InitializeAppend in Hrun.
  destruct (D_ASSERT (negb (finished_append c))) as [[]|] eqn:Hassert; [|discriminate].
  cbn [mbind result_bind bind] in Hrun.
  set (c0 := if decide (segments c = []) then CreateSegment c else c) in *.
  destruct (back_segment c0) as [segment|] eqn:Hback; [|discriminate].
  cbn [mbind result_bind bind] in Hrun.
  set (segment1 := if decide (chunk_data segment = []) then AllocateNewChunk segment
                   else segment) in *.
  injection Hrun as <-.
  destruct (back_segment_returns _ _ Hback) as [segs Hsegs].
  pose proof (set_back_segment_snoc c0 segs _ segment1 Hsegs) as Hsegs1.
  assert (Hfields : finished_append c0 = finished_append c /\ count c0 = count c /\
                    types c0 = types c).
  { unfold c0. destruct (decide (segments c = [])); repeat split; reflexivity. }
  destruct Hfields as (Hf0 & Hc0 & Ht0).
  assert (Hchunks : chunk_data segment1 <> []).
  { unfold segment1. destruct (decide (chunk_data segment = [])) as [He|Hne]; [|exact Hne].
    destruct (AllocateNewChunk_chunks segment) as [roots ->].
    destruct (chunk_data segment); discriminate. }
  split; [|split; [exact Hc0|split; [exact Ht0|exists segs, segment1; split; assumption]]].
  unfold InitializeAppend.
  change (finished_append (set_back_segment c0 segment1)) with (finished_append c0).
  rewrite Hf0, Hassert. cbn [mbind result_bind bind].
  rewrite decide_False by (rewrite Hsegs1; destruct segs; discriminate).
  unfold back_segment. rewrite Hsegs1, last_snoc. cbn [mjoin option_join defined mbind result_bind bind].
  rewrite decide_False by exact Hchunks.
  f_equal. unfold set_back_segment at 1. unfold set_segments.
  rewrite Hsegs1, length_app. simpl length.
  replace (pred (length segs + 1)) with (length segs + 0) by lia.
  rewrite insert_app_r. simpl.
  unfold set_back_segment, set_segments in *. simpl in *. rewrite Hsegs1. reflexivity.
Qed.

Lemma skip_exhausted_segments (c c' : ColumnDataCollection) :
  segments c = segments c' ->
  forall fuel state, skip_exhausted c fuel state = skip_exhausted c' fuel state.
Proof.
  intros He. induction fuel as [|fuel IH]; intros state; [reflexivity|].
  simpl. unfold segment_at. rewrite <- He.
  destruct (defined _) as [segment|]; [|reflexivity]. cbn [mbind result_bind bind].
  destruct (decide _); [|reflexivity]. destruct (decide _); [reflexivity|apply IH].
Qed.

Lemma Scan_segments (c c' : ColumnDataCollection) (state : ColumnDataScanState) :
  segments c = segments c' -> Scan c state = Scan c' state.
Proof.
  intros He. unfold Scan, NextScanIndex, segment_at.
  rewrite (skip_exhausted_segments c c' He), <- He. reflexivity.
Qed.

Lemma Scan_all_segments (c c' : ColumnDataCollection) :
  segments c = segments c' -> Scan_all c = Scan_all c'.
Proof.
  intros He. unfold Scan_all, n_chunks. rewrite <- He.
  generalize (S (list_sum (map (fun s => match s with
                                         | Some seg => length (chunk_data seg)
                                         | None => 0
                                         end) (segments c)))).
  intros fuel. generalize InitializeScan.
  induction fuel as [|fuel IH]; intros state; [reflexivity|].
  simpl. rewrite (Scan_segments c c' state He).
  destruct (Scan c' state) as [[state1 [batch|]]|]; try reflexivity.
  cbn [mbind result_bind bind]. rewrite IH. reflexivity.
Qed.

(** X25. The constructor that takes a collection yields an empty
    collection, not a copy: it returns whenever the source's schema has
    copy functions; the new collection has the source's schema and
    allocator and no rows, so a scan of it hands out nothing; the
    source keeps its rows, a scan of it hands out what it handed out
    before, and it is marked as finished. *)
Theorem constructor_from_takes_no_rows (other : ColumnDataCollection)
    (fs : list ColumnDataCopyFunction) :
  get_copy_functions (types other) = Ok fs ->
  exists c other',
    new_ColumnDataCollection_from other = Ok (c, other') /\
    types c = types other /\ allocator c = allocator other /\
    Count c = 0 /\ Scan_all c = Ok [] /\ finished_append c = false /\
    Count other' = Count other /\ Scan_all other' = Scan_all other /\
    finished_append other' = true.
Proof.
  clear STANDARD_VECTOR_SIZE_pos.
  intros Hfs. unfold new_ColumnDataCollection_from, new_ColumnDataCollection.
  rewrite Hfs. cbn [mbind result_bind bind].
  eexists _, _. split; [reflexivity|].
  repeat split. apply Scan_all_segments. reflexivity.
Qed.

(** ** What an append never does *)

(** [adds seg seg']: the segment [seg'] is [seg] after rows were
    appended: every chunk of [seg] is still there with its column
    vectors and at least the rows it had, every vector of the pool is
    still there and has only grown, and the heap has only gained
    blobs. *)
Definition adds (seg seg' : Segment) : Prop :=
  segment_types seg' = segment_types seg /\
  segment_count seg' = segment_count seg /\
  (exists k, heap seg' = heap seg ++ k) /\
  (forall i vd, vector_data seg !! i = Some vd ->
     exists vd', vector_data seg' !! i = Some vd' /\ vector_grows vd vd') /\
  (forall i chunk, chunk_data seg !! i = Some chunk ->
     exists chunk', chunk_data seg' !! i = Some chunk' /\
       chunk_vector_data chunk' = chunk_vector_data chunk /\
       chunk_count chunk <= chunk_count chunk').

Lemma adds_refl (seg : Segment) : adds seg seg.
Proof.
  split; [reflexivity|]. split; [reflexivity|].
  split; [exists []; rewrite app_nil_r; reflexivity|]. split.
  - intros i vd H. exists vd. split; [exact H|apply vector_grows_refl].
  - intros i chunk H. exists chunk. split; [exact H|]. split; [reflexivity|lia].
Qed.

Lemma adds_trans (a b c : Segment) : adds a b -> adds b c -> adds a c.
Proof.
  intros (Ht1 & Hn1 & [h1 Hh1] & Hv1 & Hc1) (Ht2 & Hn2 & [h2 Hh2] & Hv2 & Hc2).
  split; [congruence|]. split; [congruence|].
  split; [exists (h1 ++ h2); rewrite Hh2, Hh1, app_assoc; reflexivity|]. split.
  - intros i vd Hi. destruct (Hv1 i vd Hi) as (vd1 & Hi1 & Hg1).
    destruct (Hv2 i vd1 Hi1) as (vd2 & Hi2 & Hg2).
    exists vd2. split; [exact Hi2|exact (vector_grows_trans _ _ _ Hg1 Hg2)].
  - intros i chunk Hi. destruct (Hc1 i chunk Hi) as (chunk1 & Hi1 & Hr1 & Hn1').
    destruct (Hc2 i chunk1 Hi1) as (chunk2 & Hi2 & Hr2 & Hn2').
    exists chunk2. split; [exact Hi2|]. split; [congruence|lia].
Qed.

Lemma grows_adds (seg seg' : Segment) : grows seg seg' -> adds seg seg'.
Proof.
  intros (Hk & Hn & Ht & Hh & _ & _ & Hv).
  split; [exact Ht|]. split; [exact Hn|]. split; [exact Hh|]. split; [exact Hv|].
  intros i chunk Hi. exists chunk. rewrite Hk. split; [exact Hi|]. split; [reflexivity|lia].
Qed.

Lemma AllocateNewChunk_adds (seg : Segment) : adds seg (AllocateNewChunk seg).
Proof.
  unfold AllocateNewChunk. rewrite allocate_columns_eq.
  split; [reflexivity|]. split; [reflexivity|].
  split; [exists []; rewrite app_nil_r; reflexivity|]. split.
  - intros i vd Hi. exists vd. split; [|apply vector_grows_refl].
    simpl. apply lookup_prefix. exact Hi.
  - intros i chunk Hi. exists chunk. split; [|split; [reflexivity|lia]].
    simpl. apply lookup_prefix. exact Hi.
Qed.

Lemma append_loop_adds (fs : list ColumnDataCopyFunction) (n_types : nat)
    (vectors : list Vector) (input_size : nat) :
  forall fuel segment remaining segment',
    append_loop fs n_types vectors input_size fuel segment remaining = Ok segment' ->
    adds segment segment'.
Proof.
  induction fuel as [|fuel IH]; intros segment remaining segment' Hrun.
  - simpl in Hrun. destruct (decide (remaining = 0)); [|discriminate].
    injection Hrun as <-. apply adds_refl.
  - destruct (decide (remaining = 0)) as [->|Hne].
    { rewrite append_loop_0 in Hrun. injection Hrun as <-. apply adds_refl. }
    rewrite append_loop_S in Hrun by exact Hne.
    destruct (last (chunk_data segment)) as [chunk|] eqn:Hlast; [|discriminate].
    cbn [defined mbind result_bind bind] in Hrun. cbv zeta in Hrun.
    set (a := Nat.min remaining (STANDARD_VECTOR_SIZE - chunk_count chunk)) in *.
    assert (Hstep : forall segment1,
      (if decide (0 < a)
       then seg' ← defined (for_range 0 n_types
                              (copy_column fs chunk vectors (input_size - remaining) a)
                              segment);
            Ok (set_chunk_data seg'
                  (<[pred (length (chunk_data seg')) :=
                       mkChunkMetaData (chunk_vector_data chunk) (chunk_count chunk + a)]>
                     (chunk_data seg')))
       else Ok segment) = Ok segment1 -> adds segment segment1).
    { intros segment1 H1. destruct (decide (0 < a)); [|injection H1 as <-; apply adds_refl].
      destruct (for_range 0 n_types _ segment) as [seg'|] eqn:Hcols; [|discriminate].
      cbn [defined mbind result_bind bind] in H1. injection H1 as <-.
      pose proof (copy_columns_grow _ _ _ _ _ _ _ _ Hcols) as Hg.
      apply (adds_trans _ seg'); [exact (grows_adds _ _ Hg)|].
      destruct Hg as (Hk & _).
      apply last_Some in Hlast as [chunks Hchunks].
      split; [reflexivity|]. split; [reflexivity|].
      split; [exists []; rewrite app_nil_r; reflexivity|]. split.
      - intros i vd Hi. exists vd. split; [exact Hi|apply vector_grows_refl].
      - intros i chunk0 Hi. simpl. rewrite Hk, Hchunks in *. rewrite length_app. simpl.
        replace (pred (length chunks + 1)) with (length chunks + 0) by lia.
        rewrite insert_app_r. simpl.
        destruct (decide (i < length chunks)) as [Hlt|Hge].
        + rewrite lookup_app_l in Hi by exact Hlt. rewrite lookup_app_l by exact Hlt.
          exists chunk0. split; [exact Hi|]. split; [reflexivity|lia].
        + rewrite lookup_app_r in Hi by lia. rewrite lookup_app_r by lia.
          destruct (i - length chunks) as [|j]; [|discriminate].
          injection Hi as <-. eexists. split; [reflexivity|]. simpl. split; [reflexivity|lia]. }
    destruct (if decide (0 < a) then _ else _) as [segment1|]; [|discriminate].
    specialize (Hstep segment1 eq_refl). cbn [mbind result_bind bind] in Hrun.
    destruct (decide (0 < remaining - a)).
    + apply (adds_trans _ segment1); [exact Hstep|].
      apply (adds_trans _ (AllocateNewChunk segment1)); [apply AllocateNewChunk_adds|].
      exact (IH _ _ _ Hrun).
    + injection Hrun as <-. exact Hstep.
Qed.

(** X27. An append only adds.  Whenever [Append] returns, the row
    count has grown by the size of the batch, every segment but the
    last is untouched, and in the last one (the one the rows went to)
    every chunk that existed is still there with its column vectors and
    at least the rows it had, every vector is still there with the rows
    it had, each with its value and validity bit, and the heap has
    only gained blobs; a collection without segments gets its first
    one. *)
Theorem Append_only_adds (c c' : ColumnDataCollection) (input : DataChunk) :
  Append c input = Ok c' ->
  Count c' = Count c + chunk_size input /\
  exists segs segment',
    segments c' = segs ++ [Some segment'] /\
    ((segments c = [] /\ segs = []) \/
     exists segment,
       segments c = segs ++ [Some segment] /\
       segment_types segment' = segment_types segment /\
       segment_count segment' = segment_count segment + chunk_size input /\
       (exists k, heap segment' = heap segment ++ k) /\
       (forall i vd, vector_data segment !! i = Some vd ->
          exists vd', vector_data segment' !! i = Some vd' /\
            vcount vd <= vcount vd' /\
            forall r, r < vcount vd ->
              values vd' !! r = values vd !! r /\ bits vd' !! r = bits vd !! r) /\
       (forall i chunk, chunk_data segment !! i = Some chunk ->
          exists chunk', chunk_data segment' !! i = Some chunk' /\
            chunk_vector_data chunk' = chunk_vector_data chunk /\
            chunk_count chunk <= chunk_count chunk')).
Proof.
  intros Hrun. unfold Append in Hrun.
  destruct (InitializeAppend c) as [c1|] eqn:Hinit; [|discriminate].
  cbn [mbind result_bind bind] in Hrun.
  (* what InitializeAppend leaves *)
  assert (H1 : count c1 = count c /\
               exists segs segment1,
                 segments c1 = segs ++ [Some segment1] /\
                 ((segments c = [] /\ segs = []) \/
                  exists segment, segments c = segs ++ [Some segment] /\
                                  adds segment segment1)).
  { unfold InitializeAppend in Hinit.
    destruct (D_ASSERT (negb (finished_append c))) as [[]|]; [|discriminate].
    cbn [mbind result_bind bind] in Hinit.
    set (c0 := if decide (segments c = []) then CreateSegment c else c) in *.
    destruct (back_segment c0) as [segment|] eqn:Hback; [|discriminate].
    cbn [mbind result_bind bind] in Hinit. injection Hinit as <-.
    destruct (back_segment_returns _ _ Hback) as [segs Hsegs].
    split; [unfold c0; destruct (decide (segments c = [])); reflexivity|].
    exists segs. eexists. split; [exact (set_back_segment_snoc c0 segs _ _ Hsegs)|].
    unfold c0 in Hsegs. destruct (decide (segments c = [])) as [He|Hne].
    - left. split; [exact He|]. simpl in Hsegs. rewrite He in Hsegs. simpl in Hsegs.
      destruct segs as [|x segs']; [reflexivity|].
      exfalso. injection Hsegs as _ Hs. destruct segs'; discriminate Hs.
    - right. exists segment. split; [exact Hsegs|].
      destruct (decide (chunk_data segment = []));
        [apply AllocateNewChunk_adds|apply adds_refl]. }
  destruct H1 as (Hcount1 & segs & segment1 & Hsegs1 & Hcase).
  unfold Append_state in Hrun.
  destruct (D_ASSERT (negb (finished_append c1))) as [[]|]; [|discriminate].
  cbn [mbind result_bind bind] in Hrun.
  destruct (D_ASSERT (types_eqb _ _)) as [[]|]; [|discriminate].
  cbn [mbind result_bind bind] in Hrun.
  unfold back_segment in Hrun. rewrite Hsegs1, last_snoc in Hrun.
  cbn [mjoin option_join defined mbind result_bind bind] in Hrun.
  destruct (prepare_input _ _) as [vectors|]; [|discriminate].
  cbn [mbind result_bind bind] in Hrun.
  destruct (append_loop _ _ _ _ _ _ _) as [segment2|] eqn:Hloop; [|discriminate].
  cbn [mbind result_bind bind] in Hrun. injection Hrun as <-.
  apply append_loop_adds in Hloop.
  split; [unfold Count; simpl; rewrite Hcount1; reflexivity|].
  exists segs. eexists. split.
  { cbn [segments set_count]. exact (set_back_segment_snoc c1 segs _ _ Hsegs1). }
  destruct Hcase as [Hempty|(segment & Hsegs & Hadds)]; [left; exact Hempty|].
  right. exists segment. split; [exact Hsegs|].
  destruct (adds_trans _ _ _ Hadds Hloop) as (Ht & Hn & Hh & Hv & Hc).
  split; [exact Ht|]. split; [simpl; rewrite Hn; reflexivity|].
  split; [exact Hh|]. split; [|exact Hc].
  intros i vd Hi. destruct (Hv i vd Hi) as (vd' & Hi' & Hcnt & Hrows & _).
  exists vd'. split; [exact Hi'|]. split; [exact Hcnt|exact Hrows].
Qed.

(** ** Struct vectors *)

Lemma repr_vector (t : LogicalType) (seg : Segment) (index : nat) (fp : list nat)
    (vals : list Value) :
  repr t seg index fp vals ->
  exists vd, vector_data seg !! index = Some vd /\ vcount vd = length vals.
Proof.
  destruct t as [physical children]. simpl.
  intros (vd & Hvd & _ & _ & _ & Hl & _). exists vd. split; [exact Hvd|congruence].
Qed.

Lemma kids_of_lookup (children : list LogicalType) (seg : Segment) (base : nat) :
  forall first kids,
    kids_of (map (fun t => repr t seg) children) seg base first kids ->
    forall k, k < length children ->
      exists kid, kids !! k = Some kid /\
        child_indices seg !! (base + (first + k)) = Some (Some (o_index kid)) /\
        exists cvd, vector_data seg !! o_index kid = Some cvd /\
                    vcount cvd = length (o_vals kid).
Proof.
  induction children as [|t ts IH]; intros first kids Hk k Hlt; [simpl in Hlt; lia|].
  destruct kids as [|kid kids']; [contradiction|]. simpl in Hk.
  destruct Hk as (Hci & Hrep & Hrest).
  destruct k as [|k'].
  - exists kid. split; [reflexivity|]. rewrite Nat.add_0_r. split; [exact Hci|].
    exact (repr_vector _ _ _ _ _ Hrep).
  - destruct (IH (S first) kids' Hrest k') as (kid' & Hl & Hc & Hv); [simpl in Hlt; lia|].
    exists kid'. split; [exact Hl|]. split; [|exact Hv].
    replace (first + S k') with (S first + k') by lia. exact Hc.
Qed.

(** X28. The children of a struct vector keep step with it.  After a
    struct copy of at least one row into a well-formed struct vector,
    the vector has a child index, and the child vector of every field
    holds exactly as many rows as the struct vector itself: a row is
    added to every child for every row of the struct, also for the rows
    where the struct is NULL. *)
Theorem struct_children_keep_step (children : list LogicalType)
    (f : ColumnDataCopyFunction) (seg : Segment) (index : nat) (fp : list nat)
    (vals : list Value) (source : Vector) (offset n : nat) :
  GetCopyFunction (mkLogicalType STRUCT children) = Ok f ->
  repr (mkLogicalType STRUCT children) seg index fp vals ->
  vector_ok (mkLogicalType STRUCT children) (fun r => offset <= r < offset + n) source ->
  struct_flat (mkLogicalType STRUCT children) source ->
  length vals + n <= STANDARD_VECTOR_SIZE -> 0 < n ->
  exists seg' vd' base,
    call f seg index (Orrify source) source offset n = Some seg' /\
    vector_data seg' !! index = Some vd' /\
    vcount vd' = length vals + n /\
    child_index vd' = Some base /\
    forall k, k < length children ->
      exists child cvd,
        GetChildIndex seg' base k = Some child /\
        vector_data seg' !! child = Some cvd /\
        vcount cvd = vcount vd'.
Proof.
  intros Hf Hrep Hok Hflat Hfit Hn.
  destruct (copy_spec _ f Hf seg index fp vals source offset n Hrep Hok Hflat Hfit)
    as (seg' & fp' & Hrun & Hrep' & _).
  simpl in Hrep'. destruct Hrep' as (vd' & Hvd' & _ & _ & _ & Hlen & _ & Hcase).
  rewrite length_app, length_map, length_seq in Hlen.
  destruct (child_index vd') as [base|] eqn:Hci; [|destruct Hcase; lia].
  destruct Hcase as (kids & Hkids & Hsame & _).
  exists seg', vd', base. split; [exact Hrun|]. split; [exact Hvd'|].
  split; [lia|]. split; [exact Hci|].
  intros k Hk.
  destruct (kids_of_lookup children seg' base 0 kids Hkids k Hk)
    as (kid & Hkid & Hentry & cvd & Hcvd & Hcount).
  exists (o_index kid), cvd. split; [|split; [exact Hcvd|]].
  - unfold GetChildIndex. simpl in Hentry. rewrite Hentry. reflexivity.
  - rewrite Hcount. exact (proj1 (Forall_lookup _ _) Hsame k kid Hkid).
Qed.

(** ** The columns of a batch in a release build *)

Lemma for_loop_ext {St : Type} (body body' : nat -> St -> option St) :
  forall n lo s,
    (forall i st, lo <= i < lo + n -> body i st = body' i st) ->
    for_loop n lo body s = for_loop n lo body' s.
Proof.
  induction n as [|n IH]; intros lo s Hext; [reflexivity|].
  simpl. rewrite (Hext lo s) by lia. destruct (body' lo s); [|reflexivity].
  apply IH. intros i st Hi. apply Hext. lia.
Qed.

Lemma prepare_input_columns (n_types : nat) (input : DataChunk) :
  prepare_input n_types input
  = prepare_input n_types
      (mkDataChunk (take n_types (chunk_columns input)) (chunk_size input)).
Proof.
  unfold prepare_input, for_range. f_equal. apply for_loop_ext.
  intros i st Hi. simpl. rewrite lookup_take_lt by lia. reflexivity.
Qed.

Lemma prepare_input_short (n_types : nat) (input : DataChunk) :
  length (chunk_columns input) < n_types ->
  prepare_input n_types input = Fault UndefinedBehaviour.
Proof.
  intros Hshort. unfold prepare_input.
  rewrite (for_range_stuck (fun _ => True) _ 0 n_types (length (chunk_columns input)));
    [reflexivity|lia|exact I|intros; exact I|].
  intros st _. rewrite (lookup_ge_None_2 (chunk_columns input)) by lia. reflexivity.
Qed.

(** X29. The columns of a batch in a build without assertions.  A
    release build neither compares the types of a batch with the
    collection's nor looks at any column beyond the number of the
    collection's types: an append goes exactly as the append of the
    batch cut down to its first [types.size()] columns.  And when the
    batch has fewer columns than the collection has types, an append
    that gets past [InitializeAppend] reads [input.data] out of
    bounds. *)
Theorem Append_release_columns (c : ColumnDataCollection) (input : DataChunk) :
  debug = false ->
  Append c input
  = Append c (mkDataChunk (take (length (types c)) (chunk_columns input))
                (chunk_size input)) /\
  (length (chunk_columns input) < length (types c) ->
   forall c1, InitializeAppend c = Ok c1 ->
              Append c input = Fault UndefinedBehaviour).
Proof.
  intros Hd.
  assert (Hassert : forall b, D_ASSERT b = Ok tt).
  { intros b. unfold D_ASSERT. rewrite Hd. reflexivity. }
  assert (Htypes : forall c1, InitializeAppend c = Ok c1 -> types c1 = types c).
  { intros c1 Hinit. unfold InitializeAppend in Hinit. rewrite Hassert in Hinit.
    cbn [mbind result_bind bind] in Hinit.
    destruct (back_segment _) as [segment|]; [|discriminate].
    cbn [mbind result_bind bind] in Hinit. injection Hinit as <-.
    destruct (decide (segments c = [])); reflexivity. }
  split.
  - unfold Append. destruct (InitializeAppend c) as [c1|] eqn:Hinit; [|reflexivity].
    cbn [mbind result_bind bind]. unfold Append_state. rewrite !Hassert.
    cbn [mbind result_bind bind chunk_size].
    rewrite (prepare_input_columns (length (types c1)) input), (Htypes c1 eq_refl).
    reflexivity.
  - intros Hshort c1 Hinit. unfold Append. rewrite Hinit.
    cbn [mbind result_bind bind]. unfold Append_state. rewrite !Hassert.
    cbn [mbind result_bind bind].
    assert (Hback : exists segment, back_segment c1 = Ok segment).
    { unfold InitializeAppend in Hinit. rewrite Hassert in Hinit.
      cbn [mbind result_bind bind] in Hinit.
      destruct (back_segment _) as [segment|] eqn:Hb; [|discriminate].
      cbn [mbind result_bind bind] in Hinit. injection Hinit as <-.
      destruct (back_segment_returns _ _ Hb) as [segs Hsegs].
      unfold back_segment. rewrite (set_back_segment_snoc _ segs _ _ Hsegs), last_snoc.
      eexists. reflexivity. }
    destruct Hback as [segment ->]. cbn [mbind result_bind bind].
    rewrite prepare_input_short by (rewrite (Htypes c1 Hinit); exact Hshort).
    reflexivity.
Qed.

(** ** The shape of the batches of a scan *)

(** X30. The batches of a scan are rectangular.  After any sequence of
    well-formed batches was appended to a new collection, every batch a
    scan hands out has one column per type of the collection, and every
    column holds exactly as many rows as the batch says it has. *)
Theorem scanned_batches_are_rectangular (allocator_p : nat) (ts : list LogicalType)
    (inputs : list DataChunk) (c0 : ColumnDataCollection) :
  new_ColumnDataCollection allocator_p ts = Ok c0 ->
  Forall (input_ok ts) inputs ->
  exists c batches,
    append_all c0 inputs = Ok c /\
    Scan_all c = Ok batches /\
    Forall (fun batch =>
              length (batch_columns batch) = length ts /\
              Forall (fun column => length column = batch_size batch)
                     (batch_columns batch))
           batches.
Proof.
  intros Hnew Hin.
  destruct (new_collection_stores _ _ _ Hnew) as (fs & Hfs & Hst0).
  destruct (append_all_stores ts fs Hfs inputs c0 _ _ Hst0 Hin) as (c & Hrun & Hst).
  destruct (stores_scan _ _ _ _ _ Hst) as (Hscan & _).
  exists c, (all_batches c). split; [exact Hrun|]. split; [exact Hscan|].
  destruct Hst as (_ & _ & _ & _ & [(Hnil & _)|(seg & oss & os & Hsegs & Hok & _)]).
  { unfold all_batches. rewrite Hnil. constructor. }
  unfold all_batches. rewrite Hsegs. simpl. rewrite app_nil_r.
  destruct Hok as (Htypes & Hchunks & _).
  induction Hchunks as [|chunk os' chunks oss' Hchunk _ IH]; [constructor|].
  simpl. constructor; [|exact IH].
  rewrite (read_chunk_ok ts seg chunk os' Htypes Hchunk). simpl.
  destruct Hchunk as (_ & Hcols & Hrows & _).
  split.
  - rewrite length_map. symmetry. exact (Forall2_length _ _ _ Hcols).
  - apply Forall_fmap. exact Hrows.
Qed.

(** ** What the construction of a collection can throw *)

(** X1. The one exception [GetCopyFunction] throws.  A type whose
    physical type has no case in the switch is rejected with the
    internal exception of line 320, at the top of a type and at any
    depth inside structs and lists; and this is the only way in which
    [GetCopyFunction], and with it the constructor of a collection,
    fails, apart from a list type that has no child type to ask for. *)
Theorem GetCopyFunction_throws_unsupported (allocator_p : nat) :
  (forall children,
     GetCopyFunction (mkLogicalType OTHER_PHYSICAL_TYPE children)
     = Fault (InternalException
                "Unsupported type for ColumnDataCollection::GetCopyFunction")) /\
  (forall t e,
     GetCopyFunction t = Fault e ->
     e = InternalException "Unsupported type for ColumnDataCollection::GetCopyFunction" \/
     e = UndefinedBehaviour) /\
  (forall ts e,
     new_ColumnDataCollection allocator_p ts = Fault e ->
     e = InternalException "Unsupported type for ColumnDataCollection::GetCopyFunction" \/
     e = UndefinedBehaviour).
Proof.
  clear STANDARD_VECTOR_SIZE_pos.
  assert (Hone : forall t e,
            GetCopyFunction t = Fault e ->
            e = InternalException
                  "Unsupported type for ColumnDataCollection::GetCopyFunction" \/
            e = UndefinedBehaviour).
  { induction t as [physical children IH] using LogicalType_induction.
    intros e He. destruct physical; simpl in He; try discriminate.
    - (* STRUCT *)
      match type of He with
      | match ?r with _ => _ end = _ => destruct r as [fs|e'] eqn:Heach; [discriminate|]
      end.
      injection He as <-. clear -IH Heach.
      induction IH as [|t ts' Ht _ IHts]; [discriminate|].
      destruct (GetCopyFunction t) as [f|e0] eqn:Hf.
      + match type of Heach with
        | match ?r with _ => _ end = _ => destruct r as [fs|e1] eqn:Hrest; [discriminate|]
        end.
        injection Heach as <-. apply IHts. reflexivity.
      + injection Heach as <-. apply Ht. first [exact Hf|reflexivity].
    - (* LIST *)
      destruct children as [|child rest]; [injection He as <-; right; reflexivity|].
      destruct (GetCopyFunction child) as [f|e0] eqn:Hf; [discriminate|].
      injection He as <-. inversion IH as [|? ? Hc _]; subst. apply Hc. first [exact Hf|reflexivity].
    - injection He as <-. left. reflexivity. }
  split; [reflexivity|]. split; [exact Hone|].
  unfold new_ColumnDataCollection.
  induction ts as [|t ts' IH]; intros e He; simpl in He; [discriminate|].
  destruct (GetCopyFunction t) as [f|e0] eqn:Hf.
  - cbn [mbind result_bind bind] in He. apply IH.
    destruct (get_copy_functions ts') as [fs|e1]; [discriminate|].
    injection He as <-. reflexivity.
  - injection He as <-. exact (Hone t e0 Hf).
Qed.

(** ** The validity bits of a copy *)

(** X2. [ColumnDataCopyValidity] on the validity bits of a vector, for
    rows that fit.  The rows below the target offset are left as they
    are; the copied rows get the validity of their source rows; and the
    rows above are valid: on the first use of a vector (target offset
    0) whatever the fresh memory held is replaced, and on a later use
    they are valid if they were. *)
Theorem ColumnDataCopyValidity_rows (source_data : VectorData) (target : list bool)
    (source_offset target_offset copy_count : nat) :
  length target = STANDARD_VECTOR_SIZE ->
  target_offset + copy_count <= STANDARD_VECTOR_SIZE ->
  (0 < target_offset ->
   forall r, target_offset <= r < STANDARD_VECTOR_SIZE -> target !! r = Some true) ->
  exists mask,
    ColumnDataCopyValidity source_data target source_offset target_offset copy_count
      = Some mask /\
    length mask = STANDARD_VECTOR_SIZE /\
    (forall r, r < target_offset -> mask !! r = target !! r) /\
    (forall i, i < copy_count ->
       mask !! (target_offset + i)
       = Some (source_RowIsValid source_data
                 (get_index source_data (source_offset + i)))) /\
    (forall r, target_offset + copy_count <= r < STANDARD_VECTOR_SIZE ->
       mask !! r = Some true).
Proof.
  intros Hlen Hfit Htail.
  apply ColumnDataCopyValidity_spec; [exact Hlen|exact Hfit|].
  destruct (Nat.eq_dec target_offset 0) as [Hz|Hnz]; [left; exact Hz|].
  right. intros r Hr. apply Htail; lia.
Qed.

End Engine.


(** ** The collection owns what it stores *)

Section Ownership.

(** The memory the input batches live in while they are appended, and
    what that memory holds later, when the collection is scanned and
    the batches may be gone. *)
Variable STANDARD_VECTOR_SIZE : nat.
Variable debug : bool.
Variable input_memory later_memory : nat -> string.
Variable fresh_datum : nat -> nat -> Datum.
Variable fresh_bit : nat -> nat -> bool.
Hypothesis STANDARD_VECTOR_SIZE_pos : 0 < STANDARD_VECTOR_SIZE.

Lemma stored_scalar_memory (physical : PhysicalType) (h : list string) (d : Datum) :
  cell_stable physical h d ->
  stored_scalar later_memory physical h d = stored_scalar input_memory physical h d.
Proof.
  unfold cell_stable, stored_scalar.
  destruct physical; try reflexivity.
  destruct d as [z|[s|[a|b]]|o l]; intros H; try reflexivity. destruct H.
Qed.

Lemma chain_impl (rp rp' : nat -> list nat -> list Value -> Prop) (seg : Segment) :
  (forall i fp vals, rp i fp vals -> rp' i fp vals) ->
  forall slots index,
    chain STANDARD_VECTOR_SIZE rp seg index slots ->
    chain STANDARD_VECTOR_SIZE rp' seg index slots.
Proof.
  intros Himp. induction slots as [|slot rest IH]; intros index H; [exact H|].
  simpl in *. destruct H as (Hi & Hrp & vd & Hvd & Hrest).
  split; [exact Hi|]. split; [apply Himp; exact Hrp|]. exists vd. split; [exact Hvd|].
  destruct rest as [|next rest']; [exact Hrest|].
  destruct Hrest as (Hn & Hl & Hc). split; [exact Hn|]. split; [exact Hl|].
  apply IH. exact Hc.
Qed.

Lemma kids_of_impl (P Q : LogicalType -> nat -> list nat -> list Value -> Prop)
    (seg : Segment) (children : list LogicalType) :
  Forall (fun t => forall i fp vals, P t i fp vals -> Q t i fp vals) children ->
  forall base k kids,
    kids_of (map P children) seg base k kids ->
    kids_of (map Q children) seg base k kids.
Proof.
  induction 1 as [|t ts Ht _ IH]; intros base k kids H.
  - exact H.
  - simpl in *. destruct kids as [|kid kids']; [exact H|].
    destruct H as (Hc & Hrp & Hrest). split; [exact Hc|]. split; [apply Ht; exact Hrp|].
    apply IH. exact Hrest.
Qed.

(** What a well-formed vector holds does not depend on the memory of
    the inputs: no cell that is read points there. *)
Lemma repr_memory (t : LogicalType) :
  forall seg index fp vals,
    repr STANDARD_VECTOR_SIZE input_memory t seg index fp vals ->
    repr STANDARD_VECTOR_SIZE later_memory t seg index fp vals.
Proof.
  induction t as [physical children IH] using LogicalType_induction.
  intros seg index fp vals H. simpl in *.
  destruct H as (vd & Hvd & Hc & Hb & Ht & Hl & Hnd & H).
  exists vd. split; [exact Hvd|]. split; [exact Hc|]. split; [exact Hb|].
  split; [exact Ht|]. split; [exact Hl|]. split; [exact Hnd|].
  destruct physical;
    try (destruct H as (Hv & Hfp & Hvals & Hst);
         split; [exact Hv|]; split; [exact Hfp|]; split; [|exact Hst];
         rewrite Hvals; unfold rows_of; apply map_ext_in; intros r Hr;
         apply in_seq in Hr; destruct (row_is_valid vd r) eqn:Hrow; [|reflexivity];
         symmetry; apply stored_scalar_memory; apply Hst; [lia|exact Hrow]).
  - (* STRUCT *)
    destruct (child_index vd) as [base|]; [|exact H].
    destruct H as (kids & Hkids & Hlen & Hfp & Hvals).
    exists kids. split; [|repeat split; assumption].
    apply (kids_of_impl (fun t => repr STANDARD_VECTOR_SIZE input_memory t seg)
             (fun t => repr STANDARD_VECTOR_SIZE later_memory t seg) seg children);
      [|exact Hkids].
    eapply Forall_impl; [exact IH|]. intros t Ht' i fp' v. apply Ht'.
  - (* LIST *)
    destruct H as (Hv & H). split; [exact Hv|].
    destruct children as [|child_type rest]; [exact H|].
    destruct (child_index vd) as [position|]; [|exact H].
    destruct H as (root & slots & Hroot & Hchain & Hfp & Hvals & Hin).
    exists root, slots. split; [exact Hroot|]. split; [|repeat split; assumption].
    apply Forall_cons in IH as [IHc _].
    exact (chain_impl _ _ seg (fun i fp' v => IHc seg i fp' v) slots root Hchain).
Qed.

Lemma stores_memory (ts : list LogicalType) (fs : list ColumnDataCopyFunction)
    (c : ColumnDataCollection) (col : nat -> list Value) (total : nat) :
  stores STANDARD_VECTOR_SIZE input_memory ts fs c col total ->
  stores STANDARD_VECTOR_SIZE later_memory ts fs c col total.
Proof.
  intros (Hty & Hfs & Hfin & Hcnt & Hcase).
  split; [exact Hty|]. split; [exact Hfs|]. split; [exact Hfin|]. split; [exact Hcnt|].
  destruct Hcase as [Hempty|(seg & oss & os & Hs & (Hsty & Hch & Hnd) & Hrest)];
    [left; exact Hempty|right].
  exists seg, oss, os. split; [exact Hs|]. split; [|exact Hrest].
  split; [exact Hsty|]. split; [|exact Hnd].
  eapply Forall2_impl; [exact Hch|].
  intros chunk os' (Hroots & Hrep & Hlen & Hcap).
  split; [exact Hroots|]. split; [|split; [exact Hlen|exact Hcap]].
  eapply Forall2_impl; [exact Hrep|]. intros t o. apply repr_memory.
Qed.

(** C1. Append/scan round trip.  For every schema the collection
    supports and every sequence of well-formed input batches of that
    schema, appending the batches to a new collection succeeds, and a
    sequential scan of the result then succeeds and hands out, column
    by column and row for row, the values and the nulls of the inputs
    concatenated; the collection's count and the sizes of the scanned
    batches both add up to the number of input rows.  The rows a scan
    returns depend on the concatenation alone, not on how it was split
    over the append calls.  The collection holds the rows itself: the
    scan returns the values the inputs had when they were appended
    whatever the memory of the input batches holds by the time of the
    scan ([later_memory]), so no stored string points into a batch. *)
Theorem append_scan_round_trip (allocator_p : nat) (ts : list LogicalType)
    (inputs : list DataChunk) (c0 : ColumnDataCollection) :
  new_ColumnDataCollection allocator_p ts = Ok c0 ->
  Forall (input_ok ts) inputs ->
  exists c batches,
    append_all STANDARD_VECTOR_SIZE debug input_memory fresh_datum fresh_bit c0 inputs
      = Ok c /\
    Scan_all later_memory c = Ok batches /\
    Count c = list_sum (map chunk_size inputs) /\
    list_sum (map batch_size batches) = Count c /\
    forall j, j < length ts ->
      scanned_column batches j = concat (map (input_rows_of input_memory j) inputs).
Proof.
  intros Hnew Hin.
  destruct (new_collection_stores STANDARD_VECTOR_SIZE input_memory allocator_p ts c0 Hnew)
    as (fs & Hfs & Hst0).
  destruct (append_all_stores STANDARD_VECTOR_SIZE debug input_memory fresh_datum fresh_bit
              STANDARD_VECTOR_SIZE_pos ts fs Hfs inputs c0 _ _ Hst0 Hin)
    as (c & Hrun & Hst).
  destruct (stores_scan STANDARD_VECTOR_SIZE debug later_memory STANDARD_VECTOR_SIZE_pos
              ts fs c _ _ (stores_memory ts fs c _ _ Hst))
    as (Hscan & Hcount & Hsizes & Hcols & _).
  exists c, (all_batches later_memory c). split; [exact Hrun|]. split; [exact Hscan|].
  unfold Count. split; [exact Hcount|]. split; [rewrite Hsizes, Hcount; reflexivity|].
  intros j Hj. rewrite (Hcols j Hj). reflexivity.
Qed.

End Ownership.


(** * Concrete runs *)

(** A build with two rows per chunk, whose allocator hands out zeroed
    memory, and inputs that hold no pointers into input memory. *)
Definition no_memory : nat -> string := fun _ => EmptyString.
Definition zero_datum : nat -> nat -> Datum := fun _ _ => DFixed 0.
Definition zero_bit : nat -> nat -> bool := fun _ _ => false.

Definition INTEGER : LogicalType := mkLogicalType INT32 [].
Definition INTEGER_LIST : LogicalType := mkLogicalType LIST [INTEGER].

(** A flat vector of integers; [nulls] lists the rows that are NULL. *)
Definition integers (xs : list Z) (nulls : list nat) : Vector :=
  mkVector INTEGER (fun r => r) (fun r => DFixed (nth r xs 0%Z))
    (match nulls with
     | [] => None
     | _ => Some (fun r => negb (existsb (Nat.eqb r) nulls))
     end)
    [] 0.

(** A flat vector of lists of integers over the child values [xs]. *)
Definition integer_lists (entries : list (nat * nat)) (nulls : list nat) (xs : list Z)
    : Vector :=
  mkVector INTEGER_LIST (fun r => r)
    (fun r => let '(offset, length) := nth r entries (0, 0) in DListEntry offset length)
    (match nulls with
     | [] => None
     | _ => Some (fun r => negb (existsb (Nat.eqb r) nulls))
     end)
    [integers xs []] (length xs).

(** Two batches of schema (INTEGER, INTEGER[]): three rows
    (1, [10, 11, 12]), (NULL, []), (3, NULL), then one row (4, [13]). *)
Definition round_trip_schema : list LogicalType := [INTEGER; INTEGER_LIST].

Definition round_trip_inputs : list DataChunk :=
  [mkDataChunk [integers [1; 2; 3]%Z [1];
                integer_lists [(0, 3); (3, 0); (0, 0)] [2] [10; 11; 12]%Z] 3;
   mkDataChunk [integers [4]%Z []; integer_lists [(0, 1)] [] [13]%Z] 1].

Definition round_trip_new : ColumnDataCollection :=
  mkCollection round_trip_schema 0 [] false
    [mkCopyFunction (fn_ColumnDataCopy INT32) [];
     mkCopyFunction fn_ColumnDataCopy_list_entry_t
       [mkCopyFunction (fn_ColumnDataCopy INT32) []]] 0.

Lemma round_trip_inputs_ok : Forall (input_ok round_trip_schema) round_trip_inputs.
Proof.
  constructor; [|constructor; [|constructor]].
  - split; [reflexivity|]. constructor; [split; [reflexivity|exact I]|].
    constructor; [|constructor]. split; [reflexivity|]. split; [|split; [reflexivity|exact I]].
    intros r offset length Hr _ He. simpl in Hr, He.
    destruct r as [|[|[|r']]]; try lia; injection He as <- <-; simpl; lia.
  - split; [reflexivity|]. constructor; [split; [reflexivity|exact I]|].
    constructor; [|constructor]. split; [reflexivity|]. split; [|split; [reflexivity|exact I]].
    intros r offset length Hr _ He. simpl in Hr, He.
    destruct r as [|r']; try lia; injection He as <- <-; simpl; lia.
Qed.

Lemma round_trip_run :
  exists c,
    append_all 2 true no_memory zero_datum zero_bit round_trip_new round_trip_inputs
      = Ok c /\
    Scan_all no_memory c
      = Ok [mkBatch [[VFixed 1; VNull];
                     [VList [VFixed 10; VFixed 11; VFixed 12]; VList []]] 2;
            mkBatch [[VFixed 3; VFixed 4]; [VNull; VList [VFixed 13]]] 2].
Proof. eexists. split; vm_compute; reflexivity. Qed.


Lemma chunk_capacity_after_appends_witness :
  exists c,
    append_all 2 true no_memory zero_datum zero_bit round_trip_new round_trip_inputs
      = Ok c /\
    chunk_capacity_invariant 2 c /\
    Verify true c = Ok tt /\
    count c = list_sum (map chunk_size round_trip_inputs) /\
    chunk_counts c
    = [fold_left (append_step 2) (map chunk_size round_trip_inputs) [0]] /\
    forall input, input_ok round_trip_schema input ->
      exists c',
        Append 2 true no_memory zero_datum zero_bit c input = Ok c' /\
        chunk_capacity_invariant 2 c' /\
        count c' = count c + chunk_size input /\
        chunk_counts c'
        = [append_step 2
             (fold_left (append_step 2) (map chunk_size round_trip_inputs) [0])
             (chunk_size input)].
Proof.
  apply (chunk_capacity_after_appends 2 true no_memory zero_datum zero_bit ltac:(lia) 0
           round_trip_schema round_trip_inputs round_trip_new).
  - reflexivity.
  - exact round_trip_inputs_ok.
Defined.

(** The chunks of this run, with two rows to a chunk: the batch of
    three rows fills the first chunk and starts a second, which the
    batch of one row fills. *)
Lemma round_trip_chunk_counts :
  exists c,
    append_all 2 true no_memory zero_datum zero_bit round_trip_new round_trip_inputs
      = Ok c /\
    chunk_counts c = [[2; 2]] /\
    fold_left (append_step 2) (map chunk_size round_trip_inputs) [0] = [2; 2] /\
    append_step 2 [0] 3 = [2; 1].
Proof.
  eexists. split; [vm_compute; reflexivity|].
  split; [vm_compute; reflexivity|]. split; vm_compute; reflexivity.
Qed.

(** ** Appending after a transfer *)

(** A collection of one INTEGER column, and a batch of one row for it. *)
Definition transfer_source : ColumnDataCollection :=
  mkCollection [INTEGER] 0 [] false [mkCopyFunction (fn_ColumnDataCopy INT32) []] 0.

Definition transfer_input : DataChunk := mkDataChunk [integers [7]%Z []] 1.



Lemma append_after_transfer_release_stores :
  exists c,
    Append 2 false no_memory zero_datum zero_bit
      (set_finished_append transfer_source true) transfer_input = Ok c /\
    Count c = 1 /\
    Scan_all no_memory c = Ok [mkBatch [[VFixed 7]] 1].
Proof. eexists. split; [vm_compute; reflexivity|]. split; vm_compute; reflexivity. Qed.


(** ** A parallel scan of two chunks by two workers *)

(** The collection the round-trip run builds: one segment, two
    chunks. *)
Definition two_chunks : ColumnDataCollection :=
  Eval vm_compute in
    match append_all 2 true no_memory zero_datum zero_bit round_trip_new
            round_trip_inputs with
    | Ok c => c
    | Fault _ => round_trip_new
    end.

(** Worker 0 takes the first chunk; while it decodes, worker 1 takes
    the lock and the second chunk; then both find the scan at its
    end. *)
Definition two_workers_schedule : list nat :=
  [0; 0; 0; 1; 1; 1; 0; 1; 0; 0; 0; 1; 1; 1].

Lemma parallel_scan_lock_and_coverage_witness :
  exists st,
    run_schedule no_memory two_chunks two_workers_schedule (InitializeParallelScan 2)
      = Ok st /\
    length (workers st) = 2 /\
    (forall w wk, workers st !! w = Some wk ->
       (lock st = Some w <-> holds_lock (pc wk) = true) /\
       (forall ci si ri, pc wk = Decoding ci si ri -> lock st <> Some w)) /\
    (all_returned_false st ->
       concat (map produced (workers st)) ≡ₚ all_batches no_memory two_chunks) /\
    (all_returned_false st \/
     exists w st1, w < 2 /\ worker_step no_memory two_chunks w st = Ok st1 /\
                   scan_measure no_memory two_chunks st1
                   < scan_measure no_memory two_chunks st) /\
    (forall w, exists st1,
       worker_step no_memory two_chunks w st = Ok st1 /\
       (st1 = st \/ scan_measure no_memory two_chunks st1
                    < scan_measure no_memory two_chunks st)) /\
    scan_measure no_memory two_chunks st
    <= 4 * length (all_batches no_memory two_chunks) + 3 * 2 /\
    exists rest st',
      length rest <= scan_measure no_memory two_chunks st /\
      run_schedule no_memory two_chunks rest st = Ok st' /\
      all_returned_false st' /\
      concat (map produced (workers st')) ≡ₚ all_batches no_memory two_chunks.
Proof.
  apply (parallel_scan_lock_and_coverage no_memory two_chunks 2 two_workers_schedule).
  - constructor; [discriminate|constructor].
  - lia.
Defined.

Lemma two_workers_run :
  exists st,
    run_schedule no_memory two_chunks two_workers_schedule (InitializeParallelScan 2)
      = Ok st /\
    all_returned_false st /\
    map produced (workers st)
      = [[mkBatch [[VFixed 1; VNull];
                   [VList [VFixed 10; VFixed 11; VFixed 12]; VList []]] 2];
         [mkBatch [[VFixed 3; VFixed 4]; [VNull; VList [VFixed 13]]] 2]].
Proof.
  eexists. split; [vm_compute; reflexivity|]. split; [|vm_compute; reflexivity].
  repeat constructor.
Qed.

(** A scan interrupted after four steps has ten steps left by its
    measure; once worker 0 has delivered its chunk it cannot take the
    lock that worker 1 holds, so its next step is a wait, and the scan
    ends when the workers go on. *)
Lemma two_workers_continue :
  exists st st',
    run_schedule no_memory two_chunks [0; 0; 0; 1] (InitializeParallelScan 2) = Ok st /\
    scan_measure no_memory two_chunks (InitializeParallelScan 2) = 14 /\
    scan_measure no_memory two_chunks st = 10 /\
    run_schedule no_memory two_chunks [0; 0] st
    = run_schedule no_memory two_chunks [0] st /\
    run_schedule no_memory two_chunks [1; 1; 0; 1; 0; 0; 0; 1; 1; 1] st = Ok st' /\
    all_returned_false st'.
Proof.
  eexists _, _. split; [vm_compute; reflexivity|].
  split; [vm_compute; reflexivity|]. split; [vm_compute; reflexivity|].
  split; [vm_compute; reflexivity|]. split; [vm_compute; reflexivity|].
  repeat constructor.
Qed.

(** After four steps worker 0 decodes the first chunk while worker 1
    holds the lock. *)
Lemma two_workers_decode_unlocked :
  exists st w0 w1,
    run_schedule no_memory two_chunks [0; 0; 0; 1] (InitializeParallelScan 2) = Ok st /\
    workers st = [w0; w1] /\
    pc w0 = Decoding 0 0 0 /\ pc w1 = HoldingLock /\ lock st = Some 1.
Proof. eexists _, _, _. repeat split; vm_compute; reflexivity. Qed.

(** ** Combine *)

(** X holds the three rows 1, 2, 3 and Y the row 4, both of schema
    (INTEGER). *)
Definition combine_X : ColumnDataCollection :=
  Eval vm_compute in
    match Append 2 true no_memory zero_datum zero_bit transfer_source
            (mkDataChunk [integers [1; 2; 3]%Z []] 3) with
    | Ok c => c
    | Fault _ => transfer_source
    end.

Definition combine_Y : ColumnDataCollection :=
  Eval vm_compute in
    match Append 2 true no_memory zero_datum zero_bit transfer_source
            (mkDataChunk [integers [4]%Z []] 1) with
    | Ok c => c
    | Fault _ => transfer_source
    end.

(** C2. [Combine] at X and Y: X gets the rows of Y after its own, but Y
    still reports its row and still has a segment list of length one,
    now holding a null pointer, which a scan of Y dereferences. *)
Theorem Combine_leaves_other_populated :
  Count combine_X = 3 /\ Count combine_Y = 1 /\
  Scan_all no_memory combine_X
    = Ok [mkBatch [[VFixed 1; VFixed 2]] 2; mkBatch [[VFixed 3]] 1] /\
  Scan_all no_memory combine_Y = Ok [mkBatch [[VFixed 4]] 1] /\
  exists X' Y',
    Combine true combine_X combine_Y = Ok (X', Y') /\
    Count X' = 4 /\
    Scan_all no_memory X'
      = Ok [mkBatch [[VFixed 1; VFixed 2]] 2; mkBatch [[VFixed 3]] 1;
            mkBatch [[VFixed 4]] 1] /\
    Count Y' = 1 /\
    segments Y' = [None] /\
    Scan_all no_memory Y' = Fault UndefinedBehaviour.
Proof.
  split; [reflexivity|]. split; [reflexivity|].
  split; [vm_compute; reflexivity|]. split; [vm_compute; reflexivity|].
  eexists _, _. split; [vm_compute; reflexivity|].
  repeat split; vm_compute; reflexivity.
Qed.


(** ** List offsets over a chain of two child vectors *)

Definition integer_list_copy : ColumnDataCopyFunction :=
  mkCopyFunction fn_ColumnDataCopy_list_entry_t
    [mkCopyFunction (fn_ColumnDataCopy INT32) []].

(** A segment with one fresh list vector, vector 0. *)
Definition fresh_list_segment : Segment :=
  fst (AllocateVector 2 zero_datum zero_bit (new_Segment [INTEGER_LIST]) INTEGER_LIST).

(** The segment after the list [10, 11, 12] went to vector 0: with two
    rows per vector, its child rows take two vectors of the chain. *)
Definition list_segment : Segment :=
  Eval vm_compute in
    match call 2 no_memory zero_datum zero_bit integer_list_copy fresh_list_segment 0
            (Orrify (integer_lists [(0, 3)] [] [10; 11; 12]%Z))
            (integer_lists [(0, 3)] [] [10; 11; 12]%Z) 0 1 with
    | Some seg => seg
    | None => fresh_list_segment
    end.

Lemma integer_lists_ok (entries : list (nat * nat)) (xs : list Z) (n : nat) :
  Forall (fun e => fst e + snd e <= length xs) entries -> length entries = n ->
  vector_ok INTEGER_LIST (fun r => 0 <= r < 0 + n) (integer_lists entries [] xs) /\
  struct_flat INTEGER_LIST (integer_lists entries [] xs).
Proof.
  intros Hall Hlen. split; [|exact I]. split; [reflexivity|]. simpl.
  split; [|split; [reflexivity|exact I]].
  intros r offset length Hr _ He.
  destruct (lookup_lt_is_Some_2 entries r) as [[o l] Hrl]; [lia|].
  rewrite (nth_lookup_Some _ _ _ _ Hrl) in He. injection He as <- <-.
  exact (proj1 (Forall_lookup _ _) Hall r (o, l) Hrl).
Qed.

Lemma list_entries_after_copy_witness :
  exists seg' child,
    call 2 no_memory zero_datum zero_bit integer_list_copy list_segment 0
      (Orrify (integer_lists [(0, 2)] [] [20; 21]%Z))
      (integer_lists [(0, 2)] [] [20; 21]%Z) 0 1 = Some seg' /\
    head (GetEntries (integer_lists [(0, 2)] [] [20; 21]%Z)) = Some child /\
    child_storage no_memory INTEGER seg' 0
      = child_storage no_memory INTEGER list_segment 0
        ++ map (vector_row no_memory child)
             (seq 0 (GetListSize (integer_lists [(0, 2)] [] [20; 21]%Z))) /\
    (forall r, r < length [VList [VFixed 10; VFixed 11; VFixed 12]] ->
       stored_entry seg' 0 r = stored_entry list_segment 0 r) /\
    (forall i, i < 1 ->
       source_valid (Orrify (integer_lists [(0, 2)] [] [20; 21]%Z)) (0 + i) = false ->
       stored_entry seg' 0 (length [VList [VFixed 10; VFixed 11; VFixed 12]] + i) = None) /\
    (forall i o l,
       i < 1 ->
       source_valid (Orrify (integer_lists [(0, 2)] [] [20; 21]%Z)) (0 + i) = true ->
       vector_values (integer_lists [(0, 2)] [] [20; 21]%Z)
         (vector_sel (integer_lists [(0, 2)] [] [20; 21]%Z) (0 + i)) = DListEntry o l ->
       stored_entry seg' 0 (length [VList [VFixed 10; VFixed 11; VFixed 12]] + i)
         = Some (DListEntry
                   (o + list_shift no_memory INTEGER list_segment 0
                          (integer_lists [(0, 2)] [] [20; 21]%Z)) l) /\
       (0 < l ->
        list_shift no_memory INTEGER list_segment 0
          (integer_lists [(0, 2)] [] [20; 21]%Z)
        = length (child_storage no_memory INTEGER list_segment 0)) /\
       o + list_shift no_memory INTEGER list_segment 0
             (integer_lists [(0, 2)] [] [20; 21]%Z) + l
         <= length (child_storage no_memory INTEGER seg' 0) /\
       take l (drop (o + list_shift no_memory INTEGER list_segment 0
                           (integer_lists [(0, 2)] [] [20; 21]%Z))
                 (child_storage no_memory INTEGER seg' 0))
         = map (vector_row no_memory child) (seq o l)).
Proof.
  assert (Hpos : 0 < 2) by lia.
  pose proof (repr_fresh_vector 2 no_memory zero_datum zero_bit Hpos INTEGER_LIST
                integer_list_copy fresh_list_segment 0 eq_refl eq_refl) as Hfresh.
  destruct (integer_lists_ok [(0, 3)] [10; 11; 12]%Z 1) as [Hok1 Hflat1];
    [repeat constructor|reflexivity|].
  destruct (copy_spec 2 no_memory zero_datum zero_bit Hpos INTEGER_LIST integer_list_copy
              eq_refl fresh_list_segment 0 [0] [] _ 0 1 Hfresh Hok1 Hflat1)
    as (seg1 & fp1 & Hrun & Hrep & _); [simpl; lia|].
  vm_compute in Hrun. injection Hrun as <-.
  destruct (integer_lists_ok [(0, 2)] [20; 21]%Z 1) as [Hok2 Hflat2];
    [repeat constructor|reflexivity|].
  exact (list_entries_after_copy 2 no_memory zero_datum zero_bit Hpos INTEGER []
           integer_list_copy list_segment 0 fp1 _
           (integer_lists [(0, 2)] [] [20; 21]%Z) 0 1 eq_refl Hrep Hok2 Hflat2
           ltac:(simpl; lia)).
Defined.

(** The run of the witness: the two child rows go to the second vector
    of the chain and to a third one, and the entry is stored with its
    start offset moved by the three child rows that were there. *)
Lemma list_offsets_run :
  exists seg',
    call 2 no_memory zero_datum zero_bit integer_list_copy list_segment 0
      (Orrify (integer_lists [(0, 2)] [] [20; 21]%Z))
      (integer_lists [(0, 2)] [] [20; 21]%Z) 0 1 = Some seg' /\
    map vcount (vector_data seg') = [2; 2; 2; 1] /\
    child_storage no_memory INTEGER seg' 0
      = [VFixed 10; VFixed 11; VFixed 12; VFixed 20; VFixed 21] /\
    stored_entry seg' 0 0 = Some (DListEntry 0 3) /\
    stored_entry seg' 0 1 = Some (DListEntry 3 2).
Proof. eexists. repeat split; vm_compute; reflexivity. Qed.

(** ** List entries that do not tile their child storage *)

(** A collection of one column of integer lists. *)
Definition list_new : ColumnDataCollection :=
  mkCollection [INTEGER_LIST] 0 [] false [integer_list_copy] 0.

(** One batch of the three lists [10], [11], [12], whose entries tile
    its child vector; with two rows to a chunk the append splits it. *)
Definition split_lists : list DataChunk :=
  [mkDataChunk [integer_lists [(0, 1); (1, 1); (2, 1)] [] [10; 11; 12]%Z] 3].

(** One batch of two rows that share one entry, the list [10, 11]: a
    constant vector. *)
Definition constant_lists : list DataChunk :=
  [mkDataChunk
     [mkVector INTEGER_LIST (fun _ => 0) (fun _ => DListEntry 0 2) None
        [integers [10; 11]%Z []] 2] 2].

Lemma split_lists_ok : Forall (input_ok [INTEGER_LIST]) split_lists.
Proof.
  constructor; [|constructor]. split; [reflexivity|].
  constructor; [|constructor]. split; [reflexivity|]. split; [|split; [reflexivity|exact I]].
  intros r offset length Hr _ He. simpl in Hr, He.
  destruct r as [|[|[|r']]]; try lia; injection He as <- <-; simpl; lia.
Qed.

Lemma constant_lists_ok : Forall (input_ok [INTEGER_LIST]) constant_lists.
Proof.
  constructor; [|constructor]. split; [reflexivity|].
  constructor; [|constructor]. split; [reflexivity|]. split; [|split; [reflexivity|exact I]].
  intros r offset length Hr _ He. simpl in He. injection He as <- <-. simpl. lia.
Qed.

(** The collections the two appends build, and their segments. *)
Definition split_lists_stored : ColumnDataCollection :=
  Eval vm_compute in
    match append_all 2 true no_memory zero_datum zero_bit list_new split_lists with
    | Ok c => c
    | Fault _ => list_new
    end.

Definition split_lists_segment : Segment :=
  Eval vm_compute in
    match segments split_lists_stored with
    | Some seg :: _ => seg
    | _ => new_Segment []
    end.

Definition constant_lists_stored : ColumnDataCollection :=
  Eval vm_compute in
    match append_all 2 true no_memory zero_datum zero_bit list_new constant_lists with
    | Ok c => c
    | Fault _ => list_new
    end.

Definition constant_lists_segment : Segment :=
  Eval vm_compute in
    match segments constant_lists_stored with
    | Some seg :: _ => seg
    | _ => new_Segment []
    end.

(** What the two appends store: each chunk of the split batch holds
    the whole child vector, of which its entries name a part; the two
    rows of the constant vector name the same two child rows. *)
Lemma list_runs_stored :
  (exists c seg,
     append_all 2 true no_memory zero_datum zero_bit list_new split_lists = Ok c /\
     segments c = [Some seg] /\
     map chunk_vector_data (chunk_data seg) = [[0]; [3]] /\
     child_storage no_memory INTEGER seg 0 = [VFixed 10; VFixed 11; VFixed 12] /\
     map (stored_entry seg 0) [0; 1] = [Some (DListEntry 0 1); Some (DListEntry 1 1)] /\
     child_storage no_memory INTEGER seg 3 = [VFixed 10; VFixed 11; VFixed 12] /\
     map (stored_entry seg 3) [0] = [Some (DListEntry 2 1)] /\
     Scan_all no_memory c
       = Ok [mkBatch [[VList [VFixed 10]; VList [VFixed 11]]] 2;
             mkBatch [[VList [VFixed 12]]] 1]) /\
  (exists c seg,
     append_all 2 true no_memory zero_datum zero_bit list_new constant_lists = Ok c /\
     segments c = [Some seg] /\
     child_storage no_memory INTEGER seg 0 = [VFixed 10; VFixed 11] /\
     map (stored_entry seg 0) [0; 1] = [Some (DListEntry 0 2); Some (DListEntry 0 2)]).
Proof.
  split; eexists _, _; (split; [vm_compute; reflexivity|]);
    (split; [reflexivity|]); repeat split; vm_compute; reflexivity.
Qed.

(** C5 as worded fails.  The entries of a batch that is split over two
    chunks leave a gap in both chunks, although they tile the child
    vector of the batch: the list copy appends the whole child vector
    for each part of the rows.  The entries of a constant list vector
    are stored as they are, and overlap. *)
Lemma list_integrity_claim_fails :
  ~ list_integrity_claim 2 true no_memory zero_datum zero_bit list_new split_lists /\
  ~ list_integrity_claim 2 true no_memory zero_datum zero_bit list_new constant_lists.
Proof.
  split; intros H.
  - assert (Hrun : append_all 2 true no_memory zero_datum zero_bit list_new split_lists
                   = Ok split_lists_stored) by (vm_compute; reflexivity).
    destruct (H split_lists_ok split_lists_stored 0 split_lists_segment 0
                (mkChunkMetaData [0] 2) 0 INTEGER [] 0 Hrun eq_refl eq_refl eq_refl eq_refl)
      as (_ & _ & Hgap).
    destruct (Hgap 2) as (r & o & l & Hr & He & Hp); [vm_compute; lia|].
    vm_compute in Hr.
    destruct r as [|[|r]]; [| |lia]; vm_compute in He; injection He as <- <-; lia.
  - assert (Hrun : append_all 2 true no_memory zero_datum zero_bit list_new constant_lists
                   = Ok constant_lists_stored) by (vm_compute; reflexivity).
    destruct (H constant_lists_ok constant_lists_stored 0 constant_lists_segment 0
                (mkChunkMetaData [0] 2) 0 INTEGER [] 0 Hrun eq_refl eq_refl eq_refl eq_refl)
      as (_ & Hover & _).
    apply (Hover 0 1 0 2 0 2 0); try (vm_compute; reflexivity); try (vm_compute; lia); lia.
Qed.

(** An empty list appended with an empty child vector is stored with
    offset 0 after three child rows: the entry of length 0 names the
    same empty run wherever it starts. *)
Lemma list_offsets_unshifted :
  exists seg',
    call 2 no_memory zero_datum zero_bit integer_list_copy list_segment 0
      (Orrify (integer_lists [(0, 0)] [] [])) (integer_lists [(0, 0)] [] []) 0 1
      = Some seg' /\
    length (child_storage no_memory INTEGER list_segment 0) = 3 /\
    stored_entry seg' 0 1 = Some (DListEntry 0 0).
Proof. eexists. repeat split; vm_compute; reflexivity. Qed.


(** ** Further concrete runs *)

(** X and Y after [X.Combine(Y)]. *)
Definition combined_X : ColumnDataCollection :=
  Eval vm_compute in
    match Combine true combine_X combine_Y with
    | Ok (x, _) => x
    | Fault _ => combine_X
    end.

Definition combined_Y : ColumnDataCollection :=
  Eval vm_compute in
    match Combine true combine_X combine_Y with
    | Ok (_, y) => y
    | Fault _ => combine_Y
    end.

Lemma Combine_merges_segments_witness :
  Count combined_X = Count combine_X + Count combine_Y /\
  segments combined_X = segments combine_X ++ segments combine_Y /\
  types combined_X = types combine_X /\
  Scan_all no_memory combined_X
    = Ok (all_batches no_memory combine_X ++ all_batches no_memory combine_Y).
Proof.
  apply (Combine_merges_segments true no_memory combine_X combine_Y combined_X combined_Y).
  - vm_compute. reflexivity.
  - constructor; [discriminate|constructor].
  - constructor; [discriminate|constructor].
Defined.

Lemma Combine_rejects_mismatch_witness :
  Combine true transfer_source round_trip_new
  = Fault (InternalException
             "Attempting to combine ColumnDataCollections with mismatching types").
Proof.
  apply (Combine_rejects_mismatch true transfer_source round_trip_new).
  discriminate.
Defined.

(** The rows of the round-trip run in one batch of four rows. *)
Definition round_trip_unsplit : list DataChunk :=
  [mkDataChunk [integers [1; 2; 3; 4]%Z [1];
                integer_lists [(0, 3); (3, 0); (0, 0); (3, 1)] [2] [10; 11; 12; 13]%Z] 4].

Lemma round_trip_unsplit_ok : Forall (input_ok round_trip_schema) round_trip_unsplit.
Proof.
  constructor; [|constructor].
  split; [reflexivity|]. constructor; [split; [reflexivity|exact I]|].
  constructor; [|constructor]. split; [reflexivity|]. split; [|split; [reflexivity|exact I]].
  intros r offset length Hr _ He. simpl in Hr, He.
  destruct r as [|[|[|[|r']]]]; try lia; injection He as <- <-; simpl; lia.
Qed.

Lemma scan_independent_of_split_witness :
  exists c1 c2 batches1 batches2,
    append_all 2 true no_memory zero_datum zero_bit round_trip_new round_trip_inputs
      = Ok c1 /\
    append_all 2 true no_memory zero_datum zero_bit round_trip_new round_trip_unsplit
      = Ok c2 /\
    Scan_all no_memory c1 = Ok batches1 /\ Scan_all no_memory c2 = Ok batches2 /\
    forall j, j < length round_trip_schema ->
      scanned_column batches1 j = scanned_column batches2 j.
Proof.
  apply (scan_independent_of_split 2 true no_memory zero_datum zero_bit ltac:(lia) 0
           round_trip_schema round_trip_inputs round_trip_unsplit round_trip_new).
  - reflexivity.
  - exact round_trip_inputs_ok.
  - exact round_trip_unsplit_ok.
  - intros j Hj. destruct j as [|[|j']]; [vm_compute; reflexivity|vm_compute; reflexivity|].
    simpl in Hj. lia.
Defined.

(** ** Concrete runs for the properties of copies and appends *)

(** [list_segment] after one more list, [20, 21], went to vector 0. *)
Definition list_segment_after : Segment :=
  Eval vm_compute in
    match call 2 no_memory zero_datum zero_bit integer_list_copy list_segment 0
            (Orrify (integer_lists [(0, 2)] [] [20; 21]%Z))
            (integer_lists [(0, 2)] [] [20; 21]%Z) 0 1 with
    | Some seg => seg
    | None => list_segment
    end.

Lemma copy_functions_only_grow_witness :
  chunk_data list_segment_after = chunk_data list_segment /\
  segment_count list_segment_after = segment_count list_segment /\
  segment_types list_segment_after = segment_types list_segment /\
  (exists k, heap list_segment_after = heap list_segment ++ k) /\
  length (child_indices list_segment) <= length (child_indices list_segment_after) /\
  (forall j x, child_indices list_segment !! j = Some (Some x) ->
               child_indices list_segment_after !! j = Some (Some x)) /\
  (forall i vd, vector_data list_segment !! i = Some vd ->
     exists vd', vector_data list_segment_after !! i = Some vd' /\
       vcount vd <= vcount vd' /\
       (forall r, r < vcount vd ->
          values vd' !! r = values vd !! r /\ bits vd' !! r = bits vd !! r) /\
       (forall x, child_index vd = Some x -> child_index vd' = Some x) /\
       (forall x, next_data vd = Some x -> next_data vd' = Some x)).
Proof.
  apply (copy_functions_only_grow 2 no_memory zero_datum zero_bit ltac:(lia)
           integer_list_copy list_segment 0
           (Orrify (integer_lists [(0, 2)] [] [20; 21]%Z))
           (integer_lists [(0, 2)] [] [20; 21]%Z) 0 1 list_segment_after).
  vm_compute. reflexivity.
Defined.

Lemma appended_rows_fill_chunks_witness :
  exists c batches,
    append_all 2 true no_memory zero_datum zero_bit round_trip_new round_trip_inputs
      = Ok c /\
    Scan_all no_memory c = Ok batches /\
    length batches = Nat.max 1 ((Count c + 2 - 1) / 2) /\
    (forall i b, batches !! i = Some b -> S i < length batches -> batch_size b = 2) /\
    (forall b, last batches = Some b ->
               batch_size b = Count c - 2 * (length batches - 1)).
Proof.
  apply (appended_rows_fill_chunks 2 true no_memory zero_datum zero_bit ltac:(lia) 0
           round_trip_schema round_trip_inputs round_trip_new).
  - reflexivity.
  - exact round_trip_inputs_ok.
  - discriminate.
Defined.

(** Five rows in batches of three and two go to chunks of two, two and
    one rows; an empty batch alone leaves one empty chunk. *)
Lemma appended_rows_fill_chunks_run :
  (exists c,
     append_all 2 true no_memory zero_datum zero_bit transfer_source
       [mkDataChunk [integers [1; 2; 3]%Z []] 3; mkDataChunk [integers [4; 5]%Z []] 2]
       = Ok c /\
     Scan_all no_memory c
       = Ok [mkBatch [[VFixed 1; VFixed 2]] 2; mkBatch [[VFixed 3; VFixed 4]] 2;
             mkBatch [[VFixed 5]] 1]) /\
  (exists c,
     append_all 2 true no_memory zero_datum zero_bit transfer_source
       [mkDataChunk [integers [] []] 0] = Ok c /\
     Count c = 0 /\ Scan_all no_memory c = Ok [mkBatch [[]] 0]).
Proof.
  split; eexists.
  - split; vm_compute; reflexivity.
  - split; [vm_compute; reflexivity|]. split; vm_compute; reflexivity.
Qed.

(** A batch of one list column offered to a collection of one integer
    column. *)
Lemma Append_rejects_other_types_witness :
  Append 2 true no_memory zero_datum zero_bit transfer_source
    (mkDataChunk [integer_lists [(0, 1)] [] [13]%Z] 1)
  = Fault AssertionFailed.
Proof.
  apply (Append_rejects_other_types 2 true no_memory zero_datum zero_bit transfer_source
           (mkDataChunk [integer_lists [(0, 1)] [] [13]%Z] 1)).
  - reflexivity.
  - reflexivity.
  - constructor.
  - intros H. vm_compute in H. discriminate H.
Defined.

Lemma Reset_restores_new_witness : Reset two_chunks = round_trip_new.
Proof.
  apply (Reset_restores_new 2 true no_memory zero_datum zero_bit 0 round_trip_schema
           round_trip_inputs round_trip_new two_chunks).
  - reflexivity.
  - vm_compute. reflexivity.
Defined.

Lemma Reset_does_not_reopen_witness :
  finished_append (Reset (set_finished_append transfer_source true)) = true /\
  Append 2 true no_memory zero_datum zero_bit
    (Reset (set_finished_append transfer_source true)) transfer_input
  = Fault AssertionFailed.
Proof.
  apply (Reset_does_not_reopen 2 true no_memory zero_datum zero_bit
           transfer_source transfer_source (set_finished_append transfer_source true)
           transfer_input).
  - reflexivity.
  - reflexivity.
Defined.

(** The scan of [two_chunks] after both chunks were handed out. *)
Lemma scan_end_is_final_witness :
  Scan no_memory two_chunks (mkScanState 0 1 4 4) = Ok (mkScanState 0 1 4 4, None) /\
  (forall input c',
     segments two_chunks <> [] ->
     Append 2 true no_memory zero_datum zero_bit two_chunks input = Ok c' ->
     Scan no_memory c' (mkScanState 0 1 4 4) = Ok (mkScanState 0 1 4 4, None)).
Proof.
  apply (scan_end_is_final 2 true no_memory zero_datum zero_bit ltac:(lia) two_chunks
           (mkScanState 2 0 2 4) (mkScanState 0 1 4 4)).
  vm_compute. reflexivity.
Defined.

(** One more row appended after the scan ended: a new scan sees it, the
    ended scan does not. *)
Lemma scan_end_is_final_run :
  exists c',
    Append 2 true no_memory zero_datum zero_bit two_chunks
      (mkDataChunk [integers [5]%Z []; integer_lists [(0, 0)] [] []] 1) = Ok c' /\
    Count c' = 5 /\
    Scan no_memory c' (mkScanState 0 1 4 4) = Ok (mkScanState 0 1 4 4, None) /\
    exists batches, Scan_all no_memory c' = Ok batches /\ length batches = 3.
Proof.
  eexists. split; [vm_compute; reflexivity|]. split; [vm_compute; reflexivity|].
  split; [vm_compute; reflexivity|]. eexists. split; vm_compute; reflexivity.
Qed.

Lemma Scan_row_indices_witness :
  exists state1 batch,
    Scan no_memory two_chunks (mkScanState 1 0 0 2) = Ok (state1, Some batch) /\
    current_row_index state1 = next_row_index (mkScanState 1 0 0 2) /\
    next_row_index state1 = next_row_index (mkScanState 1 0 0 2) + batch_size batch.
Proof.
  eexists _, _. split; [vm_compute; reflexivity|].
  apply (Scan_row_indices no_memory two_chunks (mkScanState 1 0 0 2)).
  vm_compute. reflexivity.
Defined.

Lemma Combine_keeps_verified_witness :
  exists this' other',
    Combine true combine_X combine_Y = Ok (this', other') /\
    Verify true this' = Ok tt /\
    Count this' = Count combine_X + Count combine_Y /\
    (true = true -> segments combine_Y <> [] ->
     Verify true other' = Fault UndefinedBehaviour).
Proof.
  apply (Combine_keeps_verified 2 true ltac:(lia) combine_X combine_Y).
  - reflexivity.
  - vm_compute. reflexivity.
  - vm_compute. reflexivity.
Defined.

(** A segment with one fresh string vector, and a source of two
    strings, the first one inlined, the second one out of line in the
    memory of the input. *)
Definition VARCHAR_TYPE : LogicalType := mkLogicalType VARCHAR [].

Definition text_memory : nat -> string := fun _ => "characters out of line".

Definition fresh_string_segment : Segment :=
  fst (AllocateVector 2 zero_datum zero_bit (new_Segment [VARCHAR_TYPE]) VARCHAR_TYPE).

Definition two_strings : VectorData :=
  mkVectorData (fun r => r)
    (fun r => DString (if Nat.eqb r 0 then Inlined "ab" else Pointer (InInput 7)))
    None.

Lemma copied_strings_are_owned_witness :
  exists seg' vd',
    TemplatedColumnDataCopy 2 (StringValueCopy text_memory) fresh_string_segment 0 two_strings 0 2
      = Some seg' /\
    vector_data seg' !! 0 = Some vd' /\
    vcount vd' = vcount (mkVectorMetaData [DFixed 0; DFixed 0] [false; false] 0 None None) + 2 /\
    forall i s,
      i < 2 -> source_valid two_strings (0 + i) = true ->
      vd_data two_strings (get_index two_strings (0 + i)) = DString s ->
      exists s',
        values vd' !! (vcount (mkVectorMetaData [DFixed 0; DFixed 0] [false; false] 0 None None) + i)
          = Some (DString s') /\
        GetString text_memory (heap seg') s' = input_string text_memory s /\
        match s' with
        | Inlined _ => s' = s
        | Pointer (InHeap blob) => IsInlined s = false /\ blob < length (heap seg')
        | Pointer (InInput _) => False
        end.
Proof.
  apply (copied_strings_are_owned 2 text_memory ltac:(lia) fresh_string_segment 0
           (mkVectorMetaData [DFixed 0; DFixed 0] [false; false] 0 None None)
           two_strings 0 2).
  - reflexivity.
  - reflexivity.
  - reflexivity.
  - simpl. lia.
  - left. reflexivity.
Defined.

Lemma copied_strings_run :
  exists seg' vd',
    TemplatedColumnDataCopy 2 (StringValueCopy text_memory) fresh_string_segment 0 two_strings 0 2
      = Some seg' /\
    vector_data seg' !! 0 = Some vd' /\
    values vd' = [DString (Inlined "ab"); DString (Pointer (InHeap 0))] /\
    heap seg' = ["characters out of line"].
Proof.
  eexists _, _. split; [vm_compute; reflexivity|]. split; [reflexivity|].
  split; reflexivity.
Qed.

(** Two integers, the second one NULL, copied to a fresh vector whose
    memory held zeroes. *)
Definition fresh_integer_segment : Segment :=
  fst (AllocateVector 2 zero_datum zero_bit (new_Segment [INTEGER]) INTEGER).

Definition integer_segment_after : Segment :=
  Eval vm_compute in
    match TemplatedColumnDataCopy 2 StandardValueCopy fresh_integer_segment 0
            (Orrify (integers [8; 9]%Z [1])) 0 2 with
    | Some seg => seg
    | None => fresh_integer_segment
    end.

Lemma templated_copy_skips_nulls_witness :
  exists vd',
    vector_data integer_segment_after !! 0 = Some vd' /\
    vcount vd' = vcount (mkVectorMetaData [DFixed 0; DFixed 0] [false; false] 0 None None) + 2 /\
    length (values vd')
      = length (values (mkVectorMetaData [DFixed 0; DFixed 0] [false; false] 0 None None)) /\
    (forall i, i < 2 ->
       source_valid (Orrify (integers [8; 9]%Z [1])) (0 + i) = false ->
       values vd' !! (vcount (mkVectorMetaData [DFixed 0; DFixed 0] [false; false] 0 None None) + i)
       = values (mkVectorMetaData [DFixed 0; DFixed 0] [false; false] 0 None None)
           !! (vcount (mkVectorMetaData [DFixed 0; DFixed 0] [false; false] 0 None None) + i)) /\
    (forall r, vcount (mkVectorMetaData [DFixed 0; DFixed 0] [false; false] 0 None None) + 2 <= r ->
       values vd' !! r
       = values (mkVectorMetaData [DFixed 0; DFixed 0] [false; false] 0 None None) !! r) /\
    ((forall i, i < 2 -> source_valid (Orrify (integers [8; 9]%Z [1])) (0 + i) = false) ->
     heap integer_segment_after = heap fresh_integer_segment).
Proof.
  apply (templated_copy_skips_nulls 2 ltac:(lia) StandardValueCopy fresh_integer_segment
           integer_segment_after 0
           (mkVectorMetaData [DFixed 0; DFixed 0] [false; false] 0 None None)
           (Orrify (integers [8; 9]%Z [1])) 0 2).
  - reflexivity.
  - vm_compute. reflexivity.
Defined.

Lemma templated_copy_skips_nulls_run :
  vector_data integer_segment_after
  = [mkVectorMetaData [DFixed 8; DFixed 0] [true; false] 2 None None].
Proof. reflexivity. Qed.

(** [round_trip_new] prepared for an append. *)
Definition round_trip_prepared : ColumnDataCollection :=
  Eval vm_compute in
    match InitializeAppend 2 true zero_datum zero_bit round_trip_new with
    | Ok c => c
    | Fault _ => round_trip_new
    end.

Lemma InitializeAppend_prepares_once_witness :
  InitializeAppend 2 true zero_datum zero_bit round_trip_prepared = Ok round_trip_prepared /\
  Count round_trip_prepared = Count round_trip_new /\
  types round_trip_prepared = types round_trip_new /\
  exists segs segment,
    segments round_trip_prepared = segs ++ [Some segment] /\ chunk_data segment <> [].
Proof.
  apply (InitializeAppend_prepares_once 2 true zero_datum zero_bit ltac:(lia)
           round_trip_new round_trip_prepared).
  vm_compute. reflexivity.
Defined.

Lemma constructor_from_takes_no_rows_witness :
  exists c other',
    new_ColumnDataCollection_from two_chunks = Ok (c, other') /\
    types c = types two_chunks /\ allocator c = allocator two_chunks /\
    Count c = 0 /\ Scan_all no_memory c = Ok [] /\ finished_append c = false /\
    Count other' = Count two_chunks /\
    Scan_all no_memory other' = Scan_all no_memory two_chunks /\
    finished_append other' = true.
Proof.
  apply (constructor_from_takes_no_rows no_memory two_chunks
           (copy_functions round_trip_new)).
  vm_compute. reflexivity.
Defined.

(** [two_chunks] after one more row, (5, []), was appended. *)
Definition two_chunks_more : ColumnDataCollection :=
  Eval vm_compute in
    match Append 2 true no_memory zero_datum zero_bit two_chunks
            (mkDataChunk [integers [5]%Z []; integer_lists [(0, 0)] [] []] 1) with
    | Ok c => c
    | Fault _ => two_chunks
    end.

Lemma Append_only_adds_witness :
  Count two_chunks_more
  = Count two_chunks
    + chunk_size (mkDataChunk [integers [5]%Z []; integer_lists [(0, 0)] [] []] 1) /\
  exists segs segment',
    segments two_chunks_more = segs ++ [Some segment'] /\
    ((segments two_chunks = [] /\ segs = []) \/
     exists segment,
       segments two_chunks = segs ++ [Some segment] /\
       segment_types segment' = segment_types segment /\
       segment_count segment'
       = segment_count segment
         + chunk_size (mkDataChunk [integers [5]%Z []; integer_lists [(0, 0)] [] []] 1) /\
       (exists k, heap segment' = heap segment ++ k) /\
       (forall i vd, vector_data segment !! i = Some vd ->
          exists vd', vector_data segment' !! i = Some vd' /\
            vcount vd <= vcount vd' /\
            forall r, r < vcount vd ->
              values vd' !! r = values vd !! r /\ bits vd' !! r = bits vd !! r) /\
       (forall i chunk, chunk_data segment !! i = Some chunk ->
          exists chunk', chunk_data segment' !! i = Some chunk' /\
            chunk_vector_data chunk' = chunk_vector_data chunk /\
            chunk_count chunk <= chunk_count chunk')).
Proof.
  apply (Append_only_adds 2 true no_memory zero_datum zero_bit ltac:(lia) two_chunks
           two_chunks_more
           (mkDataChunk [integers [5]%Z []; integer_lists [(0, 0)] [] []] 1)).
  vm_compute. reflexivity.
Defined.

(** A struct of two integers, a fresh struct vector, and a source of
    two rows, (1, 3) and NULL. *)
Definition INTEGER_PAIR : LogicalType := mkLogicalType STRUCT [INTEGER; INTEGER].

Definition integer_pair_copy : ColumnDataCopyFunction :=
  mkCopyFunction fn_ColumnDataCopyStruct
    [mkCopyFunction (fn_ColumnDataCopy INT32) [];
     mkCopyFunction (fn_ColumnDataCopy INT32) []].

Definition fresh_pair_segment : Segment :=
  fst (AllocateVector 2 zero_datum zero_bit (new_Segment [INTEGER_PAIR]) INTEGER_PAIR).

Definition integer_pairs : Vector :=
  mkVector INTEGER_PAIR (fun r => r) (fun _ => DFixed 0)
    (Some (fun r => negb (Nat.eqb r 1)))
    [integers [1; 2]%Z []; integers [3; 4]%Z []] 0.

Lemma struct_children_keep_step_witness :
  exists seg' vd' base,
    call 2 no_memory zero_datum zero_bit integer_pair_copy fresh_pair_segment 0
      (Orrify integer_pairs) integer_pairs 0 2 = Some seg' /\
    vector_data seg' !! 0 = Some vd' /\
    vcount vd' = length (@nil Value) + 2 /\
    child_index vd' = Some base /\
    forall k, k < length [INTEGER; INTEGER] ->
      exists child cvd,
        GetChildIndex seg' base k = Some child /\
        vector_data seg' !! child = Some cvd /\
        vcount cvd = vcount vd'.
Proof.
  assert (Hpos : 0 < 2) by lia.
  pose proof (repr_fresh_vector 2 no_memory zero_datum zero_bit Hpos INTEGER_PAIR
                integer_pair_copy fresh_pair_segment 0 eq_refl eq_refl) as Hfresh.
  apply (struct_children_keep_step 2 no_memory zero_datum zero_bit Hpos
           [INTEGER; INTEGER] integer_pair_copy fresh_pair_segment 0 [0] []
           integer_pairs 0 2).
  - reflexivity.
  - exact Hfresh.
  - split; [reflexivity|]. simpl.
    split; [split; [reflexivity|exact I]|]. split; [split; [reflexivity|exact I]|exact I].
  - split; [reflexivity|]. simpl. split; [exact I|]. split; exact I.
  - simpl. lia.
  - lia.
Defined.

Lemma struct_children_keep_step_run :
  exists seg',
    call 2 no_memory zero_datum zero_bit integer_pair_copy fresh_pair_segment 0
      (Orrify integer_pairs) integer_pairs 0 2 = Some seg' /\
    map vcount (vector_data seg') = [2; 2; 2] /\
    ReadVector no_memory INTEGER_PAIR seg' 0 = [VStruct [VFixed 1; VFixed 3]; VNull].
Proof. eexists. split; [vm_compute; reflexivity|]. split; vm_compute; reflexivity. Qed.

(** A batch of two integer columns and a batch without columns, offered
    to a collection of one integer column in a release build. *)
Lemma Append_release_columns_witness :
  Append 2 false no_memory zero_datum zero_bit transfer_source
    (mkDataChunk [integers [7]%Z []; integers [8]%Z []] 1)
  = Append 2 false no_memory zero_datum zero_bit transfer_source
      (mkDataChunk (take (length (types transfer_source))
                      (chunk_columns (mkDataChunk [integers [7]%Z []; integers [8]%Z []] 1)))
         (chunk_size (mkDataChunk [integers [7]%Z []; integers [8]%Z []] 1))) /\
  (length (chunk_columns (mkDataChunk [integers [7]%Z []; integers [8]%Z []] 1))
   < length (types transfer_source) ->
   forall c1, InitializeAppend 2 false zero_datum zero_bit transfer_source = Ok c1 ->
              Append 2 false no_memory zero_datum zero_bit transfer_source
                (mkDataChunk [integers [7]%Z []; integers [8]%Z []] 1)
              = Fault UndefinedBehaviour).
Proof.
  apply (Append_release_columns 2 false no_memory zero_datum zero_bit ltac:(lia)
           transfer_source (mkDataChunk [integers [7]%Z []; integers [8]%Z []] 1)).
  reflexivity.
Defined.

Lemma Append_release_columns_run :
  (exists c,
     Append 2 false no_memory zero_datum zero_bit transfer_source
       (mkDataChunk [integers [7]%Z []; integers [8]%Z []] 1) = Ok c /\
     Scan_all no_memory c = Ok [mkBatch [[VFixed 7]] 1]) /\
  Append 2 false no_memory zero_datum zero_bit transfer_source (mkDataChunk [] 1)
  = Fault UndefinedBehaviour /\
  Append 2 true no_memory zero_datum zero_bit transfer_source
    (mkDataChunk [integers [7]%Z []; integers [8]%Z []] 1)
  = Fault AssertionFailed.
Proof.
  split; [eexists; split; vm_compute; reflexivity|]. split; vm_compute; reflexivity.
Qed.

Lemma scanned_batches_are_rectangular_witness :
  exists c batches,
    append_all 2 true no_memory zero_datum zero_bit round_trip_new round_trip_inputs
      = Ok c /\
    Scan_all no_memory c = Ok batches /\
    Forall (fun batch =>
              length (batch_columns batch) = length round_trip_schema /\
              Forall (fun column => length column = batch_size batch)
                     (batch_columns batch))
           batches.
Proof.
  apply (scanned_batches_are_rectangular 2 true no_memory zero_datum zero_bit ltac:(lia) 0
           round_trip_schema round_trip_inputs round_trip_new).
  - reflexivity.
  - exact round_trip_inputs_ok.
Defined.

(** The validity bits of two rows, the second one NULL, written over
    bits that were both clear. *)
Lemma ColumnDataCopyValidity_rows_witness :
  exists mask,
    ColumnDataCopyValidity 2 (Orrify (integers [8; 9]%Z [1])) [false; false] 0 0 2
      = Some mask /\
    length mask = 2 /\
    (forall r, r < 0 -> mask !! r = [false; false] !! r) /\
    (forall i, i < 2 ->
       mask !! (0 + i)
       = Some (source_RowIsValid (Orrify (integers [8; 9]%Z [1]))
                 (get_index (Orrify (integers [8; 9]%Z [1])) (0 + i)))) /\
    (forall r, 0 + 2 <= r < 2 -> mask !! r = Some true).
Proof.
  apply (ColumnDataCopyValidity_rows 2 ltac:(lia) (Orrify (integers [8; 9]%Z [1]))
           [false; false] 0 0 2).
  - reflexivity.
  - lia.
  - intros H. lia.
Defined.

Lemma ColumnDataCopyValidity_run :
  ColumnDataCopyValidity 2 (Orrify (integers [8; 9]%Z [1])) [false; false] 0 0 2
  = Some [true; false].
Proof. vm_compute. reflexivity. Qed.

(** ** A round trip of strings *)

(** The memory of the input batches while they are appended, and the
    same memory once the batches have been released and written over. *)
Definition batch_memory : nat -> string :=
  fun a => if Nat.eqb a 7 then "a string kept out of line"
           else "another string out of line".

Definition released_memory : nat -> string := fun _ => "written over".

(** A flat vector of strings. *)
Definition strings (cells : list string_t) (nulls : list nat) : Vector :=
  mkVector VARCHAR_TYPE (fun r => r)
    (fun r => DString (nth r cells (Inlined EmptyString)))
    (match nulls with
     | [] => None
     | _ => Some (fun r => negb (existsb (Nat.eqb r) nulls))
     end)
    [] 0.

(** Two batches of schema (VARCHAR, INTEGER): three rows, the second
    with a string out of line at address 7 and the third NULL, then
    one row with a string out of line at address 8. *)
Definition owned_schema : list LogicalType := [VARCHAR_TYPE; INTEGER].

Definition owned_inputs : list DataChunk :=
  [mkDataChunk [strings [Inlined "ab"; Pointer (InInput 7); Inlined "no row"] [2];
                integers [1; 2; 3]%Z []] 3;
   mkDataChunk [strings [Pointer (InInput 8)] []; integers [4]%Z []] 1].

Definition owned_new : ColumnDataCollection :=
  mkCollection owned_schema 0 [] false
    [mkCopyFunction fn_ColumnDataCopy_string_t [];
     mkCopyFunction (fn_ColumnDataCopy INT32) []] 0.

Lemma owned_inputs_ok : Forall (input_ok owned_schema) owned_inputs.
Proof.
  constructor; [|constructor; [|constructor]].
  - split; [reflexivity|]. constructor; [split; [reflexivity|exact I]|].
    constructor; [split; [reflexivity|exact I]|constructor].
  - split; [reflexivity|]. constructor; [split; [reflexivity|exact I]|].
    constructor; [split; [reflexivity|exact I]|constructor].
Qed.

Lemma append_scan_round_trip_witness :
  exists c batches,
    append_all 2 true batch_memory zero_datum zero_bit owned_new owned_inputs = Ok c /\
    Scan_all released_memory c = Ok batches /\
    Count c = list_sum (map chunk_size owned_inputs) /\
    list_sum (map batch_size batches) = Count c /\
    forall j, j < length owned_schema ->
      scanned_column batches j
      = concat (map (input_rows_of batch_memory j) owned_inputs).
Proof.
  apply (append_scan_round_trip 2 true batch_memory released_memory zero_datum zero_bit
           ltac:(lia) 0 owned_schema owned_inputs owned_new).
  - reflexivity.
  - exact owned_inputs_ok.
Defined.

(** The run: the scan finds the strings in the heap of the segment,
    where the appends copied them, although the memory of the batches
    holds other characters by then. *)
Lemma owned_strings_run :
  exists c seg,
    append_all 2 true batch_memory zero_datum zero_bit owned_new owned_inputs = Ok c /\
    segments c = [Some seg] /\
    heap seg = ["a string kept out of line"; "another string out of line"] /\
    Scan_all released_memory c
      = Ok [mkBatch [[VString "ab"; VString "a string kept out of line"];
                     [VFixed 1; VFixed 2]] 2;
            mkBatch [[VNull; VString "another string out of line"];
                     [VFixed 3; VFixed 4]] 2].
Proof.
  eexists _, _. split; [vm_compute; reflexivity|]. split; [reflexivity|].
  split; vm_compute; reflexivity.
Qed.

End Collection.
